(** * MazeForge: the maze-formation engine of [mazeforge/Maze.py] and the
    entry point of [mazeforge/maze_generator.py], embedded in Rocq.

    The Python class [Maze] keeps a nested list of mutable tile objects and
    draws from the process-wide generator [rnd].  Here a tile object is
    addressed by its place in [mazeList] (a reference is a pair [(x, y)],
    meaning [mazeList[y][x]]), every field is read through the grid, and the
    generator is an explicit tape of draws that each operation consumes. *)

From Stdlib Require Import ZArith Lia.
From stdpp Require Import base numbers list strings gmap relations.

Set Default Proof Using "Type".

(** ** Python values used by the class *)

(** The compass strings ["N"], ["S"], ["W"], ["E"] stored in [connectTo]. *)
Inductive Dir := North | South | West | East.

Global Instance Dir_eq_dec : EqDecision Dir.
Proof. solve_decision. Defined.

(** The [Literal["N", "S", "E", "W", "Any"]] of [start_wall] and [end_wall];
    [get_wall_tiles] treats every other string like ["Any"]. *)
Inductive WallSel := WallN | WallS | WallW | WallE | WallAny.

Global Instance WallSel_eq_dec : EqDecision WallSel.
Proof. solve_decision. Defined.

Definition opposite (d : Dir) : Dir :=
  match d with North => South | South => North | West => East | East => West end.

Definition directions : list Dir := [North; South; West; East].

(** Exceptions that the modelled code can raise. [MazeError] carries the
    errorcode of [__MazeError]. *)
Inductive exn :=
  | MazeError (errorcode : nat)
  | IndexError
  | ValueError
  | KeyError.

Global Instance exn_eq_dec : EqDecision exn.
Proof. solve_decision. Defined.

(** A position [(x, y)]: column, then row. *)
Abbreviation pos := (nat * nat)%type.

(** ** The random stream

    [rnd] is a tape of draws. [rnd.choice] and the index draws of
    [rnd.shuffle] reduce one draw modulo the number of alternatives;
    [rnd.random()] yields the numerator [k] of the double [k / 2^53]. *)
Abbreviation Rng := (nat → nat).

Definition rng_next (g : Rng) : Rng := λ i, g (S i).

Definition rnd_randbelow (g : Rng) (n : nat) : nat * Rng := (g 0 mod n, rng_next g).

(** [rnd.choice(seq)]: [None] stands for the IndexError on an empty sequence. *)
Definition rnd_choice {A} (g : Rng) (l : list A) : option A * Rng :=
  match l with
  | [] => (None, g)
  | _ :: _ => let '(i, g') := rnd_randbelow g (length l) in (l !! i, g')
  end.

(** [x[i], x[j] = x[j], x[i]] *)
Definition swap {A} (x : list A) (i j : nat) : list A :=
  match x !! i, x !! j with
  | Some a, Some b => <[i:=b]> (<[j:=a]> x)
  | _, _ => x
  end.

(** [for i in reversed(range(1, len(x))): j = randbelow(i+1); swap] *)
Fixpoint shuffle_from {A} (i : nat) (g : Rng) (x : list A) : list A * Rng :=
  match i with
  | 0 => (x, g)
  | S i' =>
      let '(j, g') := rnd_randbelow g (i + 1) in
      shuffle_from i' g' (swap x i j)
  end.

Definition rnd_shuffle {A} (g : Rng) (x : list A) : list A * Rng :=
  shuffle_from (length x - 1) g x.

Definition two53 : Z := 2 ^ 53.

(** [rnd.random()], as the numerator over [2^53]. *)
Definition rnd_random (g : Rng) : Z * Rng :=
  ((Z.of_nat (g 0%nat) mod two53)%Z, rng_next g).

(** [n / 2^sh] rounded to the nearest integer, a tie going to the even
    one: the rounding of a double operation. *)
Definition round_half_even (n sh : Z) : Z :=
  let q := (n / 2 ^ sh)%Z in
  let r := (n mod 2 ^ sh)%Z in
  let half := (2 ^ (sh - 1))%Z in
  if (r <? half)%Z then q
  else if (half <? r)%Z then (q + 1)%Z
  else if Z.even q then q else (q + 1)%Z.

(** [rnd.random() * 100] for the draw [k / 2^53], as the numerator over
    [2^53] of the double the multiplication returns: the product itself
    while it fits the 53 bits of a double, and else the product rounded to
    53 significant bits. *)
Definition random_times_100 (k : Z) : Z :=
  let n := (100 * k)%Z in
  if (n <? two53)%Z then n
  else
    let sh := (Z.log2 n - 52)%Z in
    (round_half_even n sh * 2 ^ sh)%Z.

(** The comparisons [rnd.random() * 100 <= w] and [rnd.random() * 100 < w]
    with an integer weight [w]; Python compares a double with an integer
    exactly. *)
Definition draw_le (k w : Z) : bool := (random_times_100 k <=? w * two53)%Z.
Definition draw_lt (k w : Z) : bool := (random_times_100 k <? w * two53)%Z.

(** ** Tiles and the maze *)

Record MazeTile := mkTile {
  workedOn : bool;
  wall : bool;
  coordinateX : nat;
  coordinateY : nat;
  connectTo : list Dir;
  is_entry : option bool;
}.

(** [__MazeTile(X, Y, isWall)] *)
Definition newTile (X Y : nat) (isWall : bool) : MazeTile :=
  mkTile false isWall X Y [] None.

Abbreviation grid := (list (list MazeTile)).

Record Maze := mkMaze {
  sizeX : nat;
  sizeY : nat;
  name : string;
  mazeIsDone : bool;
  mazeList : grid;
  start_wall : WallSel;
  end_wall : WallSel;
}.

Definition set_mazeList (m : Maze) (ml : grid) : Maze :=
  mkMaze (sizeX m) (sizeY m) (name m) (mazeIsDone m) ml (start_wall m) (end_wall m).

Definition set_done (m : Maze) : Maze :=
  mkMaze (sizeX m) (sizeY m) (name m) true (mazeList m) (start_wall m) (end_wall m).

Definition set_walls (m : Maze) (sw ew : WallSel) : Maze :=
  mkMaze (sizeX m) (sizeY m) (name m) (mazeIsDone m) (mazeList m) sw ew.

(** What a call leaves behind: a value and the state, an exception and the
    state at the raise, or no answer within the given number of loop
    iterations. *)
Inductive outcome (A : Type) :=
  | Returns (a : A) (m : Maze) (g : Rng)
  | Raises (e : exn) (m : Maze) (g : Rng)
  | OutOfFuel.
Arguments Returns {A} a m g.
Arguments Raises {A} e m g.
Arguments OutOfFuel {A}.

(** The same for the loops, which work on the grid and the tape. *)
Inductive loop_res (A : Type) :=
  | Done (a : A) (ml : grid) (g : Rng)
  | Fail (e : exn) (ml : grid) (g : Rng)
  | Fuel.
Arguments Done {A} a ml g.
Arguments Fail {A} e ml g.
Arguments Fuel {A}.

(** [Maze.__init__(dimensionX, dimensionY, mazeName)], without the seeding
    of [rnd] that ends it (see [Maze_new]). *)
Definition Maze_init (dimensionX dimensionY : Z) (mazeName : string) : exn + Maze :=
  if ((dimensionX <? 1) || (dimensionY <? 1))%Z then inl (MazeError 1)
  else inr (mkMaze (Z.to_nat dimensionX) (Z.to_nat dimensionY) mazeName false [] WallAny WallAny).

(** [self.mazeList[Y][X]]; [None] is Python's IndexError. *)
Definition tile_at (ml : grid) (p : pos) : option MazeTile :=
  ml !! p.2 ≫= λ row, row !! p.1.

Definition has_tile (ml : grid) (p : pos) : bool :=
  match tile_at ml p with Some _ => true | None => false end.

(** Reading a field through a reference. References are only made from
    tiles found in the grid; the default covers the rest of [pos]. *)
Definition deref (ml : grid) (p : pos) : MazeTile :=
  default (newTile p.1 p.2 false) (tile_at ml p).

(** Writing a field through a reference. *)
Definition upd_tile (f : MazeTile → MazeTile) (p : pos) (ml : grid) : grid :=
  alter (alter f p.1) p.2 ml.

Definition mark_workedOn (t : MazeTile) : MazeTile :=
  mkTile true (wall t) (coordinateX t) (coordinateY t) (connectTo t) (is_entry t).

(** [tile.connectTo.append(d)] *)
Definition append_conn (d : Dir) (t : MazeTile) : MazeTile :=
  mkTile (workedOn t) (wall t) (coordinateX t) (coordinateY t) (connectTo t ++ [d]) (is_entry t).

Definition mark_entry (b : bool) (t : MazeTile) : MazeTile :=
  mkTile (workedOn t) (wall t) (coordinateX t) (coordinateY t) (connectTo t) (Some b).

(** [__getNextTiles(X, Y)]: north, south, west, east, skipping what is not
    in the grid (the caught IndexError) and what a negative index would
    wrap to. *)
Definition getNextTiles (ml : grid) (X Y : nat) : list pos :=
  (if Y =? 0 then [] else if has_tile ml (X, Y - 1) then [(X, Y - 1)] else []) ++
  (if has_tile ml (X, Y + 1) then [(X, Y + 1)] else []) ++
  (if X =? 0 then [] else if has_tile ml (X - 1, Y) then [(X - 1, Y)] else []) ++
  (if has_tile ml (X + 1, Y) then [(X + 1, Y)] else []).

(** [__connectTiles(tileA, tileB)] *)
Definition connectTiles (ml : grid) (tileA tileB : pos) : grid :=
  let X1 := coordinateX (deref ml tileA) in
  let Y1 := coordinateY (deref ml tileA) in
  let X2 := coordinateX (deref ml tileB) in
  let Y2 := coordinateY (deref ml tileB) in
  if X1 =? X2 then
    if Y1 <? Y2 then
      upd_tile (append_conn North) tileB (upd_tile (append_conn South) tileA ml)
    else if Y2 <? Y1 then
      upd_tile (append_conn South) tileB (upd_tile (append_conn North) tileA ml)
    else ml
  else
    if X1 <? X2 then
      upd_tile (append_conn West) tileB (upd_tile (append_conn East) tileA ml)
    else
      upd_tile (append_conn East) tileB (upd_tile (append_conn West) tileA ml).

(** [__connectTilesWithString(tile, direction)]; the direction is one of the
    four compass strings at every call site. *)
Definition connectTilesWithString (ml : grid) (tile : pos) (direction : Dir) : exn + grid :=
  let X := coordinateX (deref ml tile) in
  let Y := coordinateY (deref ml tile) in
  match direction with
  | North =>
      if Y =? 0 then inl (MazeError 2)
      else if has_tile ml (X, Y - 1)
      then inr (upd_tile (append_conn North) tile (upd_tile (append_conn South) (X, Y - 1) ml))
      else inl (MazeError 2)
  | South =>
      if has_tile ml (X, Y + 1)
      then inr (upd_tile (append_conn South) tile (upd_tile (append_conn North) (X, Y + 1) ml))
      else inl (MazeError 2)
  | West =>
      if X =? 0 then inl (MazeError 2)
      else if has_tile ml (X - 1, Y)
      then inr (upd_tile (append_conn West) tile (upd_tile (append_conn East) (X - 1, Y) ml))
      else inl (MazeError 2)
  | East =>
      if has_tile ml (X + 1, Y)
      then inr (upd_tile (append_conn East) tile (upd_tile (append_conn West) (X + 1, Y) ml))
      else inl (MazeError 2)
  end.

(** ** Boundary placement: [__makeEntryandExit] *)

(** Python's [range(a, b)]. *)
Definition range (a b : nat) : list nat := seq a (b - a).

Definition get_wall_tiles (sx sy : nat) (w : WallSel) : list pos :=
  match w with
  | WallN => (λ x, (x, 0)) <$> range 0 sx
  | WallS => (λ x, (x, sy - 1)) <$> range 0 sx
  | WallW => (λ y, (0, y)) <$> range 0 sy
  | WallE => (λ y, (sx - 1, y)) <$> range 0 sy
  | WallAny =>
      ((λ x, (x, 0)) <$> range 0 sx) ++
      ((λ x, (x, sy - 1)) <$> range 0 sx) ++
      ((λ y, (0, y)) <$> range 1 (sy - 1)) ++
      ((λ y, (sx - 1, y)) <$> range 1 (sy - 1))
  end.

(** The [while True] loop drawing the two positions. *)
Fixpoint pick_entry_exit (fuel : nat) (start_tiles end_tiles : list pos) (ml : grid) (g : Rng)
  : loop_res (pos * pos) :=
  match fuel with
  | 0 => Fuel
  | S fuel' =>
      match rnd_choice g start_tiles with
      | (None, g1) => Fail IndexError ml g1
      | (Some entry_pos, g1) =>
          match rnd_choice g1 end_tiles with
          | (None, g2) => Fail IndexError ml g2
          | (Some exit_pos, g2) =>
              if decide (entry_pos ≠ exit_pos) then Done (entry_pos, exit_pos) ml g2
              else pick_entry_exit fuel' start_tiles end_tiles ml g2
          end
      end
  end.

(** The [if/elif] chain that picks the outward wall of a chosen position:
    the two row tests come before the column test. *)
Definition outward_dir (sy : nat) (p : pos) : Dir :=
  if p.2 =? 0 then North
  else if p.2 =? sy - 1 then South
  else if p.1 =? 0 then West
  else East.

Definition makeEntryandExit (fuel : nat) (sx sy : nat) (sw ew : WallSel) (ml : grid) (g : Rng)
  : loop_res unit :=
  let start_tiles := get_wall_tiles sx sy sw in
  let end_tiles := get_wall_tiles sx sy ew in
  match pick_entry_exit fuel start_tiles end_tiles ml g with
  | Fuel => Fuel
  | Fail e ml' g' => Fail e ml' g'
  | Done (entry_pos, exit_pos) _ g' =>
      if has_tile ml entry_pos then
        let ml1 := upd_tile (mark_entry true) entry_pos ml in
        let ml2 := upd_tile (append_conn (outward_dir sy entry_pos)) entry_pos ml1 in
        if has_tile ml2 exit_pos then
          let ml3 := upd_tile (mark_entry false) exit_pos ml2 in
          let ml4 := upd_tile (append_conn (outward_dir sy exit_pos)) exit_pos ml3 in
          Done () ml4 g'
        else Fail IndexError ml2 g'
      else Fail IndexError ml g'
  end.

(** ** Formation *)

(** The nested loop filling [mazeList] with fresh floor tiles. *)
Definition new_rows (sx sy : nat) : grid :=
  (λ indexY, (λ indexX, newTile indexX indexY false) <$> range 0 sx) <$> range 0 sy.

(** [rnd.choice(rnd.choice(self.mazeList))], as a reference. *)
Definition choose_start (ml : grid) (g : Rng) : option pos * Rng :=
  match ml with
  | [] => (None, g)
  | _ :: _ =>
      let '(iy, g1) := rnd_randbelow g (length ml) in
      match ml !! iy with
      | None | Some [] => (None, g1)
      | Some row =>
          let '(ix, g2) := rnd_randbelow g1 (length row) in (Some (ix, iy), g2)
      end
  end.

(** [frontList.pop()] *)
Definition list_pop {A} (l : list A) : option (list A * A) :=
  match last l with
  | Some x => Some (removelast l, x)
  | None => None
  end.

(** A [while cond: body] loop over local state [St], the grid and the
    stream; an exception in the body ends it. *)
Fixpoint while_loop {St} (fuel : nat) (cond : St → bool)
    (body : St → grid → Rng → loop_res St) (st : St) (ml : grid) (g : Rng) : loop_res St :=
  if cond st then
    match fuel with
    | 0 => Fuel
    | S fuel' =>
        match body st ml g with
        | Done st' ml' g' => while_loop fuel' cond body st' ml' g'
        | Fail e ml' g' => Fail e ml' g'
        | Fuel => Fuel
        end
    end
  else Done st ml g.

(** [len(l) > 0] *)
Definition nonempty {A} (l : list A) : bool :=
  match l with [] => false | _ :: _ => true end.

(** Body of the [while len(frontList) > 0] loop of [makeMazeSimple]. *)
Definition simple_body (frontList : list pos) (ml : grid) (g : Rng) : loop_res (list pos) :=
  let '(shuffled, g1) := rnd_shuffle g frontList in
  match list_pop shuffled with
  | None => Fail IndexError ml g1
  | Some (frontList1, nextTile) =>
      let ml1 := upd_tile mark_workedOn nextTile ml in
      let tempList :=
        getNextTiles ml1 (coordinateX (deref ml1 nextTile))
                         (coordinateY (deref ml1 nextTile)) in
      let workedOnList := filter (λ t, workedOn (deref ml1 t) = true) tempList in
      let newFrontTiles :=
        filter (λ t, workedOn (deref ml1 t) = false ∧ t ∉ frontList1) tempList in
      let frontList2 := frontList1 ++ newFrontTiles in
      if bool_decide (1 < length workedOnList) then
        match rnd_choice g1 workedOnList with
        | (None, g2) => Fail IndexError ml1 g2
        | (Some connectTile, g2) =>
            Done frontList2 (connectTiles ml1 nextTile connectTile) g2
        end
      else
        match workedOnList !! 0 with
        | None => Fail IndexError ml1 g1
        | Some connectTile =>
            Done frontList2 (connectTiles ml1 nextTile connectTile) g1
        end
  end.

(** The lines that end both formation functions: boundary placement, then
    [self.__mazeIsDone = True; return True]. [grown] is what the loop before
    them left. *)
Definition finish_formation (fuel : nat) (m : Maze) (grown : loop_res (list pos))
  : outcome bool :=
  match grown with
  | Fuel => OutOfFuel
  | Fail e ml g => Raises e (set_mazeList m ml) g
  | Done _ ml g =>
      match makeEntryandExit fuel (sizeX m) (sizeY m) (start_wall m) (end_wall m) ml g with
      | Fuel => OutOfFuel
      | Fail e ml' g' => Raises e (set_mazeList m ml') g'
      | Done _ ml' g' => Returns true (set_done (set_mazeList m ml')) g'
      end
  end.

(** [makeMazeSimple] from the filling of [mazeList] to the end of the
    frontier loop. *)
Definition simple_growth (fuel : nat) (m : Maze) (g : Rng) : loop_res (list pos) :=
  let ml := mazeList m ++ new_rows (sizeX m) (sizeY m) in
  match choose_start ml g with
  | (None, g1) => Fail IndexError ml g1
  | (Some startingtile, g1) =>
      let ml1 := upd_tile mark_workedOn startingtile ml in
      let frontList :=
        getNextTiles ml1 (coordinateX (deref ml1 startingtile))
                         (coordinateY (deref ml1 startingtile)) in
      while_loop fuel nonempty simple_body frontList ml1 g1
  end.

Definition makeMazeSimple (fuel : nat) (m : Maze) (g : Rng) : outcome bool :=
  if mazeIsDone m then Raises (MazeError 3) m g
  else finish_formation fuel m (simple_growth fuel m g).

(** [choiceList.remove(x)]: the first occurrence; [None] is the ValueError. *)
Fixpoint list_remove_first {A} `{EqDecision A} (x : A) (l : list A) : option (list A) :=
  match l with
  | [] => None
  | y :: l' => if decide (x = y) then Some l' else cons y <$> list_remove_first x l'
  end.

(** Body of the [while len(choiceList) > 0] loop of [makeMazeGrowTree]. *)
Definition growtree_body (weightHigh weightLow : Z) (choiceList : list pos) (ml : grid)
    (g : Rng) : loop_res (list pos) :=
  let '(choice_, g1) := rnd_random g in
  let '(picked, g2) :=
    if draw_le choice_ weightLow then (last choiceList, g1)
    else if negb (draw_le choice_ weightLow) && draw_lt choice_ weightHigh
    then rnd_choice g1 choiceList
    else (head choiceList, g1) in
  match picked with
  | None => Fail IndexError ml g2
  | Some nextTile =>
      let neiList :=
        filter (λ t, workedOn (deref ml t) = false)
          (getNextTiles ml (coordinateX (deref ml nextTile))
                           (coordinateY (deref ml nextTile))) in
      if nonempty neiList then
        match rnd_choice g2 neiList with
        | (None, g3) => Fail IndexError ml g3
        | (Some connectTile, g3) =>
            let ml1 := upd_tile mark_workedOn connectTile ml in
            Done (choiceList ++ [connectTile]) (connectTiles ml1 nextTile connectTile) g3
        end
      else
        match list_remove_first nextTile choiceList with
        | None => Fail ValueError ml g2
        | Some choiceList' => Done choiceList' ml g2
        end
  end.

(** [makeMazeGrowTree] from the filling of [mazeList] to the end of the
    loop over the list of available tiles. *)
Definition growtree_growth (fuel : nat) (weightHigh weightLow : Z) (m : Maze) (g : Rng)
  : loop_res (list pos) :=
  let ml := mazeList m ++ new_rows (sizeX m) (sizeY m) in
  match choose_start ml g with
  | (None, g1) => Fail IndexError ml g1
  | (Some startingtile, g1) =>
      let ml1 := upd_tile mark_workedOn startingtile ml in
      while_loop fuel nonempty (growtree_body weightHigh weightLow) [startingtile] ml1 g1
  end.

Definition makeMazeGrowTree (fuel : nat) (weightHigh weightLow : Z) (m : Maze) (g : Rng)
  : outcome bool :=
  if mazeIsDone m then Raises (MazeError 3) m g
  else finish_formation fuel m (growtree_growth fuel weightHigh weightLow m g).

(** The two formation calls. *)
Inductive Algorithm := Simple | GrowTree (weightHigh weightLow : Z).

Definition formation (a : Algorithm) (fuel : nat) (m : Maze) (g : Rng) : outcome bool :=
  match a with
  | Simple => makeMazeSimple fuel m g
  | GrowTree weightHigh weightLow => makeMazeGrowTree fuel weightHigh weightLow m g
  end.

Definition growth (a : Algorithm) (fuel : nat) (m : Maze) (g : Rng) : loop_res (list pos) :=
  match a with
  | Simple => simple_growth fuel m g
  | GrowTree weightHigh weightLow => growtree_growth fuel weightHigh weightLow m g
  end.

(** ** Braiding: [makeMazeBraided] *)

(** The [for direction in directionList: try ... break / except] loop:
    errorcode 2 is swallowed, every other error is raised again. *)
Fixpoint try_directions (ml : grid) (tile : pos) (directionList : list Dir) : exn + grid :=
  match directionList with
  | [] => inr ml
  | direction :: rest =>
      match connectTilesWithString ml tile direction with
      | inr ml' => inr ml'
      | inl (MazeError 2) => try_directions ml tile rest
      | inl e => inl e
      end
  end.

(** The references visited by [for row in self.mazeList: for tile in row]. *)
Fixpoint grid_refs_from (y : nat) (ml : grid) : list pos :=
  match ml with
  | [] => []
  | row :: rest => ((λ x, (x, y)) <$> seq 0 (length row)) ++ grid_refs_from (S y) rest
  end.

Definition grid_refs (ml : grid) : list pos := grid_refs_from 0 ml.

(** Body of the loop for [weightBraid == -1]. *)
Definition braid_deadend_step (ml : grid) (tile : pos) (g : Rng) : loop_res unit :=
  match connectTo (deref ml tile) with
  | [c] =>
      match list_remove_first c directions with
      | None => Fail ValueError ml g
      | Some directionList =>
          let '(shuffled, g1) := rnd_shuffle g directionList in
          match try_directions ml tile shuffled with
          | inl e => Fail e ml g1
          | inr ml' => Done () ml' g1
          end
      end
  | _ => Done () ml g
  end.

(** [for connection in tile.connectTo: directionList.remove(connection)] *)
Fixpoint remove_each (connections : list Dir) (directionList : list Dir) : option (list Dir) :=
  match connections with
  | [] => Some directionList
  | c :: rest =>
      match list_remove_first c directionList with
      | None => None
      | Some directionList' => remove_each rest directionList'
      end
  end.

(** Body of the loop for [0 <= weightBraid <= 100]. *)
Definition braid_loop_step (weightBraid : Z) (ml : grid) (tile : pos) (g : Rng)
  : loop_res unit :=
  let '(r, g1) := rnd_random g in
  if draw_le r weightBraid then
    match remove_each (connectTo (deref ml tile)) directions with
    | None => Fail ValueError ml g1
    | Some directionList =>
        let '(shuffled, g2) := rnd_shuffle g1 directionList in
        match try_directions ml tile shuffled with
        | inl e => Fail e ml g2
        | inr ml' => Done () ml' g2
        end
    end
  else Done () ml g1.

Fixpoint for_tiles (body : grid → pos → Rng → loop_res unit) (tiles : list pos)
    (ml : grid) (g : Rng) : loop_res unit :=
  match tiles with
  | [] => Done () ml g
  | tile :: rest =>
      match body ml tile g with
      | Done _ ml' g' => for_tiles body rest ml' g'
      | r => r
      end
  end.

Definition makeMazeBraided (weightBraid : Z) (m : Maze) (g : Rng) : outcome bool :=
  if negb (mazeIsDone m) then Raises (MazeError 4) m g
  else if ((weightBraid <? -1) || (100 <? weightBraid))%Z then Raises (MazeError 1) m g
  else
    let body :=
      if (weightBraid =? -1)%Z then braid_deadend_step else braid_loop_step weightBraid in
    match for_tiles body (grid_refs (mazeList m)) (mazeList m) g with
    | Done _ ml g' => Returns true (set_mazeList m ml) g'
    | Fail e ml g' => Raises e (set_mazeList m ml) g'
    | Fuel => OutOfFuel
    end.

(** ** Export projection *)

(** The cell symbols ['#'], [' '], ['S'], ['E']. *)
Inductive Sym := SymWall | SymPath | SymStart | SymEnd.

Global Instance Sym_eq_dec : EqDecision Sym.
Proof. solve_decision. Defined.

(** A cell of the distance grid: a symbol or a number. *)
Inductive DCell := DSym (s : Sym) | DNum (n : Z).

Global Instance DCell_eq_dec : EqDecision DCell.
Proof. solve_decision. Defined.

(** A cell of the detailed grid: the dictionary with the keys
    ['index'], ['distance'], ['N'], ['S'], ['W'], ['E']. *)
Record Info := mkInfo {
  index : Sym;
  distance : option Z;
  info_N : bool;
  info_S : bool;
  info_W : bool;
  info_E : bool;
}.

(** [gr[y][x] = v]; [None] is the IndexError of an index out of range. *)
Definition set_cell {A} (gr : list (list A)) (p : pos) (v : A) : option (list (list A)) :=
  match gr !! p.2 with
  | Some row =>
      if decide (p.1 < length row) then Some (<[p.2 := <[p.1 := v]> row]> gr) else None
  | None => None
  end.

Definition get_cell {A} (gr : list (list A)) (p : pos) : option A :=
  gr !! p.2 ≫= λ row, row !! p.1.

(** [[[v for _ in range(cols)] for _ in range(rows)]] *)
Definition fresh_grid {A} (rows cols : nat) (v : A) : list (list A) :=
  replicate rows (replicate cols v).

(** The display cell of a tile: [((X + 1) * 2 - 1, (Y + 1) * 2 - 1)]. *)
Definition display_of (t : MazeTile) : pos :=
  ((coordinateX t + 1) * 2 - 1, (coordinateY t + 1) * 2 - 1).

(** [(x + dx, y + dy)] for the offset of a direction; both coordinates of a
    display cell of a tile are at least one, so nothing goes below zero. *)
Definition toward (d : Dir) (p : pos) : pos :=
  match d with
  | North => (p.1, p.2 - 1)
  | South => (p.1, p.2 + 1)
  | West => (p.1 - 1, p.2)
  | East => (p.1 + 1, p.2)
  end.

(** [y + dy == 0 or y + dy == len(maze_list)-1 or x + dx == 0 or
    x + dx == len(maze_list[0])-1] *)
Definition on_border {A} (gr : list (list A)) (p : pos) : bool :=
  (p.2 =? 0) || (p.2 =? length gr - 1) || (p.1 =? 0) ||
  (p.1 =? length (default [] (gr !! 0)) - 1).

(** The loop over [tile.connectTo] in [get_maze_as_list] and, with the
    start position it records, in [get_maze_with_distances]. *)
Fixpoint mark_conns (t : MazeTile) (ds : list Dir) (gr : list (list Sym))
    (start_pos : option pos) : option (list (list Sym) * option pos) :=
  match ds with
  | [] => Some (gr, start_pos)
  | d :: rest =>
      let c := toward d (display_of t) in
      match is_entry t with
      | Some true =>
          if on_border gr c
          then gr' ← set_cell gr c SymStart; mark_conns t rest gr' (Some c)
          else gr' ← set_cell gr c SymPath; mark_conns t rest gr' start_pos
      | Some false =>
          if on_border gr c
          then gr' ← set_cell gr c SymEnd; mark_conns t rest gr' start_pos
          else gr' ← set_cell gr c SymPath; mark_conns t rest gr' start_pos
      | None => gr' ← set_cell gr c SymPath; mark_conns t rest gr' start_pos
      end
  end.

Fixpoint mark_tiles (tiles : list MazeTile) (gr : list (list Sym))
    (start_pos : option pos) : option (list (list Sym) * option pos) :=
  match tiles with
  | [] => Some (gr, start_pos)
  | t :: rest =>
      gr1 ← set_cell gr (display_of t) SymPath;
      '(gr2, sp) ← mark_conns t (connectTo t) gr1 start_pos;
      mark_tiles rest gr2 sp
  end.

(** The result of an exporter; exporters leave the maze and the stream as
    they are. *)
Inductive exported (A : Type) :=
  | Exported (a : A)
  | ExportError (e : exn)
  | ExportOutOfFuel.
Arguments Exported {A} a.
Arguments ExportError {A} e.
Arguments ExportOutOfFuel {A}.

Definition get_maze_as_list (m : Maze) : exported (list (list Sym)) :=
  if negb (mazeIsDone m) then ExportError (MazeError 4)
  else
    let maze_list := fresh_grid (sizeY m * 2 + 1) (sizeX m * 2 + 1) SymWall in
    match mark_tiles (concat (mazeList m)) maze_list None with
    | None => ExportError IndexError
    | Some (maze_list', _) => Exported maze_list'
    end.

(** The four display neighbours in the order of the offsets
    [(-1, 0), (1, 0), (0, -1), (0, 1)] (row offset first); [None] where the
    test [0 <= new_x] or [0 <= new_y] fails. *)
Definition display_neighbours (p : pos) : list (option pos) :=
  [ (if p.2 =? 0 then None else Some (p.1, p.2 - 1));
    Some (p.1, p.2 + 1);
    (if p.1 =? 0 then None else Some (p.1 - 1, p.2));
    Some (p.1 + 1, p.2) ].

(** The [for y_offset, x_offset in ...] loop of a breadth-first step:
    [open] is the test on the cell of a candidate that lies in the grid,
    [dist1] the distance it is queued with. *)
Fixpoint bfs_visit (open : pos → bool) (cands : list (option pos)) (dist1 : Z)
    (queue : list (pos * Z)) (visited : gset pos) : list (pos * Z) * gset pos :=
  match cands with
  | [] => (queue, visited)
  | None :: rest => bfs_visit open rest dist1 queue visited
  | Some c :: rest =>
      if open c && bool_decide (c ∉ visited)
      then bfs_visit open rest dist1 (queue ++ [(c, dist1)]) ({[c]} ∪ visited)
      else bfs_visit open rest dist1 queue visited
  end.

(** The [while queue] loop of [get_maze_with_distances]. *)
Fixpoint bfs_distances (fuel : nat) (open : pos → bool) (queue : list (pos * Z))
    (visited : gset pos) (distances : gmap pos Z) : option (gmap pos Z) :=
  match queue with
  | [] => Some distances
  | (p, dist) :: queue' =>
      match fuel with
      | 0 => None
      | S fuel' =>
          let '(queue'', visited') :=
            bfs_visit open (display_neighbours p) (dist + 1)%Z queue' visited in
          bfs_distances fuel' open queue'' visited' (<[p := dist]> distances)
      end
  end.

(** [0 <= x < len(gr[0]) and 0 <= y < len(gr) and test(gr[y][x])]; the
    grids are rectangular, so the cell is there once the bounds hold. *)
Definition in_grid_and {A} (gr : list (list A)) (test : A → bool) (p : pos) : bool :=
  bool_decide (p.1 < length (default [] (gr !! 0))) &&
  match get_cell gr p with Some c => test c | None => false end.

(** The last loop of [get_maze_with_distances]. *)
Definition fill_distances (gr : list (list Sym)) (distances : gmap pos Z)
  : list (list DCell) :=
  imap (λ y row, imap (λ x cell,
    match distances !! (x, y) with
    | Some d => DNum d
    | None =>
        if bool_decide (cell ≠ SymWall) && bool_decide (cell ≠ SymEnd)
        then DNum (-1) else DSym cell
    end) row) gr.

Definition get_maze_with_distances (fuel : nat) (m : Maze) : exported (list (list DCell)) :=
  if negb (mazeIsDone m) then ExportError (MazeError 4)
  else
    let maze_list := fresh_grid (sizeY m * 2 + 1) (sizeX m * 2 + 1) SymWall in
    match mark_tiles (concat (mazeList m)) maze_list None with
    | None => ExportError IndexError
    | Some (_, None) => ExportError (MazeError 5)
    | Some (maze_list', Some start_pos) =>
        let open := in_grid_and maze_list' (λ c, bool_decide (c = SymPath)) in
        match bfs_distances fuel open [(start_pos, 0%Z)] {[start_pos]} ∅ with
        | None => ExportOutOfFuel
        | Some distances => Exported (fill_distances maze_list' distances)
        end
    end.

(** [gr[y][x]['index'] = s] *)
Definition set_index (gr : list (list Info)) (p : pos) (s : Sym) : option (list (list Info)) :=
  match get_cell gr p with
  | Some c =>
      set_cell gr p (mkInfo s (distance c) (info_N c) (info_S c) (info_W c) (info_E c))
  | None => None
  end.

Definition wall_info : Info := mkInfo SymWall None false false false false.

(** The [if/elif] chain setting [is_border_cell_for_entry_exit]. *)
Definition outward_conn (sx sy : nat) (t : MazeTile) (d : Dir) : bool :=
  match is_entry t with
  | None => false
  | Some _ =>
      match d with
      | North => coordinateY t =? 0
      | South => coordinateY t =? sy - 1
      | West => coordinateX t =? 0
      | East => coordinateX t =? sx - 1
      end
  end.

(** The loop over [tile.connectTo] in [get_maze_detailed_info]. *)
Fixpoint detail_conns (sx sy : nat) (t : MazeTile) (ds : list Dir) (gr : list (list Info))
    (start_pos : option pos) : option (list (list Info) * option pos) :=
  match ds with
  | [] => Some (gr, start_pos)
  | d :: rest =>
      let c := toward d (display_of t) in
      if negb (bool_decide (c.1 < sx * 2 + 1) && bool_decide (c.2 < sy * 2 + 1))
      then detail_conns sx sy t rest gr start_pos
      else if outward_conn sx sy t d then
        match is_entry t with
        | Some true =>
            gr' ← set_index gr c SymStart;
            detail_conns sx sy t rest gr'
              (match start_pos with None => Some c | Some _ => start_pos end)
        | _ =>
            gr' ← set_index gr c SymEnd; detail_conns sx sy t rest gr' start_pos
        end
      else
        match get_cell gr c with
        | None => None
        | Some cell =>
            if bool_decide (index cell = SymWall)
            then gr' ← set_index gr c SymPath; detail_conns sx sy t rest gr' start_pos
            else detail_conns sx sy t rest gr start_pos
        end
  end.

Fixpoint detail_tiles (sx sy : nat) (tiles : list MazeTile) (gr : list (list Info))
    (start_pos : option pos) : option (list (list Info) * option pos) :=
  match tiles with
  | [] => Some (gr, start_pos)
  | t :: rest =>
      gr1 ← set_index gr (display_of t) SymPath;
      '(gr2, sp) ← detail_conns sx sy t (connectTo t) gr1 start_pos;
      detail_tiles sx sy rest gr2 sp
  end.

(** The fallback scan for a cell with index ['S'], rows first. *)
Definition scan_start (gr : list (list Info)) : option pos :=
  head (concat (imap (λ r row,
    omap (λ '(c, cell), if bool_decide (index cell = SymStart) then Some (c, r) else None)
         (imap (λ c cell, (c, cell)) row)) gr)).

(** The [while queue] loop of [get_maze_detailed_info]: the distance is
    stored when a cell is queued. *)
Fixpoint bfs_visit_info (open : pos → bool) (cands : list (option pos)) (dist1 : Z)
    (queue : list (pos * Z)) (visited : gset pos) (dists : gmap pos Z)
  : list (pos * Z) * gset pos * gmap pos Z :=
  match cands with
  | [] => (queue, visited, dists)
  | None :: rest => bfs_visit_info open rest dist1 queue visited dists
  | Some c :: rest =>
      if open c && bool_decide (c ∉ visited)
      then bfs_visit_info open rest dist1 (queue ++ [(c, dist1)]) ({[c]} ∪ visited)
             (<[c := dist1]> dists)
      else bfs_visit_info open rest dist1 queue visited dists
  end.

Fixpoint bfs_info (fuel : nat) (open : pos → bool) (queue : list (pos * Z))
    (visited : gset pos) (dists : gmap pos Z) : option (gmap pos Z) :=
  match queue with
  | [] => Some dists
  | (p, dist) :: queue' =>
      match fuel with
      | 0 => None
      | S fuel' =>
          let '(queue'', visited', dists') :=
            bfs_visit_info open (display_neighbours p) (dist + 1)%Z queue' visited dists in
          bfs_info fuel' open queue'' visited' dists'
      end
  end.

Definition is_path_index (gr : list (list Info)) (p : pos) : bool :=
  match get_cell gr p with
  | Some c => bool_decide (index c ≠ SymWall)
  | None => false
  end.

(** The last loop of [get_maze_detailed_info]. *)
Definition fill_info (gr : list (list Info)) (dists : gmap pos Z) : list (list Info) :=
  let grid_rows := length gr in
  let grid_cols := length (default [] (gr !! 0)) in
  imap (λ r_idx row, imap (λ c_idx cell,
    mkInfo (index cell)
      (match dists !! (c_idx, r_idx) with
       | Some d => Some d
       | None => if bool_decide (index cell = SymPath) then Some (-1)%Z else distance cell
       end)
      (if bool_decide (0 < r_idx) && is_path_index gr (c_idx, r_idx - 1)
       then true else info_N cell)
      (if bool_decide (r_idx < grid_rows - 1) && is_path_index gr (c_idx, r_idx + 1)
       then true else info_S cell)
      (if bool_decide (0 < c_idx) && is_path_index gr (c_idx - 1, r_idx)
       then true else info_W cell)
      (if bool_decide (c_idx < grid_cols - 1) && is_path_index gr (c_idx + 1, r_idx)
       then true else info_E cell)) row) gr.

Definition get_maze_detailed_info (fuel : nat) (m : Maze) : exported (list (list Info)) :=
  if negb (mazeIsDone m) then ExportError (MazeError 4)
  else
    let detailed := fresh_grid (sizeY m * 2 + 1) (sizeX m * 2 + 1) wall_info in
    match detail_tiles (sizeX m) (sizeY m) (concat (mazeList m)) detailed None with
    | None => ExportError IndexError
    | Some (detailed', found) =>
        match (match found with Some s => Some s | None => scan_start detailed' end) with
        | None => ExportError (MazeError 5)
        | Some start_pos =>
            let open := in_grid_and detailed'
              (λ c, bool_decide (index c = SymPath) || bool_decide (index c = SymEnd)) in
            match bfs_info fuel open [(start_pos, 0%Z)] {[start_pos]} {[start_pos := 0%Z]} with
            | None => ExportOutOfFuel
            | Some dists => Exported (fill_info detailed' dists)
            end
        end
    end.

(** ** Rendering guard and the entry point [generate_maze] *)

(** The Python values that reach [makePP] and the settings dictionaries. *)
Inductive PyVal := VInt (z : Z) | VStr (s : string) | VTuple (l : list Z).

Global Instance PyVal_eq_dec : EqDecision PyVal.
Proof. solve_decision. Defined.

(** What [makePP] asks of the drawing surface: [Image.new(mode, size, color)]
    and the filled rectangles, in drawing order. *)
Record Image := mkImage {
  img_mode : string;
  img_size : Z * Z;
  img_color : PyVal;
  img_rects : list ((Z * Z * Z * Z) * PyVal);
}.

(** What [generate_maze] returns. *)
Inductive Generated :=
  | GenList (l : list (list Sym))
  | GenDict (l : list (list Info))
  | GenDistances (l : list (list DCell))
  | GenImage (i : Image).

Inductive gen_outcome :=
  | GenReturns (v : Generated) (g : Rng)
  | GenRaises (e : exn) (g : Rng)
  | GenOutOfFuel.

Definition default_algo_settings : gmap string Z :=
  <["weighHigh" := 99%Z]> (<["weightLow" := 97%Z]> (<["weightBraid" := (-1)%Z]> ∅)).

Definition default_image_settings : gmap string PyVal :=
  <["mode" := VStr "RGB"]> (<["wall_color" := VStr "Black"]>
    (<["floor_color" := VStr "White"]> (<["pixel_size" := VInt 10]> ∅))).

(** [if settings: defaults.update(settings)] *)
Definition update_settings {V} (defaults : gmap string V) (settings : option (gmap string V))
  : gmap string V :=
  match settings with
  | Some s => s ∪ defaults
  | None => defaults
  end.

Section External.

(** The two library functions the code calls: the state [rnd.seed(n)] puts
    the stream in, and [ImageColor.getrgb] ([None] is its ValueError). *)
Variable seed_stream : Z → Rng.
Variable getrgb : string → option PyVal.

(** [Maze(dimensionX, dimensionY, mazeName, seed)]; [now] is
    [int(time.time() * 1000)], [g] the stream before the call. *)
Definition Maze_new (now : Z) (g : Rng) (dimensionX dimensionY : Z) (mazeName : string)
    (seed : option Z) : (exn + Maze) * Rng :=
  match Maze_init dimensionX dimensionY mazeName with
  | inl e => (inl e, g)
  | inr m => (inr m, seed_stream (match seed with Some n => n | None => now end))
  end.

Definition rgb_color (c : PyVal) : exn + PyVal :=
  match c with
  | VStr s => match getrgb s with Some v => inr v | None => inl (MazeError 1) end
  | VTuple l =>
      if bool_decide (length l = 3) && forallb (λ i, (0 <=? i)%Z && (i <=? 255)%Z) l
      then inr c else inl (MazeError 1)
  | VInt _ => inl (MazeError 1)
  end.

Definition bit_color (c : PyVal) : bool :=
  bool_decide (c = VInt 1) || bool_decide (c = VInt 0).

(** The rectangles drawn for one tile. *)
Definition tile_rects (t : MazeTile) (s : Z) (colorFloor : PyVal)
  : list ((Z * Z * Z * Z) * PyVal) :=
  let x := (((Z.of_nat (coordinateX t) + 1) * 2 - 1) * s)%Z in
  let y := (((Z.of_nat (coordinateY t) + 1) * 2 - 1) * s)%Z in
  [((x, y, x + s - 1, y + s - 1)%Z, colorFloor)] ++
  (if bool_decide (North ∈ connectTo t)
   then [((x, y - s, x + s - 1, y - 1)%Z, colorFloor)] else []) ++
  (if bool_decide (South ∈ connectTo t)
   then [((x, y + s, x + s - 1, y + s + s - 1)%Z, colorFloor)] else []) ++
  (if bool_decide (West ∈ connectTo t)
   then [((x - s, y, x - 1, y + s - 1)%Z, colorFloor)] else []) ++
  (if bool_decide (East ∈ connectTo t)
   then [((x + s, y, x + s + s - 1, y + s - 1)%Z, colorFloor)] else []).

Definition makePP (mode colorWall colorFloor pixelSizeOfTile : PyVal) (m : Maze)
  : exported Image :=
  if negb (mazeIsDone m) then ExportError (MazeError 4)
  else
    let colors : exn + (string * PyVal * PyVal) :=
      if bool_decide (mode = VStr "1") then
        if bit_color colorWall && bit_color colorFloor
        then inr ("1", colorWall, colorFloor) else inl (MazeError 1)
      else if bool_decide (mode = VStr "RGB") then
        match rgb_color colorWall with
        | inl e => inl e
        | inr cw =>
            match rgb_color colorFloor with
            | inl e => inl e
            | inr cf => inr ("RGB", cw, cf)
            end
        end
      else inl (MazeError 1) in
    match colors with
    | inl e => ExportError e
    | inr (md, cw, cf) =>
        match pixelSizeOfTile with
        | VInt s =>
            if (s <=? 0)%Z then ExportError (MazeError 1)
            else
              Exported (mkImage md
                ((s * (Z.of_nat (sizeX m) * 2 + 1))%Z, (s * (Z.of_nat (sizeY m) * 2 + 1))%Z)
                cw
                (concat ((λ t, tile_rects t s cf) <$> concat (mazeList m))))
        | _ => ExportError (MazeError 1)
        end
    end.

(** The [if mode == ...] chain at the end of [generate_maze]. *)
Definition export_mode (fuel : nat) (mode : string) (image_settings : gmap string PyVal)
    (m : Maze) (g : Rng) : gen_outcome :=
  let lift {A} (wrap : A → Generated) (r : exported A) : gen_outcome :=
    match r with
    | Exported a => GenReturns (wrap a) g
    | ExportError e => GenRaises e g
    | ExportOutOfFuel => GenOutOfFuel
    end in
  if bool_decide (mode = "list") then lift GenList (get_maze_as_list m)
  else if bool_decide (mode = "dict") then lift GenDict (get_maze_detailed_info fuel m)
  else if bool_decide (mode = "distances") then lift GenDistances (get_maze_with_distances fuel m)
  else
    match image_settings !! "mode", image_settings !! "wall_color",
          image_settings !! "floor_color", image_settings !! "pixel_size" with
    | Some md, Some cw, Some cf, Some ps => lift GenImage (makePP md cw cf ps m)
    | _, _, _, _ => GenRaises KeyError g
    end.

(** The weights read back from the merged dictionary, as the two
    [makeMazeGrowTree] calls and the [makeMazeBraided] call receive them. *)
Definition growtree_args (settings : gmap string Z) : option (Z * Z) :=
  wh ← settings !! "weighHigh"; wl ← settings !! "weightLow"; Some (wh, wl).

Definition braid_arg (settings : gmap string Z) : option Z :=
  settings !! "weightBraid".

(** The [if algorithm == ...] chain of [generate_maze]. *)
Definition apply_algorithm (fuel : nat) (algorithm : string) (settings : gmap string Z)
    (m : Maze) (g : Rng) : outcome bool :=
  if bool_decide (algorithm = "simple") then makeMazeSimple fuel m g
  else if bool_decide (algorithm = "growing_tree") then
    match growtree_args settings with
    | None => Raises KeyError m g
    | Some (wh, wl) => makeMazeGrowTree fuel wh wl m g
    end
  else if bool_decide (algorithm = "braided") then
    match growtree_args settings with
    | None => Raises KeyError m g
    | Some (wh, wl) =>
        match makeMazeGrowTree fuel wh wl m g with
        | Returns _ m1 g1 =>
            match braid_arg settings with
            | None => Raises KeyError m1 g1
            | Some wb => makeMazeBraided wb m1 g1
            end
        | r => r
        end
    end
  else Returns true m g.

(** [generate_maze]; [now] and [g] are the clock and the stream it finds. *)
Definition generate_maze (fuel : nat) (now : Z) (g : Rng)
    (width height : Z) (name : string) (algorithm : string)
    (algorithm_settings : option (gmap string Z)) (mode : string)
    (image_settings : option (gmap string PyVal)) (seed : option Z)
    (start_wall end_wall : WallSel) : gen_outcome :=
  let algo_settings := update_settings default_algo_settings algorithm_settings in
  let img_settings := update_settings default_image_settings image_settings in
  match Maze_new now g width height name seed with
  | (inl e, g1) => GenRaises e g1
  | (inr maze, g1) =>
      let maze := set_walls maze start_wall end_wall in
      match apply_algorithm fuel algorithm algo_settings maze g1 with
      | Returns _ maze' g2 => export_mode fuel mode img_settings maze' g2
      | Raises e _ g2 => GenRaises e g2
      | OutOfFuel => GenOutOfFuel
      end
  end.

End External.

(** ** Vocabulary of the properties *)

(** A position of the [sx] by [sy] lattice. *)
Definition in_grid (sx sy : nat) (p : pos) : Prop := p.1 < sx ∧ p.2 < sy.

Global Instance in_grid_dec sx sy p : Decision (in_grid sx sy p).
Proof. unfold in_grid. apply _. Defined.

(** The position one step away, when the step does not go below zero. *)
Definition neighbour (d : Dir) (p : pos) : option pos :=
  match d with
  | North => if p.2 =? 0 then None else Some (p.1, p.2 - 1)
  | South => Some (p.1, p.2 + 1)
  | West => if p.1 =? 0 then None else Some (p.1 - 1, p.2)
  | East => Some (p.1 + 1, p.2)
  end.

(** The neighbouring tile in direction [d], when it lies inside the grid. *)
Definition step_to (sx sy : nat) (d : Dir) (p : pos) : option pos :=
  match neighbour d p with
  | Some q => if bool_decide (in_grid sx sy q) then Some q else None
  | None => None
  end.

(** What is read off a grid: the connection list, the visited flag and the
    role of the tile at a position. *)
Definition conns (ml : grid) (p : pos) : list Dir :=
  match tile_at ml p with Some t => connectTo t | None => [] end.

Definition visited (ml : grid) (p : pos) : bool :=
  match tile_at ml p with Some t => workedOn t | None => false end.

Definition role (ml : grid) (p : pos) : option bool :=
  match tile_at ml p with Some t => is_entry t | None => None end.

(** The grid is [sy] rows of [sx] tiles, each knowing its own place. *)
Definition wf_grid (sx sy : nat) (ml : grid) : Prop :=
  length ml = sy ∧
  (∀ y row, ml !! y = Some row → length row = sx) ∧
  (∀ p t, tile_at ml p = Some t → coordinateX t = p.1 ∧ coordinateY t = p.2).

(** Two tiles are linked when each lists the direction of the other. *)
Definition linked (sx sy : nat) (ml : grid) (p q : pos) : Prop :=
  ∃ d, d ∈ conns ml p ∧ step_to sx sy d p = Some q ∧ opposite d ∈ conns ml q.

(** The tile connectivity graph is connected. *)
Definition connected (sx sy : nat) (ml : grid) : Prop :=
  ∀ p q, in_grid sx sy p → in_grid sx sy q → rtc (linked sx sy ml) p q.

(** All positions, rows first. *)
Definition all_pos (sx sy : nat) : list pos :=
  y ← seq 0 sy; (λ x, (x, y)) <$> seq 0 sx.

(** Every undirected edge of the lattice once: a tile with its southern or
    eastern side. *)
Definition edge_slots (sx sy : nat) : list (pos * Dir) :=
  p ← all_pos sx sy; [(p, South); (p, East)].

Definition has_edge (sx sy : nat) (ml : grid) (e : pos * Dir) : bool :=
  bool_decide (e.2 ∈ conns ml e.1) &&
  match step_to sx sy e.2 e.1 with
  | Some q => bool_decide (opposite e.2 ∈ conns ml q)
  | None => false
  end.

(** The edges of the connectivity graph; openings through the outer
    boundary have no tile on the other side and are no edges. *)
Definition edges (sx sy : nat) (ml : grid) : list (pos * Dir) :=
  filter (λ e, has_edge sx sy ml e = true) (edge_slots sx sy).

Definition num_edges (sx sy : nat) (ml : grid) : nat := length (edges sx sy ml).

Definition num_visited (sx sy : nat) (ml : grid) : nat :=
  length (filter (λ p, visited ml p = true) (all_pos sx sy)).

(** A direction of a tile that leaves the grid. *)
Definition outward (sx sy : nat) (p : pos) (d : Dir) : Prop := step_to sx sy d p = None.

Global Instance outward_dec sx sy p d : Decision (outward sx sy p d).
Proof. unfold outward. apply _. Defined.

(** Every connection toward a tile of the grid is answered by that tile. *)
Definition symmetric_conns (sx sy : nat) (ml : grid) : Prop :=
  ∀ p d q, in_grid sx sy p → d ∈ conns ml p → step_to sx sy d p = Some q →
           opposite d ∈ conns ml q.

Definition no_duplicates (sx sy : nat) (ml : grid) : Prop :=
  ∀ p, in_grid sx sy p → NoDup (conns ml p).

(** A maze as the constructor leaves it. *)
Definition fresh_maze (sx sy : nat) (nm : string) (sw ew : WallSel) : Maze :=
  mkMaze sx sy nm false [] sw ew.

(** The mazes the class can hold once formed: what a formation call
    returned for a fresh maze, and what braiding returned for such a maze. *)
Inductive produced : Maze → Prop :=
  | produced_formed a fuel sx sy nm sw ew g b m g' :
      1 ≤ sx → 1 ≤ sy →
      formation a fuel (fresh_maze sx sy nm sw ew) g = Returns b m g' →
      produced m
  | produced_braided m weightBraid g b m' g' :
      produced m →
      makeMazeBraided weightBraid m g = Returns b m' g' →
      produced m'.

(** ** Invariants and auxiliary notions of the proofs *)

Definition keeps_place (f : MazeTile → MazeTile) : Prop :=
  ∀ t, coordinateX (f t) = coordinateX t ∧ coordinateY (f t) = coordinateY t.

Definition neighbours (sx sy : nat) (p : pos) : list pos :=
  omap (λ d, step_to sx sy d p) directions.

Definition linked_up (ml ml' : grid) (a : pos) (d : Dir) (b : pos) : Prop :=
  ∀ q, tile_at ml' q =
       if decide (q = a) then append_conn d <$> tile_at ml q
       else if decide (q = b) then append_conn (opposite d) <$> tile_at ml q
       else tile_at ml q.

Record tree_inv (sx sy : nat) (start : pos) (ml : grid) : Prop := {
  ti_wf : wf_grid sx sy ml;
  ti_start : in_grid sx sy start ∧ visited ml start = true;
  ti_inner : ∀ p d, in_grid sx sy p → d ∈ conns ml p → is_Some (step_to sx sy d p);
  ti_sym : symmetric_conns sx sy ml;
  ti_nodup : no_duplicates sx sy ml;
  ti_fresh : ∀ p, in_grid sx sy p → visited ml p = false → conns ml p = [];
  ti_reach : ∀ p, in_grid sx sy p → visited ml p = true → rtc (linked sx sy ml) start p;
  ti_count : num_edges sx sy ml + 1 = num_visited sx sy ml;
  ti_role : ∀ p, role ml p = None;
}.

Definition prim_inv (sx sy : nat) (start : pos) (frontList : list pos) (ml : grid) : Prop :=
  tree_inv sx sy start ml ∧ NoDup frontList ∧
  (∀ p, p ∈ frontList → in_grid sx sy p ∧ visited ml p = false ∧
        ∃ d q, step_to sx sy d p = Some q ∧ visited ml q = true) ∧
  (∀ p d q, in_grid sx sy p → visited ml p = false → step_to sx sy d p = Some q →
            visited ml q = true → p ∈ frontList).

Definition unvisited_count (sx sy : nat) (ml : grid) : nat := sx * sy - num_visited sx sy ml.

Definition grow_inv (sx sy : nat) (start : pos) (choiceList : list pos) (ml : grid) : Prop :=
  tree_inv sx sy start ml ∧ NoDup choiceList ∧
  (∀ p, p ∈ choiceList → in_grid sx sy p ∧ visited ml p = true) ∧
  (∀ p d q, in_grid sx sy p → visited ml p = true → step_to sx sy d p = Some q →
            visited ml q = false → p ∈ choiceList).

Definition grow_measure (sx sy : nat) (choiceList : list pos) (ml : grid) : nat :=
  2 * unvisited_count sx sy ml + length choiceList.

Record grown_inv (sx sy : nat) (ml : grid) : Prop := {
  gi_wf : wf_grid sx sy ml;
  gi_inner : ∀ p d, in_grid sx sy p → d ∈ conns ml p → is_Some (step_to sx sy d p);
  gi_sym : symmetric_conns sx sy ml;
  gi_nodup : no_duplicates sx sy ml;
  gi_connected : connected sx sy ml;
  gi_edges : num_edges sx sy ml + 1 = sx * sy;
  gi_role : ∀ p, role ml p = None;
}.

Definition on_boundary (sx sy : nat) (p : pos) : Prop :=
  in_grid sx sy p ∧ (p.2 = 0 ∨ p.2 = sy - 1 ∨ p.1 = 0 ∨ p.1 = sx - 1).

Record formed_inv (sx sy : nat) (ml : grid) : Prop := {
  fi_wf : wf_grid sx sy ml;
  fi_sym : symmetric_conns sx sy ml;
  fi_nodup : no_duplicates sx sy ml;
  fi_connected : connected sx sy ml;
  fi_edges : num_edges sx sy ml + 1 = sx * sy;
  fi_ends : ∃ e x, e ≠ x ∧ on_boundary sx sy e ∧ on_boundary sx sy x ∧
    (∀ p, role ml p =
          if decide (p = e) then Some true
          else if decide (p = x) then Some false else None) ∧
    (∀ p, in_grid sx sy p →
          filter (outward sx sy p) (conns ml p) =
          if decide (p = e) then [outward_dir sy e]
          else if decide (p = x) then [outward_dir sy x] else []);
}.

(** What braiding keeps: the shape of the grid, symmetry, no duplicates. *)
Definition braid_inv (sx sy : nat) (ml : grid) : Prop :=
  wf_grid sx sy ml ∧ symmetric_conns sx sy ml ∧ no_duplicates sx sy ml.

(** Connection lists only get longer at the end; roles stay. *)
Definition grows (ml ml' : grid) : Prop :=
  ∀ q, conns ml q `prefix_of` conns ml' q ∧ role ml' q = role ml q.

(** What holds of every maze the class can hold once formed. *)
Definition maze_ok (m : Maze) : Prop :=
  mazeIsDone m = true ∧ 1 ≤ sizeX m ∧ 1 ≤ sizeY m ∧
  braid_inv (sizeX m) (sizeY m) (mazeList m) ∧
  connected (sizeX m) (sizeY m) (mazeList m).

Definition sample_tape : Rng := λ i, i * 7 + 3.

Definition sample_fresh : Maze := fresh_maze 3 2 "sample" WallAny WallAny.

Definition sample_formed : Maze :=
  match formation Simple 12 sample_fresh sample_tape with
  | Returns _ m _ => m
  | _ => sample_fresh
  end.

(** The stream at the start of round [k] of the [while True] loop of
    boundary placement, which takes two draws a round. *)
Definition round_stream (g : Rng) (k : nat) : Rng :=
  Nat.iter k (λ g', rng_next (rng_next g')) g.

(** The two draws of a round pick different positions. *)
Definition distinct_draw (start_tiles end_tiles : list pos) (g : Rng) : Prop :=
  (rnd_choice g start_tiles).1 ≠ (rnd_choice (rng_next g) end_tiles).1.

(** The stream the growth loop of a formation call leaves behind. *)
Definition grown_stream (a : Algorithm) (m : Maze) (g : Rng) : Rng :=
  match growth a (2 * (sizeX m * sizeY m)) m g with
  | Done _ _ g' => g'
  | _ => g
  end.

Definition zero_stream : Rng := λ _, 0.

(** A stream of zeros that turns into the identity at its draw 32. *)
Definition late_stream : Rng := λ i, if i <? 32 then 0 else i.

(** What the caller of [generate_maze] sees: the returned value or the
    exception; [None] when the call has not come back. *)
Definition gen_result (o : gen_outcome) : option (exn + Generated) :=
  match o with
  | GenReturns v _ => Some (inr v)
  | GenRaises e _ => Some (inl e)
  | GenOutOfFuel => None
  end.

Definition rename (nm : string) (m : Maze) : Maze :=
  mkMaze (sizeX m) (sizeY m) nm (mazeIsDone m) (mazeList m) (start_wall m) (end_wall m).

Definition outcome_map {A} (f : Maze → Maze) (o : outcome A) : outcome A :=
  match o with
  | Returns a m g => Returns a (f m) g
  | Raises e m g => Raises e (f m) g
  | OutOfFuel => OutOfFuel
  end.

(** A grid of [rows] rows of [cols] cells. *)
Definition rect {A} (rows cols : nat) (gr : list (list A)) : Prop :=
  length gr = rows ∧ Forall (λ row, length row = cols) gr.

(** The wall cells of the three export grids. *)
Definition sym_wall (s : Sym) : bool := bool_decide (s = SymWall).
Definition dcell_wall (c : DCell) : bool := bool_decide (c = DSym SymWall).
Definition info_wall (i : Info) : bool := bool_decide (index i = SymWall).

(** Two grids have their cells, and their walls, at the same coordinates. *)
Definition walls_agree {A B} (wa : A → bool) (wb : B → bool)
    (ga : list (list A)) (gb : list (list B)) : Prop :=
  ∀ p, wa <$> get_cell ga p = wb <$> get_cell gb p.

(** A cell of the symbolic grid that is no wall. *)
Definition floor_cell (gs : list (list Sym)) (p : pos) : Prop :=
  ∃ s, get_cell gs p = Some s ∧ s ≠ SymWall.

(** A maze has its entry: a tile with the role, open toward the outside. *)
Definition has_entry (sx sy : nat) (ml : grid) : Prop :=
  ∃ e d, in_grid sx sy e ∧ role ml e = Some true ∧ d ∈ conns ml e ∧ outward sx sy e d.

(** Direction [d] of tile [t] leaves the grid, by the coordinates of [t]. *)
Definition leaves (sx sy : nat) (t : MazeTile) (d : Dir) : Prop :=
  match d with
  | North => coordinateY t = 0
  | South => coordinateY t = sy - 1
  | West => coordinateX t = 0
  | East => coordinateX t = sx - 1
  end.

(** The tile lies in the grid, by its coordinates. *)
Definition placed (sx sy : nat) (t : MazeTile) : Prop :=
  coordinateX t < sx ∧ coordinateY t < sy.

(** The tile is the entry and lists a direction that leaves the grid. *)
Definition entry_tile (sx sy : nat) (t : MazeTile) : Prop :=
  is_entry t = Some true ∧ ∃ d, d ∈ connectTo t ∧ leaves sx sy t d.

(** The cells of a grid of [rows] rows and [cols] columns. *)
Definition cells (rows cols : nat) : gset pos := list_to_set (all_pos cols rows).

(** The cells that the breadth-first searches have still to reach, counted
    twice, and those waiting in the queue: what a round of the [while queue]
    loops lowers. *)
Definition bfs_measure (C visited : gset pos) (queue : list (pos * Z)) : nat :=
  2 * (size C - size visited) + length queue.

(** A recorded start position lies in the export grid. *)
Definition start_ok (sx sy : nat) (sp : option pos) : Prop :=
  ∀ c, sp = Some c → c.1 < sx * 2 + 1 ∧ c.2 < sy * 2 + 1.

(** One successful [__connectTilesWithString]: two adjacent tiles of the
    grid gain the directions toward each other, which the first did not
    have. *)
Definition joins (sx sy : nat) (ml ml' : grid) : Prop :=
  ∃ a d b, in_grid sx sy a ∧ step_to sx sy d a = Some b ∧ d ∉ conns ml a ∧
           linked_up ml ml' a d b ∧ wf_grid sx sy ml'.

(** The fields of a tile that only the formation writes. *)
Definition marks (t : MazeTile) : bool * bool * nat * nat * option bool :=
  (workedOn t, wall t, coordinateX t, coordinateY t, is_entry t).

(** Every tile of the grid is a floor tile. *)
Definition floors (ml : grid) : Prop := ∀ p t, tile_at ml p = Some t → wall t = false.

(** The entry and the exit of a produced maze: the two tiles with a role,
    on the walls asked for, each with its one opening. *)
Definition ends_at (m : Maze) (e x : pos) : Prop :=
  e ≠ x ∧
  e ∈ get_wall_tiles (sizeX m) (sizeY m) (start_wall m) ∧
  x ∈ get_wall_tiles (sizeX m) (sizeY m) (end_wall m) ∧
  (∀ p, role (mazeList m) p =
        if decide (p = e) then Some true else if decide (p = x) then Some false else None) ∧
  (∀ p, in_grid (sizeX m) (sizeY m) p →
        filter (outward (sizeX m) (sizeY m) p) (conns (mazeList m) p) =
        if decide (p = e) then [outward_dir (sizeY m) e]
        else if decide (p = x) then [outward_dir (sizeY m) x] else []).

(** The tiles of wall [w], by their coordinates. *)
Definition on_wall (sx sy : nat) (w : WallSel) (p : pos) : Prop :=
  in_grid sx sy p ∧
  match w with
  | WallN => p.2 = 0
  | WallS => p.2 = sy - 1
  | WallW => p.1 = 0
  | WallE => p.1 = sx - 1
  | WallAny => p.2 = 0 ∨ p.2 = sy - 1 ∨ p.1 = 0 ∨ p.1 = sx - 1
  end.

(** The opening the boundary placement gives a tile picked from wall [w]:
    the wall itself for the north wall, and for the others unless an earlier
    test of the chain answers first. *)
Definition wall_opening (sx sy : nat) (w : WallSel) (p : pos) : Dir :=
  match w with
  | WallN => North
  | WallS => if sy =? 1 then North else South
  | WallW => if p.2 =? 0 then North else if p.2 =? sy - 1 then South else West
  | WallE =>
      if p.2 =? 0 then North else if p.2 =? sy - 1 then South
      else if sx =? 1 then West else East
  | WallAny => outward_dir sy p
  end.

(** The outer ring of a grid of [rows] rows and [cols] columns. *)
Definition border (rows cols : nat) (c : pos) : bool :=
  (c.2 =? 0) || (c.2 =? rows - 1) || (c.1 =? 0) || (c.1 =? cols - 1).

(** The symbol the symbolic exporters write for direction [d] of tile [t]. *)
Definition mark_value (rows cols : nat) (t : MazeTile) (d : Dir) : Sym :=
  match is_entry t with
  | Some b =>
      if border rows cols (toward d (display_of t))
      then (if b then SymStart else SymEnd) else SymPath
  | None => SymPath
  end.

(** The cells the symbolic exporters write for a tile, in order. *)
Definition tile_writes (rows cols : nat) (t : MazeTile) : list (pos * Sym) :=
  (display_of t, SymPath) ::
  ((λ d, (toward d (display_of t), mark_value rows cols t d)) <$> connectTo t).

Definition writes (rows cols : nat) (tiles : list MazeTile) : list (pos * Sym) :=
  tiles ≫= tile_writes rows cols.

(** The export cell of the tile at a position. *)
Definition centre (p : pos) : pos := (2 * p.1 + 1, 2 * p.2 + 1).

(** The symbol written for direction [d] of the tile at [p]. *)
Definition passage_value (sx sy : nat) (ml : grid) (p : pos) (d : Dir) : Sym :=
  match role ml p with
  | Some b => if decide (outward sx sy p d) then (if b then SymStart else SymEnd) else SymPath
  | None => SymPath
  end.

(** The detailed grid carries the symbols of the symbolic grid. *)
Definition same_index (gs : list (list Sym)) (gi : list (list Info)) : Prop :=
  ∀ p, index <$> get_cell gi p = get_cell gs p.

(** The start and end symbols are only found on the outer ring. *)
Definition ring_only (rows cols : nat) (gs : list (list Sym)) : Prop :=
  ∀ p s, get_cell gs p = Some s → s = SymStart ∨ s = SymEnd → border rows cols p = true.

(** Only a tile with a role lists a direction that leaves the grid. *)
Definition openings_have_roles (sx sy : nat) (t : MazeTile) : Prop :=
  ∀ d, d ∈ connectTo t → leaves sx sy t d → is_entry t ≠ None.

(** A step of the breadth-first searches: to one of the four neighbours
    of a cell, when it passes the test. *)
Definition cell_step (open : pos → bool) (a b : pos) : Prop :=
  Some b ∈ display_neighbours a ∧ open b = true.

(** The distance of the start is 0, every other distance at least 1. *)
Definition from_start (start c : pos) (d : Z) : Prop :=
  (c = start → d = 0%Z) ∧ (c ≠ start → (1 ≤ d)%Z).

(** The test of the search of [get_maze_with_distances]. *)
Definition path_open (gs : list (list Sym)) : pos → bool :=
  in_grid_and gs (λ c, bool_decide (c = SymPath)).

(** The cell of the distance export for a cell of the symbolic grid. *)
Definition distance_cell (ds : gmap pos Z) (c : pos) (cell : Sym) : DCell :=
  match ds !! c with
  | Some d => DNum d
  | None =>
      if bool_decide (cell ≠ SymWall) && bool_decide (cell ≠ SymEnd)
      then DNum (-1) else DSym cell
  end.

(** What the loops of the breadth-first search keep: the queue holds the
    cells of one distance followed by those of the next; the cells with a
    distance have none greater than the head of the queue; a queued cell is
    queued once and has no distance yet; and every neighbour that passes the
    test of a cell with a distance has been given a distance that is at most
    one more. *)
Record bfs_inv (open : pos → bool) (queue : list (pos * Z)) (visited : gset pos)
    (ds : gmap pos Z) : Prop := {
  bi_blocks : ∃ d0 l1 l2, queue = l1 ++ l2 ∧
    Forall (λ e, e.2 = d0) l1 ∧ Forall (λ e, e.2 = (d0 + 1)%Z) l2 ∧
    ∀ c dc, ds !! c = Some dc → (dc ≤ d0)%Z;
  bi_queued : NoDup queue.*1 ∧ ∀ c, c ∈ queue.*1 → ds !! c = None ∧ c ∈ visited;
  bi_neighbours : ∀ c dc n, ds !! c = Some dc → Some n ∈ display_neighbours c →
    open n = true → ∃ dn, (ds !! n = Some dn ∨ (n, dn) ∈ queue) ∧ (dn ≤ dc + 1)%Z;
  bi_keys : ∀ c, is_Some (ds !! c) → c ∈ visited;
  bi_seen : ∀ c, c ∈ visited → is_Some (ds !! c) ∨ c ∈ queue.*1;
}.

(** The test of the search of [get_maze_detailed_info]. *)
Definition exit_open (gi : list (list Info)) : pos → bool :=
  in_grid_and gi (λ c, bool_decide (index c = SymPath) || bool_decide (index c = SymEnd)).

(** The distances the search of [get_maze_detailed_info] stores are those
    of the cells with a distance and of the queued cells of the search of
    [get_maze_with_distances]. *)
Definition stored (dists ds : gmap pos Z) (queue : list (pos * Z)) : Prop :=
  ∀ c d, dists !! c = Some d ↔ ds !! c = Some d ∨ (c, d) ∈ queue.

(** A cell of the detailed grid as the first loops leave it: only its index
    is set. *)
Definition unfilled (gi : list (list Info)) : Prop :=
  ∀ c i, get_cell gi c = Some i → i = mkInfo (index i) None false false false false.

(** Two cells are next to each other for the searches. *)
Definition beside (a b : pos) : Prop :=
  Some b ∈ display_neighbours a ∨ Some a ∈ display_neighbours b.

(** The square of [s] by [s] pixels that a cell of the export grids takes
    in the picture, as the corners [[x0, y0, x1, y1]] of a rectangle. *)
Definition cell_rect (s : Z) (c : pos) : Z * Z * Z * Z :=
  (s * Z.of_nat c.1, s * Z.of_nat c.2,
   s * Z.of_nat c.1 + s - 1, s * Z.of_nat c.2 + s - 1)%Z.

(** The cells that the tiles of a grid open: their own and one for each
    direction they list. *)
Definition opened (sx sy : nat) (ml : grid) (c : pos) : Prop :=
  ∃ p, in_grid sx sy p ∧ (c = centre p ∨ ∃ d, d ∈ conns ml p ∧ c = toward d (centre p)).

(** The three names the [if algorithm == ...] chain of [generate_maze]
    knows, and the three modes that return a grid. *)
Definition known_algorithm (algorithm : string) : Prop :=
  algorithm = "simple" ∨ algorithm = "growing_tree" ∨ algorithm = "braided".

Definition grid_mode (mode : string) : Prop :=
  mode = "list" ∨ mode = "dict" ∨ mode = "distances".

(** The value [generate_maze] returns is the export of maze [m] that the
    mode asks for. *)
Definition export_of (getrgb : string → option PyVal) (fuel : nat) (mode : string)
    (m : Maze) (v : Generated) : Prop :=
  match v with
  | GenList sym => mode = "list" ∧ get_maze_as_list m = Exported sym
  | GenDict info => mode = "dict" ∧ get_maze_detailed_info fuel m = Exported info
  | GenDistances dist => mode = "distances" ∧ get_maze_with_distances fuel m = Exported dist
  | GenImage img =>
      ¬ grid_mode mode ∧
      ∃ md cw cf ps, makePP getrgb md cw cf ps m = Exported img
  end.

(** * Properties *)

(** ** Reading and writing tiles *)

Lemma tile_at_upd f p q ml :
  tile_at (upd_tile f p ml) q = if decide (p = q) then f <$> tile_at ml q else tile_at ml q.
Proof.
  destruct p as [px py], q as [qx qy]. unfold tile_at, upd_tile. cbn [fst snd].
  destruct (decide (py = qy)) as [->|Hy].
  - rewrite list_lookup_alter_eq. destruct (ml !! qy) as [row|]; simpl.
    + destruct (decide (px = qx)) as [->|Hx].
      * rewrite list_lookup_alter_eq. by rewrite decide_True.
      * rewrite list_lookup_alter_ne by done. rewrite decide_False; [done|congruence].
    + by destruct (decide _).
  - rewrite list_lookup_alter_ne by done. rewrite decide_False; [done|congruence].
Qed.

Lemma tile_at_in_grid sx sy ml p :
  wf_grid sx sy ml → (is_Some (tile_at ml p) ↔ in_grid sx sy p).
Proof.
  intros (Hlen & Hrows & _). destruct p as [x y]. unfold tile_at, in_grid. simpl. split.
  - intros [t Ht]. destruct (ml !! y) as [row|] eqn:Hr; simpl in Ht; [|done].
    split.
    + rewrite <- (Hrows _ _ Hr). by eapply lookup_lt_Some.
    + rewrite <- Hlen. by eapply lookup_lt_Some.
  - intros [Hx Hy]. rewrite <- Hlen in Hy.
    destruct (lookup_lt_is_Some_2 _ _ Hy) as [row Hr]. rewrite Hr. simpl.
    apply lookup_lt_is_Some_2. by rewrite (Hrows _ _ Hr).
Qed.

Lemma has_tile_in_grid sx sy ml p :
  wf_grid sx sy ml → has_tile ml p = bool_decide (in_grid sx sy p).
Proof.
  intros Hwf. unfold has_tile. destruct (tile_at ml p) eqn:Ht.
  - symmetry. apply bool_decide_eq_true. apply (tile_at_in_grid _ _ _ _ Hwf). by rewrite Ht.
  - symmetry. apply bool_decide_eq_false. intros Hin.
    apply (tile_at_in_grid _ _ _ _ Hwf) in Hin. rewrite Ht in Hin. by destruct Hin.
Qed.

Lemma wf_grid_upd sx sy f p ml :
  keeps_place f → wf_grid sx sy ml → wf_grid sx sy (upd_tile f p ml).
Proof.
  intros Hf (Hlen & Hrows & Hco). split; [|split].
  - unfold upd_tile. by rewrite length_alter.
  - intros y row. unfold upd_tile. destruct (decide (p.2 = y)) as [<-|Hy].
    + rewrite list_lookup_alter_eq. destruct (ml !! p.2) as [r|] eqn:Hr; simpl; [|done].
      intros [= <-]. rewrite length_alter. eauto.
    + rewrite list_lookup_alter_ne by done. eauto.
  - intros q t. rewrite tile_at_upd. destruct (decide (p = q)) as [->|Hne]; [|eauto].
    destruct (tile_at ml q) as [t0|] eqn:Ht; simpl; [|done].
    intros [= <-]. destruct (Hf t0) as [-> ->]. eauto.
Qed.

Lemma keeps_place_mark : keeps_place mark_workedOn.
Proof. by intros []. Qed.
Lemma keeps_place_append d : keeps_place (append_conn d).
Proof. by intros []. Qed.
Lemma keeps_place_entry b : keeps_place (mark_entry b).
Proof. by intros []. Qed.

Lemma deref_in_grid sx sy ml p :
  wf_grid sx sy ml → in_grid sx sy p →
  tile_at ml p = Some (deref ml p) ∧
  coordinateX (deref ml p) = p.1 ∧ coordinateY (deref ml p) = p.2.
Proof.
  intros Hwf Hin. destruct (proj2 (tile_at_in_grid _ _ _ _ Hwf) Hin) as [t Ht].
  unfold deref. rewrite Ht. simpl. split; [done|]. destruct Hwf as (_ & _ & Hco). eauto.
Qed.

(** Observations after an update. *)
Lemma conns_upd_append d p q ml :
  conns (upd_tile (append_conn d) p ml) q =
  if decide (p = q) then (if has_tile ml q then conns ml q ++ [d] else []) else conns ml q.
Proof.
  unfold conns, has_tile. rewrite tile_at_upd. destruct (decide (p = q)); [|done].
  by destruct (tile_at ml q).
Qed.

Lemma visited_upd_append d p q ml :
  visited (upd_tile (append_conn d) p ml) q = visited ml q.
Proof.
  unfold visited. rewrite tile_at_upd. destruct (decide (p = q)); [|done].
  by destruct (tile_at ml q).
Qed.

Lemma role_upd_append d p q ml :
  role (upd_tile (append_conn d) p ml) q = role ml q.
Proof.
  unfold role. rewrite tile_at_upd. destruct (decide (p = q)); [|done].
  by destruct (tile_at ml q).
Qed.

Lemma conns_upd_mark p q ml : conns (upd_tile mark_workedOn p ml) q = conns ml q.
Proof.
  unfold conns. rewrite tile_at_upd. destruct (decide (p = q)); [|done].
  by destruct (tile_at ml q).
Qed.

Lemma visited_upd_mark p q ml :
  visited (upd_tile mark_workedOn p ml) q =
  if decide (p = q) then has_tile ml q else visited ml q.
Proof.
  unfold visited, has_tile. rewrite tile_at_upd. destruct (decide (p = q)); [|done].
  by destruct (tile_at ml q).
Qed.

Lemma role_upd_mark p q ml : role (upd_tile mark_workedOn p ml) q = role ml q.
Proof.
  unfold role. rewrite tile_at_upd. destruct (decide (p = q)); [|done].
  by destruct (tile_at ml q).
Qed.

Lemma conns_upd_entry b p q ml : conns (upd_tile (mark_entry b) p ml) q = conns ml q.
Proof.
  unfold conns. rewrite tile_at_upd. destruct (decide (p = q)); [|done].
  by destruct (tile_at ml q).
Qed.

Lemma role_upd_entry b p q ml :
  role (upd_tile (mark_entry b) p ml) q =
  if decide (p = q) then (if has_tile ml q then Some b else None) else role ml q.
Proof.
  unfold role, has_tile. rewrite tile_at_upd. destruct (decide (p = q)); [|done].
  by destruct (tile_at ml q).
Qed.

(** Steps on the lattice. *)
Lemma opposite_involutive d : opposite (opposite d) = d.
Proof. by destruct d. Qed.

Lemma step_to_in_grid sx sy d p q : step_to sx sy d p = Some q → in_grid sx sy q.
Proof.
  unfold step_to. destruct (neighbour d p); [|done]. case_bool_decide; naive_solver.
Qed.

Ltac eqb_hyps :=
  repeat match goal with
  | H : (_ =? _) = true |- _ => apply Nat.eqb_eq in H
  | H : (_ =? _) = false |- _ => apply Nat.eqb_neq in H
  | H : (_ <? _) = true |- _ => apply Nat.ltb_lt in H
  | H : (_ <? _) = false |- _ => apply Nat.ltb_ge in H
  end.

Ltac step_cases :=
  unfold step_to, neighbour, in_grid in *; simpl in *;
  repeat (case_bool_decide || case_match); eqb_hyps;
  simplify_eq; simpl in *; try done; try lia.

Lemma step_to_back sx sy d p q :
  in_grid sx sy p → step_to sx sy d p = Some q → step_to sx sy (opposite d) q = Some p.
Proof.
  destruct p as [x y], q as [x' y']. intros Hp Hs.
  destruct d; step_cases; repeat f_equal; lia.
Qed.

Lemma step_to_ne sx sy d p q : step_to sx sy d p = Some q → p ≠ q.
Proof. destruct p as [x y], q as [x' y']. intros Hs ?. destruct d; step_cases. Qed.

Lemma step_to_inj_dir sx sy d d' p q :
  step_to sx sy d p = Some q → step_to sx sy d' p = Some q → d = d'.
Proof. destruct p as [x y], q as [x' y']. intros Hs Hs'. destruct d, d'; step_cases. Qed.


(** ** Neighbours and the two connect operations *)

Lemma getNextTiles_spec sx sy ml p :
  wf_grid sx sy ml → getNextTiles ml p.1 p.2 = neighbours sx sy p.
Proof.
  intros Hwf. unfold getNextTiles, neighbours, directions.
  rewrite !(has_tile_in_grid sx sy) by done. destruct p as [x y].
  unfold step_to, neighbour. simpl.
  repeat (case_bool_decide || case_match); simplify_eq; done.
Qed.

Lemma elem_of_neighbours sx sy p q :
  q ∈ neighbours sx sy p ↔ ∃ d, step_to sx sy d p = Some q.
Proof.
  unfold neighbours. rewrite list_elem_of_omap. split.
  - intros (d & _ & Hd). eauto.
  - intros (d & Hd). exists d. split; [|done]. unfold directions. destruct d; set_solver.
Qed.

Lemma NoDup_neighbours sx sy p : NoDup (neighbours sx sy p).
Proof.
  destruct p as [x y]. unfold neighbours, directions. simpl.
  unfold step_to, neighbour. simpl.
  repeat (case_bool_decide || case_match); simplify_eq; eqb_hyps;
   repeat (apply NoDup_cons; split;
     [rewrite ?not_elem_of_cons; repeat split; try apply not_elem_of_nil; intros [=]; lia|]);
   apply NoDup_nil_2.
Qed.

Lemma tile_at_new_rows sx sy p :
  tile_at (new_rows sx sy) p =
  if decide (in_grid sx sy p) then Some (newTile p.1 p.2 false) else None.
Proof.
  destruct p as [x y]. unfold tile_at, new_rows, range, in_grid. simpl.
  rewrite list_lookup_fmap. rewrite !Nat.sub_0_r.
  destruct (decide (y < sy)) as [Hy|Hy].
  - rewrite lookup_seq_lt by done. simpl. rewrite list_lookup_fmap.
    destruct (decide (x < sx)) as [Hx|Hx].
    + rewrite lookup_seq_lt by done. simpl. rewrite decide_True; done.
    + rewrite lookup_seq_ge by lia. simpl. rewrite decide_False; [done|lia].
  - rewrite lookup_seq_ge by lia. simpl. rewrite decide_False; [done|lia].
Qed.

Lemma wf_new_rows sx sy : wf_grid sx sy (new_rows sx sy).
Proof.
  split; [|split].
  - unfold new_rows, range. by rewrite length_fmap, length_seq, Nat.sub_0_r.
  - intros y row. unfold new_rows, range. rewrite list_lookup_fmap.
    destruct (seq 0 (sy - 0) !! y); simpl; [|done].
    intros [= <-]. by rewrite length_fmap, length_seq, Nat.sub_0_r.
  - intros p t. rewrite tile_at_new_rows. case_decide; [|done]. by intros [= <-].
Qed.

Lemma linked_up_flip ml ml' a d b :
  a ≠ b → linked_up ml ml' a d b → linked_up ml ml' b (opposite d) a.
Proof.
  intros Hne H q. rewrite (H q), opposite_involutive.
  repeat case_decide; simplify_eq; done.
Qed.

Lemma upd_upd_linked_up ml a d b :
  a ≠ b → linked_up ml (upd_tile (append_conn (opposite d)) b (upd_tile (append_conn d) a ml)) a d b.
Proof.
  intros Hne q. rewrite !tile_at_upd.
  repeat case_decide; simplify_eq; done.
Qed.

Lemma connectTiles_linked_up sx sy ml a d b :
  wf_grid sx sy ml → in_grid sx sy a → step_to sx sy d a = Some b →
  linked_up ml (connectTiles ml a b) a d b.
Proof.
  intros Hwf Ha Hs.
  pose proof (step_to_in_grid _ _ _ _ _ Hs) as Hb.
  pose proof (step_to_ne _ _ _ _ _ Hs) as Hne.
  destruct (deref_in_grid _ _ _ _ Hwf Ha) as (_ & Hax & Hay).
  destruct (deref_in_grid _ _ _ _ Hwf Hb) as (_ & Hbx & Hby).
  unfold connectTiles. rewrite Hax, Hay, Hbx, Hby.
  destruct a as [x y], b as [x' y'].
  destruct d; step_cases;
    repeat (case_match; eqb_hyps; try lia);
    match goal with |- linked_up _ _ _ ?d _ => by apply (upd_upd_linked_up _ _ d _ Hne) end.
Qed.

Lemma connectTiles_linked_up_rev sx sy ml a d b :
  wf_grid sx sy ml → in_grid sx sy a → step_to sx sy d a = Some b →
  linked_up ml (connectTiles ml b a) a d b.
Proof.
  intros Hwf Ha Hs.
  pose proof (step_to_in_grid _ _ _ _ _ Hs) as Hb.
  pose proof (step_to_back _ _ _ _ _ Ha Hs) as Hs'.
  pose proof (step_to_ne _ _ _ _ _ Hs) as Hne.
  pose proof (connectTiles_linked_up _ _ _ _ _ _ Hwf Hb Hs') as H.
  apply linked_up_flip in H; [|done]. by rewrite opposite_involutive in H.
Qed.

Lemma wf_connectTiles sx sy ml a b :
  wf_grid sx sy ml → wf_grid sx sy (connectTiles ml a b).
Proof.
  intros Hwf. unfold connectTiles.
  repeat case_match; try done;
    repeat (apply wf_grid_upd; [apply keeps_place_append|]); done.
Qed.

Lemma connectTilesWithString_spec sx sy ml a d :
  wf_grid sx sy ml → in_grid sx sy a →
  match step_to sx sy d a with
  | Some b => ∃ ml', connectTilesWithString ml a d = inr ml' ∧
                     wf_grid sx sy ml' ∧ linked_up ml ml' a d b
  | None => connectTilesWithString ml a d = inl (MazeError 2)
  end.
Proof.
  intros Hwf Ha.
  destruct (deref_in_grid _ _ _ _ Hwf Ha) as (_ & Hax & Hay).
  unfold connectTilesWithString. rewrite Hax, Hay.
  rewrite !(has_tile_in_grid sx sy) by done.
  destruct (step_to sx sy d a) as [b|] eqn:Hs.
  - pose proof (step_to_ne _ _ _ _ _ Hs) as Hne.
    assert (neighbour d a = Some b ∧ in_grid sx sy b) as [Hn Hb].
    { unfold step_to in Hs. destruct (neighbour d a); [|done]. case_bool_decide; naive_solver. }
    destruct a as [x y], d; simpl in *;
     repeat (case_bool_decide || case_match); eqb_hyps; simplify_eq; try done;
     (eexists; split; [done|split;
        [repeat (apply wf_grid_upd; [apply keeps_place_append|]); done|]]).
    all: match goal with |- linked_up _ _ ?a ?d ?b =>
           apply (linked_up_flip _ _ b (opposite d) a); [by apply not_eq_sym|];
           by apply (upd_upd_linked_up _ b (opposite d) a), not_eq_sym end.
  - destruct a as [x y], d; unfold step_to in Hs; simpl in *;
      repeat (case_bool_decide || case_match); simplify_eq; done.
Qed.


(** ** Counting, and the effect of linking two tiles *)

(** Counting with filters. *)
Lemma length_filter_ext {A} (P Q : A → Prop) `{!∀ x, Decision (P x)} `{!∀ x, Decision (Q x)}
    (l : list A) :
  (∀ y, y ∈ l → (P y ↔ Q y)) → length (filter P l) = length (filter Q l).
Proof.
  induction l as [|z l IH]; intros Heq; [done|].
  rewrite !filter_cons.
  assert (P z ↔ Q z) as Hz by (apply Heq; left).
  assert (length (filter P l) = length (filter Q l)) as Hl.
  { apply IH. intros y Hy. apply Heq. by right. }
  repeat case_decide; simpl; try tauto; lia.
Qed.

Lemma length_filter_flip {A} (P Q : A → Prop) `{!∀ x, Decision (P x)} `{!∀ x, Decision (Q x)}
    (l : list A) (x : A) :
  NoDup l → x ∈ l → ¬ P x → Q x → (∀ y, y ∈ l → y ≠ x → (P y ↔ Q y)) →
  length (filter Q l) = S (length (filter P l)).
Proof.
  induction l as [|z l IH]; intros Hnd Hin HP HQ Heq; [by apply elem_of_nil in Hin|].
  apply NoDup_cons in Hnd as [Hz Hnd]. rewrite !filter_cons.
  apply elem_of_cons in Hin as [<-|Hin].
  - rewrite decide_True by done. rewrite (decide_False (P:=P x)) by done. simpl. f_equal.
    symmetry. apply length_filter_ext. intros y Hy. apply Heq; [by right|]. by intros ->.
  - assert (z ≠ x) as Hne by (by intros ->).
    assert (P z ↔ Q z) as Hzz by (apply Heq; [left|done]).
    assert (length (filter Q l) = S (length (filter P l))) as Hl.
    { apply IH; try done. intros y Hy. apply Heq. by right. }
    repeat case_decide; simpl; try tauto; lia.
Qed.

Lemma elem_of_all_pos sx sy p : p ∈ all_pos sx sy ↔ in_grid sx sy p.
Proof.
  unfold all_pos, in_grid. rewrite list_elem_of_bind. split.
  - intros (y & Hp & Hy). apply list_elem_of_fmap in Hp as (x & -> & Hx).
    apply elem_of_seq in Hx, Hy. simpl. lia.
  - intros [Hx Hy]. exists p.2. split.
    + apply list_elem_of_fmap. exists p.1. split; [by destruct p|]. apply elem_of_seq. lia.
    + apply elem_of_seq. lia.
Qed.

Lemma NoDup_all_pos sx sy : NoDup (all_pos sx sy).
Proof.
  unfold all_pos. apply NoDup_bind.
  - intros y1 y2 p _ _ H1 H2.
    apply list_elem_of_fmap in H1 as (x1 & -> & _).
    apply list_elem_of_fmap in H2 as (x2 & [= _ ->] & _). done.
  - intros y _. apply NoDup_fmap_2; [|apply NoDup_seq]. by intros ?? [=].
  - apply NoDup_seq.
Qed.

Lemma elem_of_edge_slots sx sy e :
  e ∈ edge_slots sx sy ↔ in_grid sx sy e.1 ∧ (e.2 = South ∨ e.2 = East).
Proof.
  unfold edge_slots. rewrite list_elem_of_bind. split.
  - intros (p & He & Hp). apply elem_of_all_pos in Hp.
    rewrite !elem_of_cons, elem_of_nil in He. naive_solver.
  - intros [Hp Hd]. exists e.1. split; [|by apply elem_of_all_pos].
    destruct e as [p d]. simpl in *. rewrite !elem_of_cons. naive_solver.
Qed.

Lemma NoDup_edge_slots sx sy : NoDup (edge_slots sx sy).
Proof.
  unfold edge_slots. apply NoDup_bind.
  - intros p1 p2 e _ _ H1 H2. rewrite !elem_of_cons, elem_of_nil in H1, H2. naive_solver.
  - intros p _. apply NoDup_cons. split; [|apply NoDup_singleton].
    rewrite list_elem_of_singleton. naive_solver.
  - apply NoDup_all_pos.
Qed.

Lemma has_edge_true sx sy ml p d :
  has_edge sx sy ml (p, d) = true ↔
  d ∈ conns ml p ∧ ∃ q, step_to sx sy d p = Some q ∧ opposite d ∈ conns ml q.
Proof.
  unfold has_edge. simpl. rewrite andb_true_iff, bool_decide_eq_true.
  destruct (step_to sx sy d p) as [q|]; [rewrite bool_decide_eq_true|]; naive_solver.
Qed.

(** Reading a grid after two tiles were linked. *)
Section linked_up.
Context (sx sy : nat) (ml ml' : grid) (a b : pos) (d : Dir).
Hypothesis Hwf : wf_grid sx sy ml.
Hypothesis Ha : in_grid sx sy a.
Hypothesis Hstep : step_to sx sy d a = Some b.
Hypothesis Hup : linked_up ml ml' a d b.

Lemma linked_up_conns q :
    conns ml' q =
    if decide (q = a) then conns ml q ++ [d]
    else if decide (q = b) then conns ml q ++ [opposite d]
    else conns ml q.
  Proof using Hwf Ha Hstep Hup.
    pose proof (step_to_in_grid _ _ _ _ _ Hstep) as Hb.
    unfold conns. rewrite (Hup q). repeat case_decide; subst; try done.
    - destruct (proj2 (tile_at_in_grid _ _ _ _ Hwf) Ha) as [t ->]. done.
    - destruct (proj2 (tile_at_in_grid _ _ _ _ Hwf) Hb) as [t ->]. done.
  Qed.

Lemma linked_up_visited q : visited ml' q = visited ml q.
  Proof using Hup.
    unfold visited. rewrite (Hup q). repeat case_decide; try done; by destruct (tile_at ml q).
  Qed.

Lemma linked_up_role q : role ml' q = role ml q.
  Proof using Hup.
    unfold role. rewrite (Hup q). repeat case_decide; try done; by destruct (tile_at ml q).
  Qed.

Lemma linked_up_wf : wf_grid sx sy ml' → wf_grid sx sy ml'.
  Proof. done. Qed.

Lemma linked_up_old q c : c ∈ conns ml q → c ∈ conns ml' q.
  Proof using Hwf Ha Hstep Hup.
    rewrite linked_up_conns. repeat case_decide; set_solver.
  Qed.

Lemma linked_up_new q c :
    c ∈ conns ml' q → c ∈ conns ml q ∨ (q = a ∧ c = d) ∨ (q = b ∧ c = opposite d).
  Proof using Hwf Ha Hstep Hup.
    rewrite linked_up_conns. repeat case_decide; set_solver.
  Qed.

Lemma linked_up_a : d ∈ conns ml' a.
  Proof using Hwf Ha Hstep Hup. rewrite linked_up_conns, decide_True by done. set_solver. Qed.

Lemma linked_up_b : opposite d ∈ conns ml' b.
  Proof using Hwf Ha Hstep Hup.
    pose proof (step_to_ne _ _ _ _ _ Hstep) as Hne.
    rewrite linked_up_conns, decide_False, decide_True by done. set_solver.
  Qed.

Lemma linked_up_linked p q : linked sx sy ml p q → linked sx sy ml' p q.
  Proof using Hwf Ha Hstep Hup.
    intros (c & Hc & Hs & Ho). exists c. eauto using linked_up_old.
  Qed.

Lemma linked_up_rtc p q : rtc (linked sx sy ml) p q → rtc (linked sx sy ml') p q.
  Proof using Hwf Ha Hstep Hup.
    induction 1; [done|]. eapply rtc_l; [|done]. by apply linked_up_linked.
  Qed.

Lemma linked_up_ab : linked sx sy ml' a b ∧ linked sx sy ml' b a.
  Proof using Hwf Ha Hstep Hup.
    split.
    - exists d. eauto using linked_up_a, linked_up_b.
    - exists (opposite d). rewrite opposite_involutive.
      eauto using linked_up_a, linked_up_b, step_to_back.
  Qed.

  (** Symmetry and freedom from duplicates survive when the new direction
      was not there. *)
Lemma linked_up_symmetric :
    symmetric_conns sx sy ml → symmetric_conns sx sy ml'.
  Proof using Hwf Ha Hstep Hup.
    intros Hsym p c q Hp Hc Hs.
    apply linked_up_new in Hc as [Hc|[[-> ->]|[-> ->]]].
    - apply linked_up_old. eauto.
    - assert (q = b) as -> by congruence. apply linked_up_b.
    - assert (q = a) as ->.
      { pose proof (step_to_back _ _ _ _ _ Ha Hstep). congruence. }
      rewrite opposite_involutive. apply linked_up_a.
  Qed.

Lemma linked_up_no_duplicates :
    symmetric_conns sx sy ml → d ∉ conns ml a →
    no_duplicates sx sy ml → no_duplicates sx sy ml'.
  Proof using Hwf Ha Hstep Hup.
    intros Hsym Hd Hnd q Hq. rewrite linked_up_conns.
    pose proof (step_to_in_grid _ _ _ _ _ Hstep) as Hb.
    repeat case_decide; subst; [| |by apply Hnd].
    - apply NoDup_app. split; [by apply Hnd|]. split; [|apply NoDup_singleton].
      intros c Hc ->%list_elem_of_singleton. done.
    - apply NoDup_app. split; [by apply Hnd|]. split; [|apply NoDup_singleton].
      intros c Hc ->%list_elem_of_singleton.
      apply Hd. rewrite <- (opposite_involutive d).
      eapply Hsym; [exact Hb|exact Hc|]. eauto using step_to_back.
  Qed.

  (** The graph gains exactly one edge. *)
Lemma linked_up_num_edges :
    symmetric_conns sx sy ml → d ∉ conns ml a →
    num_edges sx sy ml' = S (num_edges sx sy ml).
  Proof using Hwf Ha Hstep Hup.
    intros Hsym Hd.
    pose proof (step_to_in_grid _ _ _ _ _ Hstep) as Hb.
    pose proof (step_to_back _ _ _ _ _ Ha Hstep) as Hback.
    set (e0 := if bool_decide (d = South ∨ d = East) then (a, d) else (b, opposite d)).
    assert (e0 = (a, d) ∨ e0 = (b, opposite d)) as He0.
    { unfold e0. case_bool_decide; auto. }
    assert (e0 ∈ edge_slots sx sy) as Hin.
    { apply elem_of_edge_slots. unfold e0. case_bool_decide; simpl; [done|].
      split; [done|]. destruct d; naive_solver. }
    unfold num_edges, edges.
    apply (length_filter_flip _ _ _ e0); [apply NoDup_edge_slots|done|..].
    - intros He. destruct He0 as [->| ->]; apply has_edge_true in He.
      + naive_solver.
      + destruct He as (_ & q & Hs & Ho). rewrite opposite_involutive in Ho.
        assert (q = a) as -> by congruence. done.
    - destruct He0 as [->| ->]; apply has_edge_true.
      + eauto using linked_up_a, linked_up_b.
      + rewrite opposite_involutive. eauto using linked_up_a, linked_up_b.
    - intros [p c] Hslot Hne. rewrite !has_edge_true.
      apply elem_of_edge_slots in Hslot as [Hp Hc]. simpl in *. split.
      + intros (Hc1 & q & Hs & Ho). eauto 6 using linked_up_old.
      + intros (Hc1 & q & Hs & Ho).
        assert (c ∈ conns ml p) as Hold.
        { apply linked_up_new in Hc1 as [?|[[-> ->]|[-> ->]]]; [done|..].
          - exfalso. apply Hne. unfold e0. by rewrite bool_decide_eq_true_2.
          - exfalso. apply Hne. unfold e0. rewrite bool_decide_eq_false_2; [done|].
            destruct d; naive_solver. }
        split; [done|]. exists q. split; [done|]. eauto.
  Qed.
End linked_up.


(** ** The random primitives, loops, and the lattice *)

(** Python primitives. *)
Lemma rnd_choice_elem {A} (g : Rng) (l : list A) :
  l ≠ [] → ∃ x, rnd_choice g l = (Some x, rng_next g) ∧ x ∈ l.
Proof.
  intros Hl. destruct l as [|a l]; [done|]. unfold rnd_choice, rnd_randbelow.
  assert (g 0 mod length (a :: l) < length (a :: l)) as Hlt.
  { apply Nat.mod_upper_bound. simpl. lia. }
  destruct (lookup_lt_is_Some_2 _ _ Hlt) as [x Hx].
  exists x. rewrite Hx. split; [done|]. by eapply list_elem_of_lookup_2.
Qed.

Lemma insert_swap_perm {A} (l : list A) (j : nat) (a b : A) :
  l !! j = Some b → a :: l ≡ₚ b :: <[j:=a]> l.
Proof.
  intros Hj. rewrite insert_take_drop by (by eapply lookup_lt_Some).
  rewrite <- (take_drop_middle l j b) at 1 by done.
  rewrite <- !Permutation_middle. apply perm_swap.
Qed.

Lemma swap_perm {A} (l : list A) (i j : nat) : swap l i j ≡ₚ l.
Proof.
  unfold swap. destruct (l !! i) as [a|] eqn:Hi; [|done].
  destruct (l !! j) as [b|] eqn:Hj; [|done].
  destruct (decide (i = j)) as [->|Hne].
  - assert (a = b) as -> by congruence.
    rewrite list_insert_insert_eq. by rewrite list_insert_id.
  - apply (inj (cons a)).
    rewrite <- (insert_swap_perm (<[j:=a]> l) i b a) by (by rewrite list_lookup_insert_ne).
    symmetry. by apply insert_swap_perm.
Qed.

Lemma shuffle_from_perm {A} (i : nat) (g : Rng) (l : list A) : (shuffle_from i g l).1 ≡ₚ l.
Proof.
  revert g l. induction i as [|i IH]; intros g l; [done|].
  simpl. rewrite IH. apply swap_perm.
Qed.

Lemma rnd_shuffle_perm {A} (g : Rng) (l : list A) : (rnd_shuffle g l).1 ≡ₚ l.
Proof. apply shuffle_from_perm. Qed.

Lemma list_pop_Some {A} (l l' : list A) (x : A) : list_pop l = Some (l', x) ↔ l = l' ++ [x].
Proof.
  unfold list_pop. split.
  - destruct (last l) as [y|] eqn:Hl; [|done]. intros [= <- <-].
    apply last_Some in Hl as [l'' ->]. by rewrite removelast_last.
  - intros ->. rewrite last_snoc. by rewrite removelast_last.
Qed.

Lemma list_pop_nonempty {A} (l : list A) : l ≠ [] → ∃ l' x, list_pop l = Some (l', x).
Proof.
  intros Hl. destruct (last l) as [x|] eqn:Hx.
  - unfold list_pop. rewrite Hx. eauto.
  - by apply last_None in Hx.
Qed.

Lemma list_remove_first_spec {A} `{EqDecision A} (x : A) (l : list A) :
  NoDup l → x ∈ l →
  ∃ l', list_remove_first x l = Some l' ∧ NoDup l' ∧ length l = S (length l') ∧
        ∀ y, y ∈ l' ↔ y ∈ l ∧ y ≠ x.
Proof.
  induction l as [|z l IH]; intros Hnd Hin; [by apply elem_of_nil in Hin|].
  apply NoDup_cons in Hnd as [Hz Hnd]. simpl. case_decide as Hxz.
  - subst z. exists l. split; [done|]. split; [done|]. split; [done|].
    intros y. rewrite elem_of_cons. split; [|naive_solver].
    intros Hy. split; [by right|]. by intros ->.
  - apply elem_of_cons in Hin as [->|Hin]; [done|].
    destruct (IH Hnd Hin) as (l' & -> & Hnd' & Hlen & Hiff). exists (z :: l'). simpl.
    split; [done|]. split; [|split; [lia|]].
    + apply NoDup_cons. split; [|done]. rewrite Hiff. tauto.
    + intros y. rewrite !elem_of_cons, Hiff. naive_solver.
Qed.

(** Loops. *)
Lemma while_loop_mono {St} cond (body : St → grid → Rng → loop_res St) fuel fuel' st ml g :
  fuel ≤ fuel' → while_loop fuel cond body st ml g ≠ Fuel →
  while_loop fuel' cond body st ml g = while_loop fuel cond body st ml g.
Proof.
  revert fuel' st ml g. induction fuel as [|fuel IH]; intros fuel' st ml g Hle Hne.
  - simpl in *. destruct fuel'; simpl; destruct (cond st); congruence.
  - destruct fuel' as [|fuel']; [lia|]. simpl in *. destruct (cond st); [|done].
    destruct (body st ml g); try congruence. apply IH; [lia|done].
Qed.

Lemma while_loop_total {St} (Inv : St → grid → Prop) (measure : St → grid → nat)
    cond (body : St → grid → Rng → loop_res St) :
  (∀ st ml g, Inv st ml → cond st = true →
     ∃ st' ml' g', body st ml g = Done st' ml' g' ∧ Inv st' ml' ∧
                   measure st' ml' < measure st ml) →
  ∀ fuel st ml g, Inv st ml → measure st ml ≤ fuel →
    ∃ st' ml' g', while_loop fuel cond body st ml g = Done st' ml' g' ∧
                  Inv st' ml' ∧ cond st' = false.
Proof.
  intros Hbody. induction fuel as [|fuel IH]; intros st ml g Hinv Hm.
  - simpl. destruct (cond st) eqn:Hc; [|by eauto 10].
    destruct (Hbody st ml g Hinv Hc) as (? & ? & ? & _ & _ & ?). lia.
  - simpl. destruct (cond st) eqn:Hc; [|by eauto 10].
    destruct (Hbody st ml g Hinv Hc) as (st' & ml' & g' & -> & Hinv' & Hlt).
    apply IH; [done|lia].
Qed.

Lemma while_loop_partial {St} (Inv : St → grid → Prop) (measure : St → grid → nat)
    cond (body : St → grid → Rng → loop_res St) :
  (∀ st ml g, Inv st ml → cond st = true →
     ∃ st' ml' g', body st ml g = Done st' ml' g' ∧ Inv st' ml' ∧
                   measure st' ml' < measure st ml) →
  ∀ fuel st ml g st' ml' g', Inv st ml →
    while_loop fuel cond body st ml g = Done st' ml' g' → Inv st' ml' ∧ cond st' = false.
Proof.
  intros Hbody fuel st ml g st' ml' g' Hinv Hrun.
  destruct (while_loop_total Inv measure cond body Hbody (fuel `max` measure st ml) st ml g Hinv)
    as (st2 & ml2 & g2 & Hrun2 & Hinv2 & Hc2); [lia|].
  rewrite (while_loop_mono cond body fuel) in Hrun2; [|lia|by rewrite Hrun].
  rewrite Hrun in Hrun2. by simplify_eq.
Qed.

(** The lattice is connected by steps. *)
Lemma lattice_closed sx sy (V : pos → Prop) (start : pos) :
  in_grid sx sy start → V start →
  (∀ p d q, in_grid sx sy p → V p → step_to sx sy d p = Some q → V q) →
  ∀ p, in_grid sx sy p → V p.
Proof.
  intros Hs0 Hv0 Hcl.
  assert (∀ n p, in_grid sx sy p →
    (p.1 - start.1) + (start.1 - p.1) + (p.2 - start.2) + (start.2 - p.2) = n → V p) as H.
  { induction n as [n IH] using lt_wf_ind. intros [x y] Hp Hn.
    destruct start as [x0 y0]. unfold in_grid in *. simpl in *.
    destruct (decide (x0 < x)).
    { apply (Hcl (x - 1, y) East); [simpl; lia| |step_cases; repeat f_equal; lia].
      apply (IH (n - 1)); simpl; lia. }
    destruct (decide (x < x0)).
    { apply (Hcl (x + 1, y) West); [simpl; lia| |step_cases; repeat f_equal; lia].
      apply (IH (n - 1)); simpl; lia. }
    destruct (decide (y0 < y)).
    { apply (Hcl (x, y - 1) South); [simpl; lia| |step_cases; repeat f_equal; lia].
      apply (IH (n - 1)); simpl; lia. }
    destruct (decide (y < y0)).
    { apply (Hcl (x, y + 1) North); [simpl; lia| |step_cases; repeat f_equal; lia].
      apply (IH (n - 1)); simpl; lia. }
    assert (x = x0) as -> by lia. assert (y = y0) as -> by lia. done. }
  intros p Hp. by eapply H.
Qed.


(** ** Growing the tree by one tile *)

(** The graph notions only look at the connection lists. *)
Section same_conns.
Context (sx sy : nat) (ml1 ml2 : grid).
Hypothesis Hsame : ∀ q, conns ml2 q = conns ml1 q.

Lemma same_conns_symmetric : symmetric_conns sx sy ml1 → symmetric_conns sx sy ml2.
  Proof using Hsame. intros H p d q. rewrite !Hsame. apply H. Qed.

Lemma same_conns_no_duplicates : no_duplicates sx sy ml1 → no_duplicates sx sy ml2.
  Proof using Hsame. intros H p. rewrite Hsame. apply H. Qed.

Lemma same_conns_linked p q : linked sx sy ml1 p q → linked sx sy ml2 p q.
  Proof using Hsame. intros (d & ? & ? & ?). exists d. by rewrite !Hsame. Qed.

Lemma same_conns_rtc p q : rtc (linked sx sy ml1) p q → rtc (linked sx sy ml2) p q.
  Proof using Hsame.
    induction 1; [done|]. eapply rtc_l; [|done]. by apply same_conns_linked.
  Qed.

Lemma same_conns_has_edge e : has_edge sx sy ml2 e = has_edge sx sy ml1 e.
  Proof using Hsame.
    unfold has_edge. rewrite Hsame. destruct (step_to sx sy e.2 e.1); [|done].
    by rewrite Hsame.
  Qed.

Lemma same_conns_num_edges : num_edges sx sy ml2 = num_edges sx sy ml1.
  Proof using Hsame.
    unfold num_edges, edges. apply length_filter_ext. intros e _.
    by rewrite same_conns_has_edge.
  Qed.
End same_conns.

Lemma length_all_pos sx sy : length (all_pos sx sy) = sx * sy.
Proof.
  unfold all_pos.
  assert (∀ j, length (seq j sy ≫= λ y, (λ x, (x, y)) <$> seq 0 sx) = sx * sy) as H; [|done].
  induction sy as [|sy IH]; intros j.
  - simpl. lia.
  - simpl. rewrite length_app, length_fmap, length_seq, IH. lia.
Qed.

Lemma num_visited_le sx sy ml : num_visited sx sy ml ≤ sx * sy.
Proof.
  unfold num_visited. etrans; [apply length_filter|]. by rewrite length_all_pos.
Qed.

Lemma tree_grow sx sy start ml ml' a d b :
  tree_inv sx sy start ml → in_grid sx sy a → visited ml a = false →
  step_to sx sy d a = Some b → visited ml b = true → wf_grid sx sy ml' →
  linked_up (upd_tile mark_workedOn a ml) ml' a d b →
  tree_inv sx sy start ml' ∧
  (∀ q, visited ml' q = if decide (q = a) then true else visited ml q) ∧
  num_visited sx sy ml' = S (num_visited sx sy ml).
Proof.
  intros Hinv Ha Hva Hstep Hvb Hwf' Hup.
  destruct Hinv as [Hwf [Hs0 Hvs0] Hinner Hsym Hnd Hfresh Hreach Hcount Hrole].
  set (ml1 := upd_tile mark_workedOn a ml) in *.
  assert (wf_grid sx sy ml1) as Hwf1 by (apply wf_grid_upd; [apply keeps_place_mark|done]).
  assert (∀ q, conns ml1 q = conns ml q) as Hc1 by (intros q; apply conns_upd_mark).
  pose proof (step_to_in_grid _ _ _ _ _ Hstep) as Hb.
  pose proof (step_to_ne _ _ _ _ _ Hstep) as Hne.
  assert (d ∉ conns ml1 a) as Hd.
  { rewrite Hc1, (Hfresh a) by done. apply not_elem_of_nil. }
  assert (symmetric_conns sx sy ml1) as Hsym1 by (by apply (same_conns_symmetric _ _ ml)).
  assert (∀ q, visited ml' q = if decide (q = a) then true else visited ml q) as Hvis.
  { intros q. rewrite (linked_up_visited _ ml' a b d Hup). unfold ml1.
    rewrite visited_upd_mark. repeat case_decide; simplify_eq; try done.
    rewrite (has_tile_in_grid sx sy) by done. by apply bool_decide_eq_true. }
  assert (num_visited sx sy ml' = S (num_visited sx sy ml)) as Hnv.
  { unfold num_visited.
    apply (length_filter_flip _ _ _ a); [apply NoDup_all_pos|by apply elem_of_all_pos|..].
    - by rewrite Hva.
    - by rewrite Hvis, decide_True.
    - intros q _ Hq. by rewrite Hvis, decide_False. }
  split; [|done]. split.
  - done.
  - split; [done|]. rewrite Hvis. by case_decide.
  - intros p c Hp Hc.
    apply (linked_up_new sx sy ml1 ml' a b d) in Hc as [Hc|[[Hp1 Hc2]|[Hp1 Hc2]]]; try done.
    + rewrite Hc1 in Hc. eauto.
    + by rewrite Hp1, Hc2, Hstep.
    + by rewrite Hp1, Hc2, (step_to_back _ _ _ _ _ Ha Hstep).
  - by apply (linked_up_symmetric sx sy ml1 ml' a b d).
  - apply (linked_up_no_duplicates sx sy ml1 ml' a b d); try done.
    by apply (same_conns_no_duplicates _ _ ml).
  - intros p Hp Hvp. rewrite Hvis in Hvp. case_decide; [subst; done|].
    assert (p ≠ b) by (intros ->; congruence).
    rewrite (linked_up_conns sx sy ml1 ml' a b d) by done.
    rewrite !decide_False by done. rewrite Hc1. eauto.
  - intros p Hp Hvp. rewrite Hvis in Hvp.
    assert (∀ q, rtc (linked sx sy ml) start q → rtc (linked sx sy ml') start q) as Hlift.
    { intros q Hq. apply (linked_up_rtc sx sy ml1 ml' a b d); try done.
      by apply (same_conns_rtc _ _ ml). }
    case_decide.
    + subst p. apply rtc_r with b; [apply Hlift, Hreach; done|].
      by apply (linked_up_ab sx sy ml1 ml' a b d).
    + apply Hlift. eauto.
  - rewrite (linked_up_num_edges sx sy ml1 ml' a b d) by done.
    rewrite (same_conns_num_edges _ _ ml) by done. lia.
  - intros p. rewrite (linked_up_role _ ml' a b d Hup). unfold ml1.
    by rewrite role_upd_mark.
Qed.


(** ** The frontier loop of makeMazeSimple *)

Lemma workedOn_deref sx sy ml p :
  wf_grid sx sy ml → in_grid sx sy p → workedOn (deref ml p) = visited ml p.
Proof.
  intros Hwf Hp. destruct (deref_in_grid _ _ _ _ Hwf Hp) as (Ht & _).
  unfold visited. by rewrite Ht.
Qed.

Lemma nonempty_true {A} (l : list A) : nonempty l = true ↔ l ≠ [].
Proof. by destruct l. Qed.

Lemma simple_body_ok sx sy start fl ml g :
  prim_inv sx sy start fl ml → nonempty fl = true →
  ∃ fl' ml' g', simple_body fl ml g = Done fl' ml' g' ∧ prim_inv sx sy start fl' ml' ∧
                unvisited_count sx sy ml' < unvisited_count sx sy ml.
Proof.
  intros (Hinv & Hnd & Hfront & Hcomplete) Hne. apply nonempty_true in Hne.
  pose proof (ti_wf _ _ _ _ Hinv) as Hwf.
  unfold simple_body.
  pose proof (rnd_shuffle_perm g fl) as Hperm.
  destruct (rnd_shuffle g fl) as [sh g1]. simpl in Hperm.
  assert (sh ≠ []) as Hsh.
  { intros ->. apply Permutation_nil_l in Hperm. done. }
  destruct (list_pop_nonempty sh Hsh) as (fl1 & t & Hpop). rewrite Hpop.
  apply list_pop_Some in Hpop. subst sh.
  assert (t ∈ fl) as Ht by (rewrite <- Hperm; set_solver).
  assert (NoDup (fl1 ++ [t])) as Hnd1 by (by rewrite Hperm).
  apply NoDup_app in Hnd1 as (Hnd1 & Hdisj & _).
  assert (t ∉ fl1) as Htfl1 by (intros ?; eapply Hdisj; [done|set_solver]).
  destruct (Hfront t Ht) as (Hin & Hvt & d0 & q0 & Hs0 & Hv0).
  set (ml1 := upd_tile mark_workedOn t ml).
  assert (wf_grid sx sy ml1) as Hwf1 by (apply wf_grid_upd; [apply keeps_place_mark|done]).
  destruct (deref_in_grid _ _ _ _ Hwf1 Hin) as (_ & -> & ->).
  rewrite (getNextTiles_spec sx sy) by done.
  assert (∀ q, q ∈ neighbours sx sy t →
            in_grid sx sy q ∧ q ≠ t ∧ workedOn (deref ml1 q) = visited ml q) as Hnb.
  { intros q (d & Hd)%elem_of_neighbours.
    pose proof (step_to_in_grid _ _ _ _ _ Hd) as Hq.
    pose proof (step_to_ne _ _ _ _ _ Hd) as Hqt.
    split; [done|]. split; [done|].
    rewrite (workedOn_deref sx sy) by done. unfold ml1. rewrite visited_upd_mark.
    by rewrite decide_False. }
  set (workedOnList := filter (λ t0, workedOn (deref ml1 t0) = true) (neighbours sx sy t)).
  set (newFront := filter (λ t0, workedOn (deref ml1 t0) = false ∧ t0 ∉ fl1) (neighbours sx sy t)).
  assert (∀ c, c ∈ workedOnList → ∃ d, step_to sx sy d t = Some c ∧ visited ml c = true) as Hwl.
  { intros c [Hw Hc]%list_elem_of_filter. destruct (Hnb c Hc) as (_ & _ & Heq).
    apply elem_of_neighbours in Hc as [d Hd]. exists d. split; [done|]. congruence. }
  assert (q0 ∈ workedOnList) as Hq0.
  { apply list_elem_of_filter. assert (q0 ∈ neighbours sx sy t) as Hq0.
    { apply elem_of_neighbours. eauto. }
    split; [|done]. destruct (Hnb q0 Hq0) as (_ & _ & ->). done. }
  assert (∀ c, c ∈ workedOnList →
    prim_inv sx sy start (fl1 ++ newFront) (connectTiles ml1 t c) ∧
    unvisited_count sx sy (connectTiles ml1 t c) < unvisited_count sx sy ml) as Hstep.
  { intros c Hc. destruct (Hwl c Hc) as (d & Hd & Hvc).
    pose proof (connectTiles_linked_up sx sy ml1 t d c Hwf1 Hin Hd) as Hup.
    pose proof (wf_connectTiles sx sy ml1 t c Hwf1) as Hwf'.
    destruct (tree_grow sx sy start ml _ t d c Hinv Hin Hvt Hd Hvc Hwf' Hup)
      as (Hinv' & Hvis & Hnv).
    split.
    - split; [done|]. split; [|split].
      + apply NoDup_app. split; [done|]. split.
        * intros p Hp [[_ Hp'] _]%list_elem_of_filter. done.
        * apply NoDup_filter, NoDup_neighbours.
      + intros p [Hp|Hp]%elem_of_app.
        * assert (p ∈ fl) as Hpfl by (rewrite <- Hperm; set_solver).
          destruct (Hfront p Hpfl) as (Hpin & Hvp & d1 & q1 & Hs1 & Hv1).
          assert (p ≠ t) by (intros ->; done).
          split; [done|]. rewrite !Hvis. rewrite decide_False by done.
          split; [done|]. exists d1, q1. split; [done|]. rewrite Hvis. by case_decide.
        * apply list_elem_of_filter in Hp as [[Hw _] Hp].
          destruct (Hnb p Hp) as (Hpin & Hpt & Heq).
          split; [done|]. rewrite !Hvis, decide_False by done.
          split; [congruence|].
          apply elem_of_neighbours in Hp as [d1 Hd1].
          exists (opposite d1), t. split; [by eapply step_to_back|].
          by rewrite Hvis, decide_True.
      + intros p d1 q Hpin Hvp Hs1 Hvq. rewrite Hvis in Hvp, Hvq.
        destruct (decide (p = t)) as [|Hpt]; [done|]. apply elem_of_app.
        destruct (decide (p ∈ fl1)) as [|Hpfl1]; [by left|right].
        destruct (decide (q = t)) as [|Hqt].
        * subst q. apply list_elem_of_filter.
          assert (p ∈ neighbours sx sy t) as Hpn.
          { apply elem_of_neighbours. exists (opposite d1). by eapply step_to_back. }
          destruct (Hnb p Hpn) as (_ & _ & Heq). split; [|done]. split; [congruence|done].
        * exfalso. apply Hpfl1.
          assert (p ∈ fl1 ++ [t]) as Hp' by (rewrite Hperm; eauto).
          apply elem_of_app in Hp' as [|Hp']; [done|].
          by apply list_elem_of_singleton in Hp'.
    - unfold unvisited_count. rewrite Hnv.
      pose proof (num_visited_le sx sy (connectTiles ml1 t c)). lia. }
  case_bool_decide as Hlen.
  - destruct (rnd_choice_elem g1 workedOnList) as (c & -> & Hc).
    { intros Heq. rewrite Heq in Hlen. simpl in Hlen. lia. }
    destruct (Hstep c Hc). eauto 10.
  - destruct workedOnList as [|c wl] eqn:Hwleq; [by apply elem_of_nil in Hq0|].
    simpl. assert (c ∈ c :: wl) as Hc by left.
    destruct (Hstep c Hc). eauto 10.
Qed.


(** ** The loop of makeMazeGrowTree *)

Lemma growtree_body_ok sx sy start wh wl cl ml g :
  grow_inv sx sy start cl ml → nonempty cl = true →
  ∃ cl' ml' g', growtree_body wh wl cl ml g = Done cl' ml' g' ∧
                grow_inv sx sy start cl' ml' ∧
                grow_measure sx sy cl' ml' < grow_measure sx sy cl ml.
Proof.
  intros (Hinv & Hnd & Hin & Hcomplete) Hne. apply nonempty_true in Hne.
  pose proof (ti_wf _ _ _ _ Hinv) as Hwf.
  unfold growtree_body. destruct (rnd_random g) as [choice_ g1].
  set (pick := if draw_le choice_ wl then (last cl, g1)
               else if negb (draw_le choice_ wl) && draw_lt choice_ wh
                    then rnd_choice g1 cl else (head cl, g1)).
  assert (∃ n g2, pick = (Some n, g2) ∧ n ∈ cl) as (n & g2 & -> & Hn).
  { unfold pick. repeat case_match.
    - destruct (last cl) as [n|] eqn:Hl; [|by apply last_None in Hl].
      exists n, g1. split; [done|]. by eapply last_Some_elem_of.
    - destruct (rnd_choice_elem g1 cl Hne) as (n & -> & ?). eauto.
    - destruct cl as [|n cl']; [done|]. exists n, g1. split; [done|]. left. }
  destruct (Hin n Hn) as (Hnin & Hvn).
  destruct (deref_in_grid _ _ _ _ Hwf Hnin) as (_ & -> & ->).
  rewrite (getNextTiles_spec sx sy) by done.
  set (neiList := filter (λ t, workedOn (deref ml t) = false) (neighbours sx sy n)).
  assert (∀ c, c ∈ neiList ↔ ∃ d, step_to sx sy d n = Some c ∧ visited ml c = false) as Hnei.
  { intros c. unfold neiList. rewrite list_elem_of_filter, elem_of_neighbours. split.
    - intros (Hw & d & Hd). exists d. split; [done|].
      by rewrite <- (workedOn_deref sx sy) by eauto using step_to_in_grid.
    - intros (d & Hd & Hv). split; [|eauto].
      by rewrite (workedOn_deref sx sy) by eauto using step_to_in_grid. }
  destruct (nonempty neiList) eqn:Hnon.
  - apply nonempty_true in Hnon.
    destruct (rnd_choice_elem g2 neiList Hnon) as (c & -> & Hc).
    apply Hnei in Hc as (d & Hd & Hvc).
    pose proof (step_to_in_grid _ _ _ _ _ Hd) as Hcin.
    pose proof (step_to_back _ _ _ _ _ Hnin Hd) as Hback.
    set (ml1 := upd_tile mark_workedOn c ml).
    assert (wf_grid sx sy ml1) as Hwf1 by (apply wf_grid_upd; [apply keeps_place_mark|done]).
    pose proof (connectTiles_linked_up_rev sx sy ml1 c (opposite d) n Hwf1 Hcin Hback) as Hup.
    pose proof (wf_connectTiles sx sy ml1 n c Hwf1) as Hwf'.
    destruct (tree_grow sx sy start ml _ c (opposite d) n Hinv Hcin Hvc Hback Hvn Hwf' Hup)
      as (Hinv' & Hvis & Hnv).
    eexists _, _, _. split; [done|]. split.
    + split; [done|]. split; [|split].
      * apply NoDup_app. split; [done|]. split; [|apply NoDup_singleton].
        intros p Hp ->%list_elem_of_singleton. destruct (Hin c Hp). congruence.
      * intros p [Hp|Hp]%elem_of_app.
        -- destruct (Hin p Hp). split; [done|]. rewrite Hvis. by case_decide.
        -- apply list_elem_of_singleton in Hp as ->.
           split; [done|]. by rewrite Hvis, decide_True.
      * intros p d1 q Hpin Hvp Hs1 Hvq. rewrite Hvis in Hvp, Hvq. apply elem_of_app.
        destruct (decide (q = c)); [done|].
        destruct (decide (p = c)) as [->|]; [right; by apply list_elem_of_singleton|].
        left. eauto.
    + unfold grow_measure, unvisited_count. rewrite Hnv, length_app. simpl.
      pose proof (num_visited_le sx sy (connectTiles ml1 n c)). lia.
  - assert (neiList = []) as Hnil by (by destruct neiList).
    destruct (list_remove_first_spec n cl Hnd Hn) as (cl' & -> & Hnd' & Hlen & Hiff).
    eexists _, _, _. split; [done|]. split.
    + split; [done|]. split; [done|]. split.
      * intros p Hp. apply Hin. by apply Hiff.
      * intros p d1 q Hpin Hvp Hs1 Hvq. apply Hiff. split; [eauto|].
        intros ->. assert (q ∈ neiList) as Hq by (apply Hnei; eauto).
        rewrite Hnil in Hq. by apply elem_of_nil in Hq.
    + unfold grow_measure. lia.
Qed.


(** ** Both growth loops end in a spanning tree *)

Lemma choose_start_ok sx sy ml g :
  wf_grid sx sy ml → 1 ≤ sx → 1 ≤ sy →
  ∃ s, choose_start ml g = (Some s, rng_next (rng_next g)) ∧ in_grid sx sy s.
Proof.
  intros (Hlen & Hrows & _) Hsx Hsy. unfold choose_start, rnd_randbelow.
  destruct ml as [|r0 ml0] eqn:Hml; [simpl in Hlen; lia|]. rewrite <- Hml in *.
  assert (g 0 mod length ml < length ml) as Hy by (apply Nat.mod_upper_bound; lia).
  destruct (lookup_lt_is_Some_2 _ _ Hy) as [row Hrow]. rewrite Hrow.
  pose proof (Hrows _ _ Hrow) as Hlr.
  destruct row as [|t row'] eqn:Hr; [simpl in Hlr; lia|]. rewrite <- Hr in *.
  eexists. split; [done|]. split; simpl.
  - rewrite Hlr. apply Nat.mod_upper_bound. lia.
  - lia.
Qed.

Lemma length_filter_none {A} (P : A → Prop) `{!∀ x, Decision (P x)} (l : list A) :
  (∀ x, x ∈ l → ¬ P x) → length (filter P l) = 0.
Proof.
  induction l as [|x l IH]; intros Hall; [done|]. rewrite filter_cons.
  rewrite decide_False by (apply Hall; left). apply IH. intros y Hy. apply Hall. by right.
Qed.

Lemma length_filter_all {A} (P : A → Prop) `{!∀ x, Decision (P x)} (l : list A) :
  (∀ x, x ∈ l → P x) → length (filter P l) = length l.
Proof.
  induction l as [|x l IH]; intros Hall; [done|]. rewrite filter_cons.
  rewrite decide_True by (apply Hall; left). simpl. f_equal. apply IH.
  intros y Hy. apply Hall. by right.
Qed.

Lemma conns_new_rows sx sy p : conns (new_rows sx sy) p = [].
Proof. unfold conns. rewrite tile_at_new_rows. by case_decide. Qed.

Lemma visited_new_rows sx sy p : visited (new_rows sx sy) p = false.
Proof. unfold visited. rewrite tile_at_new_rows. by case_decide. Qed.

Lemma role_new_rows sx sy p : role (new_rows sx sy) p = None.
Proof. unfold role. rewrite tile_at_new_rows. by case_decide. Qed.

Lemma init_tree_inv sx sy s :
  in_grid sx sy s →
  let ml1 := upd_tile mark_workedOn s (new_rows sx sy) in
  tree_inv sx sy s ml1 ∧ (∀ q, visited ml1 q = bool_decide (q = s)) ∧
  num_visited sx sy ml1 = 1.
Proof.
  intros Hs ml1.
  assert (wf_grid sx sy ml1) as Hwf.
  { apply wf_grid_upd; [apply keeps_place_mark|apply wf_new_rows]. }
  assert (∀ q, conns ml1 q = []) as Hc.
  { intros q. unfold ml1. by rewrite conns_upd_mark, conns_new_rows. }
  assert (∀ q, visited ml1 q = bool_decide (q = s)) as Hv.
  { intros q. unfold ml1. rewrite visited_upd_mark. case_decide as Hq.
    - subst q. rewrite bool_decide_eq_true_2 by done.
      rewrite (has_tile_in_grid sx sy) by apply wf_new_rows. by apply bool_decide_eq_true.
    - rewrite visited_new_rows. symmetry. apply bool_decide_eq_false. by intros ->. }
  assert (num_visited sx sy ml1 = 1) as Hnv.
  { unfold num_visited.
    rewrite (length_filter_flip (λ p, visited (new_rows sx sy) p = true) _ _ s).
    - f_equal. apply length_filter_none. intros q _. by rewrite visited_new_rows.
    - apply NoDup_all_pos.
    - by apply elem_of_all_pos.
    - by rewrite visited_new_rows.
    - rewrite Hv. by apply bool_decide_eq_true.
    - intros q _ Hq. rewrite Hv, visited_new_rows.
      rewrite bool_decide_eq_false_2 by done. done. }
  split; [|done]. split; try done.
  - split; [done|]. rewrite Hv. by apply bool_decide_eq_true.
  - intros p d _. rewrite Hc. by intros ?%elem_of_nil.
  - intros p d q _. rewrite Hc. by intros ?%elem_of_nil.
  - intros p _. rewrite Hc. apply NoDup_nil_2.
  - intros p _. rewrite Hv. intros ->%bool_decide_eq_true. done.
  - rewrite Hnv. unfold num_edges, edges. rewrite length_filter_none; [done|].
    intros [p d] _. intros (Hd & _)%has_edge_true. rewrite Hc in Hd. by apply elem_of_nil in Hd.
  - intros p. unfold ml1. by rewrite role_upd_mark, role_new_rows.
Qed.

Lemma linked_sym sx sy ml p q :
  in_grid sx sy p → linked sx sy ml p q → linked sx sy ml q p.
Proof.
  intros Hp (d & Hd & Hs & Ho). exists (opposite d). rewrite opposite_involutive.
  eauto using step_to_back.
Qed.

Lemma linked_in_grid sx sy ml p q : linked sx sy ml p q → in_grid sx sy q.
Proof. intros (d & _ & Hs & _). by eapply step_to_in_grid. Qed.

Lemma rtc_linked_sym sx sy ml p q :
  in_grid sx sy p → rtc (linked sx sy ml) p q → rtc (linked sx sy ml) q p.
Proof.
  intros Hp H. induction H as [|p q r Hpq Hqr IH]; [done|].
  eapply rtc_r; [apply IH; by eapply linked_in_grid|]. by apply linked_sym.
Qed.

Lemma tree_complete sx sy start ml :
  tree_inv sx sy start ml → (∀ p, in_grid sx sy p → visited ml p = true) →
  grown_inv sx sy ml.
Proof.
  intros [Hwf [Hs0 Hvs0] Hinner Hsym Hnd Hfresh Hreach Hcount Hrole] Hall.
  split; try done.
  - intros p q Hp Hq. trans start.
    + apply rtc_linked_sym; [done|]. apply Hreach; eauto.
    + apply Hreach; eauto.
  - rewrite Hcount. unfold num_visited. rewrite length_filter_all.
    + apply length_all_pos.
    + intros p Hp. apply Hall. by apply elem_of_all_pos.
Qed.

Lemma prim_done sx sy start ml :
  prim_inv sx sy start [] ml → grown_inv sx sy ml.
Proof.
  intros (Hinv & _ & _ & Hcomplete). apply (tree_complete _ _ start); [done|].
  destruct (ti_start _ _ _ _ Hinv) as [Hs Hvs].
  apply (lattice_closed sx sy (λ p, visited ml p = true) start); try done.
  intros p d q Hp Hvp Hstep. destruct (visited ml q) eqn:Hvq; [done|].
  exfalso. eapply elem_of_nil. eapply (Hcomplete q (opposite d) p); eauto using step_to_in_grid, step_to_back.
Qed.

Lemma grow_done sx sy start ml :
  grow_inv sx sy start [] ml → grown_inv sx sy ml.
Proof.
  intros (Hinv & _ & _ & Hcomplete). apply (tree_complete _ _ start); [done|].
  destruct (ti_start _ _ _ _ Hinv) as [Hs Hvs].
  apply (lattice_closed sx sy (λ p, visited ml p = true) start); try done.
  intros p d q Hp Hvp Hstep. destruct (visited ml q) eqn:Hvq; [done|].
  exfalso. eapply elem_of_nil. eapply (Hcomplete p d q); eauto.
Qed.

Lemma prim_init sx sy s :
  in_grid sx sy s →
  prim_inv sx sy s (neighbours sx sy s) (upd_tile mark_workedOn s (new_rows sx sy)).
Proof.
  intros Hs. destruct (init_tree_inv sx sy s Hs) as (Hinv & Hv & _).
  split; [done|]. split; [apply NoDup_neighbours|]. split.
  - intros p (d & Hd)%elem_of_neighbours.
    split; [by eapply step_to_in_grid|]. split.
    + rewrite Hv. apply bool_decide_eq_false. intros ->. by eapply step_to_ne.
    + exists (opposite d), s. split; [by eapply step_to_back|].
      rewrite Hv. by apply bool_decide_eq_true.
  - intros p d q Hp Hvp Hstep Hvq. rewrite Hv in Hvq. apply bool_decide_eq_true in Hvq.
    subst q. apply elem_of_neighbours. exists (opposite d). by eapply step_to_back.
Qed.

Lemma grow_init sx sy s :
  in_grid sx sy s →
  grow_inv sx sy s [s] (upd_tile mark_workedOn s (new_rows sx sy)).
Proof.
  intros Hs. destruct (init_tree_inv sx sy s Hs) as (Hinv & Hv & _).
  split; [done|]. split; [apply NoDup_singleton|]. split.
  - intros p ->%list_elem_of_singleton. split; [done|].
    rewrite Hv. by apply bool_decide_eq_true.
  - intros p d q Hp Hvp _ _. rewrite Hv in Hvp. apply bool_decide_eq_true in Hvp.
    subst. by apply list_elem_of_singleton.
Qed.

(** The growth loop of both algorithms ends, and leaves a spanning tree. *)
Lemma growth_total a sx sy nm sw ew g :
  1 ≤ sx → 1 ≤ sy →
  ∃ ml g', (∀ fuel, 2 * (sx * sy) ≤ fuel →
              growth a fuel (fresh_maze sx sy nm sw ew) g = Done [] ml g') ∧
           grown_inv sx sy ml.
Proof.
  intros Hsx Hsy.
  destruct (choose_start_ok sx sy (new_rows sx sy) g (wf_new_rows sx sy) Hsx Hsy)
    as (s & Hcs & Hs).
  destruct (init_tree_inv sx sy s Hs) as (Hinv0 & Hv0 & Hnv0).
  destruct a as [|wh wl]; simpl; unfold simple_growth, growtree_growth; simpl; rewrite Hcs.
  - set (ml1 := upd_tile mark_workedOn s (new_rows sx sy)).
    assert (wf_grid sx sy ml1) as Hwf1 by apply Hinv0.
    destruct (deref_in_grid _ _ _ _ Hwf1 Hs) as (_ & -> & ->).
    rewrite (getNextTiles_spec sx sy) by done.
    destruct (while_loop_total (prim_inv sx sy s) (λ _ ml, unvisited_count sx sy ml)
                nonempty simple_body (λ st ml g, simple_body_ok sx sy s st ml g)
                (2 * (sx * sy)) (neighbours sx sy s) ml1 (rng_next (rng_next g))
                (prim_init sx sy s Hs)) as (st & ml & g' & Hrun & Hinv & Hc).
    { unfold unvisited_count. lia. }
    assert (st = []) as -> by (by destruct st).
    exists ml, g'. split; [|by eapply prim_done].
    intros fuel Hfuel. rewrite (while_loop_mono _ _ (2 * (sx * sy))); [done|done|].
    by rewrite Hrun.
  - set (ml1 := upd_tile mark_workedOn s (new_rows sx sy)).
    destruct (while_loop_total (grow_inv sx sy s) (grow_measure sx sy)
                nonempty (growtree_body wh wl)
                (λ st ml g, growtree_body_ok sx sy s wh wl st ml g)
                (2 * (sx * sy)) [s] ml1 (rng_next (rng_next g))
                (grow_init sx sy s Hs)) as (st & ml & g' & Hrun & Hinv & Hc).
    { unfold grow_measure, unvisited_count, ml1. rewrite Hnv0. simpl. lia. }
    assert (st = []) as -> by (by destruct st).
    exists ml, g'. split; [|by eapply grow_done].
    intros fuel Hfuel. rewrite (while_loop_mono _ _ (2 * (sx * sy))); [done|done|].
    by rewrite Hrun.
Qed.

Lemma growth_mono a fuel fuel' m g :
  fuel ≤ fuel' → growth a fuel m g ≠ Fuel → growth a fuel' m g = growth a fuel m g.
Proof.
  intros Hle. destruct a; simpl; unfold simple_growth, growtree_growth;
    destruct (choose_start _ g) as [[s|] g1]; try done; by apply while_loop_mono.
Qed.

Lemma growth_partial a sx sy nm sw ew g fuel st ml g' :
  1 ≤ sx → 1 ≤ sy →
  growth a fuel (fresh_maze sx sy nm sw ew) g = Done st ml g' → grown_inv sx sy ml.
Proof.
  intros Hsx Hsy Hrun.
  destruct (growth_total a sx sy nm sw ew g Hsx Hsy) as (ml2 & g2 & Htot & Hinv).
  specialize (Htot (fuel `max` (2 * (sx * sy))) ltac:(lia)).
  rewrite (growth_mono a fuel) in Htot; [|lia|by rewrite Hrun].
  rewrite Hrun in Htot. by simplify_eq.
Qed.


(** ** Boundary placement *)

Lemma rnd_choice_Some {A} (g g' : Rng) (l : list A) (x : A) :
  rnd_choice g l = (Some x, g') → x ∈ l ∧ g' = rng_next g.
Proof.
  destruct l as [|a l]; [done|]. unfold rnd_choice, rnd_randbelow.
  intros [= Hx <-]. split; [|done]. by eapply list_elem_of_lookup_2.
Qed.

Lemma pick_entry_exit_done fuel starts ends ml g e x ml' g' :
  pick_entry_exit fuel starts ends ml g = Done (e, x) ml' g' →
  e ∈ starts ∧ x ∈ ends ∧ e ≠ x ∧ ml' = ml.
Proof.
  revert g. induction fuel as [|fuel IH]; intros g; [done|]. simpl.
  destruct (rnd_choice g starts) as [[e1|] g1] eqn:H1; [|done].
  destruct (rnd_choice g1 ends) as [[x1|] g2] eqn:H2; [|done].
  case_decide as Hne; [|apply IH].
  intros [= <- <- <- <-]. apply rnd_choice_Some in H1 as [? _], H2 as [? _]. done.
Qed.

Lemma elem_of_range a b i : i ∈ range a b ↔ a ≤ i < b.
Proof. unfold range. rewrite elem_of_seq. lia. Qed.

Lemma get_wall_tiles_boundary sx sy w p :
  1 ≤ sx → 1 ≤ sy → p ∈ get_wall_tiles sx sy w → on_boundary sx sy p.
Proof.
  intros Hsx Hsy. unfold on_boundary, in_grid.
  destruct w; simpl; rewrite ?elem_of_app, !list_elem_of_fmap;
    intros H; repeat (destruct H as [H|H]); destruct H as (i & -> & Hi%elem_of_range);
    simpl; lia.
Qed.

Lemma boundary_outward sx sy p :
  1 ≤ sx → 1 ≤ sy → on_boundary sx sy p → outward sx sy p (outward_dir sy p).
Proof.
  intros Hsx Hsy [[Hx Hy] Hb]. unfold outward, outward_dir. destruct p as [x y].
  simpl in *. repeat case_match; eqb_hyps; step_cases.
Qed.

Lemma filter_none {A} (P : A → Prop) `{!∀ x, Decision (P x)} (l : list A) :
  (∀ x, x ∈ l → ¬ P x) → filter P l = [].
Proof.
  intros Hnone. apply length_zero_iff_nil. by apply length_filter_none.
Qed.

(** Opening a tile toward the outside. *)
Section opened.
Context (sx sy : nat) (ml ml' : grid) (a : pos) (d : Dir).
Hypothesis Ha : in_grid sx sy a.
Hypothesis Hout : outward sx sy a d.
Hypothesis Hc : ∀ q, conns ml' q = if decide (q = a) then conns ml q ++ [d] else conns ml q.

Lemma opened_old q c : c ∈ conns ml q → c ∈ conns ml' q.
  Proof using Ha Hout Hc. rewrite Hc. case_decide; set_solver. Qed.

Lemma opened_new q c : c ∈ conns ml' q → c ∈ conns ml q ∨ (q = a ∧ c = d).
  Proof using Ha Hout Hc. rewrite Hc. case_decide; set_solver. Qed.

Lemma opened_inner q c p :
    in_grid sx sy p → step_to sx sy c p = Some q →
    (c ∈ conns ml' p ↔ c ∈ conns ml p) ∧ (opposite c ∈ conns ml' q ↔ opposite c ∈ conns ml q).
  Proof using Ha Hout Hc.
    intros Hp Hs. split; (split; [|apply opened_old]).
    - intros [?|[-> ->]]%opened_new; [done|]. unfold outward in Hout. congruence.
    - intros [?|[-> Ho]]%opened_new; [done|].
      pose proof (step_to_back _ _ _ _ _ Hp Hs) as Hb. rewrite Ho in Hb.
      unfold outward in Hout. congruence.
  Qed.

Lemma opened_symmetric : symmetric_conns sx sy ml → symmetric_conns sx sy ml'.
  Proof using Ha Hout Hc.
    intros Hsym p c q Hp Hcp Hs. destruct (opened_inner q c p Hp Hs) as [H1 H2].
    apply H2. eapply Hsym; [done| |done]. by apply H1.
  Qed.

Lemma opened_no_duplicates :
    d ∉ conns ml a → no_duplicates sx sy ml → no_duplicates sx sy ml'.
  Proof using Ha Hout Hc.
    intros Hd Hnd q Hq. rewrite Hc. case_decide; [|by apply Hnd]. subst.
    apply NoDup_app. split; [by apply Hnd|]. split; [|apply NoDup_singleton].
    by intros c ? ->%list_elem_of_singleton.
  Qed.

Lemma opened_linked p q : linked sx sy ml p q → linked sx sy ml' p q.
  Proof using Ha Hout Hc. intros (c & ? & ? & ?). exists c. eauto using opened_old. Qed.

Lemma opened_rtc p q : rtc (linked sx sy ml) p q → rtc (linked sx sy ml') p q.
  Proof using Ha Hout Hc.
    induction 1; [done|]. eapply rtc_l; [|done]. by apply opened_linked.
  Qed.

Lemma opened_connected : connected sx sy ml → connected sx sy ml'.
  Proof using Ha Hout Hc. intros Hcon p q Hp Hq. apply opened_rtc. by apply Hcon. Qed.

Lemma opened_num_edges : num_edges sx sy ml' = num_edges sx sy ml.
  Proof using Ha Hout Hc.
    unfold num_edges, edges. apply length_filter_ext.
    intros [p c] [Hp _]%elem_of_edge_slots. simpl in Hp.
    rewrite !has_edge_true. split.
    - intros (H1 & q & Hs & H2). destruct (opened_inner q c p Hp Hs) as [H3 H4].
      split; [by apply H3|]. exists q. split; [done|]. by apply H4.
    - intros (H1 & q & Hs & H2). eauto 6 using opened_old.
  Qed.

Lemma opened_outward p :
    filter (outward sx sy p) (conns ml' p) =
    filter (outward sx sy p) (conns ml p) ++ (if decide (p = a) then [d] else []).
  Proof using Ha Hout Hc.
    rewrite Hc. case_decide; [|by rewrite app_nil_r]. subst.
    rewrite filter_app. f_equal. rewrite filter_cons, decide_True by done. done.
  Qed.
End opened.

(** What [__makeEntryandExit] does to the tile it has chosen. *)
Lemma placed_conns sx sy ml e b d q :
  wf_grid sx sy ml → in_grid sx sy e →
  conns (upd_tile (append_conn d) e (upd_tile (mark_entry b) e ml)) q =
  if decide (q = e) then conns ml q ++ [d] else conns ml q.
Proof.
  intros Hwf He. rewrite conns_upd_append, conns_upd_entry.
  destruct (decide (e = q)) as [->|]; [|by rewrite decide_False].
  rewrite decide_True by done.
  rewrite (has_tile_in_grid sx sy) by (apply wf_grid_upd; [apply keeps_place_entry|done]).
  by rewrite bool_decide_eq_true_2.
Qed.

Lemma placed_role sx sy ml e b d q :
  wf_grid sx sy ml → in_grid sx sy e →
  role (upd_tile (append_conn d) e (upd_tile (mark_entry b) e ml)) q =
  if decide (q = e) then Some b else role ml q.
Proof.
  intros Hwf He. rewrite role_upd_append, role_upd_entry.
  destruct (decide (e = q)) as [->|]; [|by rewrite decide_False].
  rewrite decide_True by done.
  rewrite (has_tile_in_grid sx sy) by done. by rewrite bool_decide_eq_true_2.
Qed.

Lemma placed_wf sx sy ml e b d :
  wf_grid sx sy ml →
  wf_grid sx sy (upd_tile (append_conn d) e (upd_tile (mark_entry b) e ml)).
Proof.
  intros Hwf. apply wf_grid_upd; [apply keeps_place_append|].
  apply wf_grid_upd; [apply keeps_place_entry|done].
Qed.

Lemma makeEntryandExit_formed fuel sx sy sw ew ml g ml' g' :
  1 ≤ sx → 1 ≤ sy → grown_inv sx sy ml →
  makeEntryandExit fuel sx sy sw ew ml g = Done () ml' g' →
  formed_inv sx sy ml' ∧
  ∃ e x, e ∈ get_wall_tiles sx sy sw ∧ x ∈ get_wall_tiles sx sy ew ∧
         role ml' e = Some true ∧ role ml' x = Some false.
Proof.
  intros Hsx Hsy [Hwf Hinner Hsym Hnd Hcon Hedges Hrole]. unfold makeEntryandExit.
  destruct (pick_entry_exit fuel _ _ ml g) as [[e x] ml0 g0| |] eqn:Hpick; [|done..].
  apply pick_entry_exit_done in Hpick as (He & Hx & Hne & ->).
  pose proof (get_wall_tiles_boundary _ _ _ _ Hsx Hsy He) as Hbe.
  pose proof (get_wall_tiles_boundary _ _ _ _ Hsx Hsy Hx) as Hbx.
  pose proof (boundary_outward _ _ _ Hsx Hsy Hbe) as Hoe.
  pose proof (boundary_outward _ _ _ Hsx Hsy Hbx) as Hox.
  destruct Hbe as [Hein Hbe'], Hbx as [Hxin Hbx'].
  rewrite (has_tile_in_grid sx sy), bool_decide_eq_true_2 by done.
  set (ml2 := upd_tile (append_conn (outward_dir sy e)) e (upd_tile (mark_entry true) e ml)).
  assert (wf_grid sx sy ml2) as Hwf2 by (by apply placed_wf).
  rewrite (has_tile_in_grid sx sy), bool_decide_eq_true_2 by done.
  intros [= <- <-].
  set (ml4 := upd_tile (append_conn (outward_dir sy x)) x (upd_tile (mark_entry false) x ml2)).
  assert (wf_grid sx sy ml4) as Hwf4 by (by apply placed_wf).
  pose proof (λ q, placed_conns sx sy ml e true (outward_dir sy e) q Hwf Hein) as Hc2.
  pose proof (λ q, placed_conns sx sy ml2 x false (outward_dir sy x) q Hwf2 Hxin) as Hc4.
  pose proof (λ q, placed_role sx sy ml e true (outward_dir sy e) q Hwf Hein) as Hr2.
  pose proof (λ q, placed_role sx sy ml2 x false (outward_dir sy x) q Hwf2 Hxin) as Hr4.
  fold ml2 in Hc2, Hr2. fold ml4 in Hc4, Hr4.
  assert (∀ p c, in_grid sx sy p → c ∈ conns ml p → ¬ outward sx sy p c) as Hin.
  { intros p c Hp Hc Ho. destruct (Hinner p c Hp Hc) as [q Hq]. unfold outward in Ho. congruence. }
  assert (outward_dir sy e ∉ conns ml e) as Hde by (intros ?; by apply (Hin e (outward_dir sy e))).
  assert (outward_dir sy x ∉ conns ml2 x) as Hdx.
  { rewrite Hc2, decide_False by done. intros ?; by apply (Hin x (outward_dir sy x)). }
  split.
  - split; try done.
    + apply (opened_symmetric sx sy ml2 ml4 x _ Hxin Hox Hc4).
      by apply (opened_symmetric sx sy ml ml2 e _ Hein Hoe Hc2).
    + apply (opened_no_duplicates sx sy ml2 ml4 x _ Hxin Hox Hc4 Hdx).
      by apply (opened_no_duplicates sx sy ml ml2 e _ Hein Hoe Hc2 Hde).
    + apply (opened_connected sx sy ml2 ml4 x _ Hxin Hox Hc4).
      by apply (opened_connected sx sy ml ml2 e _ Hein Hoe Hc2).
    + rewrite (opened_num_edges sx sy ml2 ml4 x _ Hxin Hox Hc4).
      by rewrite (opened_num_edges sx sy ml ml2 e _ Hein Hoe Hc2).
    + exists e, x. split; [done|]. split; [done|]. split; [done|]. split.
      * intros p. rewrite Hr4, Hr2, Hrole. repeat case_decide; simplify_eq; done.
      * intros p Hp.
        rewrite (opened_outward sx sy ml2 ml4 x _ Hxin Hox Hc4).
        rewrite (opened_outward sx sy ml ml2 e _ Hein Hoe Hc2).
        rewrite (filter_none _ (conns ml p)) by (intros c Hc; by apply Hin).
        repeat case_decide; simplify_eq; done.
  - exists e, x. split; [done|]. split; [done|]. split.
    + by rewrite Hr4, decide_False, Hr2, decide_True.
    + by rewrite Hr4, decide_True.
Qed.

Lemma formation_formed a fuel sx sy nm sw ew g b m g' :
  1 ≤ sx → 1 ≤ sy →
  formation a fuel (fresh_maze sx sy nm sw ew) g = Returns b m g' →
  formed_inv sx sy (mazeList m) ∧ sizeX m = sx ∧ sizeY m = sy ∧ mazeIsDone m = true ∧
  start_wall m = sw ∧ end_wall m = ew.
Proof.
  intros Hsx Hsy.
  assert (formation a fuel (fresh_maze sx sy nm sw ew) g =
          finish_formation fuel (fresh_maze sx sy nm sw ew)
            (growth a fuel (fresh_maze sx sy nm sw ew) g)) as -> by (by destruct a).
  unfold finish_formation.
  destruct (growth a fuel _ g) as [st ml g1| |] eqn:Hgrow; [|done..].
  apply growth_partial in Hgrow; [|done..]. simpl.
  destruct (makeEntryandExit fuel sx sy sw ew ml g1) as [[] ml' g2| |] eqn:Hee; [|done..].
  intros [= <- <- <-]. simpl.
  destruct (makeEntryandExit_formed _ _ _ _ _ _ _ _ _ Hsx Hsy Hgrow Hee) as [Hf _]. done.
Qed.


(** ** Braiding *)

Lemma grows_refl ml : grows ml ml.
Proof. intros q. done. Qed.

Lemma grows_trans ml1 ml2 ml3 : grows ml1 ml2 → grows ml2 ml3 → grows ml1 ml3.
Proof.
  intros H1 H2 q. destruct (H1 q) as [? ?], (H2 q) as [? ?]. split; [by etrans|congruence].
Qed.

Lemma grows_elem ml ml' q c : grows ml ml' → c ∈ conns ml q → c ∈ conns ml' q.
Proof. intros H Hc. destruct (H q) as [[k ->] _]. set_solver. Qed.

Lemma grows_length ml ml' q : grows ml ml' → length (conns ml q) ≤ length (conns ml' q).
Proof. intros H. destruct (H q) as [Hp _]. by apply prefix_length. Qed.

Lemma grows_linked sx sy ml ml' p q :
  grows ml ml' → linked sx sy ml p q → linked sx sy ml' p q.
Proof. intros H (d & ? & ? & ?). exists d. eauto using grows_elem. Qed.

Lemma grows_rtc sx sy ml ml' p q :
  grows ml ml' → rtc (linked sx sy ml) p q → rtc (linked sx sy ml') p q.
Proof.
  intros H. induction 1; [done|]. eapply rtc_l; [|done]. by eapply grows_linked.
Qed.

Lemma grows_connected sx sy ml ml' : grows ml ml' → connected sx sy ml → connected sx sy ml'.
Proof. intros H Hc p q Hp Hq. eapply grows_rtc; [done|]. by apply Hc. Qed.

Lemma grows_edges sx sy ml ml' e : grows ml ml' → e ∈ edges sx sy ml → e ∈ edges sx sy ml'.
Proof.
  intros H. unfold edges. rewrite !list_elem_of_filter. intros [He Hs]. split; [|done].
  destruct e as [p d]. apply has_edge_true in He as (Hd & q & Hq & Ho).
  apply has_edge_true. eauto 6 using grows_elem.
Qed.

Lemma linked_up_grows sx sy ml ml' a d b :
  wf_grid sx sy ml → in_grid sx sy a → step_to sx sy d a = Some b →
  linked_up ml ml' a d b → grows ml ml'.
Proof.
  intros Hwf Ha Hs Hup q. split.
  - rewrite (linked_up_conns sx sy ml ml' a b d) by done.
    repeat case_decide; try reflexivity; by eexists.
  - apply (linked_up_role ml ml' a b d Hup).
Qed.

Lemma grid_refs_wf sx sy ml : wf_grid sx sy ml → grid_refs ml = all_pos sx sy.
Proof.
  intros (Hlen & Hrows & _). unfold grid_refs, all_pos. rewrite <- Hlen.
  assert (Forall (λ row, length row = sx) ml) as Hall.
  { apply Forall_lookup. intros y row. apply Hrows. }
  clear Hlen Hrows.
  assert (∀ y0, grid_refs_from y0 ml =
                seq y0 (length ml) ≫= λ y, (λ x, (x, y)) <$> seq 0 sx) as H; [|done].
  induction Hall as [|row ml Hrow Hall IH]; intros y; [done|].
  simpl. rewrite Hrow, IH. done.
Qed.

Lemma try_directions_spec sx sy ml t dirs :
  braid_inv sx sy ml → in_grid sx sy t → (∀ d, d ∈ dirs → d ∉ conns ml t) →
  ∃ ml', try_directions ml t dirs = inr ml' ∧ braid_inv sx sy ml' ∧ grows ml ml' ∧
    ((ml' = ml ∧ ∀ d, d ∈ dirs → outward sx sy t d) ∨
     length (conns ml' t) = S (length (conns ml t))).
Proof.
  intros (Hwf & Hsym & Hnd) Ht. induction dirs as [|d dirs IH]; intros Hfresh.
  - exists ml. simpl. split; [done|]. split; [done|]. split; [apply grows_refl|].
    left. split; [done|]. by intros d ?%elem_of_nil.
  - simpl. pose proof (connectTilesWithString_spec sx sy ml t d Hwf Ht) as Hspec.
    destruct (step_to sx sy d t) as [b|] eqn:Hs.
    + destruct Hspec as (ml' & -> & Hwf' & Hup). exists ml'. split; [done|].
      assert (d ∉ conns ml t) as Hd by (apply Hfresh; left).
      split; [|split].
      * split; [done|]. split.
        -- by apply (linked_up_symmetric sx sy ml ml' t b d).
        -- by apply (linked_up_no_duplicates sx sy ml ml' t b d).
      * by eapply linked_up_grows.
      * right. rewrite (linked_up_conns sx sy ml ml' t b d), decide_True by done.
        rewrite length_app. simpl. lia.
    + rewrite Hspec. destruct IH as (ml' & -> & Hinv' & Hg & Hres).
      { intros d' Hd'. apply Hfresh. by right. }
      exists ml'. split; [done|]. split; [done|]. split; [done|].
      destruct Hres as [[-> Hout]|Hlen]; [left|by right].
      split; [done|]. intros d' [->|Hd']%elem_of_cons; [done|by apply Hout].
Qed.

Lemma elem_of_directions d : d ∈ directions.
Proof. unfold directions. destruct d; set_solver. Qed.

Lemma NoDup_directions : NoDup directions.
Proof. unfold directions. repeat (apply NoDup_cons; split; [set_solver|]). apply NoDup_nil_2. Qed.

Lemma remove_each_spec (cs l : list Dir) :
  NoDup cs → NoDup l → (∀ c, c ∈ cs → c ∈ l) →
  ∃ l', remove_each cs l = Some l' ∧ NoDup l' ∧ ∀ y, y ∈ l' ↔ y ∈ l ∧ y ∉ cs.
Proof.
  revert l. induction cs as [|c cs IH]; intros l Hcs Hl Hsub.
  - exists l. simpl. split; [done|]. split; [done|]. set_solver.
  - apply NoDup_cons in Hcs as [Hc Hcs]. simpl.
    destruct (list_remove_first_spec c l Hl) as (l1 & -> & Hl1 & _ & Hiff1).
    { apply Hsub. left. }
    destruct (IH l1 Hcs Hl1) as (l' & -> & Hl' & Hiff).
    { intros c' Hc'. apply Hiff1. split; [apply Hsub; by right|]. by intros ->. }
    exists l'. split; [done|]. split; [done|].
    intros y. rewrite Hiff, Hiff1, not_elem_of_cons. naive_solver.
Qed.

Lemma braid_deadend_step_ok sx sy ml t g :
  braid_inv sx sy ml → in_grid sx sy t →
  ∃ ml' g', braid_deadend_step ml t g = Done () ml' g' ∧ braid_inv sx sy ml' ∧ grows ml ml' ∧
    (2 ≤ sx → 2 ≤ sy → length (conns ml t) = 1 → length (conns ml' t) = 2).
Proof.
  intros Hinv Ht. unfold braid_deadend_step.
  destruct (deref_in_grid _ _ _ _ (proj1 Hinv) Ht) as (Htile & _).
  assert (connectTo (deref ml t) = conns ml t) as -> by (unfold conns; by rewrite Htile).
  destruct (conns ml t) as [|c [|c' cs]] eqn:Hc;
    try (eexists _, _; split; [done|]; split; [done|]; split; [apply grows_refl|];
         simpl; intros; lia).
  destruct (list_remove_first_spec c directions NoDup_directions (elem_of_directions c))
    as (dl & -> & Hdl & _ & Hiff).
  pose proof (rnd_shuffle_perm g dl) as Hperm.
  destruct (rnd_shuffle g dl) as [sh g1]. simpl in Hperm.
  destruct (try_directions_spec sx sy ml t sh Hinv Ht) as (ml' & -> & Hinv' & Hg & Hres).
  { intros d Hd. rewrite Hperm in Hd. apply Hiff in Hd as [_ Hd]. rewrite Hc. set_solver. }
  exists ml', g1. split; [done|]. split; [done|]. split; [done|].
  intros Hsx Hsy _. destruct Hres as [[-> Hout]|Hlen]; [exfalso|by rewrite Hlen, Hc].
  assert (∃ d, d ≠ c ∧ is_Some (step_to sx sy d t)) as (d & Hdc & [b Hb]).
  { destruct t as [x y]. destruct Ht as [Hx Hy]. simpl in *.
    destruct (decide (c = North ∨ c = South)).
    - destruct (decide (x = 0)).
      + exists East. split; [naive_solver|]. exists (x + 1, y). step_cases.
      + exists West. split; [naive_solver|]. exists (x - 1, y). step_cases.
    - destruct (decide (y = 0)).
      + exists South. split; [naive_solver|]. exists (x, y + 1). step_cases.
      + exists North. split; [naive_solver|]. exists (x, y - 1). step_cases. }
  assert (d ∈ sh) as Hd by (rewrite Hperm; apply Hiff; split; [apply elem_of_directions|done]).
  specialize (Hout d Hd). unfold outward in Hout. congruence.
Qed.

Lemma braid_loop_step_ok sx sy wb ml t g :
  braid_inv sx sy ml → in_grid sx sy t →
  ∃ ml' g', braid_loop_step wb ml t g = Done () ml' g' ∧ braid_inv sx sy ml' ∧ grows ml ml'.
Proof.
  intros Hinv Ht. unfold braid_loop_step. destruct (rnd_random g) as [r g1].
  destruct (draw_le r wb); [|eexists _, _; split; [done|]; split; [done|]; apply grows_refl].
  destruct (deref_in_grid _ _ _ _ (proj1 Hinv) Ht) as (Htile & _).
  assert (connectTo (deref ml t) = conns ml t) as -> by (unfold conns; by rewrite Htile).
  destruct (remove_each_spec (conns ml t) directions) as (dl & -> & Hdl & Hiff).
  { by apply Hinv. } { apply NoDup_directions. } { intros; apply elem_of_directions. }
  pose proof (rnd_shuffle_perm g1 dl) as Hperm.
  destruct (rnd_shuffle g1 dl) as [sh g2]. simpl in Hperm.
  destruct (try_directions_spec sx sy ml t sh Hinv Ht) as (ml' & -> & Hinv' & Hg & _).
  { intros d Hd. rewrite Hperm in Hd. by apply Hiff in Hd as [_ Hd]. }
  eauto 10.
Qed.

Lemma for_tiles_inv sx sy (body : grid → pos → Rng → loop_res unit)
    (Q : grid → list pos → Prop) tiles seen ml g :
  (∀ ml t g seen, braid_inv sx sy ml → in_grid sx sy t → Q ml seen →
     ∃ ml' g', body ml t g = Done () ml' g' ∧ braid_inv sx sy ml' ∧ grows ml ml' ∧
               Q ml' (seen ++ [t])) →
  braid_inv sx sy ml → (∀ t, t ∈ tiles → in_grid sx sy t) → Q ml seen →
  ∃ ml' g', for_tiles body tiles ml g = Done () ml' g' ∧ braid_inv sx sy ml' ∧
            grows ml ml' ∧ Q ml' (seen ++ tiles).
Proof.
  intros Hbody. revert seen ml g. induction tiles as [|t tiles IH]; intros seen ml g Hinv Hin HQ.
  - exists ml, g. simpl. rewrite app_nil_r. split; [done|]. split; [done|].
    split; [apply grows_refl|done].
  - simpl. destruct (Hbody ml t g seen Hinv) as (ml1 & g1 & -> & Hinv1 & Hg1 & HQ1);
      [apply Hin; left|done|].
    destruct (IH (seen ++ [t]) ml1 g1 Hinv1) as (ml2 & g2 & -> & Hinv2 & Hg2 & HQ2);
      [intros; apply Hin; by right|done|].
    exists ml2, g2. split; [done|]. split; [done|]. split; [by eapply grows_trans|].
    by rewrite <- app_assoc in HQ2.
Qed.


(** ** Mazes that the class can hold *)

Lemma makeMazeBraided_spec (Q : grid → list pos → Prop) wb m g :
  maze_ok m → (-1 ≤ wb ≤ 100)%Z →
  (∀ ml t g seen, braid_inv (sizeX m) (sizeY m) ml → in_grid (sizeX m) (sizeY m) t →
     Q ml seen → wb = (-1)%Z →
     ∃ ml' g', braid_deadend_step ml t g = Done () ml' g' ∧
               (grows ml ml' → Q ml' (seen ++ [t]))) →
  (∀ ml ml' t seen, grows ml ml' → Q ml seen → wb ≠ (-1)%Z → Q ml' (seen ++ [t])) →
  Q (mazeList m) [] →
  ∃ m' g', makeMazeBraided wb m g = Returns true m' g' ∧ maze_ok m' ∧
           sizeX m' = sizeX m ∧ sizeY m' = sizeY m ∧
           grows (mazeList m) (mazeList m') ∧
           Q (mazeList m') (all_pos (sizeX m) (sizeY m)).
Proof.
  intros (Hdone & Hsx & Hsy & Hinv & Hcon) Hwb HQ1 HQ2 HQ0. unfold makeMazeBraided.
  rewrite Hdone. simpl.
  replace ((wb <? -1)%Z || (100 <? wb)%Z) with false by (symmetry; apply orb_false_iff; lia).
  rewrite (grid_refs_wf (sizeX m) (sizeY m)) by apply Hinv.
  set (body := if (wb =? -1)%Z then braid_deadend_step else braid_loop_step wb).
  destruct (for_tiles_inv (sizeX m) (sizeY m) body Q (all_pos (sizeX m) (sizeY m)) []
              (mazeList m) g) as (ml' & g' & -> & Hinv' & Hg & HQ); try done.
  - intros ml t g0 seen Hi Ht Hq. unfold body.
    destruct (Z.eqb_spec wb (-1)) as [Heq|Hne].
    + destruct (braid_deadend_step_ok _ _ ml t g0 Hi Ht) as (ml1 & g1 & Hrun & Hi1 & Hg1 & _).
      destruct (HQ1 ml t g0 seen Hi Ht Hq Heq) as (ml2 & g2 & Hrun2 & Hq2).
      rewrite Hrun in Hrun2. simplify_eq. eauto 10.
    + destruct (braid_loop_step_ok _ _ wb ml t g0 Hi Ht) as (ml1 & g1 & Hrun & Hi1 & Hg1).
      eauto 10.
  - intros t. apply elem_of_all_pos.
  - eexists _, _. split; [done|]. simpl. split; [|done].
    split; [done|]. split; [done|]. split; [done|]. split; [done|].
    by eapply grows_connected.
Qed.

Lemma makeMazeBraided_ok wb m g b m' g' :
  maze_ok m → makeMazeBraided wb m g = Returns b m' g' →
  maze_ok m' ∧ sizeX m' = sizeX m ∧ sizeY m' = sizeY m ∧ grows (mazeList m) (mazeList m').
Proof.
  intros Hok Hrun.
  assert (-1 ≤ wb ≤ 100)%Z as Hwb.
  { unfold makeMazeBraided in Hrun. destruct Hok as (Hd & _). rewrite Hd in Hrun.
    simpl in Hrun.
    destruct ((wb <? -1)%Z || (100 <? wb)%Z) eqn:Hr; [done|].
    apply orb_false_iff in Hr. lia. }
  destruct (makeMazeBraided_spec (λ _ _, True) wb m g Hok Hwb)
    as (m1 & g1 & Hrun1 & ? & ? & ? & ? & _); try done.
  - intros ml t g0 seen Hi Ht _ _.
    destruct (braid_deadend_step_ok _ _ ml t g0 Hi Ht) as (ml1 & g2 & -> & _). eauto.
  - rewrite Hrun in Hrun1. by simplify_eq.
Qed.

Lemma formed_maze_ok a fuel sx sy nm sw ew g b m g' :
  1 ≤ sx → 1 ≤ sy →
  formation a fuel (fresh_maze sx sy nm sw ew) g = Returns b m g' → maze_ok m.
Proof.
  intros Hsx Hsy Hrun.
  destruct (formation_formed _ _ _ _ _ _ _ _ _ _ _ Hsx Hsy Hrun)
    as ([Hwf Hsym Hnd Hcon _ _] & Hx & Hy & Hdone & _).
  unfold maze_ok, braid_inv. rewrite Hx, Hy. done.
Qed.

Lemma produced_ok m : produced m → maze_ok m.
Proof.
  induction 1 as [a fuel sx sy nm sw ew g b m g' Hsx Hsy Hrun|m wb g b m' g' _ IH Hrun].
  - by apply (formed_maze_ok a fuel sx sy nm sw ew g b m g').
  - by destruct (makeMazeBraided_ok wb m g b m' g' IH Hrun).
Qed.

Lemma connected_nonempty sx sy ml p q :
  connected sx sy ml → in_grid sx sy p → in_grid sx sy q → p ≠ q → conns ml p ≠ [].
Proof.
  intros Hcon Hp Hq Hne Hnil. pose proof (Hcon p q Hp Hq) as Hpq.
  apply rtc_inv in Hpq as [?|(r & (d & Hd & _) & _)]; [done|].
  rewrite Hnil in Hd. by apply elem_of_nil in Hd.
Qed.


(** ** Claims on formed and braided mazes *)

(** C1. For a maze of at least two tiles, what a formation call (either
    algorithm) returns has a connected tile graph with exactly
    [sizeX * sizeY - 1] edges, the outward openings of entry and exit not
    counted; a braiding call on it, whatever its weight and stream, keeps
    every connection list as a prefix of the new one, keeps every edge,
    and leaves the graph connected. *)
Theorem formation_spanning_tree a fuel sx sy nm sw ew g b m g' :
  2 ≤ sx * sy →
  formation a fuel (fresh_maze sx sy nm sw ew) g = Returns b m g' →
  connected sx sy (mazeList m) ∧
  num_edges sx sy (mazeList m) = sx * sy - 1 ∧
  ∀ weightBraid g1 b1 m1 g1',
    makeMazeBraided weightBraid m g1 = Returns b1 m1 g1' →
    (∀ p, conns (mazeList m) p `prefix_of` conns (mazeList m1) p) ∧
    edges sx sy (mazeList m) ⊆ edges sx sy (mazeList m1) ∧
    connected sx sy (mazeList m1).
Proof.
  intros Hn Hrun.
  assert (1 ≤ sx ∧ 1 ≤ sy) as [Hsx Hsy] by (destruct sx, sy; lia).
  pose proof (formed_maze_ok _ _ _ _ _ _ _ _ _ _ _ Hsx Hsy Hrun) as Hok.
  destruct (formation_formed _ _ _ _ _ _ _ _ _ _ _ Hsx Hsy Hrun)
    as ([Hwf Hsym Hnd Hcon Hedges _] & Hx & Hy & _).
  split; [done|]. split; [lia|].
  intros wb g1 b1 m1 g1' Hbraid.
  destruct (makeMazeBraided_ok _ _ _ _ _ _ Hok Hbraid) as (Hok1 & Hx1 & Hy1 & Hg).
  split; [intros p; apply Hg|]. split.
  - intros e. by apply grows_edges.
  - by eapply grows_connected.
Qed.

Lemma sample_formed_returned :
  ∃ g', formation Simple 12 sample_fresh sample_tape = Returns true sample_formed g'.
Proof. eexists. vm_compute. reflexivity. Qed.

Lemma sample_formed_produced : produced sample_formed.
Proof.
  destruct sample_formed_returned as [g' Hrun].
  apply (produced_formed Simple 12 3 2 "sample" WallAny WallAny sample_tape true _ g');
    [lia|lia|exact Hrun].
Qed.

Lemma formation_spanning_tree_witness :
  2 ≤ 3 * 2 ∧
  connected 3 2 (mazeList sample_formed) ∧
  num_edges 3 2 (mazeList sample_formed) = 3 * 2 - 1 ∧
  ∀ weightBraid g1 b1 m1 g1',
    makeMazeBraided weightBraid sample_formed g1 = Returns b1 m1 g1' →
    (∀ p, conns (mazeList sample_formed) p `prefix_of` conns (mazeList m1) p) ∧
    edges 3 2 (mazeList sample_formed) ⊆ edges 3 2 (mazeList m1) ∧
    connected 3 2 (mazeList m1).
Proof.
  split; [lia|].
  eapply (formation_spanning_tree Simple 12 3 2 "sample" WallAny WallAny sample_tape).
  - lia.
  - vm_compute. reflexivity.
Defined.

(** C2. In every maze that formation has returned, braided or not, a
    direction in a tile's connection list whose neighbour lies in the grid
    is answered by the opposite direction in the neighbour's list, and no
    connection list holds a direction twice. *)
Theorem produced_symmetric_no_duplicates m :
  produced m →
  symmetric_conns (sizeX m) (sizeY m) (mazeList m) ∧
  no_duplicates (sizeX m) (sizeY m) (mazeList m).
Proof. intros (_ & _ & _ & (_ & Hsym & Hnd) & _)%produced_ok. done. Qed.

Lemma produced_symmetric_no_duplicates_witness :
  symmetric_conns (sizeX sample_formed) (sizeY sample_formed) (mazeList sample_formed) ∧
  no_duplicates (sizeX sample_formed) (sizeY sample_formed) (mazeList sample_formed).
Proof.
  apply (produced_symmetric_no_duplicates sample_formed).
  eapply (produced_formed Simple 12 3 2 "sample" WallAny WallAny sample_tape true
           sample_formed); [lia|lia|].
  vm_compute. reflexivity.
Defined.

(** C4. After a successful formation exactly one tile is marked entry and
    exactly one exit, the two differ, and the outward connections of a
    tile are: for the entry and for the exit the single direction picked
    by the row tests (top, then bottom) before the column tests (left,
    then right); for every other tile none. *)
Theorem formation_entry_exit a fuel sx sy nm sw ew g b m g' :
  1 ≤ sx → 1 ≤ sy →
  formation a fuel (fresh_maze sx sy nm sw ew) g = Returns b m g' →
  ∃ entry_pos exit_pos,
    entry_pos ≠ exit_pos ∧
    in_grid sx sy entry_pos ∧ in_grid sx sy exit_pos ∧
    (∀ p, role (mazeList m) p = Some true ↔ p = entry_pos) ∧
    (∀ p, role (mazeList m) p = Some false ↔ p = exit_pos) ∧
    (∀ p, in_grid sx sy p →
       filter (outward sx sy p) (conns (mazeList m) p) =
       if decide (p = entry_pos) then
         [if entry_pos.2 =? 0 then North else if entry_pos.2 =? sy - 1 then South
          else if entry_pos.1 =? 0 then West else East]
       else if decide (p = exit_pos) then
         [if exit_pos.2 =? 0 then North else if exit_pos.2 =? sy - 1 then South
          else if exit_pos.1 =? 0 then West else East]
       else []).
Proof.
  intros Hsx Hsy Hrun.
  destruct (formation_formed _ _ _ _ _ _ _ _ _ _ _ Hsx Hsy Hrun)
    as ([_ _ _ _ _ (e & x & Hne & [He _] & [Hx _] & Hrole & Hout)] & _).
  exists e, x. split; [done|]. split; [done|]. split; [done|]. split; [|split].
  - intros p. rewrite Hrole. repeat case_decide; naive_solver.
  - intros p. rewrite Hrole. repeat case_decide; naive_solver.
  - intros p Hp. by rewrite Hout.
Qed.

Lemma formation_entry_exit_witness :
  ∃ entry_pos exit_pos,
    entry_pos ≠ exit_pos ∧
    in_grid 3 2 entry_pos ∧ in_grid 3 2 exit_pos ∧
    (∀ p, role (mazeList sample_formed) p = Some true ↔ p = entry_pos) ∧
    (∀ p, role (mazeList sample_formed) p = Some false ↔ p = exit_pos) ∧
    (∀ p, in_grid 3 2 p →
       filter (outward 3 2 p) (conns (mazeList sample_formed) p) =
       if decide (p = entry_pos) then
         [if entry_pos.2 =? 0 then North else if entry_pos.2 =? 2 - 1 then South
          else if entry_pos.1 =? 0 then West else East]
       else if decide (p = exit_pos) then
         [if exit_pos.2 =? 0 then North else if exit_pos.2 =? 2 - 1 then South
          else if exit_pos.1 =? 0 then West else East]
       else []).
Proof.
  eapply (formation_entry_exit Simple 12 3 2 "sample" WallAny WallAny sample_tape true
            sample_formed); [lia|lia|].
  vm_compute. reflexivity.
Defined.

(** C6. On a formed maze of at least two columns and two rows,
    [makeMazeBraided(-1)] returns for every stream. It leaves the size as it
    was, keeps every connection list as a prefix of the new one and keeps
    every edge; afterwards no tile has a connection list of exactly one
    member, and a tile whose list had exactly one member has a list of at
    least two: every dead end has received at least one more connection. *)
Theorem braiding_removes_dead_ends m g :
  produced m → 2 ≤ sizeX m → 2 ≤ sizeY m →
  ∃ m' g', makeMazeBraided (-1) m g = Returns true m' g' ∧
    sizeX m' = sizeX m ∧ sizeY m' = sizeY m ∧
    (∀ p, conns (mazeList m) p `prefix_of` conns (mazeList m') p) ∧
    edges (sizeX m) (sizeY m) (mazeList m) ⊆ edges (sizeX m) (sizeY m) (mazeList m') ∧
    ∀ p, in_grid (sizeX m) (sizeY m) p →
      length (conns (mazeList m') p) ≠ 1 ∧
      (length (conns (mazeList m) p) = 1 → 2 ≤ length (conns (mazeList m') p)).
Proof.
  intros Hok%produced_ok Hsx Hsy.
  set (Q := λ (ml : grid) (seen : list pos),
    (∀ p, in_grid (sizeX m) (sizeY m) p → 1 ≤ length (conns ml p)) ∧
    (∀ p, p ∈ seen → 2 ≤ length (conns ml p))).
  destruct (makeMazeBraided_spec Q (-1) m g Hok)
    as (m' & g' & Hrun & _ & Hx & Hy & Hg & HQ).
  - lia.
  - intros ml t g0 seen Hinv Ht [Hq1 Hq2] _.
    destruct (braid_deadend_step_ok _ _ ml t g0 Hinv Ht) as (ml' & g1 & Hstep & _ & _ & Hlen).
    exists ml', g1. split; [done|]. intros Hg. split.
    + intros p Hp. etrans; [by apply Hq1|]. by apply grows_length.
    + intros p [Hp|Hp]%elem_of_app.
      * etrans; [by apply Hq2|]. by apply grows_length.
      * apply list_elem_of_singleton in Hp as ->.
        destruct (decide (length (conns ml t) = 1)) as [H1|H1].
        -- by rewrite Hlen.
        -- pose proof (Hq1 t Ht). pose proof (grows_length ml ml' t Hg). lia.
  - done.
  - split.
    + intros p Hp. destruct Hok as (_ & _ & _ & _ & Hcon).
      assert (∃ q, in_grid (sizeX m) (sizeY m) q ∧ p ≠ q) as (q & Hq & Hne).
      { destruct (decide (p = (0, 0))) as [->|].
        - exists (1, 1). split; [split; simpl; lia|done].
        - exists (0, 0). split; [split; simpl; lia|done]. }
      pose proof (connected_nonempty _ _ _ p q Hcon Hp Hq Hne).
      destruct (conns (mazeList m) p); [done|simpl; lia].
    + by intros p ?%elem_of_nil.
  - exists m', g'. do 3 (split; [done|]). split; [intros p; apply Hg|]. split.
    { intros e. by apply grows_edges. }
    intros p Hp. destruct HQ as [_ HQ].
    specialize (HQ p (proj2 (elem_of_all_pos _ _ p) Hp)). lia.
Qed.

Lemma braiding_removes_dead_ends_witness :
  ∃ m' g', makeMazeBraided (-1) sample_formed sample_tape = Returns true m' g' ∧
    sizeX m' = sizeX sample_formed ∧ sizeY m' = sizeY sample_formed ∧
    (∀ p, conns (mazeList sample_formed) p `prefix_of` conns (mazeList m') p) ∧
    edges (sizeX sample_formed) (sizeY sample_formed) (mazeList sample_formed) ⊆
      edges (sizeX sample_formed) (sizeY sample_formed) (mazeList m') ∧
    ∀ p, in_grid (sizeX sample_formed) (sizeY sample_formed) p →
      length (conns (mazeList m') p) ≠ 1 ∧
      (length (conns (mazeList sample_formed) p) = 1 → 2 ≤ length (conns (mazeList m') p)).
Proof.
  apply (braiding_removes_dead_ends sample_formed sample_tape).
  - eapply (produced_formed Simple 12 3 2 "sample" WallAny WallAny sample_tape true
             sample_formed); [lia|lia|].
    vm_compute. reflexivity.
  - vm_compute. lia.
  - vm_compute. lia.
Defined.


(** ** Termination *)

Lemma get_wall_tiles_nonempty sx sy w : 1 ≤ sx → 1 ≤ sy → get_wall_tiles sx sy w ≠ [].
Proof.
  intros Hsx Hsy. destruct sx as [|sx]; [lia|]. destruct sy as [|sy]; [lia|].
  destruct w; done.
Qed.

Lemma pick_entry_exit_total starts ends ml k :
  starts ≠ [] → ends ≠ [] →
  ∀ g fuel, distinct_draw starts ends (round_stream g k) → k < fuel →
    ∃ e x g', pick_entry_exit fuel starts ends ml g = Done (e, x) ml g'.
Proof.
  intros Hs He. induction k as [|k IH]; intros g fuel Hd Hk;
    (destruct fuel as [|fuel]; [lia|]); simpl;
    destruct (rnd_choice_elem g starts Hs) as (e & He1 & _);
    destruct (rnd_choice_elem (rng_next g) ends He) as (x & Hx1 & _);
    rewrite He1, Hx1; case_decide as Hne; eauto.
  - exfalso. apply Hd. simpl. rewrite He1, Hx1. simpl. f_equal.
    by destruct (decide (e = x)).
  - apply IH; [|lia]. unfold round_stream in *. by rewrite Nat.iter_succ_r in Hd.
Qed.

Lemma pick_entry_exit_same starts ends ml c fuel g :
  (∀ p, p ∈ starts → p = c) → (∀ p, p ∈ ends → p = c) →
  match pick_entry_exit fuel starts ends ml g with
  | Done _ _ _ => False
  | _ => True
  end.
Proof.
  intros Hs He. revert g. induction fuel as [|fuel IH]; intros g; [done|]. simpl.
  destruct (rnd_choice g starts) as [[e|] g1] eqn:H1; [|done].
  destruct (rnd_choice g1 ends) as [[x|] g2] eqn:H2; [|done].
  apply rnd_choice_Some in H1 as [H1 _], H2 as [H2 _].
  rewrite (Hs e H1), (He x H2). rewrite decide_False by (by intros ?). apply IH.
Qed.

Lemma round_stream_S g k :
  round_stream g (S k) = round_stream (rng_next (rng_next g)) k.
Proof. unfold round_stream. by rewrite Nat.iter_succ_r. Qed.

(** As long as the two draws of a round pick the same position the loop
    goes on to the next round. *)
Lemma pick_entry_exit_equal starts ends ml fuel g :
  starts ≠ [] → ends ≠ [] →
  (∀ j, j < fuel → ¬ distinct_draw starts ends (round_stream g j)) →
  pick_entry_exit fuel starts ends ml g = Fuel.
Proof.
  intros Hs He. revert g. induction fuel as [|fuel IH]; intros g Heq; [done|]. simpl.
  destruct (rnd_choice_elem g starts Hs) as (e & He1 & _).
  destruct (rnd_choice_elem (rng_next g) ends He) as (x & Hx1 & _).
  rewrite He1, Hx1.
  assert (e = x) as ->.
  { destruct (decide (e = x)) as [?|Hne]; [done|]. exfalso.
    apply (Heq 0 ltac:(lia)). unfold distinct_draw. simpl. rewrite He1, Hx1. simpl.
    congruence. }
  rewrite decide_False by (by intros ?). apply IH.
  intros j Hj. rewrite <- round_stream_S. apply Heq. lia.
Qed.

(** C3, as amended. For all positive dimensions and every stream the
    growth loop of a formation call ends without error within
    [2 * sizeX * sizeY] iterations, leaving the stream [grown_stream]. The
    call returns once a round of the boundary-placement loop draws two
    different positions: within [k + 1] rounds when round [k] is such a
    round. And it keeps drawing for as long as the rounds draw equal
    positions: when the first [n] rounds do, the call has not come back
    after [n] rounds. *)
Theorem formation_terminates a sx sy nm sw ew g :
  1 ≤ sx → 1 ≤ sy →
  let m0 := fresh_maze sx sy nm sw ew in
  let differ k :=
    distinct_draw (get_wall_tiles sx sy sw) (get_wall_tiles sx sy ew)
      (round_stream (grown_stream a m0 g) k) in
  (∃ st ml, ∀ fuel, 2 * (sx * sy) ≤ fuel →
     growth a fuel m0 g = Done st ml (grown_stream a m0 g)) ∧
  (∀ k fuel, differ k → 2 * (sx * sy) ≤ fuel → k < fuel →
     ∃ m g', formation a fuel m0 g = Returns true m g') ∧
  (∀ n fuel, (∀ j, j < n → ¬ differ j) → fuel ≤ n → formation a fuel m0 g = OutOfFuel).
Proof.
  intros Hsx Hsy m0 differ. unfold differ. clear differ.
  destruct (growth_total a sx sy nm sw ew g Hsx Hsy) as (ml & g1 & Hgrow & Hinv).
  fold m0 in Hgrow.
  assert (grown_stream a m0 g = g1) as ->.
  { unfold grown_stream. simpl. by rewrite Hgrow. }
  assert (∀ fuel, formation a fuel m0 g = finish_formation fuel m0 (growth a fuel m0 g))
    as Hunfold by (intros fuel; by destruct a).
  pose proof (get_wall_tiles_nonempty sx sy sw Hsx Hsy) as Hs.
  pose proof (get_wall_tiles_nonempty sx sy ew Hsx Hsy) as He.
  split; [by exists [], ml|]. split.
  - intros k fuel Hd Hfuel Hk. rewrite Hunfold, Hgrow by done.
    unfold finish_formation, makeEntryandExit. simpl.
    destruct (pick_entry_exit_total _ _ ml k Hs He g1 fuel Hd Hk) as (e & x & g' & Hpick).
    rewrite Hpick. apply pick_entry_exit_done in Hpick as (Hein & Hxin & Hne & _).
    destruct (get_wall_tiles_boundary _ _ _ _ Hsx Hsy Hein) as [Hein' _].
    destruct (get_wall_tiles_boundary _ _ _ _ Hsx Hsy Hxin) as [Hxin' _].
    pose proof (gi_wf _ _ _ Hinv) as Hwf.
    rewrite (has_tile_in_grid sx sy), bool_decide_eq_true_2 by done.
    rewrite (has_tile_in_grid sx sy) by (by apply placed_wf).
    rewrite bool_decide_eq_true_2 by done. eauto.
  - intros n fuel Heq Hfuel. rewrite Hunfold.
    destruct (growth a fuel m0 g) as [st ml' g2| |] eqn:Hg; [| |done].
    + pose proof (Hgrow (fuel `max` (2 * (sx * sy))) ltac:(lia)) as Hbig.
      rewrite (growth_mono a fuel) in Hbig; [|lia|by rewrite Hg].
      rewrite Hg in Hbig. simplify_eq.
      unfold finish_formation, makeEntryandExit. simpl.
      rewrite pick_entry_exit_equal; [done..|]. intros j Hj. apply Heq. lia.
    + pose proof (Hgrow (fuel `max` (2 * (sx * sy))) ltac:(lia)) as Hbig.
      rewrite (growth_mono a fuel) in Hbig; [|lia|by rewrite Hg].
      by rewrite Hg in Hbig.
Qed.

Lemma formation_terminates_witness :
  (∃ st ml, ∀ fuel, 2 * (3 * 2) ≤ fuel →
     growth Simple fuel (fresh_maze 3 2 "sample" WallAny WallAny) late_stream =
     Done st ml (grown_stream Simple (fresh_maze 3 2 "sample" WallAny WallAny) late_stream)) ∧
  (∃ m g', formation Simple 13 (fresh_maze 3 2 "sample" WallAny WallAny) late_stream
           = Returns true m g') ∧
  formation Simple 12 (fresh_maze 3 2 "sample" WallAny WallAny) late_stream = OutOfFuel.
Proof.
  destruct (formation_terminates Simple 3 2 "sample" WallAny WallAny late_stream)
    as (Hgrow & Hret & Hkeep); [lia|lia|].
  split; [exact Hgrow|]. split.
  - apply (Hret 12 13); [vm_compute; discriminate|lia|lia].
  - apply (Hkeep 12 12); [|lia]. intros j Hj.
    do 12 (destruct j as [|j]; [vm_compute; intros H; by apply H|]). lia.
Defined.

Lemma rnd_choice_zero_stream {A} (l : list A) :
  l ≠ [] → rnd_choice zero_stream l = (head l, zero_stream).
Proof.
  destruct l as [|a l]; [done|]. intros _.
  unfold rnd_choice, rnd_randbelow, zero_stream. by rewrite Nat.Div0.mod_0_l.
Qed.

Lemma pick_entry_exit_zero_stream starts ends ml fuel :
  head starts = head ends →
  match pick_entry_exit fuel starts ends ml zero_stream with
  | Done _ _ _ => False
  | _ => True
  end.
Proof.
  intros Hhead. induction fuel as [|fuel IH]; [done|]. simpl.
  destruct starts as [|e starts]; [done|]. destruct ends as [|x ends]; [done|].
  rewrite !rnd_choice_zero_stream by done. simpl in *. simplify_eq.
  rewrite decide_False by (by intros ?). apply IH.
Qed.

(** C3 as stated fails: on the stream of zeros every draw picks the first
    candidate, which is tile (0, 0) for entry and for exit, so the
    formation of a two by two maze never returns, whatever the fuel. *)
Lemma formation_zero_stream_never_returns :
  ¬ ∃ fuel b m g',
      formation Simple fuel (fresh_maze 2 2 "" WallAny WallAny) zero_stream = Returns b m g'.
Proof.
  intros (fuel & b & m & g' & Hrun).
  destruct (growth_total Simple 2 2 "" WallAny WallAny zero_stream) as (ml & g1 & Hgrow & _);
    [lia|lia|].
  assert (g1 = zero_stream) as ->.
  { specialize (Hgrow 8 ltac:(lia)). vm_compute in Hgrow. by injection Hgrow. }
  unfold formation, makeMazeSimple in Hrun. simpl in Hrun.
  change (simple_growth fuel ?m ?g) with (growth Simple fuel m g) in Hrun.
  destruct (growth Simple fuel _ zero_stream) as [st ml' g2| |] eqn:Hg; [|done..].
  pose proof (Hgrow (fuel `max` 8) ltac:(lia)) as Hbig.
  rewrite (growth_mono Simple fuel) in Hbig; [|lia|by rewrite Hg].
  rewrite Hg in Hbig. simplify_eq. unfold finish_formation, makeEntryandExit in Hrun.
  pose proof (pick_entry_exit_zero_stream (get_wall_tiles 2 2 WallAny)
                (get_wall_tiles 2 2 WallAny) ml fuel eq_refl) as Hsame.
  simpl in Hrun.
  destruct (pick_entry_exit fuel _ _ ml zero_stream) as [[e x] ? ?| |] eqn:Hp; done.
Qed.

(** On a maze of a single tile no stream helps: both candidate lists hold
    that tile only. *)
Lemma formation_single_tile_never_returns a fuel nm sw ew g b m g' :
  formation a fuel (fresh_maze 1 1 nm sw ew) g ≠ Returns b m g'.
Proof.
  intros Hrun.
  assert (formation a fuel (fresh_maze 1 1 nm sw ew) g =
          finish_formation fuel (fresh_maze 1 1 nm sw ew)
            (growth a fuel (fresh_maze 1 1 nm sw ew) g)) as Heq by (by destruct a).
  rewrite Heq in Hrun. unfold finish_formation, makeEntryandExit in Hrun.
  destruct (growth a fuel _ g) as [st ml g1| |]; [|done..]. simpl in Hrun.
  pose proof (pick_entry_exit_same (get_wall_tiles 1 1 sw) (get_wall_tiles 1 1 ew)
                ml (0, 0) fuel g1) as Hsame.
  destruct (pick_entry_exit fuel _ _ ml g1) as [[e x] ? ?| |]; [|done..].
  apply Hsame; intros p; [destruct sw|destruct ew]; simpl;
    rewrite ?elem_of_cons, ?elem_of_nil; naive_solver.
Qed.


(** ** State guards, wall candidates and settings *)

(** C5. On a maze whose formed flag is set both formation calls raise
    the error with code 3 and leave maze and stream as they were; on a
    maze whose flag is not set braiding, the three exporters and [makePP]
    raise the error with code 4. *)
Theorem state_guards (getrgb : string → option PyVal) (fuel : nat) (a : Algorithm)
    (weightBraid : Z) (sx sy : nat) (nm : string) (ml : grid) (sw ew : WallSel) (g : Rng)
    (mode colorWall colorFloor pixelSizeOfTile : PyVal) :
  let formed := mkMaze sx sy nm true ml sw ew in
  let unformed := mkMaze sx sy nm false ml sw ew in
  formation a fuel formed g = Raises (MazeError 3) formed g ∧
  makeMazeBraided weightBraid unformed g = Raises (MazeError 4) unformed g ∧
  get_maze_as_list unformed = ExportError (MazeError 4) ∧
  get_maze_with_distances fuel unformed = ExportError (MazeError 4) ∧
  get_maze_detailed_info fuel unformed = ExportError (MazeError 4) ∧
  makePP getrgb mode colorWall colorFloor pixelSizeOfTile unformed = ExportError (MazeError 4).
Proof. destruct a; repeat split. Qed.

(** The candidates for ["Any"] are exactly the tiles of the outer
    boundary, and from two columns and two rows on each is listed once. *)
Lemma wall_tiles_any_boundary sx sy p :
  1 ≤ sx → 1 ≤ sy →
  (p ∈ get_wall_tiles sx sy WallAny ↔ on_boundary sx sy p).
Proof.
  intros Hsx Hsy. split; [by apply get_wall_tiles_boundary|].
  intros [[Hx Hy] Hb]. destruct p as [x y]. simpl in *.
  rewrite !elem_of_app, !list_elem_of_fmap.
  destruct (decide (y = 0)) as [->|].
  { left. exists x. split; [done|]. apply elem_of_range. lia. }
  destruct (decide (y = sy - 1)) as [->|].
  { right; left. exists x. split; [done|]. apply elem_of_range. lia. }
  destruct (decide (x = 0)) as [->|].
  { right; right; left. exists y. split; [done|]. apply elem_of_range. lia. }
  right; right; right. exists y. split; [f_equal; lia|]. apply elem_of_range. lia.
Qed.

Lemma wall_tiles_any_NoDup sx sy :
  2 ≤ sx → 2 ≤ sy → NoDup (get_wall_tiles sx sy WallAny).
Proof.
  intros Hsx Hsy. simpl.
  repeat (apply NoDup_app; split; [|split]);
    try (apply NoDup_fmap_2; [by intros ?? [=]|apply NoDup_seq]);
    intros p; rewrite ?elem_of_app, !list_elem_of_fmap;
    intros (i & -> & Hi%elem_of_range);
    repeat (intros [H|H]; revert H); intros (j & [=] & Hj%elem_of_range); lia.
Qed.

(** C9 fails on mazes of a single row or column: the four walls of
    [get_wall_tiles] overlap there, and the candidates for ["Any"] list a
    tile twice. *)
Theorem wall_tiles_any_thin_maze_repeats :
  get_wall_tiles 3 1 WallAny = [(0, 0); (1, 0); (2, 0); (0, 0); (1, 0); (2, 0)] ∧
  get_wall_tiles 1 3 WallAny = [(0, 0); (0, 2); (0, 1); (0, 1)] ∧
  ¬ NoDup (get_wall_tiles 1 1 WallAny).
Proof.
  split; [done|]. split; [done|].
  intros [Hnd _]%NoDup_cons. apply Hnd. left.
Qed.

(** Lookup in the dictionary [defaults.update(settings)] has left. *)
Lemma update_settings_lookup {V} (defaults : gmap string V) settings key :
  update_settings defaults settings !! key =
  match settings with
  | Some s => match s !! key with Some v => Some v | None => defaults !! key end
  | None => defaults !! key
  end.
Proof.
  destruct settings as [s|]; [|done]. simpl. rewrite lookup_union.
  destruct (s !! key), (defaults !! key); done.
Qed.

(** C10 fails for the key [weightHigh]: the defaults and the two calls
    spell the key [weighHigh], so a value supplied under [weightHigh] is
    never read, [makeMazeGrowTree] receives 99, and [generate_maze] gives
    what it gives without the setting. *)
Theorem supplied_weightHigh_is_ignored (seed_stream : Z → Rng) (getrgb : string → option PyVal)
    fuel now g width height name algorithm v mode image_settings seed sw ew :
  growtree_args (update_settings default_algo_settings (Some {["weightHigh" := v]}))
    = Some (99%Z, 97%Z) ∧
  generate_maze seed_stream getrgb fuel now g width height name algorithm
    (Some {["weightHigh" := v]}) mode image_settings seed sw ew =
  generate_maze seed_stream getrgb fuel now g width height name algorithm
    None mode image_settings seed sw ew.
Proof.
  assert (∀ key, key ≠ "weightHigh" →
    update_settings default_algo_settings (Some {["weightHigh" := v]}) !! key =
    default_algo_settings !! key) as Hsame.
  { intros key Hne. rewrite update_settings_lookup, lookup_singleton_ne by done. done. }
  assert (growtree_args (update_settings default_algo_settings (Some {["weightHigh" := v]}))
          = Some (99%Z, 97%Z)) as Hgt.
  { unfold growtree_args. rewrite !Hsame by done. done. }
  split; [done|].
  unfold generate_maze. destruct (Maze_new _ _ _ _ _ _ _) as [[e|m] g1]; [done|].
  unfold apply_algorithm, braid_arg. rewrite Hgt, Hsame by done. done.
Qed.

(** Values under the keys that the code does read reach the calls. *)
Lemma supplied_weights_override settings wh wl wb :
  settings !! "weighHigh" = Some wh → settings !! "weightLow" = Some wl →
  settings !! "weightBraid" = Some wb →
  growtree_args (update_settings default_algo_settings (Some settings)) = Some (wh, wl) ∧
  braid_arg (update_settings default_algo_settings (Some settings)) = Some wb.
Proof.
  intros H1 H2 H3. unfold growtree_args, braid_arg.
  rewrite !update_settings_lookup, H1, H2, H3. done.
Qed.


(** ** Determinism of generate_maze *)

Lemma formation_rename a fuel nm m g :
  formation a fuel (rename nm m) g = outcome_map (rename nm) (formation a fuel m g).
Proof.
  destruct m as [sx sy nm0 dn ml sw ew].
  destruct a; simpl; unfold makeMazeSimple, makeMazeGrowTree; simpl;
    (destruct dn; [done|]); unfold finish_formation, rename; simpl.
  - change (simple_growth fuel (mkMaze sx sy nm false ml sw ew) g)
      with (simple_growth fuel (mkMaze sx sy nm0 false ml sw ew) g).
    destruct (simple_growth _ _ _); simpl; try done.
    destruct (makeEntryandExit _ _ _ _ _ _ _); done.
  - change (growtree_growth fuel weightHigh weightLow (mkMaze sx sy nm false ml sw ew) g)
      with (growtree_growth fuel weightHigh weightLow (mkMaze sx sy nm0 false ml sw ew) g).
    destruct (growtree_growth _ _ _ _ _); simpl; try done.
    destruct (makeEntryandExit _ _ _ _ _ _ _); done.
Qed.

Lemma makeMazeBraided_rename wb nm m g :
  makeMazeBraided wb (rename nm m) g = outcome_map (rename nm) (makeMazeBraided wb m g).
Proof.
  destruct m as [sx sy nm0 dn ml sw ew]. unfold makeMazeBraided, rename. simpl.
  destruct dn; [|done]. simpl. destruct (_ || _); [done|].
  destruct (for_tiles _ _ _ _); done.
Qed.

Lemma apply_algorithm_rename fuel algorithm settings nm m g :
  apply_algorithm fuel algorithm settings (rename nm m) g =
  outcome_map (rename nm) (apply_algorithm fuel algorithm settings m g).
Proof.
  unfold apply_algorithm. repeat case_bool_decide; try done.
  - apply (formation_rename Simple).
  - destruct (growtree_args settings) as [[wh wl]|]; [|done].
    apply (formation_rename (GrowTree wh wl)).
  - destruct (growtree_args settings) as [[wh wl]|]; [|done].
    pose proof (formation_rename (GrowTree wh wl) fuel nm m g) as Hf. simpl in Hf.
    rewrite Hf. destruct (makeMazeGrowTree fuel wh wl m g) as [b m1 g1| |]; simpl; try done.
    destruct (braid_arg settings); [|done]. apply makeMazeBraided_rename.
Qed.

Lemma get_maze_as_list_rename nm m : get_maze_as_list (rename nm m) = get_maze_as_list m.
Proof. by destruct m. Qed.

(** C7. With a seed, what [generate_maze] hands back in mode ["list"] (the
    grid, or the exception) is fixed by width, height, algorithm,
    algorithm settings, the two walls and the seed: the clock, the stream
    found at the call, the name and the image settings do not matter. *)
Theorem generate_maze_deterministic (seed_stream : Z → Rng) (getrgb : string → option PyVal)
    (fuel : nat) (now1 now2 : Z) (g1 g2 : Rng) (name1 name2 : string)
    (image_settings1 image_settings2 : option (gmap string PyVal))
    (width height : Z) (algorithm : string) (algorithm_settings : option (gmap string Z))
    (start_wall end_wall : WallSel) (seed : Z) :
  gen_result (generate_maze seed_stream getrgb fuel now1 g1 width height name1 algorithm
                algorithm_settings "list" image_settings1 (Some seed) start_wall end_wall) =
  gen_result (generate_maze seed_stream getrgb fuel now2 g2 width height name2 algorithm
                algorithm_settings "list" image_settings2 (Some seed) start_wall end_wall).
Proof.
  unfold generate_maze, Maze_new, Maze_init.
  destruct ((width <? 1)%Z || (height <? 1)%Z); [done|].
  set (m0 := mkMaze (Z.to_nat width) (Z.to_nat height) "" false [] WallAny WallAny).
  set (settings := update_settings default_algo_settings algorithm_settings).
  assert (∀ nm img,
    gen_result
      match apply_algorithm fuel algorithm settings
              (set_walls (mkMaze (Z.to_nat width) (Z.to_nat height) nm false [] WallAny WallAny)
                 start_wall end_wall) (seed_stream seed) with
      | Returns _ maze' g3 =>
          export_mode getrgb fuel "list" (update_settings default_image_settings img) maze' g3
      | Raises e _ g3 => GenRaises e g3
      | OutOfFuel => GenOutOfFuel
      end =
    gen_result
      match apply_algorithm fuel algorithm settings (set_walls m0 start_wall end_wall)
              (seed_stream seed) with
      | Returns _ maze' g3 =>
          match get_maze_as_list maze' with
          | Exported l => GenReturns (GenList l) g3
          | ExportError e => GenRaises e g3
          | ExportOutOfFuel => GenOutOfFuel
          end
      | Raises e _ g3 => GenRaises e g3
      | OutOfFuel => GenOutOfFuel
      end) as Hcanon.
  { intros nm img.
    change (set_walls (mkMaze (Z.to_nat width) (Z.to_nat height) nm false [] WallAny WallAny)
              start_wall end_wall) with (rename nm (set_walls m0 start_wall end_wall)).
    rewrite apply_algorithm_rename.
    destruct (apply_algorithm fuel algorithm settings (set_walls m0 start_wall end_wall)
                (seed_stream seed)) as [b m1 g3| |]; [|done..].
    unfold outcome_map, export_mode. rewrite bool_decide_eq_true_2 by done.
    rewrite get_maze_as_list_rename. by destruct (get_maze_as_list m1). }
  by rewrite !Hcanon.
Qed.


(** ** Export grids *)

Lemma rect_fresh_grid {A} rows cols (v : A) : rect rows cols (fresh_grid rows cols v).
Proof.
  split; [apply length_replicate|]. apply Forall_replicate, length_replicate.
Qed.

Lemma get_cell_fresh_grid {A} rows cols (v : A) p :
  get_cell (fresh_grid rows cols v) p =
  if decide (p.1 < cols ∧ p.2 < rows) then Some v else None.
Proof.
  unfold get_cell, fresh_grid. destruct (decide (p.2 < rows)) as [Hy|Hy].
  - rewrite lookup_replicate_2 by done. simpl.
    destruct (decide (p.1 < cols)) as [Hx|Hx].
    + rewrite lookup_replicate_2 by done. by rewrite decide_True.
    + rewrite (proj1 (lookup_replicate_None _ _ _)) by lia.
      rewrite decide_False; [done|lia].
  - rewrite (proj1 (lookup_replicate_None _ _ _)) by lia. simpl. rewrite decide_False; [done|lia].
Qed.

Lemma set_cell_Some {A} (gr gr' : list (list A)) c v :
  set_cell gr c v = Some gr' →
  (∀ p, get_cell gr' p = if decide (p = c) then Some v else get_cell gr p) ∧
  (∀ rows cols, rect rows cols gr → rect rows cols gr') ∧
  length gr' = length gr ∧ length <$> gr' !! 0 = length <$> gr !! 0.
Proof.
  unfold set_cell. destruct (gr !! c.2) as [row|] eqn:Hrow; [|done].
  case_decide as Hlt; [|done]. intros [= <-]. split; [|split; [|split]].
  - intros [x y]. destruct c as [cx cy]. unfold get_cell. simpl in *.
    destruct (decide (y = cy)) as [->|Hy].
    + rewrite list_lookup_insert_eq by (by eapply lookup_lt_Some). simpl.
      destruct (decide (x = cx)) as [->|Hx].
      * rewrite list_lookup_insert_eq by done. by rewrite decide_True.
      * rewrite list_lookup_insert_ne by done. rewrite Hrow. simpl.
        rewrite decide_False; [done|congruence].
    + rewrite list_lookup_insert_ne by done. rewrite decide_False; [done|congruence].
  - intros rows cols [Hlen Hall]. split; [by rewrite length_insert|].
    apply Forall_insert; [done|]. rewrite length_insert.
    by eapply (Forall_lookup_1 _ _ _ _ Hall).
  - by rewrite length_insert.
  - destruct (decide (c.2 = 0)) as [Hc|Hc].
    + rewrite Hc in *. rewrite list_lookup_insert_eq by (by eapply lookup_lt_Some).
      rewrite Hrow. simpl. by rewrite length_insert.
    + by rewrite list_lookup_insert_ne.
Qed.

Lemma set_index_Some (gr gr' : list (list Info)) c s :
  set_index gr c s = Some gr' →
  ∃ cell, get_cell gr c = Some cell ∧
  (∀ p, get_cell gr' p =
        if decide (p = c)
        then Some (mkInfo s (distance cell) (info_N cell) (info_S cell) (info_W cell) (info_E cell))
        else get_cell gr p) ∧
  (∀ rows cols, rect rows cols gr → rect rows cols gr').
Proof.
  unfold set_index. destruct (get_cell gr c) as [cell|] eqn:Hc; [|done].
  intros (H1 & H2 & _)%set_cell_Some. eauto.
Qed.

Lemma get_cell_rect {A} rows cols (gr : list (list A)) p :
  rect rows cols gr → (is_Some (get_cell gr p) ↔ p.1 < cols ∧ p.2 < rows).
Proof.
  intros [Hlen Hall]. unfold get_cell. split.
  - intros [v Hv]. destruct (gr !! p.2) as [row|] eqn:Hrow; [|done]. simpl in Hv.
    pose proof (Forall_lookup_1 _ _ _ _ Hall Hrow) as Hl. simpl in Hl.
    apply lookup_lt_Some in Hrow, Hv. lia.
  - intros [Hx Hy]. rewrite <- Hlen in Hy.
    destruct (lookup_lt_is_Some_2 _ _ Hy) as [row Hrow]. rewrite Hrow. simpl.
    pose proof (Forall_lookup_1 _ _ _ _ Hall Hrow) as Hl. simpl in Hl.
    apply lookup_lt_is_Some_2. lia.
Qed.

(** One cell made a floor in both grids. *)
Lemma walls_agree_open {A B} (wa : A → bool) (wb : B → bool) ga gb ga' gb' c va vb :
  walls_agree wa wb ga gb →
  (∀ p, get_cell ga' p = if decide (p = c) then Some va else get_cell ga p) →
  (∀ p, get_cell gb' p = if decide (p = c) then Some vb else get_cell gb p) →
  wa va = wb vb →
  walls_agree wa wb ga' gb'.
Proof.
  intros Hag Ha Hb Hv p. rewrite Ha, Hb. case_decide; [simpl; by f_equal|apply Hag].
Qed.


(** ** The exporters in step *)

Lemma mark_conns_step t d rest gs sp r :
  mark_conns t (d :: rest) gs sp = Some r →
  ∃ v gs1 sp1, v ≠ SymWall ∧ set_cell gs (toward d (display_of t)) v = Some gs1 ∧
    mark_conns t rest gs1 sp1 = Some r ∧
    (sp1 = sp ∨ sp1 = Some (toward d (display_of t))).
Proof.
  simpl. repeat case_match;
    (destruct (set_cell gs _ _) as [gs1|] eqn:Hset; [|done]); simpl; intros Hr;
    eexists _, gs1, _; (split; [|split; [exact Hset|split; [exact Hr|]]]); auto; done.
Qed.

Lemma detail_conns_step sx sy t d rest gi spi r :
  rect (sy * 2 + 1) (sx * 2 + 1) gi →
  (toward d (display_of t)).1 < sx * 2 + 1 → (toward d (display_of t)).2 < sy * 2 + 1 →
  detail_conns sx sy t (d :: rest) gi spi = Some r →
  ∃ vb gi1 spi1, info_wall vb = false ∧
    (∀ p, get_cell gi1 p =
          if decide (p = toward d (display_of t)) then Some vb else get_cell gi p) ∧
    rect (sy * 2 + 1) (sx * 2 + 1) gi1 ∧
    detail_conns sx sy t rest gi1 spi1 = Some r.
Proof.
  intros Hrect Hx Hy. simpl.
  rewrite !bool_decide_eq_true_2 by done. simpl.
  destruct (outward_conn sx sy t d).
  - destruct (is_entry t) as [[|]|];
      (destruct (set_index gi _ _) as [gi1|] eqn:Hset; [|done]); simpl; intros Hr;
      apply set_index_Some in Hset as (cell & _ & Hget & Hr1);
      eexists _, gi1, _; (split; [|split; [exact Hget|split; [by apply Hr1|exact Hr]]]); done.
  - destruct (get_cell gi _) as [cell|] eqn:Hcell; [|done]. case_bool_decide as Hw.
    + destruct (set_index gi _ _) as [gi1|] eqn:Hset; [|done]. simpl. intros Hr.
      apply set_index_Some in Hset as (cell' & _ & Hget & Hr1).
      eexists _, gi1, _. split; [|split; [exact Hget|split; [by apply Hr1|exact Hr]]]. done.
    + intros Hr. exists cell, gi, spi. split; [by apply bool_decide_eq_false|].
      split; [|done]. intros p. case_decide; by subst.
Qed.

Lemma conns_lockstep sx sy t ds gs sp gi spi gs' sp' gi' spi' :
  rect (sy * 2 + 1) (sx * 2 + 1) gs → rect (sy * 2 + 1) (sx * 2 + 1) gi →
  walls_agree sym_wall info_wall gs gi →
  mark_conns t ds gs sp = Some (gs', sp') →
  detail_conns sx sy t ds gi spi = Some (gi', spi') →
  rect (sy * 2 + 1) (sx * 2 + 1) gs' ∧ rect (sy * 2 + 1) (sx * 2 + 1) gi' ∧
  walls_agree sym_wall info_wall gs' gi'.
Proof.
  revert gs sp gi spi. induction ds as [|d ds IH]; intros gs sp gi spi Hrs Hri Hag Hm Hd.
  - simpl in *. by simplify_eq.
  - apply mark_conns_step in Hm as (v & gs1 & sp1 & Hv & Hset & Hm & _).
    pose proof Hset as Hset'. apply set_cell_Some in Hset' as (Hget & Hr1 & _).
    assert (is_Some (get_cell gs1 (toward d (display_of t)))) as Hin.
    { rewrite Hget, decide_True by done. eauto. }
    apply (get_cell_rect _ _ _ _ (Hr1 _ _ Hrs)) in Hin as [Hx Hy].
    apply detail_conns_step in Hd as (vb & gi1 & spi1 & Hvb & Hgeti & Hri1 & Hd); try done.
    apply (IH gs1 sp1 gi1 spi1); try done; [by apply Hr1|].
    eapply walls_agree_open; [exact Hag|exact Hget|exact Hgeti|].
    rewrite Hvb. by apply bool_decide_eq_false.
Qed.

Lemma tiles_lockstep sx sy tiles gs sp gi spi gs' sp' gi' spi' :
  rect (sy * 2 + 1) (sx * 2 + 1) gs → rect (sy * 2 + 1) (sx * 2 + 1) gi →
  walls_agree sym_wall info_wall gs gi →
  mark_tiles tiles gs sp = Some (gs', sp') →
  detail_tiles sx sy tiles gi spi = Some (gi', spi') →
  rect (sy * 2 + 1) (sx * 2 + 1) gs' ∧ rect (sy * 2 + 1) (sx * 2 + 1) gi' ∧
  walls_agree sym_wall info_wall gs' gi'.
Proof.
  revert gs sp gi spi. induction tiles as [|t tiles IH]; intros gs sp gi spi Hrs Hri Hag Hm Hd.
  - simpl in *. by simplify_eq.
  - simpl in Hm, Hd.
    destruct (set_cell gs _ _) as [gs1|] eqn:Hset; [|done]. simpl in Hm.
    destruct (mark_conns t (connectTo t) gs1 sp) as [[gs2 sp2]|] eqn:Hmc; [|done]. simpl in Hm.
    destruct (set_index gi _ _) as [gi1|] eqn:Hseti; [|done]. simpl in Hd.
    destruct (detail_conns sx sy t (connectTo t) gi1 spi) as [[gi2 spi2]|] eqn:Hdc; [|done].
    simpl in Hd.
    apply set_cell_Some in Hset as (Hget & Hr1 & _).
    apply set_index_Some in Hseti as (cell & _ & Hgeti & Hri1).
    destruct (conns_lockstep sx sy t (connectTo t) gs1 sp gi1 spi gs2 sp2 gi2 spi2)
      as (Hrs2 & Hri2 & Hag2);
      try done; [by apply Hr1|by apply Hri1| |by eapply IH].
    by eapply walls_agree_open.
Qed.

(** The start position recorded while marking is a floor cell, and floor
    cells stay floor cells. *)
Lemma set_cell_floor gs gs1 c v p :
  set_cell gs c v = Some gs1 → v ≠ SymWall → floor_cell gs p → floor_cell gs1 p.
Proof.
  intros (Hget & _)%set_cell_Some Hv (s & Hs & Hne). unfold floor_cell. rewrite Hget.
  case_decide; eauto.
Qed.

Lemma set_cell_floor_here gs gs1 c v :
  set_cell gs c v = Some gs1 → v ≠ SymWall → floor_cell gs1 c.
Proof.
  intros (Hget & _)%set_cell_Some Hv. exists v. by rewrite Hget, decide_True.
Qed.

Lemma mark_conns_start t ds gs sp gs' sp' :
  mark_conns t ds gs sp = Some (gs', sp') →
  (∀ c, sp = Some c → floor_cell gs c) → (∀ c, sp' = Some c → floor_cell gs' c).
Proof.
  revert gs sp. induction ds as [|d ds IH]; intros gs sp Hm Hsp.
  - simpl in Hm. by simplify_eq.
  - apply mark_conns_step in Hm as (v & gs1 & sp1 & Hv & Hset & Hm & Hsp1).
    apply (IH gs1 sp1 Hm). intros c Hc. destruct Hsp1 as [->| ->].
    + eapply set_cell_floor; eauto.
    + simplify_eq. by eapply set_cell_floor_here.
Qed.

Lemma mark_tiles_start tiles gs sp gs' sp' :
  mark_tiles tiles gs sp = Some (gs', sp') →
  (∀ c, sp = Some c → floor_cell gs c) → (∀ c, sp' = Some c → floor_cell gs' c).
Proof.
  revert gs sp. induction tiles as [|t tiles IH]; intros gs sp Hm Hsp.
  - simpl in Hm. by simplify_eq.
  - simpl in Hm.
    destruct (set_cell gs _ _) as [gs1|] eqn:Hset; [|done]. simpl in Hm.
    destruct (mark_conns t (connectTo t) gs1 sp) as [[gs2 sp2]|] eqn:Hmc; [|done]. simpl in Hm.
    apply (IH gs2 sp2 Hm). apply (mark_conns_start _ _ _ _ _ _ Hmc).
    intros c Hc. eapply set_cell_floor; eauto.
Qed.

(** The breadth-first loop only reaches cells that pass its test. *)
Lemma bfs_visit_queue (Q : pos → Prop) open cands dist1 queue visited queue' visited' :
  (∀ c, open c = true → Q c) → Forall (λ e, Q e.1) queue →
  bfs_visit open cands dist1 queue visited = (queue', visited') →
  Forall (λ e, Q e.1) queue'.
Proof.
  intros Hopen. revert queue visited.
  induction cands as [|[c|] cands IH]; intros queue visited Hq; simpl.
  - by intros [= <- <-].
  - destruct (open c && bool_decide (c ∉ visited)) eqn:Hc; [|by apply IH].
    apply IH. apply Forall_app. split; [done|]. apply Forall_singleton. simpl.
    apply Hopen. by apply andb_true_iff in Hc as [? _].
  - by apply IH.
Qed.

Lemma bfs_distances_S fuel open p dist queue visited ds :
  bfs_distances (S fuel) open ((p, dist) :: queue) visited ds =
  bfs_distances fuel open
    (bfs_visit open (display_neighbours p) (dist + 1)%Z queue visited).1
    (bfs_visit open (display_neighbours p) (dist + 1)%Z queue visited).2
    (<[p := dist]> ds).
Proof.
  cbn [bfs_distances]. by destruct (bfs_visit open (display_neighbours p) _ queue visited).
Qed.

Lemma bfs_distances_keys (Q : pos → Prop) fuel open queue visited ds ds' :
  (∀ c, open c = true → Q c) → Forall (λ e, Q e.1) queue →
  (∀ p, is_Some (ds !! p) → Q p) →
  bfs_distances fuel open queue visited ds = Some ds' →
  ∀ p, is_Some (ds' !! p) → Q p.
Proof.
  intros Hopen. revert queue visited ds.
  induction fuel as [|fuel IH]; intros queue visited ds Hq Hds.
  - destruct queue as [|[p dist] queue]; [|done]. by intros [= <-].
  - destruct queue as [|[p dist] queue]; [by intros [= <-]|].
    apply Forall_cons in Hq as [Hp Hq]. rewrite bfs_distances_S.
    apply IH.
    + eapply bfs_visit_queue; [done|exact Hq|]. apply surjective_pairing.
    + intros q. rewrite lookup_insert. case_decide; [by subst|]. apply Hds.
Qed.

Lemma get_cell_imap {A B} (f : nat → nat → A → B) (gr : list (list A)) p :
  get_cell (imap (λ y row, imap (λ x cell, f x y cell) row) gr) p =
  f p.1 p.2 <$> get_cell gr p.
Proof.
  unfold get_cell. rewrite list_lookup_imap. destruct (gr !! p.2) as [row|]; [|done].
  simpl. by rewrite list_lookup_imap.
Qed.

Lemma rect_imap {A B} (f : nat → nat → A → B) rows cols (gr : list (list A)) :
  rect rows cols gr → rect rows cols (imap (λ y row, imap (λ x cell, f x y cell) row) gr).
Proof.
  intros [Hlen Hall]. split; [by rewrite length_imap|].
  apply Forall_lookup. intros y row. rewrite list_lookup_imap.
  destruct (gr !! y) as [row0|] eqn:Hrow; [|done]. simpl. intros [= <-].
  rewrite length_imap. by apply (Forall_lookup_1 _ _ _ _ Hall Hrow).
Qed.

Lemma fill_distances_agree gs ds :
  (∀ p, is_Some (ds !! p) → floor_cell gs p) →
  walls_agree sym_wall dcell_wall gs (fill_distances gs ds).
Proof.
  intros Hkeys p. unfold fill_distances.
  rewrite (get_cell_imap (λ x y cell, match ds !! (x, y) with
    | Some d => DNum d
    | None => if bool_decide (cell ≠ SymWall) && bool_decide (cell ≠ SymEnd)
              then DNum (-1) else DSym cell end)).
  destruct (get_cell gs p) as [s|] eqn:Hs; [|done]. simpl. f_equal.
  replace (p.1, p.2) with p by (by destruct p).
  unfold sym_wall, dcell_wall. destruct (ds !! p) as [d|] eqn:Hd.
  - destruct (Hkeys p) as (s' & Hs' & Hne); [by rewrite Hd|]. simplify_eq.
    rewrite bool_decide_eq_false_2 by done. by rewrite bool_decide_eq_false_2.
  - destruct s; done.
Qed.

Lemma fill_info_agree gi ds : walls_agree info_wall info_wall gi (fill_info gi ds).
Proof.
  intros p. unfold fill_info.
  rewrite (get_cell_imap (λ c_idx r_idx cell, mkInfo (index cell) _ _ _ _ _)).
  by destruct (get_cell gi p).
Qed.


(** ** The three exports agree on walls *)

Lemma walls_agree_trans {A B C} (wa : A → bool) (wb : B → bool) (wc : C → bool) ga gb gc :
  walls_agree wa wb ga gb → walls_agree wb wc gb gc → walls_agree wa wc ga gc.
Proof. intros H1 H2 p. by rewrite H1. Qed.

Lemma walls_agree_fresh rows cols :
  walls_agree sym_wall info_wall (fresh_grid rows cols SymWall) (fresh_grid rows cols wall_info).
Proof. intros p. rewrite !get_cell_fresh_grid. by case_decide. Qed.

Lemma in_grid_and_floor gs p :
  in_grid_and gs (λ c, bool_decide (c = SymPath)) p = true → floor_cell gs p.
Proof.
  unfold in_grid_and. intros [_ H]%andb_true_iff.
  destruct (get_cell gs p) as [s|] eqn:Hs; [|done]. apply bool_decide_eq_true in H. subst.
  by exists SymPath.
Qed.

(** Whatever the maze, when the three exporters return, each grid has
    [2 * sizeY + 1] rows of [2 * sizeX + 1] cells and the grids have their
    walls at the same coordinates. *)
Lemma exports_agree fuel1 fuel2 m sym dist info :
  get_maze_as_list m = Exported sym →
  get_maze_with_distances fuel1 m = Exported dist →
  get_maze_detailed_info fuel2 m = Exported info →
  rect (2 * sizeY m + 1) (2 * sizeX m + 1) sym ∧
  rect (2 * sizeY m + 1) (2 * sizeX m + 1) dist ∧
  rect (2 * sizeY m + 1) (2 * sizeX m + 1) info ∧
  ∀ p,
    (get_cell sym p = Some SymWall ↔ get_cell dist p = Some (DSym SymWall)) ∧
    (get_cell sym p = Some SymWall ↔ index <$> get_cell info p = Some SymWall) ∧
    (∀ s, get_cell sym p = Some s → s ≠ SymWall →
       (∃ c, get_cell dist p = Some c ∧ c ≠ DSym SymWall) ∧
       (∃ i, get_cell info p = Some i ∧ index i ≠ SymWall)).
Proof.
  rewrite !(Nat.mul_comm 2).
  unfold get_maze_as_list, get_maze_with_distances, get_maze_detailed_info.
  destruct (mazeIsDone m); [|done]. cbn [negb].
  set (rows := sizeY m * 2 + 1). set (cols := sizeX m * 2 + 1).
  destruct (mark_tiles _ _ None) as [[gs sp]|] eqn:Hmark; [|done].
  intros [= <-]. destruct sp as [start|]; [|done].
  destruct (bfs_distances _ _ _ _ _) as [ds|] eqn:Hbfs; [|done]. intros [= <-].
  destruct (detail_tiles _ _ _ _ None) as [[gi found]|] eqn:Hdet; [|done].
  destruct (match found with Some s => Some s | None => scan_start gi end) as [start'|]; [|done].
  destruct (bfs_info _ _ _ _ _) as [ds'|]; [|done]. intros [= <-].
  destruct (tiles_lockstep (sizeX m) (sizeY m) _ _ _ _ _ _ _ _ _
              (rect_fresh_grid _ _ _) (rect_fresh_grid _ _ _)
              (walls_agree_fresh _ _) Hmark Hdet) as (Hrs & Hri & Hag).
  assert (floor_cell gs start) as Hstart.
  { by eapply (mark_tiles_start _ _ _ _ _ Hmark). }
  assert (walls_agree sym_wall dcell_wall gs (fill_distances gs ds)) as Hagd.
  { apply fill_distances_agree.
    eapply (bfs_distances_keys (floor_cell gs)); [apply in_grid_and_floor| | |exact Hbfs].
    - apply Forall_singleton. exact Hstart.
    - intros p [? Hp]. by rewrite lookup_empty in Hp. }
  assert (walls_agree sym_wall info_wall gs (fill_info gi ds')) as Hagi.
  { eapply walls_agree_trans; [exact Hag|apply fill_info_agree]. }
  split; [done|]. split; [by apply rect_imap|]. split; [by apply rect_imap|].
  intros p. specialize (Hagd p). specialize (Hagi p).
  unfold sym_wall, dcell_wall, info_wall in *.
  destruct (get_cell gs p) as [s|], (get_cell (fill_distances gs ds) p) as [c|],
    (get_cell (fill_info gi ds') p) as [i|]; simpl in *; simplify_eq.
  - repeat split.
    + intros [= ->]. rewrite bool_decide_eq_true_2 in Hagd by done.
      symmetry in Hagd. apply bool_decide_eq_true in Hagd. by subst.
    + intros [= ->]. rewrite (bool_decide_eq_true_2 (DSym SymWall = DSym SymWall)) in Hagd by done.
      apply bool_decide_eq_true in Hagd. by subst.
    + intros [= ->]. rewrite bool_decide_eq_true_2 in Hagi by done.
      symmetry in Hagi. apply bool_decide_eq_true in Hagi. by rewrite Hagi.
    + intros [= Hi]. rewrite (bool_decide_eq_true_2 (index i = SymWall)) in Hagi by done.
      apply bool_decide_eq_true in Hagi. by subst.
    + exists c. split; [done|]. intros ->. simplify_eq.
      rewrite (bool_decide_eq_true_2 (DSym SymWall = DSym SymWall)) in Hagd by done.
      by apply bool_decide_eq_true in Hagd.
    + exists i. split; [done|]. intros Hi. simplify_eq.
      rewrite (bool_decide_eq_true_2 (index i = SymWall)) in Hagi by done.
      by apply bool_decide_eq_true in Hagi.
  - repeat split; done.
Qed.


(** ** The exporters return on produced mazes *)

Lemma produced_has_entry m : produced m → has_entry (sizeX m) (sizeY m) (mazeList m).
Proof.
  induction 1 as [a fuel sx sy nm sw ew g b m g' Hsx Hsy Hrun|m wb g b m' g' Hm IH Hrun].
  - destruct (formation_formed _ _ _ _ _ _ _ _ _ _ _ Hsx Hsy Hrun)
      as ([_ _ _ _ _ (e & x & Hne & [He _] & _ & Hrole & Hout)] & -> & -> & _).
    specialize (Hout e He). rewrite decide_True in Hout by done.
    assert (outward_dir sy e ∈ filter (outward sx sy e) (conns (mazeList m) e)) as Hd.
    { rewrite Hout. left. }
    apply list_elem_of_filter in Hd as [Hd1 Hd2].
    exists e, (outward_dir sy e). rewrite Hrole, decide_True by done. done.
  - destruct (makeMazeBraided_ok wb m g b m' g' (produced_ok m Hm) Hrun) as (_ & -> & -> & Hg).
    destruct IH as (e & d & He & Hr & Hd & Ho). exists e, d.
    destruct (Hg e) as [_ Hr']. split; [done|]. split; [congruence|].
    split; [by eapply grows_elem|done].
Qed.

Lemma elem_of_concat_rows {A} (ls : list (list A)) (x : A) :
  x ∈ concat ls ↔ ∃ l, l ∈ ls ∧ x ∈ l.
Proof.
  induction ls as [|l ls IH]; simpl.
  - split; [by intros ?%elem_of_nil|by intros (l & ?%elem_of_nil & _)].
  - rewrite elem_of_app, IH. split.
    + intros [H|(l' & H1 & H2)]; [exists l; split; [left|done]|exists l'; split; [by right|done]].
    + intros (l' & [->|H1]%elem_of_cons & H2); [by left|right; eauto].
Qed.

Lemma elem_of_concat_tile (ml : grid) t :
  t ∈ concat ml ↔ ∃ p, tile_at ml p = Some t.
Proof.
  rewrite elem_of_concat_rows. unfold tile_at. split.
  - intros (row & Ht & Hrow). apply list_elem_of_lookup in Ht as [y Hy], Hrow as [x Hx].
    exists (x, y). simpl. by rewrite Hy.
  - intros ([x y] & Hp). simpl in Hp. destruct (ml !! y) as [row|] eqn:Hy; [|done].
    exists row. split; by eapply list_elem_of_lookup_2.
Qed.

Lemma concat_placed sx sy ml : wf_grid sx sy ml → Forall (placed sx sy) (concat ml).
Proof.
  intros Hwf. apply Forall_forall. intros t (p & Hp)%elem_of_concat_tile.
  assert (in_grid sx sy p) as [Hx Hy] by (apply (tile_at_in_grid sx sy ml); eauto).
  destruct Hwf as (_ & _ & Hco). destruct (Hco p t Hp) as [Hcx Hcy].
  unfold placed. by rewrite Hcx, Hcy.
Qed.

Lemma has_entry_tile sx sy ml :
  wf_grid sx sy ml → has_entry sx sy ml → ∃ t, t ∈ concat ml ∧ entry_tile sx sy t.
Proof.
  intros Hwf (e & d & He & Hr & Hd & Ho).
  destruct (deref_in_grid _ _ _ _ Hwf He) as (Ht & Hx & Hy).
  exists (deref ml e). split; [apply elem_of_concat_tile; eauto|].
  unfold role, conns in *. rewrite Ht in Hr, Hd. split; [done|]. exists d. split; [done|].
  unfold leaves. rewrite Hx, Hy. destruct e as [x y], He as [Hex Hey].
  unfold outward in Ho. destruct d; step_cases.
Qed.

(** Writing a cell of the grid succeeds inside the grid. *)
Lemma set_cell_total {A} rows cols (gr : list (list A)) p v :
  rect rows cols gr → p.1 < cols → p.2 < rows →
  ∃ gr', set_cell gr p v = Some gr' ∧ rect rows cols gr'.
Proof.
  intros Hr Hx Hy. pose proof Hr as [Hlen Hall]. unfold set_cell.
  rewrite <- Hlen in Hy. destruct (lookup_lt_is_Some_2 _ _ Hy) as [row Hrow].
  rewrite Hrow. pose proof (Forall_lookup_1 _ _ _ _ Hall Hrow) as Hl. simpl in Hl.
  rewrite decide_True by lia. eexists. split; [done|].
  eapply set_cell_Some; [|done]. unfold set_cell. rewrite Hrow. by rewrite decide_True by lia.
Qed.

Lemma set_index_total rows cols (gr : list (list Info)) p s :
  rect rows cols gr → p.1 < cols → p.2 < rows →
  ∃ gr', set_index gr p s = Some gr' ∧ rect rows cols gr'.
Proof.
  intros Hr Hx Hy. unfold set_index.
  destruct (proj2 (get_cell_rect _ _ _ p Hr)) as [c Hc]; [done|]. rewrite Hc.
  by apply (set_cell_total rows cols).
Qed.

Lemma toward_display sx sy t d :
  placed sx sy t →
  (toward d (display_of t)).1 < sx * 2 + 1 ∧ (toward d (display_of t)).2 < sy * 2 + 1 ∧
  (display_of t).1 < sx * 2 + 1 ∧ (display_of t).2 < sy * 2 + 1.
Proof. intros [Hx Hy]. unfold display_of. destruct d; simpl; lia. Qed.

Lemma on_border_leaves {A} sx sy (gr : list (list A)) t d :
  rect (sy * 2 + 1) (sx * 2 + 1) gr → placed sx sy t → leaves sx sy t d →
  on_border gr (toward d (display_of t)) = true.
Proof.
  intros [Hlen Hall] [Hx Hy] Hl. unfold on_border. rewrite Hlen.
  assert (length (default [] (gr !! 0)) = sx * 2 + 1) as ->.
  { destruct gr as [|row gr]; [simpl in Hlen; lia|]. simpl.
    by apply Forall_cons in Hall as [? _]. }
  unfold display_of, leaves in *.
  destruct d; simpl; rewrite ?orb_true_iff, !Nat.eqb_eq; lia.
Qed.

Lemma start_ok_None sx sy : start_ok sx sy None.
Proof. by intros c. Qed.

Lemma start_ok_toward sx sy t d :
  placed sx sy t → start_ok sx sy (Some (toward d (display_of t))).
Proof. intros Hp c [= <-]. by destruct (toward_display sx sy t d Hp) as (? & ? & _). Qed.

(** The connection loop of the symbolic exporters never leaves the grid; it
    keeps a start position it has, and records one at an entry tile that
    lists a direction leaving the grid. *)
Lemma mark_conns_total sx sy t ds gr sp :
  placed sx sy t → rect (sy * 2 + 1) (sx * 2 + 1) gr → start_ok sx sy sp →
  ∃ gr' sp', mark_conns t ds gr sp = Some (gr', sp') ∧
    rect (sy * 2 + 1) (sx * 2 + 1) gr' ∧ start_ok sx sy sp' ∧
    (is_Some sp → is_Some sp') ∧
    (is_entry t = Some true → (∃ d, d ∈ ds ∧ leaves sx sy t d) → is_Some sp').
Proof.
  intros Hp. revert gr sp. induction ds as [|d rest IH]; intros gr sp Hr Hsp.
  { exists gr, sp. do 4 (split; [done|]). by intros _ (d & ?%elem_of_nil & _). }
  destruct (toward_display sx sy t d Hp) as (Hx & Hy & _).
  assert (∀ v sp1, start_ok sx sy sp1 → (is_Some sp → is_Some sp1) →
    (is_entry t = Some true → leaves sx sy t d → is_Some sp1) →
    ∃ gr' sp', (gr1 ← set_cell gr (toward d (display_of t)) v; mark_conns t rest gr1 sp1)
                 = Some (gr', sp') ∧
      rect (sy * 2 + 1) (sx * 2 + 1) gr' ∧ start_ok sx sy sp' ∧
      (is_Some sp → is_Some sp') ∧
      (is_entry t = Some true → (∃ d', d' ∈ d :: rest ∧ leaves sx sy t d') → is_Some sp'))
    as Hstep.
  { intros v sp1 Hsp1 Hkeep Hrec.
    destruct (set_cell_total _ _ gr (toward d (display_of t)) v Hr Hx Hy) as (gr1 & -> & Hr1).
    simpl. destruct (IH gr1 sp1 Hr1 Hsp1) as (gr' & sp' & -> & Hr' & Hsp' & Hk & He).
    exists gr', sp'. do 3 (split; [done|]). split; [by auto|].
    intros Hent (d' & [->|Hin]%elem_of_cons & Hl); [by auto|]. apply He; eauto. }
  cbn [mark_conns]. cbv zeta.
  destruct (is_entry t) as [[|]|] eqn:Hent.
  - destruct (on_border gr _) eqn:Hb.
    + apply Hstep; [by apply start_ok_toward|done|done].
    + apply Hstep; [done|done|]. intros _ Hl.
      by rewrite (on_border_leaves sx sy gr t d Hr Hp Hl) in Hb.
  - destruct (on_border gr _); apply Hstep; done.
  - apply Hstep; done.
Qed.

Lemma mark_tiles_total sx sy tiles gr sp :
  Forall (placed sx sy) tiles → rect (sy * 2 + 1) (sx * 2 + 1) gr → start_ok sx sy sp →
  ∃ gr' sp', mark_tiles tiles gr sp = Some (gr', sp') ∧
    rect (sy * 2 + 1) (sx * 2 + 1) gr' ∧ start_ok sx sy sp' ∧
    (is_Some sp → is_Some sp') ∧
    ((∃ t, t ∈ tiles ∧ entry_tile sx sy t) → is_Some sp').
Proof.
  intros Hall. revert gr sp. induction Hall as [|t rest Hp Hall IH]; intros gr sp Hr Hsp.
  { exists gr, sp. do 4 (split; [done|]). by intros (t & ?%elem_of_nil & _). }
  destruct (toward_display sx sy t North Hp) as (_ & _ & Hx & Hy).
  cbn [mark_tiles].
  destruct (set_cell_total _ _ gr (display_of t) SymPath Hr Hx Hy) as (gr1 & -> & Hr1). simpl.
  destruct (mark_conns_total sx sy t (connectTo t) gr1 sp Hp Hr1 Hsp)
    as (gr2 & sp2 & -> & Hr2 & Hsp2 & Hk2 & He2). simpl.
  destruct (IH gr2 sp2 Hr2 Hsp2) as (gr' & sp' & -> & Hr' & Hsp' & Hk & He).
  exists gr', sp'. do 3 (split; [done|]). split; [by auto|].
  intros (t' & [->|Hin]%elem_of_cons & Hent); [|by eauto].
  destruct Hent as [H1 H2]. auto.
Qed.

Lemma outward_conn_leaves sx sy t d :
  is_entry t = Some true → leaves sx sy t d → outward_conn sx sy t d = true.
Proof.
  intros He Hl. unfold outward_conn, leaves in *. rewrite He.
  destruct d; by apply Nat.eqb_eq.
Qed.

(** The same for the connection loop of the detailed exporter. *)
Lemma detail_conns_total sx sy t ds gr sp :
  placed sx sy t → rect (sy * 2 + 1) (sx * 2 + 1) gr → start_ok sx sy sp →
  ∃ gr' sp', detail_conns sx sy t ds gr sp = Some (gr', sp') ∧
    rect (sy * 2 + 1) (sx * 2 + 1) gr' ∧ start_ok sx sy sp' ∧
    (is_Some sp → is_Some sp') ∧
    (is_entry t = Some true → (∃ d, d ∈ ds ∧ leaves sx sy t d) → is_Some sp').
Proof.
  intros Hp. revert gr sp. induction ds as [|d rest IH]; intros gr sp Hr Hsp.
  { exists gr, sp. do 4 (split; [done|]). by intros _ (d & ?%elem_of_nil & _). }
  destruct (toward_display sx sy t d Hp) as (Hx & Hy & _).
  assert (∀ gr1 sp1, rect (sy * 2 + 1) (sx * 2 + 1) gr1 → start_ok sx sy sp1 →
    (is_Some sp → is_Some sp1) →
    (is_entry t = Some true → leaves sx sy t d → is_Some sp1) →
    ∃ gr' sp', detail_conns sx sy t rest gr1 sp1 = Some (gr', sp') ∧
      rect (sy * 2 + 1) (sx * 2 + 1) gr' ∧ start_ok sx sy sp' ∧
      (is_Some sp → is_Some sp') ∧
      (is_entry t = Some true → (∃ d', d' ∈ d :: rest ∧ leaves sx sy t d') → is_Some sp'))
    as Hstep.
  { intros gr1 sp1 Hr1 Hsp1 Hkeep Hrec.
    destruct (IH gr1 sp1 Hr1 Hsp1) as (gr' & sp' & -> & Hr' & Hsp' & Hk & He).
    exists gr', sp'. do 3 (split; [done|]). split; [by auto|].
    intros Hent (d' & [->|Hin]%elem_of_cons & Hl); [by auto|]. apply He; eauto. }
  cbn [detail_conns]. cbv zeta.
  rewrite !bool_decide_eq_true_2 by done. cbn [andb negb].
  destruct (outward_conn sx sy t d) eqn:Hout.
  - destruct (is_entry t) as [[|]|] eqn:Hent.
    + destruct (set_index_total _ _ gr (toward d (display_of t)) SymStart Hr Hx Hy)
        as (gr1 & -> & Hr1). simpl. apply Hstep; [done| | |].
      * destruct sp; [done|by apply start_ok_toward].
      * by destruct sp.
      * intros _ _. by destruct sp.
    + destruct (set_index_total _ _ gr (toward d (display_of t)) SymEnd Hr Hx Hy)
        as (gr1 & -> & Hr1). simpl. apply Hstep; done.
    + destruct (set_index_total _ _ gr (toward d (display_of t)) SymEnd Hr Hx Hy)
        as (gr1 & -> & Hr1). simpl. apply Hstep; done.
  - assert (is_entry t = Some true → leaves sx sy t d → is_Some sp) as Hno.
    { intros He Hl. by rewrite (outward_conn_leaves sx sy t d He Hl) in Hout. }
    destruct (proj2 (get_cell_rect _ _ gr (toward d (display_of t)) Hr)) as [cell ->]; [done|].
    case_bool_decide.
    + destruct (set_index_total _ _ gr (toward d (display_of t)) SymPath Hr Hx Hy)
        as (gr1 & -> & Hr1). simpl. apply Hstep; done.
    + apply Hstep; done.
Qed.

Lemma detail_tiles_total sx sy tiles gr sp :
  Forall (placed sx sy) tiles → rect (sy * 2 + 1) (sx * 2 + 1) gr → start_ok sx sy sp →
  ∃ gr' sp', detail_tiles sx sy tiles gr sp = Some (gr', sp') ∧
    rect (sy * 2 + 1) (sx * 2 + 1) gr' ∧ start_ok sx sy sp' ∧
    (is_Some sp → is_Some sp') ∧
    ((∃ t, t ∈ tiles ∧ entry_tile sx sy t) → is_Some sp').
Proof.
  intros Hall. revert gr sp. induction Hall as [|t rest Hp Hall IH]; intros gr sp Hr Hsp.
  { exists gr, sp. do 4 (split; [done|]). by intros (t & ?%elem_of_nil & _). }
  destruct (toward_display sx sy t North Hp) as (_ & _ & Hx & Hy).
  cbn [detail_tiles].
  destruct (set_index_total _ _ gr (display_of t) SymPath Hr Hx Hy) as (gr1 & -> & Hr1). simpl.
  destruct (detail_conns_total sx sy t (connectTo t) gr1 sp Hp Hr1 Hsp)
    as (gr2 & sp2 & -> & Hr2 & Hsp2 & Hk2 & He2). simpl.
  destruct (IH gr2 sp2 Hr2 Hsp2) as (gr' & sp' & -> & Hr' & Hsp' & Hk & He).
  exists gr', sp'. do 3 (split; [done|]). split; [by auto|].
  intros (t' & [->|Hin]%elem_of_cons & Hent); [|by eauto].
  destruct Hent as [H1 H2]. auto.
Qed.

Lemma size_cells rows cols : size (cells rows cols) = cols * rows.
Proof.
  unfold cells. rewrite size_list_to_set by apply NoDup_all_pos. apply length_all_pos.
Qed.

Lemma elem_of_cells rows cols p : p ∈ cells rows cols ↔ p.1 < cols ∧ p.2 < rows.
Proof. unfold cells. rewrite elem_of_list_to_set. apply elem_of_all_pos. Qed.

Lemma in_grid_and_cells {A} rows cols (gr : list (list A)) test p :
  rect rows cols gr → in_grid_and gr test p = true → p ∈ cells rows cols.
Proof.
  intros Hr Hp. apply elem_of_cells. unfold in_grid_and in Hp.
  apply andb_true_iff in Hp as [Hx Hc]. apply bool_decide_eq_true in Hx.
  destruct (get_cell gr p) as [c|] eqn:Hget; [|done].
  assert (p.2 < rows ∧ p.1 < cols) as [Hy Hx'].
  { destruct Hr as [Hlen Hall]. unfold get_cell in Hget.
    destruct (gr !! p.2) as [row|] eqn:Hrow; [|done]. simpl in Hget. split.
    - rewrite <- Hlen. by eapply lookup_lt_Some.
    - rewrite <- (Forall_lookup_1 _ _ _ _ Hall Hrow). by eapply lookup_lt_Some. }
  done.
Qed.

Section Search.
Variable C : gset pos.
Variable open : pos → bool.
Hypothesis open_in : ∀ c, open c = true → c ∈ C.

  (** A pass over the neighbours of a cell keeps the visited set within the
      cells of the grid and queues exactly the cells it adds to it. *)
Lemma bfs_visit_count cands d queue visited :
    visited ⊆ C →
    (bfs_visit open cands d queue visited).2 ⊆ C ∧
    visited ⊆ (bfs_visit open cands d queue visited).2 ∧
    length (bfs_visit open cands d queue visited).1 + size visited =
      length queue + size (bfs_visit open cands d queue visited).2.
  Proof using open_in.
    revert queue visited. induction cands as [|[c|] rest IH]; intros queue visited Hv;
      cbn [bfs_visit].
    - done.
    - destruct (open c) eqn:Ho; cbn [andb]; [|by apply IH].
      case_bool_decide as Hc; [|by apply IH].
      destruct (IH (queue ++ [(c, d)]) ({[c]} ∪ visited)) as (H1 & H2 & H3).
      { apply union_subseteq. split; [|done]. apply singleton_subseteq_l. by apply open_in. }
      split; [done|]. split; [set_solver|].
      rewrite length_app, size_union, size_singleton in H3 by set_solver. simpl in H3. lia.
    - by apply IH.
  Qed.

Lemma bfs_visit_info_fst cands d queue visited dists :
    (bfs_visit_info open cands d queue visited dists).1 = bfs_visit open cands d queue visited.
  Proof.
    revert queue visited dists. induction cands as [|[c|] rest IH]; intros queue visited dists;
      cbn [bfs_visit_info bfs_visit]; [done| |by apply IH].
    destruct (open c && bool_decide (c ∉ visited)); apply IH.
  Qed.

  (** The search of [get_maze_with_distances] ends within the rounds its
      measure allows. *)
Lemma bfs_distances_total fuel queue visited ds :
    visited ⊆ C → bfs_measure C visited queue ≤ fuel →
    is_Some (bfs_distances fuel open queue visited ds).
  Proof using open_in.
    unfold bfs_measure.
    revert queue visited ds. induction fuel as [|fuel IH]; intros queue visited ds Hv Hm.
    { destruct queue as [|[p d] q]; [by eexists|simpl in Hm; lia]. }
    destruct queue as [|[p d] q]; [by eexists|].
    rewrite bfs_distances_S.
    destruct (bfs_visit_count (display_neighbours p) (d + 1)%Z q visited Hv) as (H1 & H2 & H3).
    destruct (bfs_visit open _ _ q visited) as [q' v']. cbn [fst snd] in *.
    apply IH; [done|].
    pose proof (subseteq_size _ _ H1). pose proof (subseteq_size _ _ H2).
    simpl in Hm. lia.
  Qed.

  (** The search of [get_maze_detailed_info] likewise. *)
Lemma bfs_info_total fuel queue visited ds :
    visited ⊆ C → bfs_measure C visited queue ≤ fuel →
    is_Some (bfs_info fuel open queue visited ds).
  Proof using open_in.
    unfold bfs_measure.
    revert queue visited ds. induction fuel as [|fuel IH]; intros queue visited ds Hv Hm.
    { destruct queue as [|[p d] q]; [by eexists|simpl in Hm; lia]. }
    destruct queue as [|[p d] q]; [by eexists|].
    cbn [bfs_info].
    destruct (bfs_visit_count (display_neighbours p) (d + 1)%Z q visited Hv) as (H1 & H2 & H3).
    rewrite <- (bfs_visit_info_fst _ _ _ _ ds) in H1, H2, H3.
    destruct (bfs_visit_info open _ _ q visited ds) as [[q' v'] ds']. cbn [fst snd] in *.
    apply IH; [done|].
    pose proof (subseteq_size _ _ H1). pose proof (subseteq_size _ _ H2).
    simpl in Hm. lia.
  Qed.
End Search.

Lemma bfs_measure_start rows cols start d fuel :
  start ∈ cells rows cols → 2 * (cols * rows) ≤ fuel →
  bfs_measure (cells rows cols) {[start]} [(start, d)] ≤ fuel.
Proof.
  intros Hs Hf. unfold bfs_measure. rewrite size_cells, size_singleton. simpl.
  assert (1 ≤ size (cells rows cols)) as Hpos.
  { rewrite <- (size_singleton (C:=gset pos) start). apply subseteq_size.
    by apply singleton_subseteq_l. }
  rewrite size_cells in Hpos. lia.
Qed.

(** On a maze that has its tiles in place and its entry, the three exporters
    return once the fuel covers the cells of the export grid twice. *)
Lemma exports_total m fuel1 fuel2 :
  mazeIsDone m = true → wf_grid (sizeX m) (sizeY m) (mazeList m) →
  has_entry (sizeX m) (sizeY m) (mazeList m) →
  2 * ((2 * sizeX m + 1) * (2 * sizeY m + 1)) ≤ fuel1 →
  2 * ((2 * sizeX m + 1) * (2 * sizeY m + 1)) ≤ fuel2 →
  ∃ sym dist info,
    get_maze_as_list m = Exported sym ∧
    get_maze_with_distances fuel1 m = Exported dist ∧
    get_maze_detailed_info fuel2 m = Exported info.
Proof.
  intros Hdone Hwf Hent. rewrite !(Nat.mul_comm 2). intros Hf1 Hf2.
  unfold get_maze_as_list, get_maze_with_distances, get_maze_detailed_info.
  rewrite Hdone. cbn [negb].
  pose proof (concat_placed _ _ _ Hwf) as Hpl.
  pose proof (has_entry_tile _ _ _ Hwf Hent) as Het.
  destruct (mark_tiles_total (sizeX m) (sizeY m) _ _ None Hpl
              (rect_fresh_grid _ _ SymWall) (start_ok_None _ _))
    as (gs & sp & -> & Hrs & Hsp & _ & Hs).
  destruct (Hs Het) as [start ->].
  destruct (detail_tiles_total (sizeX m) (sizeY m) _ _ None Hpl
              (rect_fresh_grid _ _ wall_info) (start_ok_None _ _))
    as (gi & spi & -> & Hri & Hspi & _ & Hsi).
  destruct (Hsi Het) as [start' ->].
  assert (start ∈ cells (sizeY m * 2 + 1) (sizeX m * 2 + 1)) as Hin.
  { apply elem_of_cells. by apply Hsp. }
  assert (start' ∈ cells (sizeY m * 2 + 1) (sizeX m * 2 + 1)) as Hin'.
  { apply elem_of_cells. by apply Hspi. }
  destruct (bfs_distances_total (cells (sizeY m * 2 + 1) (sizeX m * 2 + 1))
              (in_grid_and gs (λ c, bool_decide (c = SymPath)))
              (λ c, in_grid_and_cells _ _ gs _ c Hrs) fuel1 [(start, 0%Z)] {[start]} ∅)
    as [ds ->]; [by apply singleton_subseteq_l|apply bfs_measure_start; [done|lia]|].
  destruct (bfs_info_total (cells (sizeY m * 2 + 1) (sizeX m * 2 + 1))
              (in_grid_and gi
                 (λ c, bool_decide (index c = SymPath) || bool_decide (index c = SymEnd)))
              (λ c, in_grid_and_cells _ _ gi _ c Hri) fuel2 [(start', 0%Z)] {[start']}
              {[start' := 0%Z]})
    as [ds' ->]; [by apply singleton_subseteq_l|apply bfs_measure_start; [done|lia]|].
  by eexists _, _, _.
Qed.

(** C8. On a produced maze the three exporters return, once the fuel of the
    two searches covers the cells of the export grid twice; each grid has
    [2 * sizeY + 1] rows of [2 * sizeX + 1] cells, and a coordinate holds a
    wall in one grid exactly when it holds a wall in the others. *)
Theorem exports_agree_on_walls m fuel1 fuel2 :
  produced m →
  2 * ((2 * sizeX m + 1) * (2 * sizeY m + 1)) ≤ fuel1 →
  2 * ((2 * sizeX m + 1) * (2 * sizeY m + 1)) ≤ fuel2 →
  ∃ sym dist info,
    get_maze_as_list m = Exported sym ∧
    get_maze_with_distances fuel1 m = Exported dist ∧
    get_maze_detailed_info fuel2 m = Exported info ∧
    rect (2 * sizeY m + 1) (2 * sizeX m + 1) sym ∧
    rect (2 * sizeY m + 1) (2 * sizeX m + 1) dist ∧
    rect (2 * sizeY m + 1) (2 * sizeX m + 1) info ∧
    ∀ p,
      (get_cell sym p = Some SymWall ↔ get_cell dist p = Some (DSym SymWall)) ∧
      (get_cell sym p = Some SymWall ↔ index <$> get_cell info p = Some SymWall) ∧
      (∀ s, get_cell sym p = Some s → s ≠ SymWall →
         (∃ c, get_cell dist p = Some c ∧ c ≠ DSym SymWall) ∧
         (∃ i, get_cell info p = Some i ∧ index i ≠ SymWall)).
Proof.
  intros Hm Hf1 Hf2.
  destruct (produced_ok m Hm) as (Hdone & _ & _ & Hinv & _).
  destruct (exports_total m fuel1 fuel2 Hdone (proj1 Hinv)
              (produced_has_entry m Hm) Hf1 Hf2) as (sym & dist & info & H1 & H2 & H3).
  exists sym, dist, info. do 3 (split; [done|]).
  by apply (exports_agree fuel1 fuel2 m).
Qed.

Lemma exports_agree_on_walls_witness :
  ∃ sym dist info,
    get_maze_as_list sample_formed = Exported sym ∧
    get_maze_with_distances 70 sample_formed = Exported dist ∧
    get_maze_detailed_info 70 sample_formed = Exported info ∧
    rect (2 * 2 + 1) (2 * 3 + 1) sym ∧
    rect (2 * 2 + 1) (2 * 3 + 1) dist ∧
    rect (2 * 2 + 1) (2 * 3 + 1) info ∧
    ∀ p,
      (get_cell sym p = Some SymWall ↔ get_cell dist p = Some (DSym SymWall)) ∧
      (get_cell sym p = Some SymWall ↔ index <$> get_cell info p = Some SymWall) ∧
      (∀ s, get_cell sym p = Some s → s ≠ SymWall →
         (∃ c, get_cell dist p = Some c ∧ c ≠ DSym SymWall) ∧
         (∃ i, get_cell info p = Some i ∧ index i ≠ SymWall)).
Proof.
  apply (exports_agree_on_walls sample_formed 70 70).
  - eapply (produced_formed Simple 12 3 2 "sample" WallAny WallAny sample_tape true
             sample_formed); [lia|lia|].
    vm_compute. reflexivity.
  - vm_compute. lia.
  - vm_compute. lia.
Defined.


(** ** Braiding as a sequence of joins *)

Lemma try_directions_joins sx sy ml t dirs ml' :
  wf_grid sx sy ml → in_grid sx sy t → (∀ d, d ∈ dirs → d ∉ conns ml t) →
  try_directions ml t dirs = inr ml' → ml' = ml ∨ joins sx sy ml ml'.
Proof.
  intros Hwf Ht. induction dirs as [|d dirs IH]; intros Hfresh; simpl.
  - intros [= <-]. by left.
  - pose proof (connectTilesWithString_spec sx sy ml t d Hwf Ht) as Hspec.
    destruct (step_to sx sy d t) as [b|] eqn:Hs.
    + destruct Hspec as (ml1 & -> & Hwf1 & Hup). intros [= <-]. right.
      exists t, d, b. split; [done|]. split; [done|]. split; [apply Hfresh; left|done].
    + rewrite Hspec. apply IH. intros d' Hd'. apply Hfresh. by right.
Qed.

Lemma braid_deadend_step_joins sx sy ml t g ml' g' :
  braid_inv sx sy ml → in_grid sx sy t →
  braid_deadend_step ml t g = Done () ml' g' → ml' = ml ∨ joins sx sy ml ml'.
Proof.
  intros Hinv Ht. unfold braid_deadend_step.
  destruct (deref_in_grid _ _ _ _ (proj1 Hinv) Ht) as (Htile & _).
  assert (connectTo (deref ml t) = conns ml t) as -> by (unfold conns; by rewrite Htile).
  destruct (conns ml t) as [|c [|c' cs]] eqn:Hc; try (intros [= <- _]; by left).
  destruct (list_remove_first_spec c directions NoDup_directions (elem_of_directions c))
    as (dl & -> & Hdl & _ & Hiff).
  pose proof (rnd_shuffle_perm g dl) as Hperm.
  destruct (rnd_shuffle g dl) as [sh g1]. simpl in Hperm.
  destruct (try_directions ml t sh) as [e|ml1] eqn:Htry; [done|]. intros [= <- _].
  apply (try_directions_joins sx sy ml t sh); [apply Hinv|done| |done].
  intros d Hd. rewrite Hperm in Hd. apply Hiff in Hd as [_ Hd]. rewrite Hc. set_solver.
Qed.

Lemma braid_loop_step_joins sx sy wb ml t g ml' g' :
  braid_inv sx sy ml → in_grid sx sy t →
  braid_loop_step wb ml t g = Done () ml' g' → ml' = ml ∨ joins sx sy ml ml'.
Proof.
  intros Hinv Ht. unfold braid_loop_step. destruct (rnd_random g) as [r g1].
  destruct (draw_le r wb); [|intros [= <- _]; by left].
  destruct (deref_in_grid _ _ _ _ (proj1 Hinv) Ht) as (Htile & _).
  assert (connectTo (deref ml t) = conns ml t) as -> by (unfold conns; by rewrite Htile).
  destruct (remove_each_spec (conns ml t) directions) as (dl & -> & Hdl & Hiff).
  { by apply Hinv. } { apply NoDup_directions. } { intros; apply elem_of_directions. }
  pose proof (rnd_shuffle_perm g1 dl) as Hperm.
  destruct (rnd_shuffle g1 dl) as [sh g2]. simpl in Hperm.
  destruct (try_directions ml t sh) as [e|ml1] eqn:Htry; [done|]. intros [= <- _].
  apply (try_directions_joins sx sy ml t sh); [apply Hinv|done| |done].
  intros d Hd. rewrite Hperm in Hd. by apply Hiff in Hd as [_ Hd].
Qed.

(** A braiding call that returns has made at most one connection for each
    tile, and nothing else. *)
Lemma makeMazeBraided_trace wb m g b m' g' :
  maze_ok m → makeMazeBraided wb m g = Returns b m' g' →
  b = true ∧ m' = set_mazeList m (mazeList m') ∧
  ∃ n, nsteps (joins (sizeX m) (sizeY m)) n (mazeList m) (mazeList m') ∧
       n ≤ sizeX m * sizeY m.
Proof.
  intros (Hdone & Hsx & Hsy & Hinv & Hcon). unfold makeMazeBraided.
  rewrite Hdone. simpl.
  destruct ((wb <? -1)%Z || (100 <? wb)%Z); [done|].
  rewrite (grid_refs_wf (sizeX m) (sizeY m)) by apply Hinv.
  set (body := if (wb =? -1)%Z then braid_deadend_step else braid_loop_step wb).
  destruct (for_tiles_inv (sizeX m) (sizeY m) body
              (λ ml seen, ∃ n, nsteps (joins (sizeX m) (sizeY m)) n (mazeList m) ml ∧
                               n ≤ length seen)
              (all_pos (sizeX m) (sizeY m)) [] (mazeList m) g)
    as (ml' & g1 & -> & Hinv' & Hg & n & Hn & Hle); try done.
  - intros ml t g0 seen Hi Ht (n & Hn & Hle).
    assert (∃ ml1 g1, body ml t g0 = Done () ml1 g1 ∧ braid_inv (sizeX m) (sizeY m) ml1 ∧
              grows ml ml1 ∧ (ml1 = ml ∨ joins (sizeX m) (sizeY m) ml ml1))
      as (ml1 & g1 & Hrun & Hi1 & Hg1 & Hj).
    { unfold body. destruct (wb =? -1)%Z.
      - destruct (braid_deadend_step_ok _ _ ml t g0 Hi Ht) as (ml1 & g1 & Hrun & Hi1 & Hg1 & _).
        exists ml1, g1. do 3 (split; [done|]). by eapply braid_deadend_step_joins.
      - destruct (braid_loop_step_ok _ _ wb ml t g0 Hi Ht) as (ml1 & g1 & Hrun & Hi1 & Hg1).
        exists ml1, g1. do 3 (split; [done|]). by eapply braid_loop_step_joins. }
    exists ml1, g1. do 3 (split; [done|]). rewrite length_app. simpl.
    destruct Hj as [->|Hj].
    + exists n. split; [done|lia].
    + exists (S n). split; [|lia]. by eapply nsteps_r.
  - intros t. apply elem_of_all_pos.
  - exists 0. split; [constructor|simpl; lia].
  - intros [= <- <- <-]. split; [done|]. split; [done|]. exists n. split; [done|].
    simpl in Hle. by rewrite length_all_pos in Hle.
Qed.

Section joined.
Context (sx sy : nat) (ml ml' : grid).
Hypothesis Hwf : wf_grid sx sy ml.
Hypothesis Hj : joins sx sy ml ml'.

Lemma joins_wf : wf_grid sx sy ml'.
  Proof using Hj. by destruct Hj as (a & d & b & _ & _ & _ & _ & ?). Qed.

Lemma joins_marks q : marks <$> tile_at ml' q = marks <$> tile_at ml q.
  Proof using Hj.
    destruct Hj as (a & d & b & _ & _ & _ & Hup & _). rewrite (Hup q).
    repeat case_decide; try done; by destruct (tile_at ml q).
  Qed.

Lemma joins_openings q :
    filter (outward sx sy q) (conns ml' q) = filter (outward sx sy q) (conns ml q).
  Proof using Hwf Hj.
    destruct Hj as (a & d & b & Ha & Hs & _ & Hup & _).
    rewrite (linked_up_conns sx sy ml ml' a b d) by done.
    repeat case_decide; subst; [| |done]; rewrite filter_app, filter_cons, filter_nil.
    - rewrite decide_False, app_nil_r; [done|]. unfold outward. by rewrite Hs.
    - rewrite decide_False, app_nil_r; [done|]. unfold outward.
      by rewrite (step_to_back _ _ _ _ _ Ha Hs).
  Qed.

Lemma joins_num_edges :
    symmetric_conns sx sy ml → num_edges sx sy ml' = S (num_edges sx sy ml).
  Proof using Hwf Hj.
    destruct Hj as (a & d & b & Ha & Hs & Hd & Hup & _). intros Hsym.
    by apply (linked_up_num_edges sx sy ml ml' a b d).
  Qed.

Lemma joins_braid_inv : braid_inv sx sy ml → braid_inv sx sy ml'.
  Proof using Hwf Hj.
    destruct Hj as (a & d & b & Ha & Hs & Hd & Hup & Hwf'). intros (_ & Hsym & Hnd).
    split; [done|]. split.
    - by apply (linked_up_symmetric sx sy ml ml' a b d).
    - by apply (linked_up_no_duplicates sx sy ml ml' a b d).
  Qed.
End joined.


(** ** What formation and braiding leave on the tiles *)

Lemma floors_upd f p ml :
  (∀ t, wall (f t) = wall t) → floors ml → floors (upd_tile f p ml).
Proof.
  intros Hf Hfl q t. rewrite tile_at_upd. case_decide; [|by apply Hfl].
  destruct (tile_at ml q) as [t0|] eqn:Ht; [|done]. simpl. intros [= <-].
  rewrite Hf. by eapply Hfl.
Qed.

Lemma floors_connectTiles ml a b : floors ml → floors (connectTiles ml a b).
Proof.
  intros Hfl. unfold connectTiles.
  repeat case_match; try done; repeat (apply floors_upd; [by intros []|]); done.
Qed.

Lemma floors_new_rows sx sy : floors (new_rows sx sy).
Proof. intros p t. rewrite tile_at_new_rows. case_decide; [|done]. by intros [= <-]. Qed.

Lemma simple_body_floors fl ml g fl' ml' g' :
  simple_body fl ml g = Done fl' ml' g' → floors ml → floors ml'.
Proof.
  unfold simple_body. destruct (rnd_shuffle g fl) as [sh g1].
  destruct (list_pop sh) as [[fl1 nt]|]; [|done].
  intros Hrun Hfl.
  assert (floors (upd_tile mark_workedOn nt ml)) as Hfl1 by (apply floors_upd; [by intros []|done]).
  repeat case_match; simplify_eq; by apply floors_connectTiles.
Qed.

Lemma growtree_body_floors wh wl cl ml g cl' ml' g' :
  growtree_body wh wl cl ml g = Done cl' ml' g' → floors ml → floors ml'.
Proof.
  unfold growtree_body. destruct (rnd_random g) as [c g1].
  intros Hrun Hfl. repeat case_match; simplify_eq; try done;
    (apply floors_connectTiles; apply floors_upd; [by intros []|done]).
Qed.

(** What a loop body keeps of the grid, the loop keeps. *)
Lemma while_loop_keeps {St} (P : grid → Prop) cond (body : St → grid → Rng → loop_res St) :
  (∀ st ml g st' ml' g', body st ml g = Done st' ml' g' → P ml → P ml') →
  ∀ fuel st ml g st' ml' g',
    while_loop fuel cond body st ml g = Done st' ml' g' → P ml → P ml'.
Proof.
  intros Hbody. induction fuel as [|fuel IH]; intros st ml g st' ml' g'; simpl.
  - destruct (cond st); [done|]. by intros [= _ <- _].
  - destruct (cond st); [|by intros [= _ <- _]].
    destruct (body st ml g) as [st1 ml1 g1| |] eqn:Hb; [|done..].
    intros Hrun Hp. eapply IH; [exact Hrun|]. by eapply Hbody.
Qed.

(** When the growth loop of a formation call ends, every tile has been
    worked on and is a floor tile. *)
Lemma growth_tiles a sx sy nm sw ew g fuel st ml g' :
  1 ≤ sx → 1 ≤ sy →
  growth a fuel (fresh_maze sx sy nm sw ew) g = Done st ml g' →
  floors ml ∧ ∀ p, in_grid sx sy p → visited ml p = true.
Proof.
  intros Hsx Hsy.
  destruct (choose_start_ok sx sy (new_rows sx sy) g (wf_new_rows sx sy) Hsx Hsy)
    as (s & Hcs & Hs).
  assert (floors (upd_tile mark_workedOn s (new_rows sx sy))) as Hfl0.
  { apply floors_upd; [by intros []|apply floors_new_rows]. }
  destruct a as [|wh wl]; simpl; unfold simple_growth, growtree_growth; simpl; rewrite Hcs.
  - set (ml1 := upd_tile mark_workedOn s (new_rows sx sy)).
    assert (wf_grid sx sy ml1) as Hwf1.
    { apply wf_grid_upd; [apply keeps_place_mark|apply wf_new_rows]. }
    destruct (deref_in_grid _ _ _ _ Hwf1 Hs) as (_ & -> & ->).
    rewrite (getNextTiles_spec sx sy) by done. intros Hrun. split.
    + eapply (while_loop_keeps floors); [|exact Hrun|exact Hfl0].
      intros ??????. apply simple_body_floors.
    + destruct (while_loop_partial (prim_inv sx sy s) (λ _ ml, unvisited_count sx sy ml)
                  nonempty simple_body (λ st ml g, simple_body_ok sx sy s st ml g)
                  _ _ _ _ _ _ _ (prim_init sx sy s Hs) Hrun) as [Hinv Hc].
      assert (st = []) as -> by (by destruct st).
      destruct Hinv as (Hinv & _ & _ & Hcomplete).
      destruct (ti_start _ _ _ _ Hinv) as [_ Hvs].
      apply (lattice_closed sx sy (λ p, visited ml p = true) s); try done.
      intros p d q Hp Hvp Hstep. destruct (visited ml q) eqn:Hvq; [done|].
      exfalso. eapply elem_of_nil.
      eapply (Hcomplete q (opposite d) p); eauto using step_to_in_grid, step_to_back.
  - set (ml1 := upd_tile mark_workedOn s (new_rows sx sy)). intros Hrun. split.
    + eapply (while_loop_keeps floors); [|exact Hrun|exact Hfl0].
      intros ??????. apply growtree_body_floors.
    + destruct (while_loop_partial (grow_inv sx sy s) (grow_measure sx sy)
                  nonempty (growtree_body wh wl)
                  (λ st ml g, growtree_body_ok sx sy s wh wl st ml g)
                  _ _ _ _ _ _ _ (grow_init sx sy s Hs) Hrun) as [Hinv Hc].
      assert (st = []) as -> by (by destruct st).
      destruct Hinv as (Hinv & _ & _ & Hcomplete).
      destruct (ti_start _ _ _ _ Hinv) as [_ Hvs].
      apply (lattice_closed sx sy (λ p, visited ml p = true) s); try done.
      intros p d q Hp Hvp Hstep. destruct (visited ml q) eqn:Hvq; [done|].
      exfalso. eapply elem_of_nil. eapply (Hcomplete p d q); eauto.
Qed.

Lemma visited_upd_entry b p q ml : visited (upd_tile (mark_entry b) p ml) q = visited ml q.
Proof.
  unfold visited. rewrite tile_at_upd. destruct (decide (p = q)); [|done].
  by destruct (tile_at ml q).
Qed.

Lemma makeEntryandExit_tiles fuel sx sy sw ew ml g ml' g' :
  makeEntryandExit fuel sx sy sw ew ml g = Done () ml' g' →
  (floors ml → floors ml') ∧ ∀ q, visited ml' q = visited ml q.
Proof.
  unfold makeEntryandExit.
  destruct (pick_entry_exit fuel _ _ ml g) as [[e x] ml0 g0| |]; [|done..].
  repeat case_match; try done. intros [= <- _]. split.
  - intros Hfl. do 4 (apply floors_upd; [by intros []|]). done.
  - intros q. by rewrite visited_upd_append, visited_upd_entry, visited_upd_append,
      visited_upd_entry.
Qed.

(** What a formation call leaves when it returns. *)
Lemma formation_parts a fuel sx sy nm sw ew g b m g' :
  1 ≤ sx → 1 ≤ sy →
  formation a fuel (fresh_maze sx sy nm sw ew) g = Returns b m g' →
  b = true ∧ m = mkMaze sx sy nm true (mazeList m) sw ew ∧
  formed_inv sx sy (mazeList m) ∧ floors (mazeList m) ∧
  (∀ p, in_grid sx sy p → visited (mazeList m) p = true) ∧
  ∃ e x, ends_at m e x.
Proof.
  intros Hsx Hsy.
  assert (formation a fuel (fresh_maze sx sy nm sw ew) g =
          finish_formation fuel (fresh_maze sx sy nm sw ew)
            (growth a fuel (fresh_maze sx sy nm sw ew) g)) as -> by (by destruct a).
  unfold finish_formation.
  destruct (growth a fuel _ g) as [st ml g1| |] eqn:Hgrow; [|done..].
  pose proof (growth_tiles _ _ _ _ _ _ _ _ _ _ _ Hsx Hsy Hgrow) as [Hfl Hvis].
  apply growth_partial in Hgrow; [|done..]. simpl.
  destruct (makeEntryandExit fuel sx sy sw ew ml g1) as [[] ml' g2| |] eqn:Hee; [|done..].
  intros [= <- <- <-]. simpl.
  destruct (makeEntryandExit_formed _ _ _ _ _ _ _ _ _ Hsx Hsy Hgrow Hee)
    as [Hf (e & x & He & Hx & Hre & Hrx)].
  destruct (makeEntryandExit_tiles _ _ _ _ _ _ _ _ _ Hee) as [Hfl' Hvis'].
  do 3 (split; [done|]). split; [by apply Hfl'|]. split.
  { intros p Hp. rewrite Hvis'. by apply Hvis. }
  destruct (fi_ends _ _ _ Hf) as (e0 & x0 & Hne & _ & _ & Hrole & Hopen).
  assert (e0 = e) as ->.
  { rewrite Hrole in Hre. by repeat case_decide. }
  assert (x0 = x) as ->.
  { rewrite Hrole in Hrx. by repeat case_decide. }
  exists e, x. unfold ends_at. simpl. done.
Qed.

Lemma nsteps_joins sx sy n ml ml' :
  nsteps (joins sx sy) n ml ml' → braid_inv sx sy ml →
  braid_inv sx sy ml' ∧
  (∀ q, marks <$> tile_at ml' q = marks <$> tile_at ml q) ∧
  (∀ q, filter (outward sx sy q) (conns ml' q) = filter (outward sx sy q) (conns ml q)) ∧
  num_edges sx sy ml' = n + num_edges sx sy ml.
Proof.
  induction 1 as [ml|n ml ml1 ml2 Hj Hrest IH]; intros Hinv; [done|].
  pose proof (joins_braid_inv _ _ _ _ (proj1 Hinv) Hj Hinv) as Hinv1.
  destruct (IH Hinv1) as (Hinv2 & Hm & Ho & Hn). split; [done|]. split; [|split].
  - intros q. by rewrite Hm, (joins_marks sx sy ml ml1).
  - intros q. by rewrite Ho, (joins_openings sx sy ml ml1) by (done || apply Hinv).
  - rewrite Hn, (joins_num_edges sx sy ml ml1); [lia|apply Hinv|done|apply Hinv].
Qed.

Lemma marks_role ml ml' q :
  marks <$> tile_at ml' q = marks <$> tile_at ml q → role ml' q = role ml q.
Proof.
  unfold role, marks. destruct (tile_at ml' q) as [[]|], (tile_at ml q) as [[]|]; simpl; congruence.
Qed.

Lemma marks_visited ml ml' q :
  marks <$> tile_at ml' q = marks <$> tile_at ml q → visited ml' q = visited ml q.
Proof.
  unfold visited, marks. destruct (tile_at ml' q) as [[]|], (tile_at ml q) as [[]|]; simpl; congruence.
Qed.

Lemma marks_floors ml ml' :
  (∀ q, marks <$> tile_at ml' q = marks <$> tile_at ml q) → floors ml → floors ml'.
Proof.
  intros Hm Hfl q t Ht. specialize (Hm q). rewrite Ht in Hm.
  destruct (tile_at ml q) as [t0|] eqn:Ht0; [|done]. simpl in Hm.
  specialize (Hfl q t0 Ht0). unfold marks in Hm. destruct t, t0. simpl in *. congruence.
Qed.

(** What holds of the tiles of every produced maze. *)
Lemma produced_parts m :
  produced m →
  floors (mazeList m) ∧
  (∀ p, in_grid (sizeX m) (sizeY m) p → visited (mazeList m) p = true) ∧
  ∃ e x, ends_at m e x.
Proof.
  induction 1 as [a fuel sx sy nm sw ew g b m g' Hsx Hsy Hrun|m wb g b m' g' Hm IH Hrun].
  - destruct (formation_parts _ _ _ _ _ _ _ _ _ _ _ Hsx Hsy Hrun)
      as (_ & Heq & _ & Hfl & Hvis & Hends).
    rewrite Heq. simpl. rewrite Heq in Hends. done.
  - pose proof (produced_ok m Hm) as Hok.
    destruct (makeMazeBraided_trace wb m g b m' g' Hok Hrun) as (_ & Heq & n & Hn & _).
    destruct Hok as (_ & _ & _ & Hinv & _).
    destruct (nsteps_joins _ _ _ _ _ Hn Hinv) as (_ & Hmk & Hop & _).
    destruct IH as (Hfl & Hvis & e & x & Hne & He & Hx & Hrole & Hopen).
    rewrite Heq. simpl. split; [by eapply marks_floors|]. split.
    { intros p Hp. rewrite (marks_visited (mazeList m)) by done. by apply Hvis. }
    exists e, x. unfold ends_at. simpl. do 3 (split; [done|]). split.
    + intros p. rewrite (marks_role (mazeList m)) by done. apply Hrole.
    + intros p Hp. rewrite Hop. by apply Hopen.
Qed.

Lemma elem_of_get_wall_tiles sx sy w p :
  1 ≤ sx → 1 ≤ sy → (p ∈ get_wall_tiles sx sy w ↔ on_wall sx sy w p).
Proof.
  intros Hsx Hsy. destruct p as [x y]. unfold get_wall_tiles, on_wall, in_grid, range.
  destruct w; rewrite ?elem_of_app, !list_elem_of_fmap; simpl;
    (split; [intros H; repeat destruct H as [H|H];
             destruct H as (k & [= -> ->] & Hk%elem_of_seq); lia|]).
  - intros ([Hx Hy] & ->). exists x. split; [done|]. apply elem_of_seq. lia.
  - intros ([Hx Hy] & ->). exists x. split; [done|]. apply elem_of_seq. lia.
  - intros ([Hx Hy] & ->). exists y. split; [done|]. apply elem_of_seq. lia.
  - intros ([Hx Hy] & ->). exists y. split; [done|]. apply elem_of_seq. lia.
  - intros ([Hx Hy] & H).
    destruct (decide (y = 0)) as [->|]; [left; exists x; split; [done|apply elem_of_seq; lia]|].
    destruct (decide (y = sy - 1)) as [->|];
      [right; left; exists x; split; [done|apply elem_of_seq; lia]|].
    destruct (decide (x = 0)) as [->|];
      [right; right; left; exists y; split; [done|apply elem_of_seq; lia]|].
    right; right; right. exists y. split; [f_equal; lia|apply elem_of_seq; lia].
Qed.


(** ** Tiles, walls and openings of produced mazes *)

Ltac sample_is_produced :=
  eapply (produced_formed Simple 12 3 2 "sample" WallAny WallAny sample_tape true sample_formed);
  [lia|lia|vm_compute; reflexivity].

Lemma wall_opening_outward_dir sx sy w p :
  1 ≤ sx → 1 ≤ sy → on_wall sx sy w p → outward_dir sy p = wall_opening sx sy w p.
Proof.
  intros Hsx Hsy [[Hx Hy] Hw]. destruct w; [..|done]; unfold outward_dir, wall_opening;
    repeat case_match; eqb_hyps; try done; lia.
Qed.

Lemma growth_no_fail a sx sy nm sw ew g fuel e ml g' :
  1 ≤ sx → 1 ≤ sy → growth a fuel (fresh_maze sx sy nm sw ew) g ≠ Fail e ml g'.
Proof.
  intros Hsx Hsy Hrun.
  destruct (growth_total a sx sy nm sw ew g Hsx Hsy) as (ml2 & g2 & Htot & _).
  specialize (Htot (fuel `max` (2 * (sx * sy))) ltac:(lia)).
  rewrite (growth_mono a fuel) in Htot; [|lia|by rewrite Hrun].
  by rewrite Hrun in Htot.
Qed.

Lemma pick_entry_exit_no_fail fuel starts ends ml g e ml' g' :
  starts ≠ [] → ends ≠ [] → pick_entry_exit fuel starts ends ml g ≠ Fail e ml' g'.
Proof.
  intros Hs He. revert g. induction fuel as [|fuel IH]; intros g; [done|]. simpl.
  destruct (rnd_choice_elem g starts Hs) as (a & -> & _).
  destruct (rnd_choice_elem (rng_next g) ends He) as (b & -> & _).
  case_decide; [done|apply IH].
Qed.

Lemma makeEntryandExit_no_fail fuel sx sy sw ew ml g e ml' g' :
  1 ≤ sx → 1 ≤ sy → wf_grid sx sy ml →
  makeEntryandExit fuel sx sy sw ew ml g ≠ Fail e ml' g'.
Proof.
  intros Hsx Hsy Hwf. unfold makeEntryandExit.
  destruct (pick_entry_exit fuel _ _ ml g) as [[p q] ml0 g0| |] eqn:Hpick; [| |done].
  - apply pick_entry_exit_done in Hpick as (Hp & Hq & _ & ->).
    apply (get_wall_tiles_boundary _ _ _ _ Hsx Hsy) in Hp as [Hp _], Hq as [Hq _].
    rewrite (has_tile_in_grid sx sy), bool_decide_eq_true_2 by done.
    rewrite (has_tile_in_grid sx sy) by (by apply placed_wf).
    by rewrite bool_decide_eq_true_2.
  - by apply pick_entry_exit_no_fail in Hpick; [|apply get_wall_tiles_nonempty..].
Qed.

(** X1. In every produced maze the tile list has [sizeY] rows of [sizeX]
    tiles; the tile at column [x] of row [y] carries the coordinates
    [(x, y)], has been worked on, is a floor tile and lists no direction
    twice; when the maze has at least two tiles it lists a direction toward
    a neighbour inside the grid. *)
Theorem produced_tiles m :
  produced m →
  length (mazeList m) = sizeY m ∧
  (∀ row, row ∈ mazeList m → length row = sizeX m) ∧
  ∀ p, in_grid (sizeX m) (sizeY m) p →
    ∃ t, tile_at (mazeList m) p = Some t ∧
      coordinateX t = p.1 ∧ coordinateY t = p.2 ∧
      workedOn t = true ∧ wall t = false ∧ NoDup (connectTo t) ∧
      (2 ≤ sizeX m * sizeY m →
       ∃ d q, d ∈ connectTo t ∧ step_to (sizeX m) (sizeY m) d p = Some q).
Proof.
  intros Hm. destruct (produced_ok m Hm) as (_ & Hsx & Hsy & (Hwf & _ & Hnd) & Hcon).
  destruct (produced_parts m Hm) as (Hfl & Hvis & _).
  split; [apply Hwf|]. split.
  { intros row [y Hy]%list_elem_of_lookup. by eapply (proj1 (proj2 Hwf)). }
  intros p Hp. destruct (deref_in_grid _ _ _ _ Hwf Hp) as (Ht & Hx & Hy).
  exists (deref (mazeList m) p). do 3 (split; [done|]).
  specialize (Hvis p Hp). specialize (Hnd p Hp). unfold visited, conns in *.
  rewrite Ht in Hvis, Hnd. split; [done|]. split; [by eapply Hfl|]. split; [done|].
  intros Htwo.
  assert (∃ q, in_grid (sizeX m) (sizeY m) q ∧ p ≠ q) as (q & Hq & Hne).
  { destruct p as [x y]. destruct Hp as [Hpx Hpy]. simpl in *.
    destruct (decide (sizeX m = 1)) as [H1|H1].
    - exists (x, if decide (y = 0) then 1 else 0). unfold in_grid. simpl.
      case_decide; split; try split; try lia; intros [=]; nia.
    - exists (if decide (x = 0) then 1 else 0, y). unfold in_grid. simpl.
      case_decide; split; try split; try lia; intros [=]; lia. }
  pose proof (Hcon p q Hp Hq) as Hpq.
  apply rtc_inv in Hpq as [?|(r & (d & Hd & Hs & _) & _)]; [done|].
  unfold conns in Hd. rewrite Ht in Hd. eauto.
Qed.

Lemma produced_tiles_witness :
  ∃ t, tile_at (mazeList sample_formed) (2, 1) = Some t ∧
    coordinateX t = 2 ∧ coordinateY t = 1 ∧
    workedOn t = true ∧ wall t = false ∧ NoDup (connectTo t) ∧
    (2 ≤ sizeX sample_formed * sizeY sample_formed →
     ∃ d q, d ∈ connectTo t ∧
            step_to (sizeX sample_formed) (sizeY sample_formed) d (2, 1) = Some q).
Proof.
  apply (produced_tiles sample_formed); [sample_is_produced|].
  vm_compute. split; lia.
Defined.

(** X2. In every produced maze the tile with the entry role lies on the wall
    named by [start_wall] and the tile with the exit role on the wall named
    by [end_wall]; with ["Any"] they lie on the outer boundary. *)
Theorem entry_exit_on_selected_walls m :
  produced m →
  ∃ e x, role (mazeList m) e = Some true ∧ role (mazeList m) x = Some false ∧
         on_wall (sizeX m) (sizeY m) (start_wall m) e ∧
         on_wall (sizeX m) (sizeY m) (end_wall m) x.
Proof.
  intros Hm. destruct (produced_ok m Hm) as (_ & Hsx & Hsy & _).
  destruct (produced_parts m Hm) as (_ & _ & e & x & Hne & He & Hx & Hrole & _).
  exists e, x. rewrite !Hrole. rewrite decide_True by done.
  rewrite decide_False, decide_True by done.
  do 2 (split; [done|]). split; by apply elem_of_get_wall_tiles.
Qed.

Lemma entry_exit_on_selected_walls_witness :
  ∃ e x, role (mazeList sample_formed) e = Some true ∧
         role (mazeList sample_formed) x = Some false ∧
         on_wall (sizeX sample_formed) (sizeY sample_formed) (start_wall sample_formed) e ∧
         on_wall (sizeX sample_formed) (sizeY sample_formed) (end_wall sample_formed) x.
Proof. apply (entry_exit_on_selected_walls sample_formed). sample_is_produced. Defined.

(** X3. In every produced maze the entry has exactly one direction that
    leaves the grid: north when [start_wall] is the north wall; south when
    it is the south wall, unless the maze has a single row, where it is
    north; and for the west and east walls the wall's own direction only
    when the entry is in neither the top nor the bottom row, where the
    opening is north or south (on the east wall of a maze of a single column
    it is west). The same holds of the exit and [end_wall]. *)
Theorem openings_follow_the_walls m p b :
  produced m → role (mazeList m) p = Some b →
  filter (outward (sizeX m) (sizeY m) p) (conns (mazeList m) p) =
  [wall_opening (sizeX m) (sizeY m) (if b then start_wall m else end_wall m) p].
Proof.
  intros Hm Hr. destruct (produced_ok m Hm) as (_ & Hsx & Hsy & _).
  destruct (produced_parts m Hm) as (_ & _ & e & x & Hne & He & Hx & Hrole & Hopen).
  apply (elem_of_get_wall_tiles _ _ _ _ Hsx Hsy) in He, Hx.
  rewrite Hrole in Hr. destruct (decide (p = e)) as [->|Hpe].
  - simplify_eq. rewrite Hopen by apply He. rewrite decide_True by done.
    f_equal. by eapply wall_opening_outward_dir.
  - destruct (decide (p = x)) as [->|Hpx]; [|done]. simplify_eq.
    rewrite Hopen by apply Hx. rewrite decide_False, decide_True by done.
    f_equal. by eapply wall_opening_outward_dir.
Qed.

Lemma openings_follow_the_walls_witness :
  ∃ p, filter (outward (sizeX sample_formed) (sizeY sample_formed) p)
         (conns (mazeList sample_formed) p) =
       [wall_opening (sizeX sample_formed) (sizeY sample_formed) (start_wall sample_formed) p].
Proof.
  exists (2, 0). apply (openings_follow_the_walls sample_formed (2, 0) true).
  - sample_is_produced.
  - vm_compute. reflexivity.
Defined.


(** ** Raising, hanging and what braiding changes *)

Lemma formation_unfold a fuel m g :
  mazeIsDone m = false →
  formation a fuel m g = finish_formation fuel m (growth a fuel m g).
Proof. intros Hd. destruct a; simpl; unfold makeMazeSimple, makeMazeGrowTree; by rewrite Hd. Qed.

Lemma formation_no_raise a fuel sx sy nm sw ew g :
  1 ≤ sx → 1 ≤ sy →
  formation a fuel (fresh_maze sx sy nm sw ew) g = OutOfFuel ∨
  ∃ m g', formation a fuel (fresh_maze sx sy nm sw ew) g = Returns true m g'.
Proof.
  intros Hsx Hsy. rewrite formation_unfold by done. unfold finish_formation.
  destruct (growth a fuel _ g) as [st ml g1|e ml g1|] eqn:Hgrow; [| |by left].
  - apply growth_partial in Hgrow; [|done..]. simpl.
    destruct (makeEntryandExit fuel sx sy sw ew ml g1) as [[] ml' g2|e ml' g2|] eqn:Hee;
      [right; eauto| |by left].
    by apply makeEntryandExit_no_fail in Hee; [|done|done|apply Hgrow].
  - by apply growth_no_fail in Hgrow.
Qed.

(** X4. A formation call on a fresh maze raises nothing: it returns [True]
    or it does not come back, whatever the algorithm, its weights, the walls
    asked for and the random stream. *)
Theorem formation_returns_true_or_hangs a fuel sx sy nm sw ew g :
  1 ≤ sx → 1 ≤ sy →
  formation a fuel (fresh_maze sx sy nm sw ew) g = OutOfFuel ∨
  ∃ m g', formation a fuel (fresh_maze sx sy nm sw ew) g = Returns true m g'.
Proof. exact (formation_no_raise a fuel sx sy nm sw ew g). Qed.

Lemma formation_returns_true_or_hangs_witness :
  formation (GrowTree (-5) 300) 20 (fresh_maze 2 2 "w" WallE WallS) sample_tape = OutOfFuel ∨
  ∃ m g', formation (GrowTree (-5) 300) 20 (fresh_maze 2 2 "w" WallE WallS) sample_tape
          = Returns true m g'.
Proof. apply (formation_returns_true_or_hangs (GrowTree (-5) 300) 20 2 2); lia. Defined.

(** X5. When every tile the entry can be drawn from and every tile the exit
    can be drawn from is one and the same tile, the loop that draws the two
    until they differ never ends: the formation call does not come back,
    whatever the algorithm and the random stream. A maze one tile wide with
    both ends asked on the north wall is such a maze. *)
Theorem formation_lone_candidate_hangs a fuel sx sy nm sw ew g c :
  1 ≤ sx → 1 ≤ sy →
  (∀ p, p ∈ get_wall_tiles sx sy sw → p = c) →
  (∀ p, p ∈ get_wall_tiles sx sy ew → p = c) →
  formation a fuel (fresh_maze sx sy nm sw ew) g = OutOfFuel.
Proof.
  intros Hsx Hsy Hs He.
  destruct (formation_no_raise a fuel sx sy nm sw ew g Hsx Hsy)
    as [?|(m & g' & Hrun)]; [done|exfalso].
  rewrite formation_unfold in Hrun by done. unfold finish_formation, makeEntryandExit in Hrun.
  destruct (growth a fuel _ g) as [st ml g1| |]; [|done..]. simpl in Hrun.
  pose proof (pick_entry_exit_same _ _ ml c fuel g1 Hs He) as Hsame.
  by destruct (pick_entry_exit fuel _ _ ml g1) as [[e x] ? ?| |].
Qed.

Lemma formation_lone_candidate_hangs_witness :
  formation Simple 1000 (fresh_maze 1 3 "column" WallN WallN) sample_tape = OutOfFuel.
Proof.
  apply (formation_lone_candidate_hangs Simple 1000 1 3 "column" WallN WallN sample_tape (0, 0));
    [lia|lia|simpl; by intros p ->%list_elem_of_singleton..].
Defined.

(** X6. On a produced maze [makeMazeBraided] with a weight from -1 to 100
    returns [True]; it leaves the size, the name, the wall selection and the
    formed flag as they were, and of every tile the coordinates, the
    worked-on and wall flags and the role: only connection lists change, and
    they are extended at their end. With any other weight it raises error 1
    and leaves the maze and the random stream untouched. *)
Theorem braiding_changes_connections_only m wb g :
  produced m →
  ((-1 ≤ wb ≤ 100)%Z →
   ∃ m' g', makeMazeBraided wb m g = Returns true m' g' ∧
     m' = set_mazeList m (mazeList m') ∧
     ∀ p, marks <$> tile_at (mazeList m') p = marks <$> tile_at (mazeList m) p ∧
          conns (mazeList m) p `prefix_of` conns (mazeList m') p) ∧
  (¬ (-1 ≤ wb ≤ 100)%Z → makeMazeBraided wb m g = Raises (MazeError 1) m g).
Proof.
  intros Hm. pose proof (produced_ok m Hm) as Hok. split.
  - intros Hwb.
    destruct (makeMazeBraided_spec (λ _ _, True) wb m g Hok Hwb)
      as (m' & g' & Hrun & _ & _ & _ & Hg & _); try done.
    { intros ml t g0 seen Hi Ht _ _.
      destruct (braid_deadend_step_ok _ _ ml t g0 Hi Ht) as (ml1 & g2 & -> & _). eauto. }
    exists m', g'. split; [done|].
    destruct (makeMazeBraided_trace wb m g true m' g' Hok Hrun) as (_ & Heq & n & Hn & _).
    split; [done|]. intros p.
    destruct Hok as (_ & _ & _ & Hinv & _).
    destruct (nsteps_joins _ _ _ _ _ Hn Hinv) as (_ & Hmk & _). split; [done|apply Hg].
  - intros Hwb. unfold makeMazeBraided. destruct Hok as (-> & _). simpl.
    replace ((wb <? -1)%Z || (100 <? wb)%Z) with true; [done|].
    symmetry. apply orb_true_iff. lia.
Qed.

Lemma braiding_changes_connections_only_witness :
  ((-1 ≤ 50 ≤ 100)%Z →
   ∃ m' g', makeMazeBraided 50 sample_formed sample_tape = Returns true m' g' ∧
     m' = set_mazeList sample_formed (mazeList m') ∧
     ∀ p, marks <$> tile_at (mazeList m') p = marks <$> tile_at (mazeList sample_formed) p ∧
          conns (mazeList sample_formed) p `prefix_of` conns (mazeList m') p) ∧
  (¬ (-1 ≤ 50 ≤ 100)%Z →
   makeMazeBraided 50 sample_formed sample_tape = Raises (MazeError 1) sample_formed sample_tape).
Proof. apply (braiding_changes_connections_only sample_formed 50 sample_tape). sample_is_produced. Defined.

(** X7. Every produced maze, braided or not, has exactly one entry tile and
    exactly one exit tile, different from each other; each has exactly one
    direction that leaves the grid and no other tile has any: braiding never
    opens the outer boundary. *)
Theorem produced_entry_exit m :
  produced m →
  ∃ entry_pos exit_pos,
    entry_pos ≠ exit_pos ∧
    in_grid (sizeX m) (sizeY m) entry_pos ∧ in_grid (sizeX m) (sizeY m) exit_pos ∧
    (∀ p, role (mazeList m) p = Some true ↔ p = entry_pos) ∧
    (∀ p, role (mazeList m) p = Some false ↔ p = exit_pos) ∧
    (∀ p, in_grid (sizeX m) (sizeY m) p →
       length (filter (outward (sizeX m) (sizeY m) p) (conns (mazeList m) p)) =
       if decide (p = entry_pos ∨ p = exit_pos) then 1 else 0).
Proof.
  intros Hm. destruct (produced_ok m Hm) as (_ & Hsx & Hsy & _).
  destruct (produced_parts m Hm) as (_ & _ & e & x & Hne & He & Hx & Hrole & Hopen).
  apply (get_wall_tiles_boundary _ _ _ _ Hsx Hsy) in He as [He _], Hx as [Hx _].
  exists e, x. do 3 (split; [done|]). split; [|split].
  - intros p. rewrite Hrole. repeat case_decide; naive_solver.
  - intros p. rewrite Hrole. repeat case_decide; naive_solver.
  - intros p Hp. rewrite Hopen by done. repeat case_decide; naive_solver.
Qed.

Lemma produced_entry_exit_witness :
  ∃ entry_pos exit_pos,
    entry_pos ≠ exit_pos ∧
    in_grid (sizeX sample_formed) (sizeY sample_formed) entry_pos ∧
    in_grid (sizeX sample_formed) (sizeY sample_formed) exit_pos ∧
    (∀ p, role (mazeList sample_formed) p = Some true ↔ p = entry_pos) ∧
    (∀ p, role (mazeList sample_formed) p = Some false ↔ p = exit_pos) ∧
    (∀ p, in_grid (sizeX sample_formed) (sizeY sample_formed) p →
       length (filter (outward (sizeX sample_formed) (sizeY sample_formed) p)
                 (conns (mazeList sample_formed) p)) =
       if decide (p = entry_pos ∨ p = exit_pos) then 1 else 0).
Proof. apply (produced_entry_exit sample_formed). sample_is_produced. Defined.




(** ** The cells the list export writes *)

Lemma on_border_rect {A} rows cols (gr : list (list A)) c :
  rect rows cols gr → 1 ≤ rows → on_border gr c = border rows cols c.
Proof.
  intros [Hlen Hall] Hrows. unfold on_border, border. rewrite Hlen.
  destruct gr as [|row gr]; [simpl in Hlen; lia|]. simpl.
  apply Forall_cons in Hall as [-> _]. done.
Qed.

Lemma mark_conns_unfold rows cols t d rest gr sp :
  rect rows cols gr → 1 ≤ rows →
  ∃ sp1, mark_conns t (d :: rest) gr sp =
         set_cell gr (toward d (display_of t)) (mark_value rows cols t d) ≫=
           λ gr1, mark_conns t rest gr1 sp1.
Proof.
  intros Hr Hrows. cbn [mark_conns]. cbv zeta. unfold mark_value.
  rewrite (on_border_rect rows cols) by done.
  destruct (is_entry t) as [[|]|]; [| |by eexists];
    destruct (border rows cols _); by eexists.
Qed.

Lemma mark_conns_writes rows cols t ds gr sp gr' sp' :
  rect rows cols gr → 1 ≤ rows → mark_conns t ds gr sp = Some (gr', sp') →
  rect rows cols gr' ∧
  ∀ c, (c ∉ (λ d, toward d (display_of t)) <$> ds) ∧ get_cell gr' c = get_cell gr c ∨
       ∃ d, d ∈ ds ∧ c = toward d (display_of t) ∧
            get_cell gr' c = Some (mark_value rows cols t d).
Proof.
  intros Hr Hrows. revert gr sp Hr. induction ds as [|d ds IH]; intros gr sp Hr.
  - simpl. intros [= <- <-]. split; [done|]. intros c. left. split; [|done].
    by intros ?%elem_of_nil.
  - destruct (mark_conns_unfold rows cols t d ds gr sp Hr Hrows) as [sp1 ->].
    destruct (set_cell gr _ _) as [gr1|] eqn:Hset; [|done]. simpl. intros Hrest.
    apply set_cell_Some in Hset as (Hget & Hr1 & _).
    destruct (IH gr1 sp1 (Hr1 _ _ Hr) Hrest) as [Hr' Hc]. split; [done|].
    intros c. destruct (Hc c) as [[Hnot Hsame]|(d' & Hd' & -> & Hv)].
    + rewrite Hsame, Hget. case_decide as Hcd.
      * right. exists d. split; [left|done].
      * left. split; [|done]. apply not_elem_of_cons. done.
    + right. exists d'. split; [by right|done].
Qed.

(** Every cell of the grid the marking loop returns holds what it held
    before, when no tile wrote it, or a symbol a tile wrote there. *)
Lemma mark_tiles_writes rows cols tiles gr sp gr' sp' :
  rect rows cols gr → 1 ≤ rows → mark_tiles tiles gr sp = Some (gr', sp') →
  rect rows cols gr' ∧
  ∀ c, (c ∉ (writes rows cols tiles).*1 ∧ get_cell gr' c = get_cell gr c) ∨
       ∃ v, (c, v) ∈ writes rows cols tiles ∧ get_cell gr' c = Some v.
Proof.
  intros Hr Hrows. revert gr sp Hr. induction tiles as [|t tiles IH]; intros gr sp Hr.
  - simpl. intros [= <- <-]. split; [done|]. intros c. left. split; [|done].
    by intros ?%elem_of_nil.
  - intros Hrun.
    assert (∃ gr1 gr2 sp2, set_cell gr (display_of t) SymPath = Some gr1 ∧
              mark_conns t (connectTo t) gr1 sp = Some (gr2, sp2) ∧
              mark_tiles tiles gr2 sp2 = Some (gr', sp')) as (gr1 & gr2 & sp2 & Hset & Hmc & Hrest).
    { cbn [mark_tiles] in Hrun.
      destruct (set_cell gr _ _) as [gr1|]; [|done]. simpl in Hrun.
      destruct (mark_conns t (connectTo t) gr1 sp) as [[gr2 sp2]|] eqn:Hmc; [|done].
      simpl in Hrun. by exists gr1, gr2, sp2. }
    apply set_cell_Some in Hset as (Hget & Hr1 & _).
    destruct (mark_conns_writes rows cols _ _ _ _ _ _ (Hr1 _ _ Hr) Hrows Hmc) as [Hr2 Hc2].
    destruct (IH gr2 sp2 Hr2 Hrest) as [Hr' Hc]. split; [done|].
    intros c. unfold writes. rewrite bind_cons, fmap_app. fold (writes rows cols tiles).
    destruct (Hc c) as [[Hnot Hsame]|(v & Hv & Hgetv)].
    + rewrite Hsame. destruct (Hc2 c) as [[Hnot2 Hsame2]|(d & Hd & -> & Hv2)].
      * rewrite Hsame2, Hget. case_decide as Hcd.
        -- right. exists SymPath. split; [|done]. apply elem_of_app. left. subst c. left.
        -- left. split; [|done]. rewrite not_elem_of_app. split; [|done].
           unfold tile_writes. rewrite fmap_cons, not_elem_of_cons. split; [done|].
           by rewrite <- list_fmap_compose.
      * right. eexists. split; [|exact Hv2]. apply elem_of_app. left. right.
        apply list_elem_of_fmap. eauto.
    + right. exists v. split; [|done]. apply elem_of_app. by right.
Qed.

Lemma display_of_centre sx sy ml p :
  wf_grid sx sy ml → in_grid sx sy p → display_of (deref ml p) = centre p.
Proof.
  intros Hwf Hp. destruct (deref_in_grid _ _ _ _ Hwf Hp) as (_ & Hx & Hy).
  unfold display_of, centre. rewrite Hx, Hy. f_equal; lia.
Qed.

Lemma border_toward sx sy p d :
  1 ≤ sx → 1 ≤ sy → in_grid sx sy p →
  border (sy * 2 + 1) (sx * 2 + 1) (toward d (centre p)) = true ↔ outward sx sy p d.
Proof.
  intros Hsx Hsy [Hx Hy]. destruct p as [x y]. unfold border, centre, outward. simpl in *.
  rewrite !orb_true_iff, !Nat.eqb_eq.
  destruct d; step_cases; (split; [first [done|lia]|first [done|intros _; lia]]).
Qed.

(** What is written for the tile at a position of a grid in shape. *)
Lemma elem_of_writes sx sy ml c v :
  1 ≤ sx → 1 ≤ sy → wf_grid sx sy ml →
  (c, v) ∈ writes (sy * 2 + 1) (sx * 2 + 1) (concat ml) ↔
  ∃ p, in_grid sx sy p ∧
    (c = centre p ∧ v = SymPath ∨
     ∃ d, d ∈ conns ml p ∧ c = toward d (centre p) ∧
          v = match role ml p with
              | Some b =>
                  if decide (outward sx sy p d)
                  then (if b then SymStart else SymEnd) else SymPath
              | None => SymPath
              end).
Proof.
  intros Hsx Hsy Hwf. unfold writes. rewrite list_elem_of_bind.
  assert (∀ p, in_grid sx sy p → ∀ d,
    mark_value (sy * 2 + 1) (sx * 2 + 1) (deref ml p) d =
    match role ml p with
    | Some b => if decide (outward sx sy p d) then (if b then SymStart else SymEnd) else SymPath
    | None => SymPath
    end) as Hval.
  { intros p Hp d. unfold mark_value, role.
    destruct (deref_in_grid _ _ _ _ Hwf Hp) as (-> & _).
    rewrite (display_of_centre sx sy) by done.
    destruct (is_entry (deref ml p)) as [b|]; [|done].
    pose proof (border_toward sx sy p d Hsx Hsy Hp) as Hb.
    destruct (border _ _ _); case_decide; naive_solver. }
  split.
  - intros (t & Hin & (p & Ht)%elem_of_concat_tile).
    assert (in_grid sx sy p) as Hp by (apply (tile_at_in_grid sx sy ml); eauto).
    destruct (deref_in_grid _ _ _ _ Hwf Hp) as (Ht' & _).
    assert (t = deref ml p) as -> by congruence.
    exists p. split; [done|]. unfold tile_writes in Hin.
    rewrite (display_of_centre sx sy) in Hin by done.
    apply elem_of_cons in Hin as [[= -> ->]|Hin]; [by left|right].
    apply list_elem_of_fmap in Hin as (d & [= -> ->] & Hd).
    exists d. unfold conns. rewrite Ht'. split; [done|]. split; [done|]. by apply Hval.
  - intros (p & Hp & H). destruct (deref_in_grid _ _ _ _ Hwf Hp) as (Ht & _).
    exists (deref ml p). split; [|apply elem_of_concat_tile; eauto].
    unfold tile_writes. rewrite (display_of_centre sx sy) by done.
    destruct H as [[-> ->]|(d & Hd & -> & ->)]; [left|right].
    apply list_elem_of_fmap. exists d. split; [by rewrite Hval|].
    unfold conns in Hd. by rewrite Ht in Hd.
Qed.

(** The list export of a maze in shape: a cell no tile writes is a wall,
    a written cell holds a written symbol. *)
Lemma get_maze_as_list_cells m sym :
  1 ≤ sizeX m → 1 ≤ sizeY m → wf_grid (sizeX m) (sizeY m) (mazeList m) →
  get_maze_as_list m = Exported sym →
  rect (sizeY m * 2 + 1) (sizeX m * 2 + 1) sym ∧
  ∀ c, c.1 < sizeX m * 2 + 1 → c.2 < sizeY m * 2 + 1 →
    ((∀ v, (c, v) ∉ writes (sizeY m * 2 + 1) (sizeX m * 2 + 1) (concat (mazeList m))) ∧
     get_cell sym c = Some SymWall) ∨
    ∃ v, (c, v) ∈ writes (sizeY m * 2 + 1) (sizeX m * 2 + 1) (concat (mazeList m)) ∧
         get_cell sym c = Some v.
Proof.
  intros Hsx Hsy Hwf. unfold get_maze_as_list. destruct (mazeIsDone m); [|done]. simpl.
  destruct (mark_tiles _ _ None) as [[gs sp]|] eqn:Hmark; [|done]. intros [= <-].
  destruct (mark_tiles_writes (sizeY m * 2 + 1) (sizeX m * 2 + 1) _ _ _ _ _
              (rect_fresh_grid _ _ SymWall) ltac:(lia) Hmark) as [Hr Hc].
  split; [done|]. intros c Hx Hy. destruct (Hc c) as [[Hnot Hsame]|?]; [left|by right].
  split.
  - intros v Hv. apply Hnot. apply list_elem_of_fmap. by exists (c, v).
  - rewrite Hsame, get_cell_fresh_grid. by rewrite decide_True.
Qed.


(** ** The picture of the list export *)

Lemma toward_centre_inj d p d' p' :
  toward d (centre p) = toward d' (centre p') →
  p = p' ∧ d = d' ∨ neighbour d p = Some p' ∧ d' = opposite d.
Proof.
  destruct p as [x y], p' as [x' y']. unfold centre.
  destruct d, d'; simpl; intros [= H1 H2];
    first [left; split; [f_equal; lia|done] | right; split; [|done]; case_match; eqb_hyps;
           [lia|do 2 f_equal; lia] | right; split; [|done]; do 2 f_equal; lia | lia].
Qed.

Lemma centre_not_toward p d p' : centre p ≠ toward d (centre p').
Proof. destruct p, p'. unfold centre. destruct d; simpl; intros [=]; lia. Qed.

Lemma neighbour_step_to sx sy d p q :
  neighbour d p = Some q → in_grid sx sy q → step_to sx sy d p = Some q.
Proof. intros Hn Hq. unfold step_to. rewrite Hn. by rewrite bool_decide_eq_true_2. Qed.

Lemma toward_in_range sx sy p d :
  in_grid sx sy p →
  (toward d (centre p)).1 < sx * 2 + 1 ∧ (toward d (centre p)).2 < sy * 2 + 1 ∧
  (centre p).1 < sx * 2 + 1 ∧ (centre p).2 < sy * 2 + 1.
Proof. intros [Hx Hy]. destruct p. unfold centre. destruct d; simpl in *; lia. Qed.

(** The cells of the list export of a produced maze, by what wrote them. *)
Lemma list_export_cell m sym c :
  produced m → get_maze_as_list m = Exported sym →
  c.1 < sizeX m * 2 + 1 → c.2 < sizeY m * 2 + 1 →
  ((∀ p, in_grid (sizeX m) (sizeY m) p → c ≠ centre p ∧
         ∀ d, d ∈ conns (mazeList m) p → c ≠ toward d (centre p)) ∧
   get_cell sym c = Some SymWall) ∨
  ∃ p, in_grid (sizeX m) (sizeY m) p ∧
    (c = centre p ∧ get_cell sym c = Some SymPath ∨
     ∃ d, d ∈ conns (mazeList m) p ∧ c = toward d (centre p) ∧
          get_cell sym c = Some (passage_value (sizeX m) (sizeY m) (mazeList m) p d)).
Proof.
  intros Hm Hex Hx Hy. destruct (produced_ok m Hm) as (_ & Hsx & Hsy & (Hwf & _) & _).
  destruct (get_maze_as_list_cells m sym Hsx Hsy Hwf Hex) as [_ Hc].
  destruct (Hc c Hx Hy) as [[Hnot Hwall]|(v & Hv & Hget)].
  - left. split; [|done]. intros p Hp. split.
    + intros ->. apply (Hnot SymPath). apply (elem_of_writes _ _ _ _ _ Hsx Hsy Hwf).
      exists p. split; [done|]. by left.
    + intros d Hd ->. eapply Hnot. apply (elem_of_writes _ _ _ _ _ Hsx Hsy Hwf).
      exists p. split; [done|]. right. exists d. done.
  - right. apply (elem_of_writes _ _ _ _ _ Hsx Hsy Hwf) in Hv as (p & Hp & H).
    exists p. split; [done|]. destruct H as [[-> ->]|(d & Hd & -> & ->)]; [by left|right].
    exists d. done.
Qed.

Lemma list_export_picture m sym :
  produced m → get_maze_as_list m = Exported sym →
  (∀ p, in_grid (sizeX m) (sizeY m) p → get_cell sym (centre p) = Some SymPath) ∧
  (∀ x y, x ≤ sizeX m → y ≤ sizeY m → get_cell sym (2 * x, 2 * y) = Some SymWall) ∧
  (∀ p d q, in_grid (sizeX m) (sizeY m) p → step_to (sizeX m) (sizeY m) d p = Some q →
     get_cell sym (toward d (centre p)) =
     Some (if bool_decide (d ∈ conns (mazeList m) p) then SymPath else SymWall)).
Proof.
  intros Hm Hex. destruct (produced_ok m Hm) as (_ & Hsx & Hsy & (Hwf & Hsym & _) & _).
  split; [|split].
  - intros p Hp. destruct (toward_in_range _ _ p North Hp) as (_ & _ & Hx & Hy).
    destruct (list_export_cell m sym (centre p) Hm Hex Hx Hy)
      as [[Hnot _]|(p' & Hp' & [[_ ?]|(d & _ & Heq & _)])]; [|done|].
    + by destruct (Hnot p Hp) as [? _].
    + by apply centre_not_toward in Heq.
  - intros x y Hx Hy.
    destruct (list_export_cell m sym (2 * x, 2 * y) Hm Hex)
      as [[_ ?]|(p' & Hp' & [[Heq _]|(d & _ & Heq & _)])]; [simpl; lia|simpl; lia|done|..];
      exfalso; destruct p'; unfold centre in Heq; [|destruct d]; simpl in Heq;
      injection Heq; lia.
  - intros p d q Hp Hs. destruct (toward_in_range _ _ p d Hp) as (Hx & Hy & _).
    assert (¬ outward (sizeX m) (sizeY m) p d) as Hin by (unfold outward; by rewrite Hs).
    pose proof (step_to_in_grid _ _ _ _ _ Hs) as Hq.
    pose proof (step_to_back _ _ _ _ _ Hp Hs) as Hback.
    destruct (list_export_cell m sym _ Hm Hex Hx Hy)
      as [[Hnot ->]|(p' & Hp' & [[Heq _]|(d' & Hd' & Heq & ->)])].
    + rewrite bool_decide_eq_false_2; [done|]. intros Hd.
      by destruct (Hnot p Hp) as [_ Hnd]; destruct (Hnd d Hd).
    + symmetry in Heq. by apply centre_not_toward in Heq.
    + assert (d ∈ conns (mazeList m) p ∧
              ¬ outward (sizeX m) (sizeY m) p' d') as [Hd Hin'].
      { apply toward_centre_inj in Heq as [[-> ->]|[Hn ->]]; [done|].
        apply (neighbour_step_to (sizeX m) (sizeY m)) in Hn; [|done].
        assert (p' = q) as -> by congruence. split.
        - rewrite <- (opposite_involutive d). by eapply Hsym.
        - unfold outward. by rewrite Hback. }
      rewrite bool_decide_eq_true_2 by done. f_equal. unfold passage_value.
      destruct (role (mazeList m) p'); [|done]. by rewrite decide_False.
Qed.

Lemma list_export_ends m sym :
  produced m → get_maze_as_list m = Exported sym →
  ∃ e x,
    role (mazeList m) e = Some true ∧ role (mazeList m) x = Some false ∧
    toward (outward_dir (sizeY m) e) (centre e) ≠ toward (outward_dir (sizeY m) x) (centre x) ∧
    border (sizeY m * 2 + 1) (sizeX m * 2 + 1)
      (toward (outward_dir (sizeY m) e) (centre e)) = true ∧
    border (sizeY m * 2 + 1) (sizeX m * 2 + 1)
      (toward (outward_dir (sizeY m) x) (centre x)) = true ∧
    (∀ c, get_cell sym c = Some SymStart ↔ c = toward (outward_dir (sizeY m) e) (centre e)) ∧
    (∀ c, get_cell sym c = Some SymEnd ↔ c = toward (outward_dir (sizeY m) x) (centre x)) ∧
    (∀ c, c.1 < sizeX m * 2 + 1 → c.2 < sizeY m * 2 + 1 →
          border (sizeY m * 2 + 1) (sizeX m * 2 + 1) c = true →
          get_cell sym c = Some SymWall ∨
          c = toward (outward_dir (sizeY m) e) (centre e) ∨
          c = toward (outward_dir (sizeY m) x) (centre x)).
Proof.
  intros Hm Hex. destruct (produced_ok m Hm) as (_ & Hsx & Hsy & (Hwf & Hsym & _) & _).
  destruct (produced_parts m Hm) as (_ & _ & e & x & Hne & He & Hx & Hrole & Hopen).
  apply (get_wall_tiles_boundary _ _ _ _ Hsx Hsy) in He as [He _], Hx as [Hx _].
  set (de := outward_dir (sizeY m) e). set (dx := outward_dir (sizeY m) x).
  assert (∀ p d, in_grid (sizeX m) (sizeY m) p → d ∈ conns (mazeList m) p →
            outward (sizeX m) (sizeY m) p d → p = e ∧ d = de ∨ p = x ∧ d = dx) as Hout.
  { intros p d Hp Hd Ho.
    assert (d ∈ filter (outward (sizeX m) (sizeY m) p) (conns (mazeList m) p)) as Hf.
    { by apply list_elem_of_filter. }
    rewrite Hopen in Hf by done.
    repeat case_decide; subst; apply list_elem_of_singleton in Hf || apply elem_of_nil in Hf;
      naive_solver. }
  assert (de ∈ conns (mazeList m) e ∧ outward (sizeX m) (sizeY m) e de) as [Hde Hoe].
  { assert (de ∈ filter (outward (sizeX m) (sizeY m) e) (conns (mazeList m) e)) as Hf.
    { rewrite Hopen, decide_True by done. left. }
    apply list_elem_of_filter in Hf. naive_solver. }
  assert (dx ∈ conns (mazeList m) x ∧ outward (sizeX m) (sizeY m) x dx) as [Hdx Hox].
  { assert (dx ∈ filter (outward (sizeX m) (sizeY m) x) (conns (mazeList m) x)) as Hf.
    { rewrite Hopen, decide_False, decide_True by done. left. }
    apply list_elem_of_filter in Hf. naive_solver. }
  assert (∀ p d p' d', in_grid (sizeX m) (sizeY m) p → in_grid (sizeX m) (sizeY m) p' →
            outward (sizeX m) (sizeY m) p d →
            toward d' (centre p') = toward d (centre p) → p' = p ∧ d' = d) as Hinj.
  { intros p d p' d' Hp Hp' Ho Heq. symmetry in Heq.
    apply toward_centre_inj in Heq as [[-> ->]|[Hn ->]]; [done|].
    apply (neighbour_step_to (sizeX m) (sizeY m)) in Hn; [|done].
    unfold outward in Ho. congruence. }
  assert (role (mazeList m) e = Some true) as Hre by (by rewrite Hrole, decide_True).
  assert (role (mazeList m) x = Some false) as Hrx.
  { by rewrite Hrole, decide_False, decide_True. }
  assert (∀ c, c.1 < sizeX m * 2 + 1 → c.2 < sizeY m * 2 + 1 →
            get_cell sym c = Some SymWall ∨ get_cell sym c = Some SymPath ∨
            (c = toward de (centre e) ∧ get_cell sym c = Some SymStart) ∨
            (c = toward dx (centre x) ∧ get_cell sym c = Some SymEnd)) as Hcases.
  { intros c Hcx Hcy.
    destruct (list_export_cell m sym c Hm Hex Hcx Hcy)
      as [[_ ?]|(p & Hp & [[_ ?]|(d & Hd & -> & ->)])]; [by left|by right; left|].
    unfold passage_value. destruct (role (mazeList m) p) as [b|] eqn:Hr; [|by right; left].
    case_decide as Ho; [|by right; left].
    destruct (Hout p d Hp Hd Ho) as [[-> ->]|[-> ->]].
    - rewrite Hre in Hr. simplify_eq. right; right; left. done.
    - rewrite Hrx in Hr. simplify_eq. right; right; right. done. }
  assert (∀ c s, get_cell sym c = Some s → c.1 < sizeX m * 2 + 1 ∧ c.2 < sizeY m * 2 + 1)
    as Hrange.
  { intros c s Hc. destruct (get_maze_as_list_cells m sym Hsx Hsy Hwf Hex) as [Hr _].
    apply (get_cell_rect _ _ _ c Hr). eauto. }
  assert (toward de (centre e) ≠ toward dx (centre x)) as Hdiff.
  { intros Heq. by destruct (Hinj x dx e de Hx He Hox Heq). }
  exists e, x. do 3 (split; [done|]).
  split; [by apply (border_toward _ _ _ _ Hsx Hsy He)|].
  split; [by apply (border_toward _ _ _ _ Hsx Hsy Hx)|]. split; [|split].
  - intros c. split.
    + intros Hc. destruct (Hrange c _ Hc) as [Hcx Hcy].
      destruct (Hcases c Hcx Hcy) as [?|[?|[[? ?]|[? ?]]]]; first [done|congruence].
    + intros ->. destruct (toward_in_range _ _ e de He) as (Hcx & Hcy & _).
      destruct (Hcases _ Hcx Hcy) as [H|[H|[[? ?]|[? ?]]]]; [| |done|done].
      * destruct (list_export_cell m sym _ Hm Hex Hcx Hcy)
          as [[Hnot _]|(p & Hp & [[Heq _]|(d & Hd & Heq & Hv)])].
        -- by destruct (Hnot e He) as [_ Hnd]; destruct (Hnd de Hde).
        -- symmetry in Heq. by apply centre_not_toward in Heq.
        -- destruct (Hinj e de p d He Hp Hoe) as [-> ->]; [done|].
           rewrite Hv in H. unfold passage_value in H. rewrite Hre, decide_True in H; done.
      * destruct (list_export_cell m sym _ Hm Hex Hcx Hcy)
          as [[? Hw]|(p & Hp & [[Heq _]|(d & Hd & Heq & Hv)])]; [congruence|..].
        -- symmetry in Heq. by apply centre_not_toward in Heq.
        -- destruct (Hinj e de p d He Hp Hoe) as [-> ->]; [done|].
           rewrite Hv in H. unfold passage_value in H. rewrite Hre, decide_True in H; done.
  - intros c. split.
    + intros Hc. destruct (Hrange c _ Hc) as [Hcx Hcy].
      destruct (Hcases c Hcx Hcy) as [?|[?|[[? ?]|[? ?]]]]; first [done|congruence].
    + intros ->. destruct (toward_in_range _ _ x dx Hx) as (Hcx & Hcy & _).
      destruct (Hcases _ Hcx Hcy) as [H|[H|[[? ?]|[? ?]]]]; [| |done|done].
      * destruct (list_export_cell m sym _ Hm Hex Hcx Hcy)
          as [[Hnot _]|(p & Hp & [[Heq _]|(d & Hd & Heq & Hv)])].
        -- by destruct (Hnot x Hx) as [_ Hnd]; destruct (Hnd dx Hdx).
        -- symmetry in Heq. by apply centre_not_toward in Heq.
        -- destruct (Hinj x dx p d Hx Hp Hox) as [-> ->]; [done|].
           rewrite Hv in H. unfold passage_value in H. rewrite Hrx, decide_True in H; done.
      * destruct (list_export_cell m sym _ Hm Hex Hcx Hcy)
          as [[? Hw]|(p & Hp & [[Heq _]|(d & Hd & Heq & Hv)])]; [congruence|..].
        -- symmetry in Heq. by apply centre_not_toward in Heq.
        -- destruct (Hinj x dx p d Hx Hp Hox) as [-> ->]; [done|].
           rewrite Hv in H. unfold passage_value in H. rewrite Hrx, decide_True in H; done.
  - intros c Hcx Hcy Hb.
    destruct (list_export_cell m sym c Hm Hex Hcx Hcy)
      as [[_ ?]|(p & Hp & [[Heq _]|(d & Hd & Heq & Hv)])]; [by left|..].
    + exfalso. subst c. destruct p as [px py], Hp as [Hpx Hpy]. unfold border, centre in Hb.
      simpl in *. rewrite !orb_true_iff, !Nat.eqb_eq in Hb. lia.
    + right. subst c. apply (border_toward _ _ _ _ Hsx Hsy Hp) in Hb.
      destruct (Hout p d Hp Hd Hb) as [[-> ->]|[-> ->]]; [by left|by right].
Qed.

(** X9. The list export of a produced maze is a picture of its graph: the
    cell [(2x+1, 2y+1)] of every tile is a path; the cell between two
    neighbouring tiles is a path when the tiles are connected and a wall
    when they are not; the cells with two even coordinates are walls. *)
Theorem list_export_shows_the_maze m sym :
  produced m → get_maze_as_list m = Exported sym →
  (∀ p, in_grid (sizeX m) (sizeY m) p → get_cell sym (centre p) = Some SymPath) ∧
  (∀ x y, x ≤ sizeX m → y ≤ sizeY m → get_cell sym (2 * x, 2 * y) = Some SymWall) ∧
  (∀ p d q, in_grid (sizeX m) (sizeY m) p → step_to (sizeX m) (sizeY m) d p = Some q →
     get_cell sym (toward d (centre p)) =
     Some (if bool_decide (d ∈ conns (mazeList m) p) then SymPath else SymWall)).
Proof. exact (list_export_picture m sym). Qed.

Lemma list_export_shows_the_maze_witness :
  ∃ sym,
  (∀ p, in_grid (sizeX sample_formed) (sizeY sample_formed) p →
        get_cell sym (centre p) = Some SymPath) ∧
  (∀ x y, x ≤ sizeX sample_formed → y ≤ sizeY sample_formed →
          get_cell sym (2 * x, 2 * y) = Some SymWall) ∧
  (∀ p d q, in_grid (sizeX sample_formed) (sizeY sample_formed) p →
     step_to (sizeX sample_formed) (sizeY sample_formed) d p = Some q →
     get_cell sym (toward d (centre p)) =
     Some (if bool_decide (d ∈ conns (mazeList sample_formed) p) then SymPath else SymWall)).
Proof.
  eexists. apply (list_export_shows_the_maze sample_formed);
    [sample_is_produced|vm_compute; reflexivity].
Defined.

(** X10. The list export of a produced maze holds ['S'] in exactly one
    cell and ['E'] in exactly one cell: the cells next to the entry tile and
    to the exit tile on the side the tile opens to, which are two different
    cells of the outer ring. Every other cell of the outer ring is a wall. *)
Theorem list_export_start_and_end m sym :
  produced m → get_maze_as_list m = Exported sym →
  ∃ e x,
    role (mazeList m) e = Some true ∧ role (mazeList m) x = Some false ∧
    toward (outward_dir (sizeY m) e) (centre e) ≠ toward (outward_dir (sizeY m) x) (centre x) ∧
    border (sizeY m * 2 + 1) (sizeX m * 2 + 1)
      (toward (outward_dir (sizeY m) e) (centre e)) = true ∧
    border (sizeY m * 2 + 1) (sizeX m * 2 + 1)
      (toward (outward_dir (sizeY m) x) (centre x)) = true ∧
    (∀ c, get_cell sym c = Some SymStart ↔ c = toward (outward_dir (sizeY m) e) (centre e)) ∧
    (∀ c, get_cell sym c = Some SymEnd ↔ c = toward (outward_dir (sizeY m) x) (centre x)) ∧
    (∀ c, c.1 < sizeX m * 2 + 1 → c.2 < sizeY m * 2 + 1 →
          border (sizeY m * 2 + 1) (sizeX m * 2 + 1) c = true →
          get_cell sym c = Some SymWall ∨
          c = toward (outward_dir (sizeY m) e) (centre e) ∨
          c = toward (outward_dir (sizeY m) x) (centre x)).
Proof. exact (list_export_ends m sym). Qed.

Lemma list_export_start_and_end_witness :
  ∃ sym e x,
    role (mazeList sample_formed) e = Some true ∧
    role (mazeList sample_formed) x = Some false ∧
    toward (outward_dir (sizeY sample_formed) e) (centre e) ≠
      toward (outward_dir (sizeY sample_formed) x) (centre x) ∧
    border (sizeY sample_formed * 2 + 1) (sizeX sample_formed * 2 + 1)
      (toward (outward_dir (sizeY sample_formed) e) (centre e)) = true ∧
    border (sizeY sample_formed * 2 + 1) (sizeX sample_formed * 2 + 1)
      (toward (outward_dir (sizeY sample_formed) x) (centre x)) = true ∧
    (∀ c, get_cell sym c = Some SymStart ↔
          c = toward (outward_dir (sizeY sample_formed) e) (centre e)) ∧
    (∀ c, get_cell sym c = Some SymEnd ↔
          c = toward (outward_dir (sizeY sample_formed) x) (centre x)) ∧
    (∀ c, c.1 < sizeX sample_formed * 2 + 1 → c.2 < sizeY sample_formed * 2 + 1 →
          border (sizeY sample_formed * 2 + 1) (sizeX sample_formed * 2 + 1) c = true →
          get_cell sym c = Some SymWall ∨
          c = toward (outward_dir (sizeY sample_formed) e) (centre e) ∨
          c = toward (outward_dir (sizeY sample_formed) x) (centre x)).
Proof.
  eexists. apply (list_export_start_and_end sample_formed);
    [sample_is_produced|vm_compute; reflexivity].
Defined.


(** ** The index of the detailed export *)

Global Instance leaves_dec sx sy t d : Decision (leaves sx sy t d).
Proof. unfold leaves. destruct d; apply _. Defined.

Lemma border_leaves sx sy t d :
  1 ≤ sx → 1 ≤ sy → placed sx sy t →
  border (sy * 2 + 1) (sx * 2 + 1) (toward d (display_of t)) = true ↔ leaves sx sy t d.
Proof.
  intros Hsx Hsy [Hx Hy]. unfold border, display_of, leaves.
  rewrite !orb_true_iff, !Nat.eqb_eq. destruct d; simpl; lia.
Qed.

Lemma outward_conn_true sx sy t d :
  outward_conn sx sy t d = true ↔ is_entry t ≠ None ∧ leaves sx sy t d.
Proof.
  unfold outward_conn, leaves. destruct (is_entry t); [|naive_solver].
  destruct d; rewrite Nat.eqb_eq; naive_solver.
Qed.

Lemma same_index_write gs gi gs1 gi1 c v i :
  same_index gs gi →
  (∀ p, get_cell gs1 p = if decide (p = c) then Some v else get_cell gs p) →
  (∀ p, get_cell gi1 p = if decide (p = c) then Some i else get_cell gi p) →
  index i = v → same_index gs1 gi1.
Proof. intros Hs H1 H2 Hv p. rewrite H1, H2. case_decide; [by subst|apply Hs]. Qed.

Lemma ring_only_write rows cols gs gs1 c v :
  ring_only rows cols gs →
  (∀ p, get_cell gs1 p = if decide (p = c) then Some v else get_cell gs p) →
  (v = SymStart ∨ v = SymEnd → border rows cols c = true) → ring_only rows cols gs1.
Proof.
  intros Hr H1 Hv p s. rewrite H1. case_decide; [|apply Hr]. intros [= <-]. subst. done.
Qed.

(** The two connection loops, run side by side on a tile whose openings
    come with a role, write the same symbols. *)
Lemma conns_same_index sx sy t ds gs sp gi spi gs' sp' gi' spi' :
  1 ≤ sx → 1 ≤ sy → placed sx sy t →
  (∀ d, d ∈ ds → leaves sx sy t d → is_entry t ≠ None) →
  rect (sy * 2 + 1) (sx * 2 + 1) gs → rect (sy * 2 + 1) (sx * 2 + 1) gi →
  same_index gs gi → ring_only (sy * 2 + 1) (sx * 2 + 1) gs →
  mark_conns t ds gs sp = Some (gs', sp') →
  detail_conns sx sy t ds gi spi = Some (gi', spi') →
  rect (sy * 2 + 1) (sx * 2 + 1) gs' ∧ rect (sy * 2 + 1) (sx * 2 + 1) gi' ∧
  same_index gs' gi' ∧ ring_only (sy * 2 + 1) (sx * 2 + 1) gs'.
Proof.
  intros Hsx Hsy Hp. revert gs sp gi spi.
  induction ds as [|d ds IH]; intros gs sp gi spi Hroles Hrs Hri Hsame Hring Hm Hd.
  { simpl in *. by simplify_eq. }
  destruct (mark_conns_unfold (sy * 2 + 1) (sx * 2 + 1) t d ds gs sp Hrs ltac:(lia))
    as [sp1 Hunf].
  rewrite Hunf in Hm. clear Hunf.
  destruct (set_cell gs _ _) as [gs1|] eqn:Hset; [|done]. simpl in Hm.
  apply set_cell_Some in Hset as (Hget & Hr1 & _).
  destruct (toward_display sx sy t d Hp) as (Hx & Hy & _).
  pose proof (border_leaves sx sy t d Hsx Hsy Hp) as Hbl.
  pose proof (outward_conn_true sx sy t d) as Hoc.
  assert (∀ d', d' ∈ ds → leaves sx sy t d' → is_entry t ≠ None) as Hroles'.
  { intros d' Hd'. apply Hroles. by right. }
  assert (leaves sx sy t d → is_entry t ≠ None) as Hrole by (apply Hroles; left).
  cbn [detail_conns] in Hd. cbv zeta in Hd.
  rewrite !bool_decide_eq_true_2 in Hd by done. cbn [andb negb] in Hd.
  assert (∀ gi1 spi1 i,
    (∀ p, get_cell gi1 p = if decide (p = toward d (display_of t)) then Some i
                           else get_cell gi p) →
    rect (sy * 2 + 1) (sx * 2 + 1) gi1 →
    index i = mark_value (sy * 2 + 1) (sx * 2 + 1) t d →
    detail_conns sx sy t ds gi1 spi1 = Some (gi', spi') →
    rect (sy * 2 + 1) (sx * 2 + 1) gs' ∧ rect (sy * 2 + 1) (sx * 2 + 1) gi' ∧
    same_index gs' gi' ∧ ring_only (sy * 2 + 1) (sx * 2 + 1) gs') as Hnext.
  { intros gi1 spi1 i Hgeti Hri1 Hi Hrest.
    apply (IH gs1 sp1 gi1 spi1); try done; [by apply Hr1| |].
    - by eapply same_index_write.
    - eapply ring_only_write; [done|exact Hget|]. unfold mark_value.
      destruct (is_entry t) as [b|]; [|naive_solver].
      destruct (border _ _ _); [done|naive_solver]. }
  destruct (outward_conn sx sy t d) eqn:Hout.
  - destruct (proj1 Hoc eq_refl) as [Hne Hl].
    assert (border (sy * 2 + 1) (sx * 2 + 1) (toward d (display_of t)) = true) as Hb.
    { by apply Hbl. }
    destruct (is_entry t) as [[|]|] eqn:He; [| |done];
      (destruct (set_index gi _ _) as [gi1|] eqn:Hseti; [|done]); simpl in Hd;
      apply set_index_Some in Hseti as (cell & _ & Hgeti & Hri1);
      (eapply Hnext; [exact Hgeti|by apply Hri1| |exact Hd]);
      unfold mark_value; by rewrite He, Hb.
  - assert (¬ leaves sx sy t d) as Hnl.
    { intros Hl. by pose proof (proj2 Hoc (conj (Hrole Hl) Hl)). }
    assert (mark_value (sy * 2 + 1) (sx * 2 + 1) t d = SymPath) as Hv.
    { unfold mark_value. destruct (is_entry t); [|done].
      destruct (border _ _ _); [|done]. exfalso. apply Hnl. by apply Hbl. }
    destruct (get_cell gi (toward d (display_of t))) as [cell|] eqn:Hcell; [|done].
    case_bool_decide as Hw.
    + destruct (set_index gi _ _) as [gi1|] eqn:Hseti; [|done]. simpl in Hd.
      apply set_index_Some in Hseti as (cell' & _ & Hgeti & Hri1).
      eapply Hnext; [exact Hgeti|by apply Hri1| |exact Hd]. by rewrite Hv.
    + eapply (Hnext gi spi cell); [|done| |exact Hd].
      * intros p. case_decide; by subst.
      * rewrite Hv. pose proof (Hsame (toward d (display_of t))) as Hs.
        rewrite Hcell in Hs. simpl in Hs. symmetry in Hs.
        destruct (index cell) eqn:Hi; [done|done|..]; exfalso;
          (specialize (Hring _ _ Hs); apply Hnl, Hbl, Hring; auto).
Qed.

Lemma tiles_same_index sx sy tiles gs sp gi spi gs' sp' gi' spi' :
  1 ≤ sx → 1 ≤ sy →
  Forall (λ t, placed sx sy t ∧ openings_have_roles sx sy t) tiles →
  rect (sy * 2 + 1) (sx * 2 + 1) gs → rect (sy * 2 + 1) (sx * 2 + 1) gi →
  same_index gs gi → ring_only (sy * 2 + 1) (sx * 2 + 1) gs →
  mark_tiles tiles gs sp = Some (gs', sp') →
  detail_tiles sx sy tiles gi spi = Some (gi', spi') →
  same_index gs' gi'.
Proof.
  intros Hsx Hsy Hall. revert gs sp gi spi.
  induction Hall as [|t tiles [Hp Hroles] _ IH]; intros gs sp gi spi Hrs Hri Hsame Hring Hm Hd.
  { simpl in *. by simplify_eq. }
  simpl in Hm, Hd.
  destruct (set_cell gs _ _) as [gs1|] eqn:Hset; [|done]. simpl in Hm.
  destruct (mark_conns t (connectTo t) gs1 sp) as [[gs2 sp2]|] eqn:Hmc; [|done]. simpl in Hm.
  destruct (set_index gi _ _) as [gi1|] eqn:Hseti; [|done]. simpl in Hd.
  destruct (detail_conns sx sy t (connectTo t) gi1 spi) as [[gi2 spi2]|] eqn:Hdc; [|done].
  simpl in Hd.
  apply set_cell_Some in Hset as (Hget & Hr1 & _).
  apply set_index_Some in Hseti as (cell & _ & Hgeti & Hri1).
  destruct (conns_same_index sx sy t (connectTo t) gs1 sp gi1 spi gs2 sp2 gi2 spi2)
    as (Hrs2 & Hri2 & Hsame2 & Hring2); try done; [by apply Hr1|by apply Hri1| | |by eapply IH].
  - by eapply same_index_write.
  - eapply ring_only_write; [done|exact Hget|]. naive_solver.
Qed.

Lemma fill_info_index gi ds p :
  index <$> get_cell (fill_info gi ds) p = index <$> get_cell gi p.
Proof.
  unfold fill_info.
  rewrite (get_cell_imap (λ c_idx r_idx cell, mkInfo (index cell) _ _ _ _ _)).
  by destruct (get_cell gi p).
Qed.

Lemma produced_openings_have_roles m :
  produced m →
  Forall (λ t, placed (sizeX m) (sizeY m) t ∧ openings_have_roles (sizeX m) (sizeY m) t)
    (concat (mazeList m)).
Proof.
  intros Hm. destruct (produced_ok m Hm) as (_ & Hsx & Hsy & (Hwf & _) & _).
  destruct (produced_parts m Hm) as (_ & _ & e & x & Hne & He & Hx & Hrole & Hopen).
  apply Forall_forall. intros t Ht. split.
  { by apply (proj1 (Forall_forall _ _) (concat_placed _ _ _ Hwf)). }
  apply elem_of_concat_tile in Ht as (p & Ht).
  assert (in_grid (sizeX m) (sizeY m) p) as Hp by (apply (tile_at_in_grid _ _ _ _ Hwf); eauto).
  destruct Hwf as (_ & _ & Hco). destruct (Hco p t Ht) as [Hcx Hcy].
  intros d Hd Hl.
  assert (outward (sizeX m) (sizeY m) p d) as Ho.
  { destruct p as [px py], Hp as [Hpx Hpy]. unfold leaves in Hl. unfold outward.
    rewrite Hcx, Hcy in Hl. destruct d; step_cases. }
  assert (d ∈ filter (outward (sizeX m) (sizeY m) p) (conns (mazeList m) p)) as Hf.
  { apply list_elem_of_filter. split; [done|]. unfold conns. by rewrite Ht. }
  rewrite Hopen in Hf by done. specialize (Hrole p). unfold role in Hrole. rewrite Ht in Hrole.
  rewrite Hrole. repeat case_decide; try done. by apply elem_of_nil in Hf.
Qed.

(** X11. For a produced maze the ['index'] of every cell of the detailed
    export is the symbol the list export holds at the same coordinates. *)
Theorem detailed_index_is_list_symbol m fuel sym info :
  produced m →
  get_maze_as_list m = Exported sym → get_maze_detailed_info fuel m = Exported info →
  ∀ p, index <$> get_cell info p = get_cell sym p.
Proof.
  intros Hm. destruct (produced_ok m Hm) as (_ & Hsx & Hsy & _).
  pose proof (produced_openings_have_roles m Hm) as Hall.
  unfold get_maze_as_list, get_maze_detailed_info.
  destruct (mazeIsDone m); [|done]. cbn [negb].
  destruct (mark_tiles _ _ None) as [[gs sp]|] eqn:Hmark; [|done]. intros [= <-].
  destruct (detail_tiles _ _ _ _ None) as [[gi found]|] eqn:Hdet; [|done].
  destruct (match found with Some s => Some s | None => scan_start gi end) as [start'|]; [|done].
  destruct (bfs_info _ _ _ _ _) as [ds'|]; [|done]. intros [= <-] p.
  rewrite fill_info_index.
  eapply (tiles_same_index (sizeX m) (sizeY m)); try done.
  - apply rect_fresh_grid.
  - apply rect_fresh_grid.
  - intros q. rewrite !get_cell_fresh_grid. by case_decide.
  - intros q s. rewrite get_cell_fresh_grid. case_decide; [|done]. intros [= <-]. naive_solver.
Qed.

Lemma detailed_index_is_list_symbol_witness :
  ∃ sym info, ∀ p, index <$> get_cell info p = get_cell sym p.
Proof.
  eexists _, _. apply (detailed_index_is_list_symbol sample_formed 70);
    [sample_is_produced|vm_compute; reflexivity..].
Defined.


(** ** What the breadth-first search reaches *)

Section Reach.
Variable open : pos → bool.

Lemma bfs_visit_spec cands d queue visited :
    visited ⊆ (bfs_visit open cands d queue visited).2 ∧
    (∀ n, Some n ∈ cands → open n = true → n ∈ (bfs_visit open cands d queue visited).2) ∧
    ∃ new, (bfs_visit open cands d queue visited).1 = queue ++ new ∧
      (∀ c, c ∈ (bfs_visit open cands d queue visited).2 → c ∈ visited ∨ c ∈ new.*1) ∧
      ∀ e, e ∈ new → e.2 = d ∧ e.1 ∉ visited ∧ open e.1 = true.
  Proof.
    revert queue visited. induction cands as [|[c|] rest IH]; intros queue visited;
      cbn [bfs_visit].
    - split; [done|]. split; [by intros n ?%elem_of_nil|]. exists []. rewrite app_nil_r.
      split; [done|]. split; [by left|by intros e ?%elem_of_nil].
    - destruct (open c) eqn:Ho; cbn [andb].
      + case_bool_decide as Hc.
        * destruct (IH (queue ++ [(c, d)]) ({[c]} ∪ visited)) as (H1 & H2 & new & H3 & H4 & H5).
          split; [set_solver|]. split.
          { intros n [[= ->]|Hn]%elem_of_cons Hon; [set_solver|by apply H2]. }
          exists ((c, d) :: new). rewrite H3, <- app_assoc. split; [done|]. split.
          { intros c' Hc'. destruct (H4 c' Hc') as [Hv|Hn]; [|set_solver].
            apply elem_of_union in Hv as [->%elem_of_singleton|?]; [right; left|by left]. }
          intros e [->|He]%elem_of_cons; [simpl; by repeat split|].
          destruct (H5 e He) as (? & ? & ?). set_solver.
        * destruct (IH queue visited) as (H1 & H2 & new & H3 & H4 & H5).
          split; [done|]. split; [|by exists new].
          intros n Hn Hon. apply elem_of_cons in Hn as [Heq|Hn]; [|by apply H2].
          injection Heq as ->. by apply H1.
      + destruct (IH queue visited) as (H1 & H2 & new & H3 & H4 & H5).
        split; [done|]. split; [|by exists new].
        intros n [[= ->]|Hn]%elem_of_cons Hon; [congruence|by apply H2].
    - destruct (IH queue visited) as (H1 & H2 & new & H3 & H4 & H5).
      split; [done|]. split; [|by exists new].
      intros n [[=]|Hn]%elem_of_cons Hon. by apply H2.
  Qed.

  (** When the search of [get_maze_with_distances] ends, every cell it
      has seen has a distance, and so has every neighbour that passes the
      test of a cell with a distance. *)
Lemma bfs_distances_closed fuel queue visited ds ds' :
    bfs_distances fuel open queue visited ds = Some ds' →
    (∀ c, c ∈ visited → is_Some (ds !! c) ∨ c ∈ queue.*1) →
    (∀ c n, is_Some (ds !! c) → Some n ∈ display_neighbours c → open n = true →
            n ∈ visited) →
    (∀ c, c ∈ visited → is_Some (ds' !! c)) ∧
    (∀ c n, is_Some (ds' !! c) → Some n ∈ display_neighbours c → open n = true →
            is_Some (ds' !! n)).
  Proof.
    revert queue visited ds. induction fuel as [|fuel IH]; intros queue visited ds.
    - destruct queue as [|[p d] q]; [|done]. intros [= <-] H1 H2.
      assert (∀ c, c ∈ visited → is_Some (ds !! c)) as H.
      { intros c Hc. destruct (H1 c Hc) as [?|?%elem_of_nil]; done. }
      split; [done|]. intros c n Hc Hn Ho. eauto.
    - destruct queue as [|[p d] q].
      { intros [= <-] H1 H2.
        assert (∀ c, c ∈ visited → is_Some (ds !! c)) as H.
        { intros c Hc. destruct (H1 c Hc) as [?|?%elem_of_nil]; done. }
        split; [done|]. intros c n Hc Hn Ho. eauto. }
      rewrite bfs_distances_S. intros Hrun H1 H2.
      destruct (bfs_visit_spec (display_neighbours p) (d + 1)%Z q visited)
        as (Hsub & Hall & new & Hq & Hv & Hnew).
      destruct (IH _ _ _ Hrun) as [H1' H2'].
      + intros c Hc. rewrite lookup_insert. case_decide as Hcp; [left; eauto|].
        destruct (Hv c Hc) as [Hc'|Hc'].
        * destruct (H1 c Hc') as [?|Hin]; [by left|right].
          rewrite Hq, fmap_app, elem_of_app. left.
          rewrite fmap_cons in Hin. simpl in Hin. apply elem_of_cons in Hin as [?|?]; done.
        * right. rewrite Hq, fmap_app, elem_of_app. by right.
      + intros c n. rewrite lookup_insert. case_decide as Hcp.
        * subst c. intros _ Hn Ho. by apply Hall.
        * intros Hc Hn Ho. apply Hsub. eauto.
      + split; [|done]. intros c Hc. apply H1'. by apply Hsub.
  Qed.

Lemma bfs_distances_from_start start fuel queue visited ds ds' :
    bfs_distances fuel open queue visited ds = Some ds' →
    start ∈ visited →
    (∀ c d, (c, d) ∈ queue → from_start start c d) →
    (∀ c d, ds !! c = Some d → from_start start c d) →
    ∀ c d, ds' !! c = Some d → from_start start c d.
  Proof.
    revert queue visited ds. induction fuel as [|fuel IH]; intros queue visited ds.
    - destruct queue as [|[p d] q]; [|done]. by intros [= <-].
    - destruct queue as [|[p d] q]; [by intros [= <-]|].
      rewrite bfs_distances_S. intros Hrun Hs Hq Hds.
      destruct (bfs_visit_spec (display_neighbours p) (d + 1)%Z q visited)
        as (Hsub & Hall & new & Hq' & Hv & Hnew).
      apply (IH _ _ _ Hrun).
      + by apply Hsub.
      + intros c d'. rewrite Hq'. intros [Hin|Hin]%elem_of_app.
        * apply Hq. by right.
        * destruct (Hnew _ Hin) as (Hd & Hc & _). simpl in *. subst d'.
          assert (c ≠ start) as Hne by (by intros ->).
          destruct (Hq p d ltac:(left)) as [Hp1 Hp2].
          split; [done|]. intros _. destruct (decide (p = start)) as [Hp|Hp].
          -- rewrite (Hp1 Hp). lia.
          -- specialize (Hp2 Hp). lia.
      + intros c d'. rewrite lookup_insert. case_decide as Hcp.
        * intros [= <-]. subst c. apply Hq. left.
        * apply Hds.
  Qed.

  (** Every cell that steps of the search lead to from the start has a
      distance in the end. *)
Lemma bfs_distances_reach start fuel ds c :
    bfs_distances fuel open [(start, 0%Z)] {[start]} ∅ = Some ds →
    rtc (cell_step open) start c → is_Some (ds !! c).
  Proof.
    intros Hrun.
    destruct (bfs_distances_closed _ _ _ _ _ Hrun) as [H1 H2].
    { intros c' ->%elem_of_singleton. right. left. }
    { intros c' n [? Hc']. by rewrite lookup_empty in Hc'. }
    revert c. apply rtc_ind_r; [apply H1; set_solver|].
    intros c n _ [Hn Ho] IH. by eapply H2.
  Qed.
End Reach.


(** ** The numbers of the distance export *)

Lemma mark_conns_start_written rows cols t ds gr sp gr' sp' :
  rect rows cols gr → 1 ≤ rows → mark_conns t ds gr sp = Some (gr', sp') →
  sp' = sp ∨ ∃ d, d ∈ ds ∧ sp' = Some (toward d (display_of t)) ∧
                  mark_value rows cols t d = SymStart.
Proof.
  intros Hr Hrows. revert gr sp Hr. induction ds as [|d ds IH]; intros gr sp Hr.
  { simpl. intros [= _ <-]. by left. }
  assert (∃ sp1, mark_conns t (d :: ds) gr sp =
            set_cell gr (toward d (display_of t)) (mark_value rows cols t d) ≫=
              (λ gr1, mark_conns t ds gr1 sp1) ∧
            (sp1 = sp ∨ sp1 = Some (toward d (display_of t)) ∧
                        mark_value rows cols t d = SymStart)) as (sp1 & -> & Hsp1).
  { cbn [mark_conns]. cbv zeta. unfold mark_value.
    rewrite (on_border_rect rows cols) by done.
    destruct (is_entry t) as [[|]|]; [| |eexists; split; [done|by left]];
      destruct (border rows cols _); eexists; (split; [done|]); auto. }
  destruct (set_cell gr _ _) as [gr1|] eqn:Hset; [|done]. simpl. intros Hrest.
  apply set_cell_Some in Hset as (_ & Hr1 & _).
  destruct (IH gr1 sp1 (Hr1 _ _ Hr) Hrest) as [->|(d' & Hd' & -> & Hv)].
  - destruct Hsp1 as [->|[-> Hv]]; [by left|right]. exists d. split; [left|done].
  - right. exists d'. split; [by right|done].
Qed.

Lemma mark_tiles_start_written rows cols tiles gr sp gr' sp' :
  rect rows cols gr → 1 ≤ rows → mark_tiles tiles gr sp = Some (gr', sp') →
  sp' = sp ∨ ∃ c, sp' = Some c ∧ (c, SymStart) ∈ writes rows cols tiles.
Proof.
  intros Hr Hrows. revert gr sp Hr. induction tiles as [|t tiles IH]; intros gr sp Hr.
  { simpl. intros [= _ <-]. by left. }
  intros Hrun.
  assert (∃ gr1 gr2 sp2, set_cell gr (display_of t) SymPath = Some gr1 ∧
            mark_conns t (connectTo t) gr1 sp = Some (gr2, sp2) ∧
            mark_tiles tiles gr2 sp2 = Some (gr', sp')) as (gr1 & gr2 & sp2 & Hset & Hmc & Hrest).
  { cbn [mark_tiles] in Hrun.
    destruct (set_cell gr _ _) as [gr1|]; [|done]. simpl in Hrun.
    destruct (mark_conns t (connectTo t) gr1 sp) as [[gr2 sp2]|] eqn:Hmc; [|done].
    simpl in Hrun. by exists gr1, gr2, sp2. }
  apply set_cell_Some in Hset as (_ & Hr1 & _).
  destruct (mark_conns_writes rows cols _ _ _ _ _ _ (Hr1 _ _ Hr) Hrows Hmc) as [Hr2 _].
  unfold writes. rewrite bind_cons. fold (writes rows cols tiles).
  destruct (IH gr2 sp2 Hr2 Hrest) as [->|(c & -> & Hc)].
  - destruct (mark_conns_start_written rows cols _ _ _ _ _ _ (Hr1 _ _ Hr) Hrows Hmc)
      as [->|(d & Hd & -> & Hv)]; [by left|right].
    eexists. split; [done|]. apply elem_of_app. left. right.
    apply list_elem_of_fmap. exists d. by rewrite Hv.
  - right. exists c. split; [done|]. apply elem_of_app. by right.
Qed.

Lemma path_open_true rows cols gs c :
  rect rows cols gs → path_open gs c = true ↔ get_cell gs c = Some SymPath.
Proof.
  intros Hr. unfold path_open, in_grid_and. rewrite andb_true_iff, bool_decide_eq_true. split.
  - intros [_ Hc]. destruct (get_cell gs c) as [s|]; [|done].
    apply bool_decide_eq_true in Hc. by subst.
  - intros Hc. rewrite Hc. split; [|by apply bool_decide_eq_true].
    assert (c.1 < cols ∧ c.2 < rows) as [Hx Hy] by (apply (get_cell_rect _ _ gs c Hr); eauto).
    destruct Hr as [Hlen Hall]. destruct gs as [|row gs]; [simpl in Hlen; lia|]. simpl.
    apply Forall_cons in Hall as [-> _]. done.
Qed.

Lemma get_cell_fill_distances gs ds c :
  get_cell (fill_distances gs ds) c = distance_cell ds c <$> get_cell gs c.
Proof.
  unfold fill_distances, distance_cell.
  rewrite (get_cell_imap (λ x y cell, match ds !! (x, y) with
    | Some d => DNum d
    | None => if bool_decide (cell ≠ SymWall) && bool_decide (cell ≠ SymEnd)
              then DNum (-1) else DSym cell end)).
  by replace (c.1, c.2) with c by (by destruct c).
Qed.

Ltac pick_neighbour :=
  rewrite !elem_of_cons; solve [repeat first [left; solve [do 2 f_equal; lia]|right]].

Lemma centre_next_to_passage p d : Some (centre p) ∈ display_neighbours (toward d (centre p)).
Proof.
  destruct p as [x y]. unfold centre, display_neighbours.
  destruct d; simpl; repeat case_match; eqb_hyps; try lia;
    pick_neighbour.
Qed.

Lemma passage_next_to_centre p d : Some (toward d (centre p)) ∈ display_neighbours (centre p).
Proof.
  destruct p as [x y]. unfold centre, display_neighbours.
  destruct d; simpl; repeat case_match; eqb_hyps; try lia;
    pick_neighbour.
Qed.

Lemma centre_step d p q : neighbour d p = Some q → centre q = toward d (toward d (centre p)).
Proof.
  destruct p as [x y]. unfold centre, neighbour.
  destruct d; simpl; repeat case_match; eqb_hyps; intros [= <-]; simpl; f_equal; lia.
Qed.

Lemma far_side_next_to_passage p d q :
  neighbour d p = Some q → Some (centre q) ∈ display_neighbours (toward d (centre p)).
Proof.
  destruct p as [x y]. unfold centre, display_neighbours, neighbour.
  destruct d; simpl; repeat case_match; eqb_hyps; intros [= <-]; simpl; try lia;
    pick_neighbour.
Qed.

(** In the list export of a produced maze the search reaches every path
    cell from the cell of the start. *)
Lemma produced_paths_reached m sym e c :
  produced m → get_maze_as_list m = Exported sym →
  role (mazeList m) e = Some true →
  get_cell sym c = Some SymPath →
  rtc (cell_step (path_open sym)) (toward (outward_dir (sizeY m) e) (centre e)) c.
Proof.
  intros Hm Hex He Hc.
  destruct (produced_ok m Hm) as (_ & Hsx & Hsy & (Hwf & Hsym & _) & Hcon).
  destruct (get_maze_as_list_cells m sym Hsx Hsy Hwf Hex) as [Hr _].
  destruct (list_export_picture m sym Hm Hex) as (Hcentre & _ & Hpass).
  assert (in_grid (sizeX m) (sizeY m) e) as Hein.
  { apply (tile_at_in_grid _ _ _ _ Hwf). unfold role in He. by destruct (tile_at _ e). }
  set (s := toward (outward_dir (sizeY m) e) (centre e)).
  assert (∀ p, in_grid (sizeX m) (sizeY m) p → path_open sym (centre p) = true) as Hopen.
  { intros p Hp. apply (path_open_true _ _ _ _ Hr). by apply Hcentre. }
  assert (rtc (cell_step (path_open sym)) s (centre e)) as Hse.
  { apply rtc_once. split; [apply centre_next_to_passage|by apply Hopen]. }
  assert (∀ p, in_grid (sizeX m) (sizeY m) p →
            rtc (cell_step (path_open sym)) s (centre p)) as Hall.
  { intros p Hp. pose proof (Hcon e p Hein Hp) as Hep. clear Hp.
    assert (in_grid (sizeX m) (sizeY m) p ∧ rtc (cell_step (path_open sym)) s (centre p))
      as [_ ?]; [|done].
    revert p Hep. apply rtc_ind_r; [done|].
    intros p q _ (d & Hd & Hs & _) [Hp IH].
    assert (in_grid (sizeX m) (sizeY m) q) as Hq by (by eapply step_to_in_grid).
    split; [done|].
    assert (neighbour d p = Some q) as Hn.
    { unfold step_to in Hs. destruct (neighbour d p); [|done]. by case_bool_decide. }
    eapply rtc_r; [eapply rtc_r; [exact IH|]|].
    - split; [apply passage_next_to_centre|]. apply (path_open_true _ _ _ _ Hr).
      rewrite (Hpass p d q) by done. by rewrite bool_decide_eq_true_2.
    - split; [by apply far_side_next_to_passage|by apply Hopen]. }
  assert (c.1 < sizeX m * 2 + 1 ∧ c.2 < sizeY m * 2 + 1) as [Hx Hy].
  { apply (get_cell_rect _ _ sym c Hr). eauto. }
  destruct (list_export_cell m sym c Hm Hex Hx Hy)
    as [[_ ?]|(p & Hp & [[-> _]|(d & Hd & -> & _)])]; [congruence|by apply Hall|].
  eapply rtc_r; [by apply Hall|]. split; [apply passage_next_to_centre|].
  by apply (path_open_true _ _ _ _ Hr).
Qed.

Lemma produced_entry_opening m p d :
  produced m → in_grid (sizeX m) (sizeY m) p → d ∈ conns (mazeList m) p →
  outward (sizeX m) (sizeY m) p d → role (mazeList m) p = Some true →
  d = outward_dir (sizeY m) p.
Proof.
  intros Hm Hp Hd Ho Hr.
  destruct (produced_parts m Hm) as (_ & _ & e & x & Hne & He & Hx & Hrole & Hopen).
  assert (d ∈ filter (outward (sizeX m) (sizeY m) p) (conns (mazeList m) p)) as Hf.
  { by apply list_elem_of_filter. }
  rewrite Hopen in Hf by done. rewrite Hrole in Hr.
  repeat case_decide; simplify_eq. by apply list_elem_of_singleton in Hf.
Qed.

Lemma produced_entry_unique m p q :
  produced m → role (mazeList m) p = Some true → role (mazeList m) q = Some true → p = q.
Proof.
  intros Hm Hp Hq.
  destruct (produced_parts m Hm) as (_ & _ & e & x & Hne & He & Hx & Hrole & Hopen).
  rewrite Hrole in Hp, Hq. repeat case_decide; simplify_eq. done.
Qed.

(** The start position the distance export searches from. *)
Lemma produced_start_pos m gs sp :
  produced m →
  mark_tiles (concat (mazeList m)) (fresh_grid (sizeY m * 2 + 1) (sizeX m * 2 + 1) SymWall) None
    = Some (gs, sp) →
  ∀ start, sp = Some start →
    ∃ e, role (mazeList m) e = Some true ∧
         start = toward (outward_dir (sizeY m) e) (centre e).
Proof.
  intros Hm Hmark start ->.
  destruct (produced_ok m Hm) as (_ & Hsx & Hsy & (Hwf & _) & _).
  destruct (mark_tiles_start_written (sizeY m * 2 + 1) (sizeX m * 2 + 1) _ _ _ _ _
              (rect_fresh_grid _ _ SymWall) ltac:(lia) Hmark) as [?|(c & [= <-] & Hc)]; [done|].
  apply (elem_of_writes _ _ _ _ _ Hsx Hsy Hwf) in Hc as (p & Hp & [[_ ?]|(d & Hd & -> & Hv)]);
    [done|].
  destruct (role (mazeList m) p) as [[|]|] eqn:Hr; try done; case_decide as Ho; try done.
  exists p. split; [done|]. f_equal. by apply produced_entry_opening.
Qed.

(** The parts of the distance export of a produced maze: the start it
    searches from, the distances the search returns, and the cells that
    have one. *)
Lemma distance_export_parts m fuel sym dist :
  produced m →
  get_maze_as_list m = Exported sym → get_maze_with_distances fuel m = Exported dist →
  ∃ start ds,
    bfs_distances fuel (path_open sym) [(start, 0%Z)] {[start]} ∅ = Some ds ∧
    dist = fill_distances sym ds ∧
    (∀ c, get_cell sym c = Some SymStart ↔ c = start) ∧
    (∀ c, is_Some (ds !! c) ↔ c = start ∨ get_cell sym c = Some SymPath).
Proof.
  intros Hm Hex Hdist.
  destruct (produced_ok m Hm) as (_ & Hsx & Hsy & (Hwf & _) & _).
  destruct (get_maze_as_list_cells m sym Hsx Hsy Hwf Hex) as [Hr _].
  destruct (list_export_ends m sym Hm Hex) as (e & x & He & Hx & Hdiff & _ & _ & HS & HE & _).
  pose proof (λ c, produced_paths_reached m sym e c Hm Hex He) as Hreach.
  unfold get_maze_as_list, get_maze_with_distances in Hex, Hdist.
  destruct (mazeIsDone m); [|done]. cbn [negb] in Hex, Hdist.
  destruct (mark_tiles _ _ None) as [[gs sp]|] eqn:Hmark; [|done]. injection Hex as ->.
  destruct sp as [start|]; [|done].
  destruct (produced_start_pos m sym _ Hm Hmark start eq_refl) as (e' & He' & Hstart).
  assert (e' = e) as -> by (by eapply produced_entry_unique).
  fold (path_open sym) in Hdist.
  destruct (bfs_distances fuel (path_open sym) _ _ _) as [ds|] eqn:Hbfs; [|done].
  injection Hdist as <-. exists start, ds. do 2 (split; [done|]).
  split; [intros c; by rewrite Hstart|]. intros c. split.
  - intros Hc.
    assert (c = start ∨ path_open sym c = true) as [?|Ho]; [|by left|right].
    { eapply (bfs_distances_keys (λ c, c = start ∨ path_open sym c = true));
        [| | |exact Hbfs|exact Hc].
      - by right.
      - apply Forall_singleton. by left.
      - intros p [? Hp]. by rewrite lookup_empty in Hp. }
    by apply (path_open_true _ _ _ _ Hr).
  - intros [->|Hc].
    + by apply (bfs_distances_reach (path_open sym) start fuel ds start Hbfs).
    + apply (bfs_distances_reach (path_open sym) start fuel ds c Hbfs).
      rewrite Hstart. by apply Hreach.
Qed.

(** X12. The distance export of a produced maze is the list export with
    numbers in the place of the start and of the paths: where the list
    export has a wall or ['E'] so has the distance export, where it has
    ['S'] the distance export has 0, and where it has a path the distance
    export has a number that is at least 1. No cell holds -1. *)
Theorem distance_export_numbers m fuel sym dist :
  produced m →
  get_maze_as_list m = Exported sym → get_maze_with_distances fuel m = Exported dist →
  ∀ c s, get_cell sym c = Some s →
    match s with
    | SymWall => get_cell dist c = Some (DSym SymWall)
    | SymEnd => get_cell dist c = Some (DSym SymEnd)
    | SymStart => get_cell dist c = Some (DNum 0)
    | SymPath => ∃ d, get_cell dist c = Some (DNum d) ∧ (1 ≤ d)%Z
    end.
Proof.
  intros Hm Hex Hdist.
  destruct (distance_export_parts m fuel sym dist Hm Hex Hdist)
    as (start & ds & Hbfs & -> & HS & Hkeys).
  assert (∀ c d, ds !! c = Some d → from_start start c d) as Hfrom.
  { apply (bfs_distances_from_start (path_open sym) start _ _ _ _ _ Hbfs); [set_solver| |].
    - intros c d [= -> ->]%list_elem_of_singleton. done.
    - intros c d Hc. by rewrite lookup_empty in Hc. }
  intros c s Hc. rewrite get_cell_fill_distances, Hc. simpl. unfold distance_cell.
  assert (get_cell sym start = Some SymStart) as Hs by (by apply HS).
  destruct s.
  - destruct (ds !! c) as [d|] eqn:Hd; [|done]. exfalso.
    destruct (proj1 (Hkeys c)) as [->|Ho]; [by rewrite Hd|congruence..].
  - destruct (proj2 (Hkeys c)) as [d Hd]; [by right|]. rewrite Hd. exists d.
    split; [done|]. apply (Hfrom c d Hd). intros ->. congruence.
  - assert (c = start) as -> by (by apply HS).
    destruct (proj2 (Hkeys start)) as [d Hd]; [by left|].
    rewrite Hd. by rewrite (proj1 (Hfrom start d Hd)).
  - destruct (ds !! c) as [d|] eqn:Hd; [|done]. exfalso.
    destruct (proj1 (Hkeys c)) as [->|Ho]; [by rewrite Hd|congruence..].
Qed.

Lemma distance_export_numbers_witness :
  ∃ sym dist, ∀ c s, get_cell sym c = Some s →
    match s with
    | SymWall => get_cell dist c = Some (DSym SymWall)
    | SymEnd => get_cell dist c = Some (DSym SymEnd)
    | SymStart => get_cell dist c = Some (DNum 0)
    | SymPath => ∃ d, get_cell dist c = Some (DNum d) ∧ (1 ≤ d)%Z
    end.
Proof.
  eexists _, _. apply (distance_export_numbers sample_formed 70);
    [sample_is_produced|vm_compute; reflexivity..].
Defined.


(** ** The search finds shortest walks *)

Section Shortest.
Variable open : pos → bool.
Variable start : pos.

Lemma bfs_visit_new cands d queue visited :
    ∃ new, (bfs_visit open cands d queue visited).1 = queue ++ new ∧ NoDup new.*1 ∧
      ∀ e, e ∈ new → Some e.1 ∈ cands ∧ e.1 ∈ (bfs_visit open cands d queue visited).2 ∧
                     e.1 ∉ visited.
  Proof.
    revert queue visited. induction cands as [|[c|] rest IH]; intros queue visited;
      cbn [bfs_visit].
    - exists []. rewrite app_nil_r. split; [done|]. split; [constructor|].
      by intros e ?%elem_of_nil.
    - destruct (open c && bool_decide (c ∉ visited)) eqn:Hc.
      + apply andb_true_iff in Hc as [Ho Hc]. apply bool_decide_eq_true in Hc.
        destruct (IH (queue ++ [(c, d)]) ({[c]} ∪ visited)) as (new & H1 & H2 & H3).
        destruct (bfs_visit_spec open rest d (queue ++ [(c, d)]) ({[c]} ∪ visited))
          as (Hsub & _).
        exists ((c, d) :: new). rewrite H1, <- app_assoc. split; [done|]. split.
        * rewrite fmap_cons. apply NoDup_cons. split; [|done]. simpl.
          intros (e & He1 & He)%list_elem_of_fmap. destruct (H3 e He) as (_ & _ & Hn).
          apply Hn. rewrite <- He1. set_solver.
        * intros e [->|He]%elem_of_cons.
          -- simpl. split; [left|]. split; [apply Hsub; set_solver|done].
          -- destruct (H3 e He) as (? & ? & ?). split; [by right|]. split; [done|set_solver].
      + destruct (IH queue visited) as (new & H1 & H2 & H3). exists new.
        split; [done|]. split; [done|]. intros e He. destruct (H3 e He) as (? & ? & ?).
        split; [by right|done].
    - destruct (IH queue visited) as (new & H1 & H2 & H3). exists new.
      split; [done|]. split; [done|]. intros e He. destruct (H3 e He) as (? & ? & ?).
      split; [by right|done].
  Qed.

Lemma bfs_inv_init : bfs_inv open [(start, 0%Z)] {[start]} ∅.
  Proof.
    split.
    - exists 0%Z, [(start, 0%Z)], []. split; [done|]. split; [by apply Forall_singleton|].
      split; [constructor|]. intros c dc Hc. by rewrite lookup_empty in Hc.
    - split; [apply NoDup_singleton|]. intros c ->%list_elem_of_singleton.
      split; [apply lookup_empty|set_solver].
    - intros c dc n Hc. by rewrite lookup_empty in Hc.
    - intros c [? Hc]. by rewrite lookup_empty in Hc.
    - intros c ->%elem_of_singleton. right. left.
  Qed.

  (** A round of the [while queue] loop keeps the invariant. *)
Lemma bfs_inv_step p dp q visited ds :
    bfs_inv open ((p, dp) :: q) visited ds →
    bfs_inv open (bfs_visit open (display_neighbours p) (dp + 1)%Z q visited).1
      (bfs_visit open (display_neighbours p) (dp + 1)%Z q visited).2 (<[p := dp]> ds).
  Proof.
    intros [(d0 & l1 & l2 & Hq & Hl1 & Hl2 & Hle) [Hnd Hqd] Hnb Hkeys Hseen].
    destruct (bfs_visit_spec open (display_neighbours p) (dp + 1)%Z q visited)
      as (Hsub & Hall & new & Hq' & Hv & Hnew).
    destruct (bfs_visit_new (display_neighbours p) (dp + 1)%Z q visited)
      as (new' & Hq'' & Hndn & Hnew').
    assert (new' = new) as -> by (rewrite Hq' in Hq''; by apply app_inv_head in Hq'').
    rewrite Hq'. set (v' := (bfs_visit open (display_neighbours p) (dp + 1)%Z q visited).2) in *.
    rewrite fmap_cons in Hnd. simpl in Hnd. apply NoDup_cons in Hnd as [Hpq Hndq].
    assert (ds !! p = None ∧ p ∈ visited) as [Hpd Hpv] by (apply Hqd; left).
    assert ((dp = d0 ∨ dp = d0 + 1)%Z ∧ ∀ e, e ∈ q → (e.2 ≤ dp + 1)%Z ∧ (d0 ≤ e.2)%Z)
      as [Hdp Hqle].
    { assert (∀ e, e ∈ (p, dp) :: q → (e.2 = d0 ∨ e.2 = d0 + 1)%Z) as Hall01.
      { intros e. rewrite Hq. intros [He|He]%elem_of_app.
        - left. by apply (proj1 (Forall_forall _ _) Hl1).
        - right. by apply (proj1 (Forall_forall _ _) Hl2). }
      destruct l1 as [|e1 l1].
      - simpl in Hq. subst l2. apply Forall_cons in Hl2 as [Hp Hl2]. simpl in Hp.
        split; [by right|]. intros e He.
        pose proof (proj1 (Forall_forall _ _) Hl2 e He) as H. simpl in H. lia.
      - injection Hq as <- ->. apply Forall_cons in Hl1 as [Hp Hl1]. simpl in Hp.
        split; [by left|]. intros e He.
        destruct (Hall01 e ltac:(by right)); lia. }
    assert (∀ e, e ∈ new → e.2 = (dp + 1)%Z ∧ e.1 ∉ visited ∧ e.1 ∈ v') as Hnew2.
    { intros e He. destruct (Hnew e He) as (? & ? & _). destruct (Hnew' e He) as (_ & ? & _).
      done. }
    split.
    - (* blocks *)
      destruct l1 as [|e1 l1].
      + simpl in Hq. subst l2. apply Forall_cons in Hl2 as [Hp Hl2]. simpl in Hp.
        exists (d0 + 1)%Z, q, new. split; [done|]. split; [done|]. split.
        * apply Forall_forall. intros e He. destruct (Hnew2 e He) as [-> _]. lia.
        * intros c dc. rewrite lookup_insert. case_decide; [intros [= <-]; lia|].
          intros Hc. specialize (Hle c dc Hc). lia.
      + injection Hq as <- ->. apply Forall_cons in Hl1 as [Hp Hl1]. simpl in Hp.
        exists d0, l1, (l2 ++ new). rewrite app_assoc. split; [done|]. split; [done|]. split.
        * apply Forall_app. split; [done|]. apply Forall_forall. intros e He.
          destruct (Hnew2 e He) as [-> _]. lia.
        * intros c dc. rewrite lookup_insert. case_decide; [intros [= <-]; lia|]. apply Hle.
    - (* queued *)
      split.
      + rewrite fmap_app. apply NoDup_app. split; [done|]. split; [|done].
        intros c Hc (e & -> & He)%list_elem_of_fmap. destruct (Hnew2 e He) as (_ & Hn & _).
        apply Hn. apply Hqd. by right.
      + intros c. rewrite fmap_app. intros [Hc|Hc]%elem_of_app.
        * assert (c ≠ p) by (by intros ->). rewrite lookup_insert_ne by done.
          destruct (Hqd c ltac:(by right)) as [? ?]. split; [done|by apply Hsub].
        * apply list_elem_of_fmap in Hc as (e & -> & He).
          destruct (Hnew2 e He) as (_ & Hn & Hin).
          assert (e.1 ≠ p) by (by intros Heq; rewrite Heq in Hn).
          rewrite lookup_insert_ne by done. split; [|done].
          destruct (ds !! e.1) eqn:Hd; [|done]. destruct Hn. apply Hkeys. eauto.
    - (* neighbours *)
      intros c dc n. rewrite lookup_insert. case_decide as Hcp.
      + intros [= <-] Hn Ho. subst c.
        destruct (Hv n (Hall n Hn Ho)) as [Hnv|Hnn].
        * destruct (Hseen n Hnv) as [[dn Hdn]|Hnq].
          -- exists dn. split.
             ++ left. rewrite lookup_insert_ne; [done|]. intros <-. congruence.
             ++ specialize (Hle n dn Hdn). lia.
          -- rewrite fmap_cons in Hnq. simpl in Hnq.
             apply elem_of_cons in Hnq as [->|Hnq].
             ++ exists dp. split; [left; by rewrite lookup_insert_eq|lia].
             ++ apply list_elem_of_fmap in Hnq as ([n' dn] & -> & He). simpl.
                exists dn. split; [right; apply elem_of_app; by left|].
                by destruct (Hqle _ He).
        * apply list_elem_of_fmap in Hnn as ([n' dn] & -> & He). simpl.
          exists dn. split; [right; apply elem_of_app; by right|].
          destruct (Hnew2 _ He) as [Hd _]. simpl in Hd. lia.
      + intros Hc Hn Ho. destruct (Hnb c dc n Hc Hn Ho) as (dn & [Hdn|Hdn] & Hle').
        * exists dn. split; [|done]. left. rewrite lookup_insert_ne; [done|]. intros <-.
          congruence.
        * apply elem_of_cons in Hdn as [[= -> ->]|Hdn].
          -- exists dp. split; [left; by rewrite lookup_insert_eq|done].
          -- exists dn. split; [right; apply elem_of_app; by left|done].
    - (* keys *)
      intros c. rewrite lookup_insert. case_decide; [intros _; subst; by apply Hsub|].
      intros Hc. by apply Hsub, Hkeys.
    - (* seen *)
      intros c Hc. rewrite lookup_insert. case_decide as Hcp; [left; eauto|].
      destruct (Hv c Hc) as [Hcv|Hcn].
      + destruct (Hseen c Hcv) as [?|Hcq]; [by left|right].
        rewrite fmap_cons in Hcq. simpl in Hcq.
        apply elem_of_cons in Hcq as [?|?]; [done|]. rewrite fmap_app, elem_of_app. by left.
      + right. rewrite fmap_app, elem_of_app. by right.
  Qed.

  (** When the search ends, the distances of two neighbouring cells differ
      by at most one step in the direction of the search, and every distance
      the state held is the final one. *)
Lemma bfs_distances_layers fuel queue visited ds ds' :
    bfs_distances fuel open queue visited ds = Some ds' →
    bfs_inv open queue visited ds →
    (∀ c dc n, ds' !! c = Some dc → Some n ∈ display_neighbours c → open n = true →
               ∃ dn, ds' !! n = Some dn ∧ (dn ≤ dc + 1)%Z) ∧
    (∀ c d, ds !! c = Some d ∨ (c, d) ∈ queue → ds' !! c = Some d).
  Proof.
    revert queue visited ds. induction fuel as [|fuel IH]; intros queue visited ds.
    - destruct queue as [|[p d] q]; [|done]. intros [= <-] Hinv. split.
      + intros c dc n Hc Hn Ho.
        destruct (bi_neighbours _ _ _ _ Hinv c dc n Hc Hn Ho) as (dn & [?|?%elem_of_nil] & ?);
          [eauto|done].
      + intros c d [?|?%elem_of_nil]; done.
    - destruct queue as [|[p dp] q].
      { intros [= <-] Hinv. split.
        + intros c dc n Hc Hn Ho.
          destruct (bi_neighbours _ _ _ _ Hinv c dc n Hc Hn Ho)
            as (dn & [?|?%elem_of_nil] & ?); [eauto|done].
        + intros c d [?|?%elem_of_nil]; done. }
      rewrite bfs_distances_S. intros Hrun Hinv.
      destruct (IH _ _ _ Hrun (bfs_inv_step p dp q visited ds Hinv)) as [H1 H2].
      split; [done|]. intros c d Hcd. apply H2.
      destruct (bi_queued _ _ _ _ Hinv) as [_ Hqd].
      assert (ds !! p = None) as Hp by (apply Hqd; left).
      destruct (bfs_visit_spec open (display_neighbours p) (dp + 1)%Z q visited)
        as (_ & _ & new & -> & _).
      destruct Hcd as [Hc|[[= -> ->]|Hc]%elem_of_cons].
      + left. rewrite lookup_insert_ne; [done|]. intros <-. congruence.
      + left. by rewrite lookup_insert_eq.
      + right. apply elem_of_app. by left.
  Qed.

  (** Every distance is the length of a walk of the search from the start. *)
Lemma bfs_distances_walks fuel queue visited ds ds' :
    bfs_distances fuel open queue visited ds = Some ds' →
    (∀ c d, ds !! c = Some d ∨ (c, d) ∈ queue →
            (0 ≤ d)%Z ∧ nsteps (cell_step open) (Z.to_nat d) start c) →
    ∀ c d, ds' !! c = Some d → (0 ≤ d)%Z ∧ nsteps (cell_step open) (Z.to_nat d) start c.
  Proof.
    revert queue visited ds. induction fuel as [|fuel IH]; intros queue visited ds.
    - destruct queue as [|[p d] q]; [|done]. intros [= <-] H c d Hc. apply H. by left.
    - destruct queue as [|[p dp] q]; [intros [= <-] H c d Hc; apply H; by left|].
      rewrite bfs_distances_S. intros Hrun H. apply (IH _ _ _ Hrun).
      destruct (bfs_visit_spec open (display_neighbours p) (dp + 1)%Z q visited)
        as (_ & _ & new & Hq' & _ & Hnew).
      destruct (bfs_visit_new (display_neighbours p) (dp + 1)%Z q visited)
        as (new' & Hq'' & _ & Hnew').
      assert (new' = new) as -> by (rewrite Hq' in Hq''; by apply app_inv_head in Hq'').
      rewrite Hq'. destruct (H p dp ltac:(right; left)) as [Hp0 Hpw].
      intros c d. rewrite lookup_insert. intros [Hc|[Hc|Hc]%elem_of_app].
      + case_decide; [simplify_eq; done|]. apply H. by left.
      + apply H. right. by right.
      + destruct (Hnew _ Hc) as (Hd & _ & Ho). destruct (Hnew' _ Hc) as (Hn & _).
        simpl in *. subst d. split; [lia|].
        rewrite Z2Nat.inj_add, Nat.add_1_r by lia. simpl.
        eapply nsteps_r; [exact Hpw|]. done.
  Qed.

  (** The search of [get_maze_with_distances] gives every cell it reaches
      the length of a shortest walk from the start. *)
Lemma bfs_distances_shortest fuel ds c d :
    bfs_distances fuel open [(start, 0%Z)] {[start]} ∅ = Some ds →
    ds !! c = Some d →
    (0 ≤ d)%Z ∧ nsteps (cell_step open) (Z.to_nat d) start c ∧
    ∀ n, nsteps (cell_step open) n start c → Z.to_nat d ≤ n.
  Proof.
    intros Hrun Hc.
    destruct (bfs_distances_walks _ _ _ _ _ Hrun) with (c := c) (d := d) as [H0 Hw]; [|done|].
    { intros c' d' [Hc'|[= -> ->]%list_elem_of_singleton].
      - by rewrite lookup_empty in Hc'.
      - split; [done|]. constructor. }
    split; [done|]. split; [done|].
    destruct (bfs_distances_layers _ _ _ _ _ Hrun bfs_inv_init) as [Hlay Hkeep].
    assert (∀ n c', nsteps (cell_step open) n start c' →
              ∃ d', ds !! c' = Some d' ∧ (d' ≤ Z.of_nat n)%Z) as Hmin.
    { induction n as [|n IH]; intros c' Hn.
      - inversion Hn; subst. exists 0%Z. split; [|done]. apply Hkeep. right. left.
      - apply nsteps_inv_r in Hn as (y & Hy & [Hnb Ho]).
        destruct (IH y Hy) as (dy & Hdy & Hle).
        destruct (Hlay y dy c' Hdy Hnb Ho) as (dn & Hdn & Hle'). exists dn.
        split; [done|lia]. }
    intros n Hn. destruct (Hmin n c Hn) as (d' & Hd' & Hle). simplify_eq. lia.
  Qed.
End Shortest.


(** ** Shortest walks in the distance export *)

(** X13. Every number of the distance export of a produced maze is the
    length of a shortest walk from the cell of ['S'] to the cell that holds
    the number, a walk going from a cell to one of its four neighbours that
    is a path of the list export: there is a walk of that many steps and
    none of fewer. *)
Theorem distance_export_shortest m fuel sym dist start c d :
  produced m →
  get_maze_as_list m = Exported sym → get_maze_with_distances fuel m = Exported dist →
  get_cell sym start = Some SymStart →
  get_cell dist c = Some (DNum d) →
  (0 ≤ d)%Z ∧
  nsteps (cell_step (path_open sym)) (Z.to_nat d) start c ∧
  ∀ n, nsteps (cell_step (path_open sym)) n start c → Z.to_nat d ≤ n.
Proof.
  intros Hm Hex Hdist Hs Hc.
  destruct (distance_export_parts m fuel sym dist Hm Hex Hdist)
    as (start' & ds & Hbfs & -> & HS & Hkeys).
  assert (start' = start) as -> by (symmetry; by apply HS).
  apply (bfs_distances_shortest (path_open sym) start fuel ds c d Hbfs).
  rewrite get_cell_fill_distances in Hc. unfold distance_cell in Hc.
  destruct (get_cell sym c) as [s|] eqn:Hsc; [|done]. simpl in Hc.
  destruct (ds !! c) as [d'|] eqn:Hd; [congruence|]. exfalso.
  assert (¬ is_Some (ds !! c)) as Hno by (rewrite Hd; by intros [? ?]).
  destruct s; simpl in Hc; try done.
  - apply Hno, Hkeys. by right.
  - apply Hno, Hkeys. left. by apply HS.
Qed.

Lemma distance_export_shortest_witness :
  (0 ≤ 4)%Z ∧
  nsteps (cell_step (path_open
    [[SymWall; SymWall; SymWall; SymWall; SymWall; SymStart; SymWall];
     [SymWall; SymPath; SymPath; SymPath; SymPath; SymPath; SymWall];
     [SymWall; SymWall; SymWall; SymPath; SymWall; SymWall; SymWall];
     [SymWall; SymPath; SymPath; SymPath; SymPath; SymPath; SymWall];
     [SymWall; SymEnd; SymWall; SymWall; SymWall; SymWall; SymWall]]))
    (Z.to_nat 4) (5, 0) (3, 2) ∧
  ∀ n, nsteps (cell_step (path_open
    [[SymWall; SymWall; SymWall; SymWall; SymWall; SymStart; SymWall];
     [SymWall; SymPath; SymPath; SymPath; SymPath; SymPath; SymWall];
     [SymWall; SymWall; SymWall; SymPath; SymWall; SymWall; SymWall];
     [SymWall; SymPath; SymPath; SymPath; SymPath; SymPath; SymWall];
     [SymWall; SymEnd; SymWall; SymWall; SymWall; SymWall; SymWall]]))
    n (5, 0) (3, 2) → Z.to_nat 4 ≤ n.
Proof.
  eapply (distance_export_shortest sample_formed 70 _ _ (5, 0) (3, 2) 4);
    [sample_is_produced|vm_compute; reflexivity..].
Defined.


(** ** The distances of the detailed export *)

Section Stored.
Variable open : pos → bool.

Lemma bfs_visit_info_dists cands d queue visited dists :
    ∃ new, (bfs_visit open cands d queue visited).1 = queue ++ new ∧
      ∀ c x, (bfs_visit_info open cands d queue visited dists).2 !! c = Some x ↔
             (c, x) ∈ new ∨ (c ∉ new.*1 ∧ dists !! c = Some x).
  Proof.
    revert queue visited dists.
    induction cands as [|[c|] rest IH]; intros queue visited dists;
      cbn [bfs_visit bfs_visit_info].
    - exists []. rewrite app_nil_r. split; [done|]. intros c x. simpl. split.
      + intros ?. right. split; [by intros ?%elem_of_nil|done].
      + intros [?%elem_of_nil|[_ ?]]; done.
    - destruct (open c && bool_decide (c ∉ visited)) eqn:Hc.
      + apply andb_true_iff in Hc as [Ho Hc]. apply bool_decide_eq_true in Hc.
        destruct (IH (queue ++ [(c, d)]) ({[c]} ∪ visited) (<[c := d]> dists))
          as (new & H1 & H2).
        destruct (bfs_visit_new open rest d (queue ++ [(c, d)]) ({[c]} ∪ visited))
          as (new' & H1' & _ & H3).
        assert (new' = new) as -> by (rewrite H1 in H1'; by apply app_inv_head in H1').
        assert (c ∉ new.*1) as Hcn.
        { intros (e & -> & He)%list_elem_of_fmap. destruct (H3 e He) as (_ & _ & Hn).
          apply Hn. set_solver. }
        exists ((c, d) :: new). rewrite H1, <- app_assoc. split; [done|].
        intros c' x. rewrite H2, lookup_insert, fmap_cons, not_elem_of_cons, elem_of_cons.
        simpl. case_decide as Hcc.
        * subst c'. split.
          -- intros [?|[_ [= <-]]]; [by left; right|by left; left].
          -- intros [[[= <-]|?]|[[? _] _]]; [right; done|by left|done].
        * split.
          -- intros [?|[? ?]]; [by left; right|right; done].
          -- intros [[[= ? ?]|?]|[[? ?] ?]]; [congruence|by left|by right].
      + apply IH.
    - apply IH.
  Qed.

  (** Run from matching states, the two searches return the same
      distances. *)
Lemma bfs_info_as_distances fuel queue visited ds dists :
    bfs_inv open queue visited ds → stored dists ds queue →
    bfs_info fuel open queue visited dists = bfs_distances fuel open queue visited ds.
  Proof.
    revert queue visited ds dists.
    induction fuel as [|fuel IH]; intros queue visited ds dists Hinv Hst.
    - destruct queue as [|[p d] q]; [|done]. simpl. f_equal. apply map_eq. intros c.
      apply option_eq. intros d. rewrite (Hst c d). split; [intros [?|?%elem_of_nil]|]; by auto.
    - destruct queue as [|[p dp] q].
      { simpl. f_equal. apply map_eq. intros c.
        apply option_eq. intros d. rewrite (Hst c d).
        split; [intros [?|?%elem_of_nil]|]; by auto. }
      rewrite bfs_distances_S. cbn [bfs_info].
      pose proof (bfs_visit_info_fst open (display_neighbours p) (dp + 1)%Z q visited dists)
        as Hfst.
      destruct (bfs_visit_info_dists (display_neighbours p) (dp + 1)%Z q visited dists)
        as (new & Hq & Hd).
      destruct (bfs_visit_new open (display_neighbours p) (dp + 1)%Z q visited)
        as (new' & Hq' & _ & Hnew).
      assert (new' = new) as -> by (rewrite Hq in Hq'; by apply app_inv_head in Hq').
      pose proof (bfs_inv_step open p dp q visited ds Hinv) as Hinv'.
      destruct (bfs_visit_info open _ _ q visited dists) as [[q' v'] dists'].
      cbn [fst snd] in *. rewrite <- Hfst. cbn [fst snd].
      rewrite <- Hfst in Hinv'. cbn [fst snd] in Hinv'.
      apply IH; [done|].
      assert (q' = q ++ new) as -> by (by rewrite <- Hq, <- Hfst).
      destruct (bi_queued _ _ _ _ Hinv) as [_ Hqd].
      assert (ds !! p = None) as Hp by (apply Hqd; left).
      assert (∀ c, c ∈ new.*1 → c ∉ visited) as Hfresh.
      { intros c (e & -> & He)%list_elem_of_fmap. by destruct (Hnew e He) as (_ & _ & ?). }
      assert (∀ c x, dists !! c = Some x → c ∈ visited) as Hvis.
      { intros c x [Hc|Hc]%Hst.
        - apply (bi_keys _ _ _ _ Hinv). eauto.
        - apply Hqd. apply list_elem_of_fmap. by exists (c, x). }
      intros c x. rewrite Hd, lookup_insert, elem_of_app. rewrite (Hst c x), elem_of_cons.
      split.
      + intros [?|[Hn [Hc|[[= -> ->]|Hc]]]].
        * right; by right.
        * left. case_decide; [congruence|done].
        * left. by rewrite decide_True.
        * right; by left.
      + intros [Hc|[Hc|Hc]]; [|right|by left].
        * case_decide as Hcp.
          -- simplify_eq. right. split; [|right; by left].
             intros Hn. apply (Hfresh _ Hn). apply Hqd. left.
          -- right. split; [|by left]. intros Hn. apply (Hfresh _ Hn).
             apply (bi_keys _ _ _ _ Hinv). eauto.
        * split; [|right; by right]. intros Hn. apply (Hfresh _ Hn). apply Hqd. right.
          apply list_elem_of_fmap. by exists (c, x).
  Qed.

Lemma bfs_info_from_start start fuel :
    bfs_info fuel open [(start, 0%Z)] {[start]} {[start := 0%Z]} =
    bfs_distances fuel open [(start, 0%Z)] {[start]} ∅.
  Proof.
    apply bfs_info_as_distances; [apply bfs_inv_init|].
    intros c d. rewrite lookup_singleton_Some, lookup_empty, list_elem_of_singleton.
    split; [intros [<- <-]; by right|intros [?|[= -> ->]]; done].
  Qed.
End Stored.

Lemma unfilled_set_index gi c s gi' :
  unfilled gi → set_index gi c s = Some gi' → unfilled gi'.
Proof.
  intros Hu (cell & Hc & Hget & _)%set_index_Some q i. rewrite Hget.
  case_decide; [|apply Hu]. intros [= <-]. simpl. by rewrite (Hu _ _ Hc).
Qed.

Lemma detail_conns_parts sx sy t ds gi spi gi' spi' :
  unfilled gi → detail_conns sx sy t ds gi spi = Some (gi', spi') →
  unfilled gi' ∧
  (spi' = spi ∨
   ∃ d, d ∈ ds ∧ outward_conn sx sy t d = true ∧ is_entry t = Some true ∧
        spi' = Some (toward d (display_of t))).
Proof.
  revert gi spi. induction ds as [|d ds IH]; intros gi spi Hu Hrun.
  { simpl in Hrun. simplify_eq. split; [done|by left]. }
  assert (∀ gi1, unfilled gi1 → detail_conns sx sy t ds gi1 spi = Some (gi', spi') →
    unfilled gi' ∧
    (spi' = spi ∨
     ∃ d', d' ∈ d :: ds ∧ outward_conn sx sy t d' = true ∧ is_entry t = Some true ∧
          spi' = Some (toward d' (display_of t)))) as Hkeep.
  { intros gi1 Hu1 Hrest. destruct (IH gi1 spi Hu1 Hrest) as [Hu' [->|(d' & Hd' & H)]].
    - split; [done|by left].
    - split; [done|right]. exists d'. split; [by right|done]. }
  cbn [detail_conns] in Hrun. cbv zeta in Hrun.
  destruct (negb _); [by apply (Hkeep gi)|].
  destruct (outward_conn sx sy t d) eqn:Hout.
  - destruct (is_entry t) as [[|]|] eqn:He.
    + destruct (set_index gi _ _) as [gi1|] eqn:Hset; [|done]. simpl in Hrun.
      pose proof (unfilled_set_index _ _ _ _ Hu Hset) as Hu1.
      destruct spi as [s|]; [by apply (Hkeep gi1)|].
      destruct (IH gi1 _ Hu1 Hrun) as [Hu' [->|(d' & Hd' & H)]].
      * split; [done|right]. exists d. split; [left|done].
      * split; [done|right]. exists d'. split; [by right|done].
    + destruct (set_index gi _ _) as [gi1|] eqn:Hset; [|done]. simpl in Hrun.
      apply (Hkeep gi1); [|done]. by eapply unfilled_set_index.
    + destruct (set_index gi _ _) as [gi1|] eqn:Hset; [|done]. simpl in Hrun.
      apply (Hkeep gi1); [|done]. by eapply unfilled_set_index.
  - destruct (get_cell gi _) as [cell|]; [|done]. case_bool_decide.
    + destruct (set_index gi _ _) as [gi1|] eqn:Hset; [|done]. simpl in Hrun.
      apply (Hkeep gi1); [|done]. by eapply unfilled_set_index.
    + by apply (Hkeep gi).
Qed.

Lemma detail_tiles_parts sx sy tiles gi spi gi' spi' :
  unfilled gi → detail_tiles sx sy tiles gi spi = Some (gi', spi') →
  unfilled gi' ∧
  (spi' = spi ∨
   ∃ t d, t ∈ tiles ∧ d ∈ connectTo t ∧ outward_conn sx sy t d = true ∧
          is_entry t = Some true ∧ spi' = Some (toward d (display_of t))).
Proof.
  revert gi spi. induction tiles as [|t tiles IH]; intros gi spi Hu Hrun.
  { simpl in Hrun. simplify_eq. split; [done|by left]. }
  cbn [detail_tiles] in Hrun.
  destruct (set_index gi _ _) as [gi1|] eqn:Hset; [|done]. simpl in Hrun.
  destruct (detail_conns sx sy t (connectTo t) gi1 spi) as [[gi2 sp2]|] eqn:Hdc; [|done].
  simpl in Hrun.
  destruct (detail_conns_parts _ _ _ _ _ _ _ _ (unfilled_set_index _ _ _ _ Hu Hset) Hdc)
    as [Hu2 Hsp2].
  destruct (IH gi2 sp2 Hu2 Hrun) as [Hu' [->|(t' & d' & Ht' & H)]].
  - split; [done|]. destruct Hsp2 as [->|(d & Hd & H)]; [by left|right].
    exists t, d. split; [left|done].
  - split; [done|right]. exists t', d'. split; [by right|done].
Qed.

Lemma unfilled_fresh_grid rows cols : unfilled (fresh_grid rows cols wall_info).
Proof. intros c i. rewrite get_cell_fresh_grid. case_decide; [|done]. by intros [= <-]. Qed.

Lemma scan_start_index gi s :
  scan_start gi = Some s → index <$> get_cell gi s = Some SymStart.
Proof.
  unfold scan_start. intros Hs.
  assert (s ∈ concat (imap (λ r row,
    omap (λ '(c, cell), if bool_decide (index cell = SymStart) then Some (c, r) else None)
         (imap (λ c cell, (c, cell)) row)) gi)) as Hin.
  { destruct (concat _) as [|s' l]; [done|]. simpl in Hs. simplify_eq. left. }
  apply elem_of_concat_rows in Hin as (l & Hl & Hin).
  apply list_elem_of_lookup in Hl as [r Hr]. rewrite list_lookup_imap in Hr.
  destruct (gi !! r) as [row|] eqn:Hrow; [|done]. simpl in Hr. simplify_eq.
  apply list_elem_of_omap in Hin as ([c cell] & Hin & Hc).
  apply list_elem_of_lookup in Hin as [c' Hc']. rewrite list_lookup_imap in Hc'.
  destruct (row !! c') as [cell'|] eqn:Hcell; [|done]. simpl in Hc'. simplify_eq.
  case_bool_decide as Hi; [|done]. simplify_eq. unfold get_cell. simpl.
  rewrite Hrow. simpl. rewrite Hcell. simpl. by rewrite Hi.
Qed.

Lemma exit_open_true rows cols gi c :
  rect rows cols gi →
  exit_open gi c = true ↔
  ∃ i, get_cell gi c = Some i ∧ (index i = SymPath ∨ index i = SymEnd).
Proof.
  intros Hr. unfold exit_open, in_grid_and.
  rewrite andb_true_iff, bool_decide_eq_true. split.
  - intros [_ Hc]. destruct (get_cell gi c) as [i|]; [|done]. exists i. split; [done|].
    apply orb_true_iff in Hc as [Hc|Hc]; apply bool_decide_eq_true in Hc; auto.
  - intros (i & Hc & Hi). rewrite Hc. split.
    + assert (c.1 < cols ∧ c.2 < rows) as [Hx Hy] by (apply (get_cell_rect _ _ gi c Hr); eauto).
      destruct Hr as [Hlen Hall]. destruct gi as [|row gi]; [simpl in Hlen; lia|]. simpl.
      apply Forall_cons in Hall as [-> _]. done.
    + apply orb_true_iff. destruct Hi as [Hi|Hi]; [left|right]; by apply bool_decide_eq_true.
Qed.

Lemma exit_open_fill_info gi ds c : exit_open (fill_info gi ds) c = exit_open gi c.
Proof.
  unfold exit_open, in_grid_and. f_equal.
  - unfold fill_info. destruct gi as [|row gi]; [done|]. simpl. by rewrite length_imap.
  - pose proof (fill_info_index gi ds c) as Hi.
    destruct (get_cell (fill_info gi ds) c), (get_cell gi c); simpl in Hi; try done.
    injection Hi as ->. done.
Qed.

Lemma get_cell_fill_info gi ds c i :
  unfilled gi → get_cell (fill_info gi ds) c = Some i →
  ∃ i0, get_cell gi c = Some i0 ∧ index i = index i0 ∧
    distance i = match ds !! c with
                 | Some d => Some d
                 | None => if bool_decide (index i0 = SymPath) then Some (-1)%Z else None
                 end.
Proof.
  intros Hu. unfold fill_info.
  rewrite (get_cell_imap (λ c_idx r_idx cell, mkInfo (index cell) _ _ _ _ _)).
  destruct (get_cell gi c) as [i0|] eqn:Hc; [|done]. intros [= <-]. exists i0. simpl.
  do 2 (split; [done|]). replace (c.1, c.2) with c by (by destruct c).
  by rewrite (Hu _ _ Hc).
Qed.

(** The parts of the detailed export of a produced maze: the grid of
    indices, the start the search leaves from and the distances it
    returns, which are those of the search of [get_maze_with_distances] run
    on the cells with index [' '] or ['E']. *)
Lemma detailed_export_parts m fuel sym info :
  produced m →
  get_maze_as_list m = Exported sym → get_maze_detailed_info fuel m = Exported info →
  ∃ start gi ds,
    rect (sizeY m * 2 + 1) (sizeX m * 2 + 1) gi ∧ unfilled gi ∧ same_index sym gi ∧
    (∀ c, get_cell sym c = Some SymStart ↔ c = start) ∧
    bfs_distances fuel (exit_open gi) [(start, 0%Z)] {[start]} ∅ = Some ds ∧
    info = fill_info gi ds.
Proof.
  intros Hm Hex Hinfo.
  destruct (produced_ok m Hm) as (_ & Hsx & Hsy & (Hwf & _) & _).
  destruct (list_export_ends m sym Hm Hex) as (e & x & He & Hx & Hdiff & _ & _ & HS & HE & _).
  pose proof (produced_openings_have_roles m Hm) as Hall.
  unfold get_maze_as_list, get_maze_detailed_info in Hex, Hinfo.
  destruct (mazeIsDone m); [|done]. cbn [negb] in Hex, Hinfo.
  destruct (mark_tiles _ _ None) as [[gs sp]|] eqn:Hmark; [|done]. injection Hex as ->.
  destruct (detail_tiles _ _ _ _ None) as [[gi found]|] eqn:Hdet; [|done].
  destruct (detail_tiles_total (sizeX m) (sizeY m) (concat (mazeList m))
              (fresh_grid (sizeY m * 2 + 1) (sizeX m * 2 + 1) wall_info) None)
    as (gi' & sp' & Hdet' & Hr & _); [by apply concat_placed|apply rect_fresh_grid|done|].
  rewrite Hdet in Hdet'. symmetry in Hdet'. simplify_eq.
  destruct (detail_tiles_parts _ _ _ _ _ _ _ (unfilled_fresh_grid _ _) Hdet) as [Hu Hfound].
  assert (same_index sym gi) as Hsame.
  { eapply (tiles_same_index (sizeX m) (sizeY m) (concat (mazeList m))
              (fresh_grid (sizeY m * 2 + 1) (sizeX m * 2 + 1) SymWall) None
              (fresh_grid (sizeY m * 2 + 1) (sizeX m * 2 + 1) wall_info) None);
      [done|done|done| | | | |exact Hmark|exact Hdet].
    - apply rect_fresh_grid.
    - apply rect_fresh_grid.
    - intros q. rewrite !get_cell_fresh_grid. by case_decide.
    - intros q s. rewrite get_cell_fresh_grid. case_decide; [|done]. intros [= <-].
      naive_solver. }
  set (start := toward (outward_dir (sizeY m) e) (centre e)) in *.
  destruct (match found with Some s => Some s | None => scan_start gi end) as [start'|] eqn:Hst;
    [|done].
  assert (start' = start) as ->.
  { destruct Hfound as [->|(t & d & Ht & Hd & Hout & Hent & ->)].
    - apply scan_start_index in Hst. rewrite (Hsame start') in Hst. by apply HS.
    - injection Hst as <-.
      apply elem_of_concat_tile in Ht as (p & Ht).
      assert (in_grid (sizeX m) (sizeY m) p) as Hp by (apply (tile_at_in_grid _ _ (mazeList m)); eauto).
      destruct (deref_in_grid _ _ _ _ Hwf Hp) as (Ht' & _).
      assert (t = deref (mazeList m) p) as -> by congruence.
      apply outward_conn_true in Hout as [_ Hl].
      assert (placed (sizeX m) (sizeY m) (deref (mazeList m) p)) as Hpl.
      { eapply Forall_forall; [by apply concat_placed|]. apply elem_of_concat_tile. eauto. }
      apply (border_leaves _ _ _ _ Hsx Hsy Hpl) in Hl.
      rewrite (display_of_centre (sizeX m) (sizeY m)) in * by done.
      apply (border_toward _ _ _ _ Hsx Hsy Hp) in Hl.
      assert (role (mazeList m) p = Some true) as Hrole by (unfold role; by rewrite Ht').
      assert (p = e) as -> by (by eapply produced_entry_unique).
      unfold start. f_equal. apply produced_entry_opening; try done.
      unfold conns. by rewrite Ht'. }
  fold (exit_open gi) in Hinfo.
  rewrite bfs_info_from_start in Hinfo.
  destruct (bfs_distances fuel (exit_open gi) _ _ _) as [ds|] eqn:Hbfs; [|done].
  injection Hinfo as <-. exists start, gi, ds. done.
Qed.

Lemma nsteps_cell_step_ext open1 open2 n a b :
  (∀ c, open1 c = open2 c) →
  nsteps (cell_step open1) n a b → nsteps (cell_step open2) n a b.
Proof.
  intros Hext. induction 1 as [|n a b c [Hn Ho] _ IH]; [constructor|].
  econstructor; [|exact IH]. split; [done|]. by rewrite <- Hext.
Qed.

Lemma list_export_exists m fuel info :
  produced m → get_maze_detailed_info fuel m = Exported info →
  ∃ sym, get_maze_as_list m = Exported sym.
Proof.
  intros Hm. destruct (produced_ok m Hm) as (_ & Hsx & Hsy & (Hwf & _) & _).
  unfold get_maze_detailed_info, get_maze_as_list.
  destruct (mazeIsDone m); [|done]. cbn [negb]. intros _.
  destruct (mark_tiles_total (sizeX m) (sizeY m) (concat (mazeList m))
              (fresh_grid (sizeY m * 2 + 1) (sizeX m * 2 + 1) SymWall) None)
    as (gs & sp & -> & _); [by apply concat_placed|apply rect_fresh_grid|done|]. eauto.
Qed.

(** The cells the search of the detailed export gives a distance: the
    start, the paths and the end. *)
Lemma detailed_export_keys m sym gi start fuel ds :
  produced m → get_maze_as_list m = Exported sym →
  rect (sizeY m * 2 + 1) (sizeX m * 2 + 1) gi → same_index sym gi →
  (∀ c, get_cell sym c = Some SymStart ↔ c = start) →
  bfs_distances fuel (exit_open gi) [(start, 0%Z)] {[start]} ∅ = Some ds →
  ∀ c, is_Some (ds !! c) ↔
       ∃ s, get_cell sym c = Some s ∧ s ≠ SymWall.
Proof.
  intros Hm Hex Hr Hsame HS Hbfs c.
  destruct (produced_ok m Hm) as (_ & Hsx & Hsy & (Hwf & _) & _).
  destruct (list_export_ends m sym Hm Hex) as (e & x & He & Hx & _ & _ & _ & HS' & HE & _).
  destruct (list_export_picture m sym Hm Hex) as (Hcentre & _).
  assert (start = toward (outward_dir (sizeY m) e) (centre e)) as Hstart.
  { symmetry. apply HS. by apply HS'. }
  assert (∀ q, exit_open gi q = true ↔
               get_cell sym q = Some SymPath ∨ get_cell sym q = Some SymEnd) as Hopen.
  { intros q. rewrite (exit_open_true _ _ _ _ Hr). rewrite <- (Hsame q). split.
    - intros (i & -> & [Hi|Hi]); simpl; rewrite Hi; auto.
    - intros [Hq|Hq]; (destruct (get_cell gi q) as [i|]; [|done]);
        simpl in Hq; injection Hq as Hq; eauto. }
  assert (∀ q, get_cell sym q = Some SymPath → rtc (cell_step (exit_open gi)) start q) as Hpath.
  { intros q Hq. rewrite Hstart.
    eapply (rtc_subrel (cell_step (path_open sym))); [|by apply produced_paths_reached].
    intros a b [Hn Ho]. split; [done|]. apply Hopen. left.
    destruct (get_maze_as_list_cells m sym Hsx Hsy Hwf Hex) as [Hrs _].
    by apply (path_open_true _ _ _ _ Hrs). }
  split.
  - intros Hc.
    assert (c = start ∨ exit_open gi c = true) as [->|Ho].
    { eapply (bfs_distances_keys (λ c, c = start ∨ exit_open gi c = true));
        [| | |exact Hbfs|exact Hc].
      - by right.
      - apply Forall_singleton. by left.
      - intros p [? Hp]. by rewrite lookup_empty in Hp. }
    + exists SymStart. split; [by apply HS|done].
    + apply Hopen in Ho as [Ho|Ho]; eauto.
  - intros (s & Hs & Hw).
    apply (bfs_distances_reach (exit_open gi) start fuel ds c Hbfs).
    destruct s; [done| | |].
    + by apply Hpath.
    + apply HS in Hs as ->. constructor.
    + pose proof Hs as Hs'. apply HE in Hs as ->.
      assert (in_grid (sizeX m) (sizeY m) x) as Hxin.
      { destruct (decide (in_grid (sizeX m) (sizeY m) x)) as [?|Hno]; [done|].
        unfold role in Hx. destruct (tile_at (mazeList m) x) eqn:Ht; [|done].
        exfalso. apply Hno. apply (tile_at_in_grid _ _ (mazeList m)); eauto. }
      eapply rtc_r; [apply (Hpath (centre x)); by apply Hcentre|].
      split; [apply passage_next_to_centre|]. apply Hopen. by right.
Qed.

(** X14. In the detailed export of a produced maze every wall cell has the
    distance [None], and every other cell (the start, the paths and the
    end) has the length of a shortest walk to it from the cell with index
    ['S'], a walk going from a cell to one of its four neighbours whose
    index is [' '] or ['E']: no cell is left at [-1]. *)
Theorem detailed_distances_shortest m fuel info start s c i :
  produced m → get_maze_detailed_info fuel m = Exported info →
  get_cell info start = Some s → index s = SymStart →
  get_cell info c = Some i →
  (index i = SymWall → distance i = None) ∧
  (index i ≠ SymWall →
   ∃ d, distance i = Some d ∧ (0 ≤ d)%Z ∧
     nsteps (cell_step (exit_open info)) (Z.to_nat d) start c ∧
     ∀ n, nsteps (cell_step (exit_open info)) n start c → Z.to_nat d ≤ n).
Proof.
  intros Hm Hinfo Hs Hsi Hc.
  destruct (list_export_exists m fuel info Hm Hinfo) as [sym Hex].
  destruct (detailed_export_parts m fuel sym info Hm Hex Hinfo)
    as (start' & gi & ds & Hr & Hu & Hsame & HS & Hbfs & ->).
  pose proof (detailed_export_keys m sym gi start' fuel ds Hm Hex Hr Hsame HS Hbfs) as Hkeys.
  assert (start' = start) as ->.
  { symmetry. apply HS. rewrite <- (Hsame start), <- (fill_info_index gi ds start), Hs.
    simpl. by rewrite Hsi. }
  destruct (get_cell_fill_info gi ds c i Hu Hc) as (i0 & Hc0 & Hi & Hd).
  assert (get_cell sym c = Some (index i)) as Hsym.
  { rewrite <- (Hsame c), Hc0. simpl. by rewrite Hi. }
  split.
  - intros Hw. rewrite Hd.
    destruct (ds !! c) as [d|] eqn:Hdc.
    + exfalso. destruct (proj1 (Hkeys c)) as (s' & Hs' & Hne); [eauto|]. congruence.
    + rewrite bool_decide_eq_false_2; [done|congruence].
  - intros Hw. destruct (proj2 (Hkeys c)) as [d Hdc]; [eauto|].
    exists d. rewrite Hd, Hdc. split; [done|].
    destruct (bfs_distances_shortest (exit_open gi) start fuel ds c d Hbfs Hdc)
      as (H0 & Hwalk & Hmin).
    split; [done|]. split.
    + eapply nsteps_cell_step_ext; [|exact Hwalk]. intros q.
      by rewrite exit_open_fill_info.
    + intros n Hn. apply Hmin. eapply nsteps_cell_step_ext; [|exact Hn].
      intros q. apply exit_open_fill_info.
Qed.

Lemma detailed_distances_shortest_witness :
  ∃ info i,
    (index i = SymWall → distance i = None) ∧
    (index i ≠ SymWall →
     ∃ d, distance i = Some d ∧ (0 ≤ d)%Z ∧
       nsteps (cell_step (exit_open info)) (Z.to_nat d) (5, 0) (1, 4) ∧
       ∀ n, nsteps (cell_step (exit_open info)) n (5, 0) (1, 4) → Z.to_nat d ≤ n).
Proof.
  eexists _, _.
  eapply (detailed_distances_shortest sample_formed 70 _ (5, 0) _ (1, 4) _);
    [sample_is_produced|vm_compute; reflexivity..].
Defined.


(** ** The flags of the detailed export *)

Lemma detail_conns_rect rows cols sx sy t ds gi spi gi' spi' :
  rect rows cols gi → detail_conns sx sy t ds gi spi = Some (gi', spi') → rect rows cols gi'.
Proof.
  revert gi spi. induction ds as [|d ds IH]; intros gi spi Hr Hrun.
  { simpl in Hrun. by simplify_eq. }
  cbn [detail_conns] in Hrun. cbv zeta in Hrun.
  destruct (negb _); [by eapply IH|].
  destruct (outward_conn sx sy t d).
  - destruct (is_entry t) as [[|]|];
      (destruct (set_index gi _ _) as [gi1|] eqn:Hset; [|done]); simpl in Hrun;
      apply set_index_Some in Hset as (cell & _ & _ & Hr1);
      (eapply IH; [apply Hr1, Hr|exact Hrun]).
  - destruct (get_cell gi _) as [cell|]; [|done]. case_bool_decide; [|by eapply IH].
    destruct (set_index gi _ _) as [gi1|] eqn:Hset; [|done]. simpl in Hrun.
    apply set_index_Some in Hset as (cell' & _ & _ & Hr1).
    eapply IH; [apply Hr1, Hr|exact Hrun].
Qed.

Lemma detail_tiles_rect rows cols sx sy tiles gi spi gi' spi' :
  rect rows cols gi → detail_tiles sx sy tiles gi spi = Some (gi', spi') → rect rows cols gi'.
Proof.
  revert gi spi. induction tiles as [|t tiles IH]; intros gi spi Hr Hrun.
  { simpl in Hrun. by simplify_eq. }
  cbn [detail_tiles] in Hrun.
  destruct (set_index gi _ _) as [gi1|] eqn:Hset; [|done]. simpl in Hrun.
  destruct (detail_conns sx sy t (connectTo t) gi1 spi) as [[gi2 sp2]|] eqn:Hdc; [|done].
  simpl in Hrun. apply set_index_Some in Hset as (cell & _ & _ & Hr1).
  eapply IH; [|exact Hrun]. eapply detail_conns_rect; [apply Hr1, Hr|exact Hdc].
Qed.

Lemma is_path_index_fill_info gi ds q :
  is_path_index (fill_info gi ds) q = is_path_index gi q.
Proof.
  unfold is_path_index. pose proof (fill_info_index gi ds q) as Hi.
  destruct (get_cell (fill_info gi ds) q), (get_cell gi q); simpl in Hi; try done.
  injection Hi as ->. done.
Qed.

Lemma is_path_index_bounds rows cols gi q :
  rect rows cols gi → is_path_index gi q = true → q.1 < cols ∧ q.2 < rows.
Proof.
  intros Hr. unfold is_path_index. destruct (get_cell gi q) eqn:Hq; [|done]. intros _.
  apply (get_cell_rect _ _ gi q Hr). eauto.
Qed.

(** X15. In the detailed export the four flags of every cell, the wall cells
    included, tell whether the cell next to it on that side lies in the
    grid and has an index other than ['#']. *)
Theorem detailed_flags_show_neighbours m fuel info c i :
  get_maze_detailed_info fuel m = Exported info → get_cell info c = Some i →
  info_N i = bool_decide (0 < c.2) && is_path_index info (c.1, c.2 - 1) ∧
  info_S i = is_path_index info (c.1, c.2 + 1) ∧
  info_W i = bool_decide (0 < c.1) && is_path_index info (c.1 - 1, c.2) ∧
  info_E i = is_path_index info (c.1 + 1, c.2).
Proof.
  unfold get_maze_detailed_info. destruct (negb _); [done|].
  destruct (detail_tiles _ _ _ _ None) as [[gi found]|] eqn:Hdet; [|done].
  destruct (match found with Some s => Some s | None => scan_start gi end); [|done].
  destruct (bfs_info _ _ _ _ _) as [ds|]; [|done]. intros [= <-].
  destruct (detail_tiles_parts _ _ _ _ _ _ _ (unfilled_fresh_grid _ _) Hdet) as [Hu _].
  pose proof (detail_tiles_rect _ _ _ _ _ _ _ _ _ (rect_fresh_grid _ _ wall_info) Hdet) as Hr.
  rewrite !is_path_index_fill_info. unfold fill_info.
  rewrite (get_cell_imap (λ c_idx r_idx cell, mkInfo (index cell) _ _ _ _ _)).
  destruct (get_cell gi c) as [i0|] eqn:Hc; [|done]. intros [= <-]. simpl.
  rewrite (Hu _ _ Hc). simpl.
  assert (length gi = sizeY m * 2 + 1) as Hrows by apply Hr.
  assert (length (default [] (gi !! 0)) = sizeX m * 2 + 1) as Hcols.
  { destruct Hr as [Hlen Hall]. destruct gi as [|row gi]; [simpl in Hlen; lia|]. simpl.
    by apply Forall_cons in Hall as [-> _]. }
  rewrite Hrows, Hcols.
  split; [by destruct (_ && _)|]. split; [|split; [by destruct (_ && _)|]].
  - destruct (is_path_index gi (c.1, c.2 + 1)) eqn:Hp; [|by rewrite andb_false_r].
    apply (is_path_index_bounds _ _ _ _ Hr) in Hp. simpl in Hp.
    rewrite bool_decide_eq_true_2 by lia. done.
  - destruct (is_path_index gi (c.1 + 1, c.2)) eqn:Hp; [|by rewrite andb_false_r].
    apply (is_path_index_bounds _ _ _ _ Hr) in Hp. simpl in Hp.
    rewrite bool_decide_eq_true_2 by lia. done.
Qed.

Lemma detailed_flags_show_neighbours_witness :
  ∃ info i,
    info_N i = bool_decide (0 < (3, 0).2) && is_path_index info ((3, 0).1, (3, 0).2 - 1) ∧
    info_S i = is_path_index info ((3, 0).1, (3, 0).2 + 1) ∧
    info_W i = bool_decide (0 < (3, 0).1) && is_path_index info ((3, 0).1 - 1, (3, 0).2) ∧
    info_E i = is_path_index info ((3, 0).1 + 1, (3, 0).2).
Proof.
  eexists _, _.
  eapply (detailed_flags_show_neighbours sample_formed 70 _ (3, 0) _);
    vm_compute; reflexivity.
Defined.


(** ** The two distance searches agree *)

Lemma beside_cases a b :
  beside a b →
  b = (a.1, a.2 + 1) ∨ b = (a.1 + 1, a.2) ∨
  (a.2 ≠ 0 ∧ b = (a.1, a.2 - 1)) ∨ (a.1 ≠ 0 ∧ b = (a.1 - 1, a.2)).
Proof.
  destruct a as [ax ay], b as [bx b_y]. unfold beside, display_neighbours. simpl.
  rewrite !elem_of_cons, !elem_of_nil.
  intros [H|H]; repeat case_match; eqb_hyps;
    repeat match goal with H : _ ∨ _ |- _ => destruct H as [H|H] end;
    simplify_eq; try done.
  all: try (right; right; left; split; [lia|f_equal; lia]).
  all: try (right; right; right; split; [lia|f_equal; lia]).
  all: try (left; f_equal; lia).
  all: try (right; left; f_equal; lia).
  all: auto.
Qed.

(** Around an opening in the outer ring: the cell of the tile behind it,
    two corners of tiles, and nothing on the far side. *)
Lemma beside_border_opening sx sy p d q :
  in_grid sx sy p → border (sy * 2 + 1) (sx * 2 + 1) (toward d (centre p)) = true →
  beside (toward d (centre p)) q →
  q = centre p ∨ (∃ x y, x ≤ sx ∧ y ≤ sy ∧ q = (2 * x, 2 * y)) ∨
  ¬ (q.1 < sx * 2 + 1 ∧ q.2 < sy * 2 + 1).
Proof.
  intros [Hx Hy] Hb Hq. apply beside_cases in Hq.
  destruct p as [px py]. unfold border, centre in *. simpl in *.
  rewrite !orb_true_iff, !Nat.eqb_eq in Hb.
  destruct d; simpl in *;
    destruct Hq as [->|[->|[[Hne ->]|[Hne ->]]]]; simpl;
    first
      [ left; f_equal; lia
      | exfalso; lia
      | right; right; lia
      | right; left; exists px, py; split; [lia|split; [lia|f_equal; lia]]
      | right; left; exists (px + 1), py; split; [lia|split; [lia|f_equal; lia]]
      | right; left; exists px, (py + 1); split; [lia|split; [lia|f_equal; lia]]
      | right; left; exists (px + 1), (py + 1); split; [lia|split; [lia|f_equal; lia]] ].
Qed.

Section Detour.
  Variables (open1 open2 : pos → bool) (start x_end : pos).
Hypothesis Hopen : ∀ q, open2 q = true → q ≠ x_end → open1 q = true.
Hypothesis Hends : start ≠ x_end.
Hypothesis Hdead : ∀ a b,
    a = start ∨ open2 a = true → Some x_end ∈ display_neighbours a →
    Some b ∈ display_neighbours x_end → open2 b = true → a = b.

Lemma walk_end n a : nsteps (cell_step open2) n start a → a = start ∨ open2 a = true.
  Proof.
    destruct n as [|n]; [inversion 1; by left|].
    intros (b & _ & _ & Ho)%nsteps_inv_r. by right.
  Qed.

  (** A walk that may pass through the dead end [x_end] is no shorter than
      the walks that may not. *)
Lemma walk_without_detour n c :
    nsteps (cell_step open2) n start c → c ≠ x_end →
    ∃ k, k ≤ n ∧ nsteps (cell_step open1) k start c.
  Proof using Hopen Hends Hdead.
    revert c. induction n as [n IH] using lt_wf_ind. intros c Hwalk Hc.
    destruct n as [|n].
    { inversion Hwalk; subst. exists 0. split; [done|constructor]. }
    apply nsteps_inv_r in Hwalk as (b & Hb & Hn & Ho).
    destruct (decide (b = x_end)) as [->|Hbe].
    - destruct n as [|n]; [inversion Hb; by subst|].
      apply nsteps_inv_r in Hb as (a & Ha & Hna & Hoa).
      assert (a = c) as -> by (apply Hdead; [by eapply walk_end|done..]).
      destruct (IH n ltac:(lia) c Ha Hc) as (k & Hk & Hw). exists k. split; [lia|done].
    - destruct (IH n ltac:(lia) b Hb Hbe) as (k & Hk & Hw). exists (S k). split; [lia|].
      eapply nsteps_r; [exact Hw|]. split; [done|]. by apply Hopen.
  Qed.
End Detour.

Lemma beside_end_cell sx sy (sym : list (list Sym)) x d q s :
  in_grid sx sy x → border (sy * 2 + 1) (sx * 2 + 1) (toward d (centre x)) = true →
  rect (sy * 2 + 1) (sx * 2 + 1) sym →
  (∀ a b, a ≤ sx → b ≤ sy → get_cell sym (2 * a, 2 * b) = Some SymWall) →
  beside (toward d (centre x)) q → get_cell sym q = Some s → s ≠ SymWall →
  q = centre x.
Proof.
  intros Hx Hb Hr Hpillar Hq Hs Hw.
  destruct (beside_border_opening sx sy x d q Hx Hb Hq) as [?|[(a & b & Ha & Hb' & ->)|Hout]].
  - done.
  - rewrite Hpillar in Hs by done. congruence.
  - exfalso. apply Hout. apply (get_cell_rect _ _ sym q Hr). eauto.
Qed.

Lemma distance_export_number (sym : list (list Sym)) dist start ds c d :
  dist = fill_distances sym ds →
  (∀ c, get_cell sym c = Some SymStart ↔ c = start) →
  (∀ c, is_Some (ds !! c) ↔ c = start ∨ get_cell sym c = Some SymPath) →
  get_cell dist c = Some (DNum d) → ds !! c = Some d.
Proof.
  intros -> HS Hkeys Hc.
  rewrite get_cell_fill_distances in Hc. unfold distance_cell in Hc.
  destruct (get_cell sym c) as [s|] eqn:Hsc; [|done]. simpl in Hc.
  destruct (ds !! c) as [d'|] eqn:Hd; [congruence|]. exfalso.
  assert (¬ is_Some (ds !! c)) as Hno by (rewrite Hd; by intros [? ?]).
  destruct s; simpl in Hc; try done.
  - apply Hno, Hkeys. by right.
  - apply Hno, Hkeys. left. by apply HS.
Qed.

(** X16. Every number of the distance export of a produced maze is the
    distance that the detailed export gives the same cell: the two searches
    agree on the start and on the paths, although the second one also walks
    onto the end. *)
Theorem distance_exports_agree m fuel1 fuel2 dist info c d :
  produced m →
  get_maze_with_distances fuel1 m = Exported dist →
  get_maze_detailed_info fuel2 m = Exported info →
  get_cell dist c = Some (DNum d) →
  distance <$> get_cell info c = Some (Some d).
Proof.
  intros Hm Hdist Hinfo Hc.
  destruct (list_export_exists m fuel2 info Hm Hinfo) as [sym Hex].
  destruct (produced_ok m Hm) as (_ & Hsx & Hsy & (Hwf & _) & _).
  destruct (get_maze_as_list_cells m sym Hsx Hsy Hwf Hex) as [Hrs _].
  destruct (distance_export_parts m fuel1 sym dist Hm Hex Hdist)
    as (start & ds1 & Hbfs1 & Hd1 & HS & Hkeys1).
  destruct (detailed_export_parts m fuel2 sym info Hm Hex Hinfo)
    as (start' & gi & ds2 & Hr & Hu & Hsame & HS2 & Hbfs2 & ->).
  assert (start' = start) as -> by (symmetry; apply HS2; by apply HS).
  pose proof (detailed_export_keys m sym gi start fuel2 ds2 Hm Hex Hr Hsame HS Hbfs2) as Hkeys2.
  pose proof (distance_export_number sym dist start ds1 c d Hd1 HS Hkeys1 Hc) as Hdc.
  destruct (list_export_ends m sym Hm Hex)
    as (e & x & He & Hx & Hdiff & _ & Hbx & HS' & HE & _).
  destruct (list_export_picture m sym Hm Hex) as (_ & Hpillar & _).
  assert (start = toward (outward_dir (sizeY m) e) (centre e)) as Hstart.
  { symmetry. apply HS. by apply HS'. }
  set (x_end := toward (outward_dir (sizeY m) x) (centre x)) in *.
  assert (in_grid (sizeX m) (sizeY m) x) as Hxin.
  { destruct (decide (in_grid (sizeX m) (sizeY m) x)) as [?|Hno]; [done|].
    unfold role in Hx. destruct (tile_at (mazeList m) x) eqn:Ht; [|done].
    exfalso. apply Hno. apply (tile_at_in_grid _ _ (mazeList m)); eauto. }
  assert (∀ q, exit_open gi q = true →
            get_cell sym q = Some SymPath ∨ get_cell sym q = Some SymEnd) as Hopen2.
  { intros q (i & Hq & Hi)%(exit_open_true _ _ _ _ Hr). rewrite <- (Hsame q), Hq. simpl.
    destruct Hi as [-> | ->]; auto. }
  assert (∀ a, a = start ∨ exit_open gi a = true →
            ∃ s, get_cell sym a = Some s ∧ s ≠ SymWall) as Hfloor.
  { intros a [->|[Ha|Ha]%Hopen2]; [exists SymStart|exists SymPath|exists SymEnd];
      (split; [|done]); [by apply HS|done..]. }
  assert (c = start ∨ get_cell sym c = Some SymPath) as Hcs by (apply Hkeys1; eauto).
  assert (c ≠ x_end) as Hce.
  { intros ->. destruct Hcs as [->|Hp]; [by rewrite <- Hstart in Hdiff|].
    assert (get_cell sym x_end = Some SymEnd) by (by apply HE). congruence. }
  destruct (proj2 (Hkeys2 c)) as [d2 Hd2].
  { destruct Hcs as [->|Hp]; [exists SymStart|exists SymPath]; (split; [|done]);
      [by apply HS|done]. }
  destruct (bfs_distances_shortest _ _ _ _ _ _ Hbfs1 Hdc) as (H0 & Hw1 & Hmin1).
  destruct (bfs_distances_shortest _ _ _ _ _ _ Hbfs2 Hd2) as (H02 & Hw2 & Hmin2).
  assert (Z.to_nat d2 ≤ Z.to_nat d) as Hle1.
  { apply Hmin2. clear -Hw1 Hrs Hr Hsame.
    induction Hw1 as [|n a b c' [Hn Ho] _ IH]; [constructor|].
    econstructor; [|exact IH]. split; [done|].
    apply (path_open_true _ _ _ _ Hrs) in Ho. apply (exit_open_true _ _ _ _ Hr).
    pose proof (Hsame b) as Hb. rewrite Ho in Hb.
    destruct (get_cell gi b) as [i|]; [|done]. injection Hb as Hb. eauto. }
  assert (Z.to_nat d ≤ Z.to_nat d2) as Hle2.
  { destruct (walk_without_detour (path_open sym) (exit_open gi) start x_end)
      with (n := Z.to_nat d2) (c := c) as (k & Hk & Hw); [| | |done|done|].
    - intros q Hq Hne. apply (path_open_true _ _ _ _ Hrs).
      destruct (Hopen2 q Hq) as [?|Hq']; [done|]. by apply HE in Hq'.
    - by rewrite Hstart.
    - intros a b Ha Hna Hnb Hob.
      destruct (Hfloor a Ha) as (sa & Hsa & Hwa). destruct (Hfloor b (or_intror Hob)) as (sb & Hsb & Hwb).
      rewrite (beside_end_cell (sizeX m) (sizeY m) sym x _ a sa Hxin Hbx Hrs Hpillar);
        [|by right|done|done].
      symmetry. by apply (beside_end_cell (sizeX m) (sizeY m) sym x _ b sb Hxin Hbx Hrs Hpillar);
        [left|..].
    - specialize (Hmin1 k Hw). lia. }
  assert (d2 = d) as -> by lia.
  unfold fill_info.
  rewrite (get_cell_imap (λ c_idx r_idx cell, mkInfo (index cell) _ _ _ _ _)).
  pose proof (Hsame c) as Hsc.
  destruct (get_cell gi c) as [i0|]; [|destruct Hcs as [->|Hp];
    [rewrite (proj2 (HS start) eq_refl) in Hsc|rewrite Hp in Hsc]; done].
  simpl. replace (c.1, c.2) with c by (by destruct c). by rewrite Hd2.
Qed.

Lemma distance_exports_agree_witness :
  ∃ info, distance <$> get_cell info (3, 2) = Some (Some 4%Z).
Proof.
  eexists.
  eapply (distance_exports_agree sample_formed 70 70 _ _ (3, 2) 4);
    [sample_is_produced|vm_compute; reflexivity..].
Defined.


(** ** The rendered picture *)

Lemma elem_of_tile_rects t s floor r col :
  (r, col) ∈ tile_rects t s floor ↔
  col = floor ∧
  (r = cell_rect s (display_of t) ∨
   ∃ d, d ∈ connectTo t ∧ r = cell_rect s (toward d (display_of t))).
Proof.
  assert (∀ d, cell_rect s (toward d (display_of t)) =
    let x := (((Z.of_nat (coordinateX t) + 1) * 2 - 1) * s)%Z in
    let y := (((Z.of_nat (coordinateY t) + 1) * 2 - 1) * s)%Z in
    match d with
    | North => (x, y - s, x + s - 1, y - 1)
    | South => (x, y + s, x + s - 1, y + s + s - 1)
    | West => (x - s, y, x - 1, y + s - 1)
    | East => (x + s, y, x + s + s - 1, y + s - 1)
    end%Z) as Hd.
  { intros d. unfold cell_rect, display_of. destruct d; cbn [toward fst snd];
      (f_equal; [f_equal; [f_equal|]|]);
      rewrite ?Nat2Z.inj_add, ?Nat2Z.inj_sub, ?Nat2Z.inj_mul by lia; lia. }
  assert (cell_rect s (display_of t) =
    let x := (((Z.of_nat (coordinateX t) + 1) * 2 - 1) * s)%Z in
    let y := (((Z.of_nat (coordinateY t) + 1) * 2 - 1) * s)%Z in
    (x, y, x + s - 1, y + s - 1)%Z) as Hc.
  { unfold cell_rect, display_of. cbn [fst snd]. (f_equal; [f_equal; [f_equal|]|]);
      rewrite ?Nat2Z.inj_sub, ?Nat2Z.inj_add, ?Nat2Z.inj_mul by lia; lia. }
  unfold tile_rects. cbv zeta in *. rewrite !elem_of_app, list_elem_of_singleton.
  rewrite Hc. split.
  - intros [[= -> ->]|H]; [split; [done|by left]|].
    destruct H as [H|[H|[H|H]]]; case_bool_decide as Hin;
      try (by apply elem_of_nil in H);
      apply list_elem_of_singleton in H; injection H as -> ->; (split; [done|right]).
    + exists North. by rewrite Hd.
    + exists South. by rewrite Hd.
    + exists West. by rewrite Hd.
    + exists East. by rewrite Hd.
  - intros [-> [->|(d & Hin & ->)]]; [by left|right]. rewrite Hd.
    destruct d.
    + left. rewrite bool_decide_eq_true_2 by done. by left.
    + right; left. rewrite bool_decide_eq_true_2 by done. by left.
    + right; right; left. rewrite bool_decide_eq_true_2 by done. by left.
    + right; right; right. rewrite bool_decide_eq_true_2 by done. by left.
Qed.

Lemma elem_of_makePP_rects sx sy ml s floor r col :
  wf_grid sx sy ml →
  (r, col) ∈ concat ((λ t, tile_rects t s floor) <$> concat ml) ↔
  col = floor ∧ ∃ c, opened sx sy ml c ∧ r = cell_rect s c.
Proof.
  intros Hwf. rewrite elem_of_concat_rows. split.
  - intros (l & (t & -> & Ht)%list_elem_of_fmap & Hin).
    apply elem_of_tile_rects in Hin as [-> Hr]. split; [done|].
    apply elem_of_concat_tile in Ht as (p & Ht).
    assert (in_grid sx sy p) as Hp by (apply (tile_at_in_grid sx sy ml); eauto).
    destruct (deref_in_grid _ _ _ _ Hwf Hp) as (Ht' & _).
    assert (t = deref ml p) as -> by congruence.
    rewrite (display_of_centre sx sy) in Hr by done.
    destruct Hr as [->|(d & Hd & ->)].
    + exists (centre p). split; [|done]. exists p. split; [done|by left].
    + exists (toward d (centre p)). split; [|done]. exists p. split; [done|right].
      exists d. split; [|done]. unfold conns. by rewrite Ht'.
  - intros [-> (c & (p & Hp & Hc) & ->)].
    destruct (deref_in_grid _ _ _ _ Hwf Hp) as (Ht & _).
    exists (tile_rects (deref ml p) s floor). split.
    + apply list_elem_of_fmap. exists (deref ml p). split; [done|].
      apply elem_of_concat_tile. eauto.
    + apply elem_of_tile_rects. split; [done|].
      rewrite (display_of_centre sx sy) by done.
      destruct Hc as [->|(d & Hd & ->)]; [by left|right]. exists d. split; [|done].
      unfold conns in Hd. by rewrite Ht in Hd.
Qed.

(** The cells of the list export of a produced maze that are no walls are
    those the tiles open. *)
Lemma list_export_opened m sym c :
  produced m → get_maze_as_list m = Exported sym →
  (∃ v, get_cell sym c = Some v ∧ v ≠ SymWall) ↔ opened (sizeX m) (sizeY m) (mazeList m) c.
Proof.
  intros Hm Hex. destruct (produced_ok m Hm) as (_ & Hsx & Hsy & (Hwf & _) & _).
  destruct (get_maze_as_list_cells m sym Hsx Hsy Hwf Hex) as [Hr _].
  split.
  - intros (v & Hv & Hw).
    assert (c.1 < sizeX m * 2 + 1 ∧ c.2 < sizeY m * 2 + 1) as [Hx Hy].
    { apply (get_cell_rect _ _ sym c Hr). eauto. }
    destruct (list_export_cell m sym c Hm Hex Hx Hy)
      as [[_ Hwall]|(p & Hp & [[-> _]|(d & Hd & -> & _)])]; [congruence|..].
    + exists p. split; [done|by left].
    + exists p. split; [done|right]. eauto.
  - intros (p & Hp & Hc).
    assert (c.1 < sizeX m * 2 + 1 ∧ c.2 < sizeY m * 2 + 1) as [Hx Hy].
    { destruct Hc as [->|(d & _ & ->)].
      - by destruct (toward_in_range _ _ p North Hp) as (_ & _ & ? & ?).
      - by destruct (toward_in_range _ _ p d Hp) as (? & ? & _). }
    destruct (list_export_cell m sym c Hm Hex Hx Hy)
      as [[Hnot _]|(p' & Hp' & [[_ Hv]|(d' & Hd' & _ & Hv)])].
    + exfalso. destruct (Hnot p Hp) as [Hn1 Hn2].
      destruct Hc as [->|(d & Hd & ->)]; [done|]. by apply (Hn2 d).
    + exists SymPath. done.
    + eexists. split; [exact Hv|]. unfold passage_value.
      destruct (role _ p') as [[|]|]; [| |done]; by case_decide.
Qed.

Lemma makePP_parts (getrgb : string → option PyVal) mode colorWall colorFloor
    pixelSizeOfTile m img :
  makePP getrgb mode colorWall colorFloor pixelSizeOfTile m = Exported img →
  ∃ s wall floor md,
    pixelSizeOfTile = VInt s ∧ (0 < s)%Z ∧ mode = VStr md ∧
    (md = "1" ∧ wall = colorWall ∧ floor = colorFloor ∨
     md = "RGB" ∧ rgb_color getrgb colorWall = inr wall ∧
     rgb_color getrgb colorFloor = inr floor) ∧
    img = mkImage md
      ((s * (Z.of_nat (sizeX m) * 2 + 1))%Z, (s * (Z.of_nat (sizeY m) * 2 + 1))%Z) wall
      (concat ((λ t, tile_rects t s floor) <$> concat (mazeList m))).
Proof.
  unfold makePP. destruct (negb _); [done|].
  assert (∀ (colors : exn + (string * PyVal * PyVal)) md cw cf,
    colors = inr (md, cw, cf) →
    mode = VStr md ∧
    (md = "1" ∧ cw = colorWall ∧ cf = colorFloor ∨
     md = "RGB" ∧ rgb_color getrgb colorWall = inr cw ∧ rgb_color getrgb colorFloor = inr cf) →
    match colors with
    | inl e => ExportError e
    | inr (md, cw, cf) =>
        match pixelSizeOfTile with
        | VInt s =>
            if (s <=? 0)%Z then ExportError (MazeError 1)
            else
              Exported (mkImage md
                ((s * (Z.of_nat (sizeX m) * 2 + 1))%Z, (s * (Z.of_nat (sizeY m) * 2 + 1))%Z)
                cw
                (concat ((λ t, tile_rects t s cf) <$> concat (mazeList m))))
        | _ => ExportError (MazeError 1)
        end
    end = Exported img →
    ∃ s wall floor md,
      pixelSizeOfTile = VInt s ∧ (0 < s)%Z ∧ mode = VStr md ∧
      (md = "1" ∧ wall = colorWall ∧ floor = colorFloor ∨
       md = "RGB" ∧ rgb_color getrgb colorWall = inr wall ∧
       rgb_color getrgb colorFloor = inr floor) ∧
      img = mkImage md
        ((s * (Z.of_nat (sizeX m) * 2 + 1))%Z, (s * (Z.of_nat (sizeY m) * 2 + 1))%Z) wall
        (concat ((λ t, tile_rects t s floor) <$> concat (mazeList m)))) as Hsize.
  { intros colors md cw cf -> [Hmode Hcol].
    destruct pixelSizeOfTile as [s| |]; [|done..].
    destruct (Z.leb_spec s 0); [done|]. intros [= <-]. exists s, cw, cf, md. done. }
  case_bool_decide as H1.
  - destruct (bit_color colorWall && bit_color colorFloor); [|done].
    apply (Hsize (inr ("1", colorWall, colorFloor)) "1" colorWall colorFloor eq_refl).
    split; [done|]. by left.
  - case_bool_decide as H2; [|done].
    destruct (rgb_color getrgb colorWall) as [e|cw] eqn:Hcw; [done|].
    destruct (rgb_color getrgb colorFloor) as [e|cf] eqn:Hcf; [done|].
    apply (Hsize (inr ("RGB", cw, cf)) "RGB" cw cf eq_refl).
    split; [done|]. by right.
Qed.

(** X17. The picture of a produced maze shows its list export. Its mode is
    the mode asked for; its background is the wall colour and its
    rectangles are all drawn in the floor colour, the colours being those
    given in mode ["1"] and what the colour test of mode ["RGB"] makes of
    them. It is [s] times as wide and as high as the grid of the list
    export, for the pixel size [s], and the rectangles are the squares of
    [s] by [s] pixels of the cells that are no wall in the list export,
    ['S'] and ['E'] included. *)
Theorem picture_shows_list_export (getrgb : string → option PyVal) mode colorWall colorFloor
    pixelSizeOfTile m img sym :
  produced m →
  makePP getrgb mode colorWall colorFloor pixelSizeOfTile m = Exported img →
  get_maze_as_list m = Exported sym →
  ∃ s wall floor,
    pixelSizeOfTile = VInt s ∧ (0 < s)%Z ∧
    mode = VStr (img_mode img) ∧
    (img_mode img = "1" ∧ wall = colorWall ∧ floor = colorFloor ∨
     img_mode img = "RGB" ∧ rgb_color getrgb colorWall = inr wall ∧
     rgb_color getrgb colorFloor = inr floor) ∧
    img_color img = wall ∧
    img_size img =
      ((s * Z.of_nat (sizeX m * 2 + 1))%Z, (s * Z.of_nat (sizeY m * 2 + 1))%Z) ∧
    ∀ r col, (r, col) ∈ img_rects img ↔
      col = floor ∧ ∃ c v, get_cell sym c = Some v ∧ v ≠ SymWall ∧ r = cell_rect s c.
Proof.
  intros Hm Himg Hex. destruct (produced_ok m Hm) as (_ & Hsx & Hsy & (Hwf & _) & _).
  destruct (makePP_parts _ _ _ _ _ _ _ Himg)
    as (s & wall & floor & md & -> & Hs & -> & Hcol & ->).
  exists s, wall, floor. do 2 (split; [done|]). simpl. do 3 (split; [done|]). split.
  { f_equal; f_equal; lia. }
  intros r col. rewrite (elem_of_makePP_rects (sizeX m) (sizeY m)) by done.
  split.
  - intros [-> (c & Hc & ->)]. split; [done|].
    apply (list_export_opened m sym c Hm Hex) in Hc as (v & Hv & Hw). eauto.
  - intros [-> (c & v & Hv & Hw & ->)]. split; [done|]. exists c. split; [|done].
    apply (list_export_opened m sym c Hm Hex). eauto.
Qed.

Lemma picture_shows_list_export_witness :
  ∃ img sym s wall floor,
    makePP (λ _, None) (VStr "1") (VInt 0) (VInt 1) (VInt 10) sample_formed = Exported img ∧
    get_maze_as_list sample_formed = Exported sym ∧
    VInt 10 = VInt s ∧ (0 < s)%Z ∧
    VStr "1" = VStr (img_mode img) ∧
    (img_mode img = "1" ∧ wall = VInt 0 ∧ floor = VInt 1 ∨
     img_mode img = "RGB" ∧ rgb_color (λ _, None) (VInt 0) = inr wall ∧
     rgb_color (λ _, None) (VInt 1) = inr floor) ∧
    img_color img = wall ∧
    img_size img =
      ((s * Z.of_nat (sizeX sample_formed * 2 + 1))%Z,
       (s * Z.of_nat (sizeY sample_formed * 2 + 1))%Z) ∧
    ∀ r col, (r, col) ∈ img_rects img ↔
      col = floor ∧ ∃ c v, get_cell sym c = Some v ∧ v ≠ SymWall ∧ r = cell_rect s c.
Proof.
  assert (∃ img, makePP (λ _, None) (VStr "1") (VInt 0) (VInt 1) (VInt 10) sample_formed
                 = Exported img) as [img Himg] by (eexists; vm_compute; reflexivity).
  assert (∃ sym, get_maze_as_list sample_formed = Exported sym) as [sym Hex]
    by (eexists; vm_compute; reflexivity).
  destruct (picture_shows_list_export (λ _, None) (VStr "1") (VInt 0) (VInt 1) (VInt 10)
              sample_formed img sym) as (s & wall & floor & H);
    [sample_is_produced|exact Himg|exact Hex|].
  exists img, sym, s, wall, floor. split; [exact Himg|]. split; [exact Hex|]. exact H.
Defined.


(** ** The entry point generate_maze *)

Lemma update_settings_keeps_key {V} (defaults : gmap string V) settings k :
  is_Some (defaults !! k) → is_Some (update_settings defaults settings !! k).
Proof.
  intros Hk. destruct settings as [s|]; [|done]. simpl.
  apply lookup_union_is_Some. by right.
Qed.

Lemma merged_weights settings :
  ∃ wh wl wb,
    growtree_args (update_settings default_algo_settings settings) = Some (wh, wl) ∧
    braid_arg (update_settings default_algo_settings settings) = Some wb.
Proof.
  destruct (update_settings_keeps_key default_algo_settings settings "weighHigh") as [wh Hwh];
    [by eexists|].
  destruct (update_settings_keeps_key default_algo_settings settings "weightLow") as [wl Hwl];
    [by eexists|].
  destruct (update_settings_keeps_key default_algo_settings settings "weightBraid") as [wb Hwb];
    [by eexists|].
  exists wh, wl, wb. unfold growtree_args, braid_arg. rewrite Hwh, Hwl. done.
Qed.

Lemma merged_image_settings settings :
  ∃ md cw cf ps,
    update_settings default_image_settings settings !! "mode" = Some md ∧
    update_settings default_image_settings settings !! "wall_color" = Some cw ∧
    update_settings default_image_settings settings !! "floor_color" = Some cf ∧
    update_settings default_image_settings settings !! "pixel_size" = Some ps.
Proof.
  destruct (update_settings_keeps_key default_image_settings settings "mode") as [md Hmd];
    [by eexists|].
  destruct (update_settings_keeps_key default_image_settings settings "wall_color") as [cw Hcw];
    [by eexists|].
  destruct (update_settings_keeps_key default_image_settings settings "floor_color") as [cf Hcf];
    [by eexists|].
  destruct (update_settings_keeps_key default_image_settings settings "pixel_size") as [ps Hps];
    [by eexists|].
  by exists md, cw, cf, ps.
Qed.

(** What the [if algorithm == ...] chain leaves for a fresh maze and one of
    its three names: a produced maze of the same size, name and walls, or
    the refusal of the braiding weight. *)
Lemma apply_algorithm_cases fuel algorithm settings sx sy nm sw ew g :
  1 ≤ sx → 1 ≤ sy → known_algorithm algorithm →
  match apply_algorithm fuel algorithm (update_settings default_algo_settings settings)
          (fresh_maze sx sy nm sw ew) g with
  | Returns b m g' => produced m ∧ m = mkMaze sx sy nm true (mazeList m) sw ew
  | Raises e m g' =>
      algorithm = "braided" ∧ e = MazeError 1 ∧
      ∃ wb, braid_arg (update_settings default_algo_settings settings) = Some wb ∧
            ¬ (-1 ≤ wb ≤ 100)%Z
  | OutOfFuel => True
  end.
Proof.
  intros Hsx Hsy Hknown.
  destruct (merged_weights settings) as (wh & wl & wb & Hgt & Hb).
  assert (∀ a, match formation a fuel (fresh_maze sx sy nm sw ew) g with
               | Returns b m g' => produced m ∧ m = mkMaze sx sy nm true (mazeList m) sw ew
               | Raises _ _ _ => False
               | OutOfFuel => True
               end) as Hform.
  { intros a. destruct (formation_no_raise a fuel sx sy nm sw ew g Hsx Hsy)
      as [->|(m & g' & Hrun)]; [done|]. rewrite Hrun. split.
    - eapply produced_formed; [exact Hsx|exact Hsy|exact Hrun].
    - by destruct (formation_parts _ _ _ _ _ _ _ _ _ _ _ Hsx Hsy Hrun) as (_ & ? & _). }
  unfold apply_algorithm. rewrite Hgt, Hb.
  destruct Hknown as [->|[->| ->]]; simpl.
  - pose proof (Hform Simple) as Hf. simpl in Hf.
    by destruct (makeMazeSimple fuel _ g).
  - pose proof (Hform (GrowTree wh wl)) as Hf. simpl in Hf.
    by destruct (makeMazeGrowTree fuel wh wl _ g).
  - pose proof (Hform (GrowTree wh wl)) as Hf. simpl in Hf.
    destruct (makeMazeGrowTree fuel wh wl _ g) as [b m g1| |]; [|done..].
    destruct Hf as [Hm Heq].
    destruct (decide (-1 ≤ wb ≤ 100)%Z) as [Hwb|Hwb].
    + destruct (makeMazeBraided_spec (λ _ _, True) wb m g1 (produced_ok m Hm) Hwb)
        as (m' & g' & Hrun & _ & _ & _ & _ & _); try done.
      { intros ml t g0 seen Hi Ht _ _.
        destruct (braid_deadend_step_ok _ _ ml t g0 Hi Ht) as (ml1 & g2 & -> & _). eauto. }
      rewrite Hrun. split; [by eapply produced_braided|].
      destruct (makeMazeBraided_trace wb m g1 true m' g' (produced_ok m Hm) Hrun)
        as (_ & Heq' & _).
      rewrite Heq'. rewrite Heq. done.
    + unfold makeMazeBraided. rewrite Heq. simpl.
      replace ((wb <? -1)%Z || (100 <? wb)%Z) with true
        by (symmetry; apply orb_true_iff; lia).
      do 2 (split; [done|]). eauto.
Qed.

(** On a produced maze no exporter raises. *)
Lemma exports_no_error m fuel :
  produced m →
  (∃ sym, get_maze_as_list m = Exported sym) ∧
  (∀ e, get_maze_detailed_info fuel m ≠ ExportError e) ∧
  (∀ e, get_maze_with_distances fuel m ≠ ExportError e).
Proof.
  intros Hm. destruct (produced_ok m Hm) as (Hdone & Hsx & Hsy & (Hwf & _) & _).
  destruct (exports_total m _ _ Hdone Hwf (produced_has_entry m Hm) (le_n _) (le_n _))
    as (sym & dist & info & Hex & Hdist & Hinfo).
  split; [eauto|]. revert Hdist Hinfo.
  unfold get_maze_detailed_info, get_maze_with_distances. rewrite Hdone. cbn [negb].
  destruct (mark_tiles _ _ None) as [[gs [start|]]|]; [|done..]. intros _.
  destruct (detail_tiles _ _ _ _ None) as [[gi found]|]; [|done].
  destruct (match found with Some s => Some s | None => scan_start gi end); [|done].
  intros _. split; intros e.
  - by destruct (bfs_info _ _ _ _ _).
  - by destruct (bfs_distances _ _ _ _ _).
Qed.

Lemma generate_maze_unfold (seed_stream : Z → Rng) (getrgb : string → option PyVal)
    fuel now g width height nm algorithm algorithm_settings mode
    image_settings seed sw ew :
  (1 ≤ width)%Z → (1 ≤ height)%Z →
  generate_maze seed_stream getrgb fuel now g width height nm algorithm algorithm_settings
    mode image_settings seed sw ew =
  match apply_algorithm fuel algorithm
          (update_settings default_algo_settings algorithm_settings)
          (fresh_maze (Z.to_nat width) (Z.to_nat height) nm sw ew)
          (seed_stream (match seed with Some n => n | None => now end)) with
  | Returns _ maze' g2 =>
      export_mode getrgb fuel mode (update_settings default_image_settings image_settings)
        maze' g2
  | Raises e _ g2 => GenRaises e g2
  | OutOfFuel => GenOutOfFuel
  end.
Proof.
  intros Hw Hh. unfold generate_maze, Maze_new, Maze_init.
  replace ((width <? 1)%Z || (height <? 1)%Z) with false
    by (symmetry; apply orb_false_iff; lia).
  done.
Qed.

(** X18. With a width and a height of at least one and an algorithm name
    other than ["simple"], ["growing_tree"] and ["braided"],
    [generate_maze] forms nothing and raises the error with code 4 in
    every mode, after the stream has been seeded. *)
Theorem generate_maze_unknown_algorithm (seed_stream : Z → Rng) (getrgb : string → option PyVal)
    fuel now g width height nm algorithm
    algorithm_settings mode image_settings seed sw ew :
  (1 ≤ width)%Z → (1 ≤ height)%Z → ¬ known_algorithm algorithm →
  generate_maze seed_stream getrgb fuel now g width height nm algorithm algorithm_settings
    mode image_settings seed sw ew =
  GenRaises (MazeError 4) (seed_stream (match seed with Some n => n | None => now end)).
Proof.
  intros Hw Hh Hun. rewrite generate_maze_unfold by done.
  unfold known_algorithm in Hun. unfold apply_algorithm.
  rewrite !bool_decide_eq_false_2 by tauto.
  destruct (merged_image_settings image_settings) as (md & cw & cf & ps & H1 & H2 & H3 & H4).
  unfold export_mode. rewrite H1, H2, H3, H4. by repeat case_bool_decide.
Qed.

(** X19. With a width and a height of at least one and one of the three
    algorithm names, whatever [generate_maze] returns is the export, in
    the mode asked for, of a produced maze of that width and height, with
    the given name and walls. *)
Theorem generate_maze_returns_export (seed_stream : Z → Rng) (getrgb : string → option PyVal)
    fuel now g width height nm algorithm algorithm_settings
    mode image_settings seed sw ew v g' :
  (1 ≤ width)%Z → (1 ≤ height)%Z → known_algorithm algorithm →
  generate_maze seed_stream getrgb fuel now g width height nm algorithm algorithm_settings
    mode image_settings seed sw ew = GenReturns v g' →
  ∃ m, produced m ∧
    sizeX m = Z.to_nat width ∧ sizeY m = Z.to_nat height ∧ name m = nm ∧
    start_wall m = sw ∧ end_wall m = ew ∧
    export_of getrgb fuel mode m v.
Proof.
  intros Hw Hh Hknown. rewrite generate_maze_unfold by done.
  pose proof (apply_algorithm_cases fuel algorithm algorithm_settings (Z.to_nat width)
                (Z.to_nat height) nm sw ew
                (seed_stream (match seed with Some n => n | None => now end))
                ltac:(lia) ltac:(lia) Hknown) as Hcases.
  destruct (apply_algorithm _ _ _ _ _) as [b m g2| |]; [|done..].
  destruct Hcases as [Hm Heq]. intros Hexp. exists m. split; [done|].
  rewrite Heq. simpl. do 5 (split; [done|]). rewrite <- Heq.
  unfold export_mode in Hexp. unfold export_of, grid_mode.
  repeat case_bool_decide.
  - destruct (get_maze_as_list m); by simplify_eq.
  - destruct (get_maze_detailed_info fuel m); by simplify_eq.
  - destruct (get_maze_with_distances fuel m); by simplify_eq.
  - destruct (_ !! "mode") as [md|]; [|done]. destruct (_ !! "wall_color") as [cw|]; [|done].
    destruct (_ !! "floor_color") as [cf|]; [|done].
    destruct (_ !! "pixel_size") as [ps|]; [|done].
    destruct (makePP getrgb md cw cf ps m) eqn:Himg; simplify_eq.
    split; [tauto|eauto].
Qed.

(** X20. With a width and a height of at least one, one of the three
    algorithm names and one of the modes ["list"], ["dict"] and
    ["distances"], [generate_maze] raises in one case only: the algorithm
    is ["braided"] and the braiding weight of the merged settings lies
    outside -1 .. 100, which gives the error with code 1. *)
Theorem generate_maze_grid_modes_raise_only_on_weight (seed_stream : Z → Rng) (getrgb : string → option PyVal)
    fuel now g width height nm algorithm
    algorithm_settings mode image_settings seed sw ew e g' :
  (1 ≤ width)%Z → (1 ≤ height)%Z → known_algorithm algorithm → grid_mode mode →
  generate_maze seed_stream getrgb fuel now g width height nm algorithm algorithm_settings
    mode image_settings seed sw ew = GenRaises e g' →
  algorithm = "braided" ∧ e = MazeError 1 ∧
  ∃ wb, update_settings default_algo_settings algorithm_settings !! "weightBraid" = Some wb ∧
        ¬ (-1 ≤ wb ≤ 100)%Z.
Proof.
  intros Hw Hh Hknown Hmode. rewrite generate_maze_unfold by done.
  pose proof (apply_algorithm_cases fuel algorithm algorithm_settings (Z.to_nat width)
                (Z.to_nat height) nm sw ew
                (seed_stream (match seed with Some n => n | None => now end))
                ltac:(lia) ltac:(lia) Hknown) as Hcases.
  destruct (apply_algorithm _ _ _ _ _) as [b m g2|e' m g2|]; [| |done].
  - destruct Hcases as [Hm _]. intros Hexp. exfalso.
    destruct (exports_no_error m fuel Hm) as ([sym Hex] & Hinfo & Hdist).
    unfold export_mode in Hexp. destruct Hmode as [->|[->| ->]]; simpl in Hexp.
    + by rewrite Hex in Hexp.
    + destruct (get_maze_detailed_info fuel m) eqn:Hi; [done| |done]. by eapply Hinfo.
    + destruct (get_maze_with_distances fuel m) eqn:Hd; [done| |done]. by eapply Hdist.
  - intros [= -> ->]. done.
Qed.

Lemma generate_maze_unknown_algorithm_witness :
  generate_maze (λ _, sample_tape) (λ _, None) 60 0 sample_tape 3 2 "sample" "prim" None
    "image" None (Some 7%Z) WallAny WallAny =
  GenRaises (MazeError 4) sample_tape.
Proof.
  apply (generate_maze_unknown_algorithm (λ _, sample_tape) (λ _, None) 60 0 sample_tape 3 2
           "sample" "prim" None "image" None (Some 7%Z) WallAny WallAny); [lia|lia|].
  vm_compute. intros [H|[H|H]]; discriminate H.
Defined.

Lemma generate_maze_returns_export_witness :
  ∃ v m, produced m ∧
    sizeX m = Z.to_nat 3 ∧ sizeY m = Z.to_nat 2 ∧ name m = "sample" ∧
    start_wall m = WallAny ∧ end_wall m = WallAny ∧
    export_of (λ _, None) 60 "dict" m v.
Proof.
  eexists.
  eapply (generate_maze_returns_export (λ _, sample_tape) (λ _, None) 60 0 sample_tape 3 2
            "sample" "braided" None "dict" None (Some 7%Z) WallAny WallAny);
    [lia|lia|right; right; reflexivity|vm_compute; reflexivity].
Defined.

Lemma generate_maze_grid_modes_raise_only_on_weight_witness :
  "braided" = "braided" ∧ MazeError 1 = MazeError 1 ∧
  ∃ wb, update_settings default_algo_settings (Some {[ "weightBraid" := 200%Z ]})
          !! "weightBraid" = Some wb ∧
        ¬ (-1 ≤ wb ≤ 100)%Z.
Proof.
  eapply (generate_maze_grid_modes_raise_only_on_weight (λ _, sample_tape) (λ _, None) 60 0
            sample_tape 3 2 "sample" "braided" (Some {[ "weightBraid" := 200%Z ]}) "list" None
            (Some 7%Z) WallAny WallAny);
    [lia|lia|right; right; reflexivity|left; reflexivity|vm_compute; reflexivity].
Defined.


(** ** Connecting by direction, and one-bit pictures *)

Lemma linked_up_lists ml ml' a d b :
  a ≠ b → linked_up ml ml' a d b → is_Some (tile_at ml a) → is_Some (tile_at ml b) →
  conns ml' a = conns ml a ++ [d] ∧ conns ml' b = conns ml b ++ [opposite d] ∧
  ∀ q, q ≠ a → q ≠ b → tile_at ml' q = tile_at ml q.
Proof.
  intros Hne Hl [ta Ha] [tb Hb]. unfold conns. split; [|split].
  - rewrite (Hl a), decide_True by done. by rewrite Ha.
  - rewrite (Hl b), decide_False, decide_True by done. by rewrite Hb.
  - intros q Hqa Hqb. by rewrite (Hl q), !decide_False by done.
Qed.

(** X21. On a grid in shape [__connectTilesWithString] raises the error
    with code 2 when the direction leaves the grid from the tile, the top
    row and the left column included, where an index of -1 would reach the
    other side; otherwise it adds the direction at the end of the list of
    the tile and the opposite one at the end of the list of the neighbour,
    and changes no other tile. *)
Theorem connect_with_string_in_or_out sx sy ml a d :
  wf_grid sx sy ml → in_grid sx sy a →
  (outward sx sy a d → connectTilesWithString ml a d = inl (MazeError 2)) ∧
  (∀ b, step_to sx sy d a = Some b →
     ∃ ml', connectTilesWithString ml a d = inr ml' ∧ wf_grid sx sy ml' ∧
       conns ml' a = conns ml a ++ [d] ∧ conns ml' b = conns ml b ++ [opposite d] ∧
       ∀ q, q ≠ a → q ≠ b → tile_at ml' q = tile_at ml q).
Proof.
  intros Hwf Ha. pose proof (connectTilesWithString_spec sx sy ml a d Hwf Ha) as Hspec.
  split.
  - unfold outward. intros Ho. by rewrite Ho in Hspec.
  - intros b Hb. rewrite Hb in Hspec. destruct Hspec as (ml' & Hrun & Hwf' & Hl).
    exists ml'. do 2 (split; [done|]).
    apply linked_up_lists; [by eapply step_to_ne|done|..].
    + destruct (deref_in_grid _ _ _ _ Hwf Ha) as (-> & _). eauto.
    + destruct (deref_in_grid _ _ _ _ Hwf (step_to_in_grid _ _ _ _ _ Hb)) as (-> & _). eauto.
Qed.

Lemma connect_with_string_in_or_out_witness :
  (outward 3 2 (2, 0) North →
   connectTilesWithString (mazeList sample_formed) (2, 0) North = inl (MazeError 2)) ∧
  (∀ b, step_to 3 2 North (2, 0) = Some b →
     ∃ ml', connectTilesWithString (mazeList sample_formed) (2, 0) North = inr ml' ∧
       wf_grid 3 2 ml' ∧
       conns ml' (2, 0) = conns (mazeList sample_formed) (2, 0) ++ [North] ∧
       conns ml' b = conns (mazeList sample_formed) b ++ [opposite North] ∧
       ∀ q, q ≠ (2, 0) → q ≠ b → tile_at ml' q = tile_at (mazeList sample_formed) q).
Proof.
  apply (connect_with_string_in_or_out 3 2 (mazeList sample_formed) (2, 0) North).
  - assert (produced sample_formed) as Hm by sample_is_produced.
    by destruct (produced_ok _ Hm) as (_ & _ & _ & (Hwf & _) & _).
  - split; simpl; lia.
Defined.

(** X22. When the image settings ask for the mode ["1"] and leave the
    wall colour or the floor colour at its default, [generate_maze] in
    the image mode returns no picture: once the maze is formed [makePP]
    refuses the default colour names with the error with code 1. *)
Theorem generate_maze_bit_image_needs_colours (seed_stream : Z → Rng)
    (getrgb : string → option PyVal) fuel now g width height nm algorithm
    algorithm_settings mode settings seed sw ew :
  (1 ≤ width)%Z → (1 ≤ height)%Z → known_algorithm algorithm → ¬ grid_mode mode →
  settings !! "mode" = Some (VStr "1") →
  settings !! "wall_color" = None ∨ settings !! "floor_color" = None →
  match generate_maze seed_stream getrgb fuel now g width height nm algorithm
          algorithm_settings mode (Some settings) seed sw ew with
  | GenReturns _ _ => False
  | GenRaises e _ => e = MazeError 1
  | GenOutOfFuel => True
  end.
Proof.
  intros Hw Hh Hknown Hmode Hbit Hcol. rewrite generate_maze_unfold by done.
  pose proof (apply_algorithm_cases fuel algorithm algorithm_settings (Z.to_nat width)
                (Z.to_nat height) nm sw ew
                (seed_stream (match seed with Some n => n | None => now end))
                ltac:(lia) ltac:(lia) Hknown) as Hcases.
  destruct (apply_algorithm _ _ _ _ _) as [b m g2|e m g2|]; [| |done].
  - destruct Hcases as [Hm _]. destruct (produced_ok m Hm) as (Hdone & _).
    destruct (merged_image_settings (Some settings)) as (md & cw & cf & ps & H1 & H2 & H3 & H4).
    unfold export_mode. unfold grid_mode in Hmode.
    rewrite !bool_decide_eq_false_2 by tauto. rewrite H1, H2, H3, H4.
    assert (md = VStr "1") as ->.
    { simpl in H1. rewrite (lookup_union_Some_l _ _ _ _ Hbit) in H1. congruence. }
    assert (bit_color cw && bit_color cf = false) as Hbc.
    { simpl in H2, H3. destruct Hcol as [Hc|Hc].
      - rewrite (lookup_union_r _ _ _ Hc) in H2. vm_compute in H2. by injection H2 as <-.
      - rewrite (lookup_union_r _ _ _ Hc) in H3. vm_compute in H3. injection H3 as <-.
        apply andb_false_r. }
    unfold makePP. rewrite Hdone. cbn [negb].
    rewrite bool_decide_eq_true_2 by done. by rewrite Hbc.
  - by destruct Hcases as (_ & -> & _).
Qed.

Lemma generate_maze_bit_image_needs_colours_witness :
  match generate_maze (λ _, sample_tape) (λ _, None) 60 0 sample_tape 3 2 "sample" "simple"
          None "image" (Some {[ "mode" := VStr "1" ]}) (Some 7%Z) WallAny WallAny with
  | GenReturns _ _ => False
  | GenRaises e _ => e = MazeError 1
  | GenOutOfFuel => True
  end.
Proof.
  apply (generate_maze_bit_image_needs_colours (λ _, sample_tape) (λ _, None) 60 0 sample_tape
           3 2 "sample" "simple" None "image" {[ "mode" := VStr "1" ]} (Some 7%Z) WallAny WallAny);
    [lia|lia|left; reflexivity| |vm_compute; reflexivity|left; vm_compute; reflexivity].
  vm_compute. intros [H|[H|H]]; discriminate H.
Defined.

